(** * Metadata-filtered power-of-two-choice hash table (p2_hashing_metadata.cuh)

    A shallow embedding of [hashing_project::tables::p2_metadata_table] and of
    the two bucket structs it is built from, [metadata_bucket] (the 16-bit tag
    array) and [p2_md_bucket] (the key/value slots), instantiated as
    [md_p2_generic<uint64_t, uint64_t, tile_size, bucket_size>].

    Conventions of the embedding.
    - [uint64_t], [uint32_t] and [uint16_t] values are [Z] with the wrap-around
      written out ([wrap64], [wrap32], [cast_u16]).
    - Device memory is the record [p2_metadata_table]; every device function is
      a function in the state-and-failure monad [M], where failure ([None])
      stands for an access outside an array or for a loop that ran out of
      fuel (in a run without other worker groups a spinning loop never ends).
    - A cooperative-groups tile is emulated lane by lane in lockstep: a
      [for (i = rank; i < bound; i += size)] loop is a list of rounds, the
      result of [ballot(p)] is the ascending list of the lanes that vote
      true, [__ffs(ballot) - 1] is its head and [ballot ^= 1 << leader] its
      tail.  An [int] result that is an index or [-1] is an [option nat].
      A ballot or a shuffle inside a loop is held among the lanes that are
      inside the loop in that round; where lanes can leave a function with
      different results, the function returns one result per lane.
    - The probe-count macros ([ADD_PROBE] and friends) write to a counter
      outside the table and are left out. *)

From Stdlib Require Import ZArith List Lia Bool Sorted.
From stdpp Require Import base numbers list.

Local Open Scope Z_scope.

(** ** Machine integers *)

Definition wrap64 (z : Z) : Z := z mod 2 ^ 64.
Definition wrap32 (z : Z) : Z := z mod 2 ^ 32.
Definition cast_u16 (z : Z) : Z := z mod 2 ^ 16.

(** [SET_BIT_MASK(index)] is [1ULL << index]. *)
Definition SET_BIT_MASK (index : nat) : Z := wrap64 (Z.shiftl 1 (Z.of_nat index)).

(** [__popc] and [__popcll] on a value of at most 64 bits. *)
Fixpoint count_bits (n : nat) (x : Z) : nat :=
  match n with
  | O => O
  | S n' => ((if Z.testbit x (Z.of_nat n') then 1 else 0) + count_bits n' x)%nat
  end.

Definition popc (x : Z) : Z := Z.of_nat (count_bits 64 x).

(** ** Sentinels of [md_p2_generic] *)

Definition generate_p2_md_sentinel : Z := 0.
Definition generate_p2_md_tombstone (offset : Z) : Z := wrap64 (Z.ones 64 - offset).

Definition defaultKey : Z := generate_p2_md_sentinel.
Definition tombstoneKey : Z := generate_p2_md_tombstone 0.
Definition holdingKey : Z := tombstoneKey - 1.
Definition defaultVal : Z := generate_p2_md_sentinel.
Definition tombstoneVal : Z := generate_p2_md_tombstone 0.

(** A key that may be stored: none of the three reserved keys. *)
Definition live_key (k : Z) : Prop :=
  k ≠ defaultKey ∧ k ≠ tombstoneKey ∧ k ≠ holdingKey.

Definition live_keyb (k : Z) : bool :=
  negb (k =? defaultKey) && negb (k =? tombstoneKey) && negb (k =? holdingKey).

(** A key the table tells from a free slot: neither [defaultKey] nor
    [tombstoneKey], the two keys the template is instantiated with. *)
Definition user_key (k : Z) : Prop := k ≠ defaultKey ∧ k ≠ tombstoneKey.

Definition user_keyb (k : Z) : bool :=
  negb (k =? defaultKey) && negb (k =? tombstoneKey).

(** ** Tags ([metadata_bucket::get_tag]) *)

Definition get_empty_tag (emptyKey : Z) : Z := cast_u16 emptyKey.
Definition get_tombstone_tag (tombKey : Z) : Z := cast_u16 tombKey.

(** The [while] loop of [get_tag]: [fuel] bounds the number of steps. *)
Fixpoint get_tag_loop (fuel : nat) (emptyKey tombKey key : Z) : option Z :=
  let key_tag := cast_u16 key in
  if (key_tag =? get_empty_tag emptyKey) || (key_tag =? get_tombstone_tag tombKey)
  then match fuel with
       | O => None
       | S fuel' => get_tag_loop fuel' emptyKey tombKey (wrap64 (key + 1))
       end
  else Some key_tag.

(** Two steps always suffice ([get_tag_loop_terminates]). *)
Definition get_tag_gen (emptyKey tombKey key : Z) : Z :=
  default 0 (get_tag_loop 2 emptyKey tombKey key).

Definition empty_tag : Z := get_empty_tag defaultKey.
Definition tombstone_tag : Z := get_tombstone_tag tombstoneKey.
Definition get_tag (key : Z) : Z := get_tag_gen defaultKey tombstoneKey key.

(** ** Hash function ([p2_metadata_table::hash], MurmurHash64A)

    The table always calls [hash(&key, sizeof(Key), seed)] with an 8-byte
    key: the block loop runs once on the key itself and the tail [switch]
    on [len & 7 = 0] does nothing. *)

Definition murmur_m : Z := 0xc6a4a7935bd1e995.
Definition murmur_r : Z := 47.

Definition hash (key len seed : Z) : Z :=
  let h := Z.lxor seed (wrap64 (len * murmur_m)) in
  let k := key in
  let k := wrap64 (k * murmur_m) in
  let k := Z.lxor k (Z.shiftr k murmur_r) in
  let k := wrap64 (k * murmur_m) in
  let h := Z.lxor h k in
  let h := wrap64 (h * murmur_m) in
  let h := Z.lxor h (Z.shiftr h murmur_r) in
  let h := wrap64 (h * murmur_m) in
  let h := Z.lxor h (Z.shiftr h murmur_r) in
  h.

Definition BITMASK (nbits : Z) : Z :=
  if nbits =? 64 then 0xffffffffffffffff else Z.shiftl 1 nbits - 1.

(** ** Device memory *)

(** [ht_pair<Key, Val>]. *)
Record ht_pair := mk_pair { key : Z; val : Z }.

(** [p2_metadata_table]: [metadata] holds one [metadata_bucket] (a tag array)
    per bucket, [buckets] one [p2_md_bucket] (a slot array) per bucket and
    [locks] the lock bits packed in 64-bit words. *)
Record p2_metadata_table := mk_table {
  metadata : list (list Z);
  buckets : list (list ht_pair);
  locks : list Z;
  n_buckets : Z;
  seed : Z
}.

(** Reading and overwriting one tag or one slot. *)
Definition with_metadata (f : list (list Z) → list (list Z)) (t : p2_metadata_table) :=
  mk_table (f (metadata t)) (buckets t) (locks t) (n_buckets t) (seed t).
Definition with_buckets (f : list (list ht_pair) → list (list ht_pair)) (t : p2_metadata_table) :=
  mk_table (metadata t) (f (buckets t)) (locks t) (n_buckets t) (seed t).
Definition with_locks (f : list Z → list Z) (t : p2_metadata_table) :=
  mk_table (metadata t) (buckets t) (f (locks t)) (n_buckets t) (seed t).

(** ** The monad of device code *)

Definition M (A : Type) : Type := p2_metadata_table → option (A * p2_metadata_table).

Definition ret {A} (a : A) : M A := fun t => Some (a, t).
Definition bind {A B} (m : M A) (f : A → M B) : M B :=
  fun t => match m t with
           | Some (a, t') => f a t'
           | None => None
           end.
Definition fail {A} : M A := fun _ => None.

Declare Scope dev_scope.
Delimit Scope dev_scope with dev.
Notation "x <- m ;; k" := (bind m (fun x => k))
  (at level 100, m at next level, right associativity) : dev_scope.
Notation "m ;;; k" := (bind m (fun _ => k))
  (at level 100, right associativity) : dev_scope.
Local Open Scope dev_scope.

(** A loop whose body may [return]: the first [Some] ends it. *)
Fixpoint first_some {A R} (xs : list A) (body : A → M (option R)) : M (option R) :=
  match xs with
  | [] => ret None
  | x :: xs' =>
      r <- body x ;;
      match r with
      | Some y => ret (Some y)
      | None => first_some xs' body
      end
  end.

(** Every lane of a list evaluates [body]; the results come back in lane order. *)
Fixpoint for_lanes {A R} (xs : list A) (body : A → M R) : M (list R) :=
  match xs with
  | [] => ret []
  | x :: xs' => r <- body x ;; rs <- for_lanes xs' body ;; ret (r :: rs)
  end.

(** [ballot(p)]: the lanes of [xs] whose vote is [true], ascending. *)
Definition ballot (votes : list (nat * bool)) : list nat :=
  map fst (List.filter snd votes).

(** ** Memory accesses

    Modelled from the spec: the access helpers of [ht_load.cuh],
    [ht_pairs.cuh] and [gallatin::utils] are not part of the sources at
    hand.  A load returns the cell, a store overwrites it, and
    [typed_atomic_write(p, expected, desired)] is a compare-and-swap that
    tells whether it swapped.  An index outside the array fails. *)

Definition tag_at (t : p2_metadata_table) (b i : nat) : option Z :=
  match metadata t !! b with Some md => md !! i | None => None end.

Definition pair_at (t : p2_metadata_table) (b i : nat) : option ht_pair :=
  match buckets t !! b with Some sl => sl !! i | None => None end.

Definition set_tag (b i : nat) (tag : Z) (t : p2_metadata_table) : p2_metadata_table :=
  with_metadata (alter (fun md => <[i := tag]> md) b) t.

Definition set_pair (b i : nat) (p : ht_pair) (t : p2_metadata_table) : p2_metadata_table :=
  with_buckets (alter (fun sl => <[i := p]> sl) b) t.

Definition hash_table_load_tag (b i : nat) : M Z := fun t =>
  match tag_at t b i with Some tag => Some (tag, t) | None => None end.

Definition store_tag (b i : nat) (tag : Z) : M unit := fun t =>
  match tag_at t b i with Some _ => Some (tt, set_tag b i tag t) | None => None end.

Definition typed_atomic_write_tag (b i : nat) (expected desired : Z) : M bool :=
  cur <- hash_table_load_tag b i ;;
  if cur =? expected then (store_tag b i desired ;;; ret true) else ret false.

Definition ht_load_packed_pair (b i : nat) : M ht_pair := fun t =>
  match pair_at t b i with Some p => Some (p, t) | None => None end.

Definition ht_store_packed_pair (b i : nat) (p : ht_pair) : M unit := fun t =>
  match pair_at t b i with Some _ => Some (tt, set_pair b i p t) | None => None end.

Definition hash_table_load_key (b i : nat) : M Z :=
  p <- ht_load_packed_pair b i ;; ret (key p).

(** [ht_store(&slots[i].val, v)] and a store to [slots[i].key]. *)
Definition ht_store_val (b i : nat) (v : Z) : M unit :=
  p <- ht_load_packed_pair b i ;; ht_store_packed_pair b i (mk_pair (key p) v).

Definition ht_store_key (b i : nat) (k : Z) : M unit :=
  p <- ht_load_packed_pair b i ;; ht_store_packed_pair b i (mk_pair k (val p)).

Definition typed_atomic_write_key (b i : nat) (expected desired : Z) : M bool :=
  cur <- hash_table_load_key b i ;;
  if cur =? expected then (ht_store_key b i desired ;;; ret true) else ret false.

(** [atomicOr] and [atomicAnd] on a lock word: both return the old word. *)
Definition atomicOr_lock (w : nat) (mask : Z) : M Z := fun t =>
  match locks t !! w with
  | Some old => Some (old, with_locks (fun l => <[w := Z.lor old mask]> l) t)
  | None => None
  end.

Definition atomicAnd_lock (w : nat) (mask : Z) : M Z := fun t =>
  match locks t !! w with
  | Some old => Some (old, with_locks (fun l => <[w := Z.land old mask]> l) t)
  | None => None
  end.

(** [load_multi_tags(&metadata[start])]: one 16-byte load of eight tags. *)
Definition load_multi_tags (b start : nat) : M (list Z) :=
  for_lanes (seq start 8) (fun i => hash_table_load_tag b i).

(** A [for] loop that threads an accumulator. *)
Fixpoint fold_m {A S} (xs : list A) (body : S → A → M S) (s : S) : M S :=
  match xs with
  | [] => ret s
  | x :: xs' => s' <- body s x ;; fold_m xs' body s'
  end.

(** The truth value of [mask & SET_BIT_MASK(i)]. *)
Definition mask_bit (mask : Z) (i : nat) : bool :=
  negb (Z.land mask (SET_BIT_MASK i) =? 0).

(** The first vote of a ballot that carries a value: the leader's. *)
Fixpoint leader_val {R} (votes : list (option R)) : option R :=
  match votes with
  | [] => None
  | Some r :: _ => Some r
  | None :: votes' => leader_val votes'
  end.

Section Tile.

(** [partition_size] lanes work on buckets of [bucket_size] slots. *)
Variable partition_size bucket_size : nat.

Definition n_traversals : nat :=
  ((bucket_size - 1) / partition_size + 1) * partition_size.

(** The rounds of [for (i = rank; i < bound; i += size)], as the values of
    [i - rank], and the lanes that are still inside the loop in a round. *)
Definition rounds (bound : nat) : list nat :=
  map (fun r => r * partition_size)%nat
      (seq 0 ((bound + partition_size - 1) / partition_size)).

Definition lanes_in (offset bound : nat) : list nat :=
  List.filter (fun lane => (offset + lane <? bound)%nat) (seq 0 partition_size).

(** *** [p2_md_bucket] *)

(** [upsert_existing]: the lanes whose slot is in [upsert_mapping] vote; each
    leader in turn compares its key and, on a match, stores the value. *)
Definition upsert_existing (b : nat) (ext_key ext_val upsert_mapping : Z) : M (option nat) :=
  first_some (rounds n_traversals) (fun offset =>
    let ballot_result :=
      ballot (map (fun lane =>
                     let i := (offset + lane)%nat in
                     (lane, (i <? bucket_size)%nat && mask_bit upsert_mapping i))
                  (lanes_in offset n_traversals)) in
    first_some ballot_result (fun leader =>
      let i := (offset + leader)%nat in
      loaded_key <- hash_table_load_key b i ;;
      if loaded_key =? ext_key
      then (ht_store_val b i ext_val ;;; ret (Some leader))
      else ret None)).

(** [erase_reference]: the lanes whose slot is in [match_ballot] load their
    key; each lane that found [ext_key] in turn tries to swap in the
    tombstone key. *)
Definition erase_reference (b : nat) (ext_key match_ballot : Z) : M (option nat) :=
  first_some (rounds n_traversals) (fun offset =>
    votes <- for_lanes (lanes_in offset n_traversals) (fun lane =>
               let i := (offset + lane)%nat in
               let valid_load_check := (i <? bucket_size)%nat && mask_bit match_ballot i in
               if valid_load_check
               then (loaded_key <- hash_table_load_key b i ;; ret (lane, loaded_key =? ext_key))
               else ret (lane, false)) ;;
    first_some (ballot votes) (fun leader =>
      let i := (offset + leader)%nat in
      swapped <- typed_atomic_write_key b i ext_key tombstoneKey ;;
      ret (if swapped then Some i else None))).

(** *** [metadata_bucket] *)

Definition set_tombstone (b index : nat) : M unit :=
  store_tag b index tombstone_tag.

(** [match_empty] and [match_tombstone] differ in the tag they replace. *)
Definition match_free (free_tag : Z) (b : nat) (upsert_key free_match : Z) : M (option nat) :=
  first_some (rounds n_traversals) (fun offset =>
    let ballot_result :=
      ballot (map (fun lane =>
                     let i := (offset + lane)%nat in
                     (lane, (i <? bucket_size)%nat && mask_bit free_match i))
                  (lanes_in offset n_traversals)) in
    first_some ballot_result (fun leader =>
      let i := (offset + leader)%nat in
      swapped <- typed_atomic_write_tag b i free_tag (get_tag upsert_key) ;;
      ret (if swapped then Some i else None))).

Definition match_empty : nat → Z → Z → M (option nat) := match_free empty_tag.
Definition match_tombstone : nat → Z → Z → M (option nat) := match_free tombstone_tag.

(** The bound of the loops that read eight tags at a time, and their guard
    [i < (bucket_size-1/8)+1], in which [1/8] is the integer [0]. *)
Definition n_loads : nat := ((n_traversals - 1) / 8 + 1)%nat.
Definition valid_to_load (i : nat) : bool := (i <? bucket_size - 1 / 8 + 1)%nat.

(** The [j] loop of [load_fill_ballots_huge]:
    [local |= (loaded_tag == tag) * set_index] with a 32-bit [set_index]. *)
Definition local_bits (tags : list Z) (i : nat) (tag : Z) (local : Z) : Z :=
  fold_left (fun acc j =>
               Z.lor acc (Z.b2z (default 0 (tags !! j) =? tag)
                          * wrap32 (SET_BIT_MASK (i * 8 + j))))
            (seq 0 8) local.

(** What one lane accumulates in its own three masks. *)
Definition lane_fill (b : nat) (key_tag : Z) (rank : nat) : M (Z * Z * Z) :=
  fold_m (List.filter (fun i => (i <? n_loads)%nat)
                      (map (fun offset => (offset + rank)%nat) (rounds n_loads)))
         (fun '(e, ts, m) i =>
            if valid_to_load i
            then (tags <- load_multi_tags b (i * 8) ;;
                  ret (Z.lor e (local_bits tags i empty_tag 0),
                       Z.lor ts (local_bits tags i tombstone_tag 0),
                       Z.lor m (local_bits tags i key_tag 0)))
            else ret (e, ts, m))
         (0, 0, 0).

(** [cg::reduce(my_tile, x, cg::plus<uint32_t>())]. *)
Definition reduce_plus (xs : list Z) : Z := wrap32 (fold_right Z.add 0 xs).

(** [load_fill_ballots_huge]: every lane fills its masks, then each mask is
    or-ed with the sum over the tile.  The masks returned are lane 0's. *)
Definition load_fill_ballots_huge (b : nat) (upsert_key : Z) : M (Z * Z * Z) :=
  let key_tag := get_tag upsert_key in
  locals <- for_lanes (seq 0 partition_size) (lane_fill b key_tag) ;;
  match locals with
  | (e, ts, m) :: _ =>
      ret (Z.lor e (reduce_plus (map (fun x => x.1.1) locals)),
           Z.lor ts (reduce_plus (map (fun x => x.1.2) locals)),
           Z.lor m (reduce_plus (map (fun x => x.2) locals)))
  | [] => fail
  end.

(** The lanes of [callers] that are inside a loop
    [for (i = rank; i < bound; i += size)] in the round at [offset]. *)
Definition callers_in (callers : list nat) (offset bound : nat) : list nat :=
  List.filter (fun lane => (offset + lane <? bound)%nat) callers.

(** What lane [lane] returns from such a loop when the lanes inside it left
    it in the round at [offset] with [v] ([hit = Some (offset, v)]), or when
    no round left it: a lane that is past the bound in that round has left
    the loop before and returns nothing. *)
Definition lane_reply {R} (bound : nat) (hit : option (nat * R)) (lane : nat) : option R :=
  match hit with
  | Some (offset, v) => if (offset + lane <? bound)%nat then Some v else None
  | None => None
  end.

(** The reply of [lane] among the replies of the lanes that called. *)
Definition reply_of {R} (lane : nat) (replies : list (nat * option R)) : option R :=
  match List.find (fun r => Nat.eqb r.1 lane) replies with
  | Some r => r.2
  | None => None
  end.

(** [query_md_and_bucket_large], called by the lanes [callers]: in a round
    each lane inside the loop loads eight tags; for [j = 0..7] the lanes
    whose tag [j] equals the key's tag load the full pair and vote; the
    value of the lowest voting lane is shuffled to the lanes inside the loop,
    which return true.  The result is the reply of each caller: the value,
    or nothing ([return false]). *)
Definition query_md_and_bucket_large (callers : list nat) (b : nat) (upsert_key : Z)
  : M (list (nat * option Z)) :=
  let key_tag := get_tag upsert_key in
  hit <- first_some (rounds n_loads) (fun offset =>
    loaded <- for_lanes (callers_in callers offset n_loads) (fun lane =>
                let i := (offset + lane)%nat in
                if valid_to_load i
                then (tags <- load_multi_tags b (i * 8) ;; ret (i, Some tags))
                else ret (i, None)) ;;
    first_some (seq 0 8) (fun j =>
      votes <- for_lanes loaded (fun '(i, tags) =>
                 match tags with
                 | Some tags =>
                     if default 0 (tags !! j) =? key_tag
                     then (loaded_pair <- ht_load_packed_pair b (i * 8 + j) ;;
                           ret (if key loaded_pair =? upsert_key
                                then Some (val loaded_pair) else None))
                     else ret None
                 | None => ret None
                 end) ;;
      ret (match leader_val votes with
           | Some v => Some (offset, v)
           | None => None
           end))) ;;
  ret (map (fun lane => (lane, lane_reply n_loads hit lane)) callers).

(** *** [p2_metadata_table] *)

(** [bucket_0_size < bucket_size*P2_MD_CUTOFF] with [P2_MD_CUTOFF = .75]: both
    sides are small integers or quarters, exact as [double]s. *)
Definition below_cutoff (size : Z) : bool := 4 * size <? 3 * Z.of_nat bucket_size.

(** [bucket_size - __popc(mask)] as a [uint]. *)
Definition size_from (mask : Z) : Z := wrap32 (Z.of_nat bucket_size - popc mask).

Definition get_first_bucket (h : Z) : M Z := fun t =>
  if n_buckets t =? 0 then None
  else Some (Z.land h (BITMASK 32) mod n_buckets t, t).

Definition get_second_bucket (h : Z) : M Z := fun t =>
  if n_buckets t =? 0 then None
  else Some (Z.shiftr h 32 mod n_buckets t, t).

Definition get_seed : M Z := fun t => Some (seed t, t).

(** [stall_lock_one_thread]: [do {} while (atomicOr(&locks[high], bit) & bit)]. *)
Fixpoint stall_lock_one_thread (fuel : nat) (bucket : Z) : M unit :=
  match fuel with
  | O => fail
  | S fuel' =>
      let high := bucket / 64 in
      let low := bucket mod 64 in
      old <- atomicOr_lock (Z.to_nat high) (SET_BIT_MASK (Z.to_nat low)) ;;
      if negb (Z.land old (SET_BIT_MASK (Z.to_nat low)) =? 0)
      then stall_lock_one_thread fuel' bucket
      else ret tt
  end.

Definition unlock_bucket_one_thread (bucket : Z) : M unit :=
  let high := bucket / 64 in
  let low := bucket mod 64 in
  atomicAnd_lock (Z.to_nat high)
                 (Z.lxor (Z.ones 64) (SET_BIT_MASK (Z.to_nat low))) ;;;
  ret tt.

(** Lane 0 takes or releases the lock, then the tile synchronises. *)
Definition stall_lock (fuel : nat) (bucket : Z) : M unit :=
  stall_lock_one_thread fuel bucket.

Definition unlock (bucket : Z) : M unit := unlock_bucket_one_thread bucket.

(** The lane [pos % partition_size] stores the pair into the slot whose tag
    the tile has just claimed. *)
Definition store_claimed (b pos : nat) (k v : Z) : M unit :=
  ht_store_packed_pair b pos (mk_pair k v).

(** One attempt to claim a tombstoned, then an empty slot of bucket [b] and
    to store the pair there (the block that [upsert_replace_internal] repeats
    for the primary bucket alone, and for either bucket when balancing). *)
Definition claim_in (b : nat) (k v : Z) (b_empty b_tombstone : Z) : M bool :=
  tombstone_pos <- match_tombstone b k b_tombstone ;;
  match tombstone_pos with
  | Some pos => store_claimed b pos k v ;;; ret true
  | None =>
      empty_pos <- match_empty b k b_empty ;;
      match empty_pos with
      | Some pos => store_claimed b pos k v ;;; ret true
      | None => ret false
      end
  end.

(** The first loop of [upsert_replace_internal], on the primary bucket
    alone.  [inl r] is [return r]; [inr] carries the masks with which the
    loop was left. *)
Fixpoint shortcut_loop (fuel : nat) (bucket_0 : nat) (k v : Z)
    (bucket_0_empty bucket_0_tombstone bucket_0_match : Z) : M (bool + Z * Z * Z) :=
  let bucket_0_size := size_from bucket_0_empty in
  if below_cutoff bucket_0_size then
    match fuel with
    | O => fail
    | S fuel' =>
        updated <- (if negb (popc bucket_0_match =? 0)
                    then upsert_existing bucket_0 k v bucket_0_match
                    else ret None) ;;
        match updated with
        | Some _ => ret (inl true)
        | None =>
            claimed <- claim_in bucket_0 k v bucket_0_empty bucket_0_tombstone ;;
            if claimed : bool then ret (inl true)
            else
              reload <- load_fill_ballots_huge bucket_0 k ;;
              let '(e, ts, m) := reload in
              shortcut_loop fuel' bucket_0 k v e ts m
        end
    end
  else ret (inr (bucket_0_empty, bucket_0_tombstone, bucket_0_match)).

(** The second loop of [upsert_replace_internal], on both buckets. *)
Fixpoint balance_loop (fuel : nat) (bucket_0 bucket_1 : nat) (k v : Z)
    (bucket_0_empty bucket_0_tombstone bucket_0_match : Z)
    (bucket_1_empty bucket_1_tombstone bucket_1_match : Z) : M bool :=
  let bucket_0_size := size_from (Z.lor bucket_0_empty bucket_0_tombstone) in
  let bucket_1_size := size_from (Z.lor bucket_1_empty bucket_1_tombstone) in
  if negb (bucket_0_size =? Z.of_nat bucket_size)
     || negb (bucket_1_size =? Z.of_nat bucket_size) then
    match fuel with
    | O => fail
    | S fuel' =>
        updated_0 <- (if negb (popc bucket_0_match =? 0)
                      then upsert_existing bucket_0 k v bucket_0_match
                      else ret None) ;;
        match updated_0 with
        | Some _ => ret true
        | None =>
            updated_1 <- (if negb (popc bucket_1_match =? 0)
                          then upsert_existing bucket_1 k v bucket_1_match
                          else ret None) ;;
            match updated_1 with
            | Some _ => ret true
            | None =>
                claimed <- (if bucket_0_size <=? bucket_1_size
                            then claim_in bucket_0 k v bucket_0_empty bucket_0_tombstone
                            else claim_in bucket_1 k v bucket_1_empty bucket_1_tombstone) ;;
                if claimed : bool then ret true
                else
                  reload_0 <- load_fill_ballots_huge bucket_0 k ;;
                  reload_1 <- load_fill_ballots_huge bucket_1 k ;;
                  let '(e0, ts0, m0) := reload_0 in
                  let '(e1, ts1, m1) := reload_1 in
                  balance_loop fuel' bucket_0 bucket_1 k v e0 ts0 m0 e1 ts1 m1
            end
        end
    end
  else ret false.

Definition upsert_replace_internal (fuel : nat) (k v key_hash bucket_0 : Z) : M bool :=
  let b0 := Z.to_nat bucket_0 in
  loaded <- load_fill_ballots_huge b0 k ;;
  let '(bucket_0_empty, bucket_0_tombstone, bucket_0_match) := loaded in
  shortcut <- shortcut_loop fuel b0 k v bucket_0_empty bucket_0_tombstone bucket_0_match ;;
  match shortcut with
  | inl r => ret r
  | inr (bucket_0_empty, bucket_0_tombstone, bucket_0_match) =>
      bucket_1 <- get_second_bucket key_hash ;;
      let b1 := Z.to_nat bucket_1 in
      loaded_1 <- load_fill_ballots_huge b1 k ;;
      let '(bucket_1_empty, bucket_1_tombstone, bucket_1_match) := loaded_1 in
      balance_loop fuel b0 b1 k v
                   bucket_0_empty bucket_0_tombstone bucket_0_match
                   bucket_1_empty bucket_1_tombstone bucket_1_match
  end.

Definition upsert_replace (fuel : nat) (k v : Z) : M bool :=
  sd <- get_seed ;;
  let key_hash := hash k 8 sd in
  bucket_0 <- get_first_bucket key_hash ;;
  stall_lock fuel bucket_0 ;;;
  return_val <- upsert_replace_internal fuel k v key_hash bucket_0 ;;
  unlock bucket_0 ;;;
  ret return_val.

(** [find_with_reference]: the lanes to which the probe of the primary
    bucket returned true return; the other lanes probe the secondary
    bucket.  The result is the reply of each lane of the tile. *)
Definition find_with_reference (k : Z) : M (list (option Z)) :=
  sd <- get_seed ;;
  let key_hash := hash k 8 sd in
  bucket_0 <- get_first_bucket key_hash ;;
  found_0 <- query_md_and_bucket_large (seq 0 partition_size) (Z.to_nat bucket_0) k ;;
  let rest := List.filter (fun lane => match reply_of lane found_0 with
                                       | Some _ => false
                                       | None => true
                                       end) (seq 0 partition_size) in
  bucket_1 <- get_second_bucket key_hash ;;
  found_1 <- query_md_and_bucket_large rest (Z.to_nat bucket_1) k ;;
  ret (map (fun lane => match reply_of lane found_0 with
                        | Some v => Some v
                        | None => reply_of lane found_1
                        end) (seq 0 partition_size)).

Definition find_with_reference_no_lock (k : Z) : M (list (option Z)) :=
  sd <- get_seed ;;
  let key_hash := hash k 8 sd in
  bucket_0 <- get_first_bucket key_hash ;;
  found_0 <- query_md_and_bucket_large (seq 0 partition_size) (Z.to_nat bucket_0) k ;;
  let rest := List.filter (fun lane => match reply_of lane found_0 with
                                       | Some _ => false
                                       | None => true
                                       end) (seq 0 partition_size) in
  bucket_1 <- get_second_bucket key_hash ;;
  found_1 <- query_md_and_bucket_large rest (Z.to_nat bucket_1) k ;;
  ret (map (fun lane => match reply_of lane found_0 with
                        | Some v => Some v
                        | None => reply_of lane found_1
                        end) (seq 0 partition_size)).

Definition remove (fuel : nat) (k : Z) : M bool :=
  sd <- get_seed ;;
  let key_hash := hash k 8 sd in
  bucket_0 <- get_first_bucket key_hash ;;
  stall_lock fuel bucket_0 ;;;
  loaded <- load_fill_ballots_huge (Z.to_nat bucket_0) k ;;
  let '(_, _, bucket_0_match) := loaded in
  erase_index <- erase_reference (Z.to_nat bucket_0) k bucket_0_match ;;
  match erase_index with
  | Some index =>
      set_tombstone (Z.to_nat bucket_0) index ;;;
      unlock bucket_0 ;;;
      ret true
  | None =>
      bucket_1 <- get_second_bucket key_hash ;;
      loaded_1 <- load_fill_ballots_huge (Z.to_nat bucket_1) k ;;
      let '(_, _, bucket_1_match) := loaded_1 in
      erase_index_1 <- erase_reference (Z.to_nat bucket_1) k bucket_1_match ;;
      match erase_index_1 with
      | Some index =>
          set_tombstone (Z.to_nat bucket_1) index ;;;
          unlock bucket_0 ;;;
          ret true
      | None =>
          unlock bucket_0 ;;;
          ret false
      end
  end.

(** *** Construction *)

(** [metadata_bucket::init] and [p2_md_bucket::init]. *)
Definition metadata_init (b : nat) : M unit :=
  fold_m (seq 0 bucket_size) (fun _ i => store_tag b i empty_tag) tt.

Definition bucket_init (b : nat) : M unit :=
  fold_m (seq 0 bucket_size)
         (fun _ i => ht_store_packed_pair b i (mk_pair defaultKey defaultVal)) tt.

Definition init_bucket_and_locks (tid : Z) : M unit := fun t =>
  if tid <? n_buckets t
  then (metadata_init (Z.to_nat tid) ;;;
        bucket_init (Z.to_nat tid) ;;;
        unlock_bucket_one_thread tid) t
  else Some (tt, t).

(** [init_p2_md_table_kernel] on a grid of [n_threads] threads: one thread
    per [tid]. *)
Definition init_p2_md_table_kernel (n_threads : nat) : M unit :=
  fold_m (seq 0 n_threads) (fun _ tid => init_bucket_and_locks (Z.of_nat tid)) tt.

(** The device at the time of the call: the bytes of memory it can still
    give, and what freshly allocated memory holds before it is initialised
    (the lock words are read as 64-bit words). *)
Record device_memory := {
  raw_bytes : Z;
  raw_tag : nat → nat → Z;
  raw_pair : nat → nat → ht_pair;
  raw_lock : nat → Z
}.

(** [ext_n_buckets = (cache_capacity-1)/bucket_size+1] on [uint64_t]. *)
Definition ext_n_buckets (cache_capacity : Z) : Z :=
  wrap64 (wrap64 (cache_capacity - 1) / Z.of_nat bucket_size + 1).

(** Modelled from the spec: [gallatin::utils::get_device_version<T>(n)] is
    not part of the sources at hand; it is taken to be a [cudaMalloc] of
    [n * sizeof(T)] bytes, the product on [size_t].  The result is the
    number of cells of the array and the bytes the device has left; a
    request for more than the device has gives an array of no cell. *)
Definition get_device_version (free num_copies size_of : Z) : nat * Z :=
  let bytes := wrap64 (num_copies * size_of) in
  if bytes <=? free
  then (Z.to_nat (bytes / size_of), free - bytes)
  else (0%nat, free).

(** The three allocations of [generate_on_device], in its order: the
    buckets (a slot is an 8-byte key and an 8-byte value), the metadata (a
    tag is a [uint16_t]) and the lock words. *)
Definition allocate (raw : device_memory) (cache_capacity ext_seed : Z) : p2_metadata_table :=
  let n := ext_n_buckets cache_capacity in
  let '(n_slots, free) := get_device_version (raw_bytes raw) n (Z.of_nat bucket_size * 16) in
  let '(n_md, free) := get_device_version free n (Z.of_nat bucket_size * 2) in
  let '(n_locks, _) := get_device_version free (wrap64 (wrap64 (n - 1) / 64 + 1)) 8 in
  {| metadata := map (fun b => map (raw_tag raw b) (seq 0 bucket_size)) (seq 0 n_md);
     buckets := map (fun b => map (raw_pair raw b) (seq 0 bucket_size)) (seq 0 n_slots);
     locks := map (fun w => wrap64 (raw_lock raw w)) (seq 0 n_locks);
     n_buckets := n;
     seed := ext_seed |}.

(** The grid of the launch [<<<(ext_n_buckets-1)/256+1, 256>>>]: the
    [uint64_t] block count narrowed to the [unsigned int] of [dim3]. *)
Definition init_grid (n : Z) : Z := wrap32 (wrap64 (wrap64 (n - 1) / 256 + 1)).

(** A launch is refused when the grid has no block or more than
    [2^31 - 1] blocks. *)
Definition launch_accepted (grid : Z) : bool := (0 <? grid) && (grid <=? 2 ^ 31 - 1).

(** [generate_on_device] checks neither the allocations nor the launch and
    always returns the handle.  The table behind it is the initialised one
    when the kernel ran; it is as allocated when the launch was refused,
    and also when the kernel was aborted because a thread touched a cell
    that no allocation gave (the model keeps no write of an aborted
    kernel). *)
Definition generate_on_device (raw : device_memory) (cache_capacity ext_seed : Z)
  : option p2_metadata_table :=
  let host_version := allocate raw cache_capacity ext_seed in
  let grid := init_grid (n_buckets host_version) in
  if launch_accepted grid
  then match init_p2_md_table_kernel (Z.to_nat (grid * 256)) host_version with
       | Some (_, device_version) => Some device_version
       | None => Some host_version
       end
  else Some host_version.

(** *** The other operations of [p2_md_bucket] *)

(** [upsert_existing_func]: as [upsert_existing], but a leader that finds the
    key hands the slot to [replace_func], which is given the address of
    the slot (bucket and index), the key and the value. *)
Definition upsert_existing_func (replace_func : nat → nat → Z → Z → M unit)
    (b : nat) (ext_key ext_val upsert_mapping : Z) : M (option nat) :=
  first_some (rounds n_traversals) (fun offset =>
    let ballot_result :=
      ballot (map (fun lane =>
                     let i := (offset + lane)%nat in
                     (lane, (i <? bucket_size)%nat && mask_bit upsert_mapping i))
                  (lanes_in offset n_traversals)) in
    first_some ballot_result (fun leader =>
      let i := (offset + leader)%nat in
      loaded_key <- hash_table_load_key b i ;;
      if loaded_key =? ext_key
      then (replace_func b i ext_key ext_val ;;; ret (Some leader))
      else ret None)).

(** [query]: every lane loads the pair of its slot; the value of the lowest
    lane that holds [ext_key] is returned. *)
Definition query (b : nat) (ext_key : Z) : M (option Z) :=
  first_some (rounds n_traversals) (fun offset =>
    votes <- for_lanes (lanes_in offset n_traversals) (fun lane =>
               let i := (offset + lane)%nat in
               if (i <? bucket_size)%nat
               then (loaded_pair <- ht_load_packed_pair b i ;;
                     ret (if key loaded_pair =? ext_key
                          then Some (val loaded_pair) else None))
               else ret None) ;;
    ret (leader_val votes)).

(** [query_match]: [query] restricted to the slots of [match_bitmap]. *)
Definition query_match (b : nat) (ext_key match_bitmap : Z) : M (option Z) :=
  if popc match_bitmap =? 0 then ret None
  else
    first_some (rounds n_traversals) (fun offset =>
      votes <- for_lanes (lanes_in offset n_traversals) (fun lane =>
                 let i := (offset + lane)%nat in
                 if (i <? bucket_size)%nat && mask_bit match_bitmap i
                 then (loaded_pair <- ht_load_packed_pair b i ;;
                       ret (if key loaded_pair =? ext_key
                            then Some (val loaded_pair) else None))
                 else ret None) ;;
      ret (leader_val votes)).

(** [erase]: [erase_reference] without a mask: every lane loads its key. *)
Definition erase (b : nat) (ext_key : Z) : M (option nat) :=
  first_some (rounds n_traversals) (fun offset =>
    votes <- for_lanes (lanes_in offset n_traversals) (fun lane =>
               let i := (offset + lane)%nat in
               if (i <? bucket_size)%nat
               then (loaded_key <- hash_table_load_key b i ;; ret (lane, loaded_key =? ext_key))
               else ret (lane, false)) ;;
    first_some (ballot votes) (fun leader =>
      let i := (offset + leader)%nat in
      swapped <- typed_atomic_write_key b i ext_key tombstoneKey ;;
      ret (if swapped then Some i else None))).

(** *** The other operations of [metadata_bucket] *)

(** [my_tile.ballot(p)] as the [unsigned] it is: bit [lane] for every lane
    that votes true. *)
Definition ballot_word (lanes : list nat) : Z :=
  fold_right (fun lane acc => Z.lor (Z.shiftl 1 (Z.of_nat lane)) acc) 0 lanes.

(** [load_fill_ballots]: one tag per lane and round; the three ballots of a
    round are shifted to the round's offset and or-ed into the masks. *)
Definition load_fill_ballots (b : nat) (upsert_key : Z) : M (Z * Z * Z) :=
  let key_tag := get_tag upsert_key in
  fold_m (rounds n_traversals)
         (fun '(empty_match, tombstone_match, key_match) offset =>
            loaded <- for_lanes (lanes_in offset n_traversals) (fun lane =>
                        let i := (offset + lane)%nat in
                        if (i <? bucket_size)%nat
                        then (loaded_key <- hash_table_load_tag b i ;;
                              ret (lane, Some loaded_key))
                        else ret (lane, None)) ;;
            let found (tag : Z) :=
              ballot (map (fun '(lane, loaded_key) =>
                             (lane, match loaded_key with
                                    | Some x => x =? tag
                                    | None => false
                                    end)) loaded) in
            let shifted (tag : Z) :=
              wrap32 (Z.shiftl (ballot_word (found tag)) (Z.of_nat offset)) in
            ret (Z.lor empty_match (shifted empty_tag),
                 Z.lor tombstone_match (shifted tombstone_tag),
                 Z.lor key_match (shifted key_tag)))
         (0, 0, 0).

(** [query_md_and_bucket_pair]: as [query_md_and_bucket_large], but the lanes
    load the key alone and the result is the slot, here its index. *)
Definition query_md_and_bucket_pair (callers : list nat) (b : nat) (upsert_key : Z)
  : M (list (nat * option nat)) :=
  let key_tag := get_tag upsert_key in
  hit <- first_some (rounds n_loads) (fun offset =>
    loaded <- for_lanes (List.filter (fun lane => valid_to_load (offset + lane))
                                     (callers_in callers offset n_loads))
                        (fun lane =>
                           let i := (offset + lane)%nat in
                           tags <- load_multi_tags b (i * 8) ;; ret (i, tags)) ;;
    first_some (seq 0 8) (fun j =>
      votes <- for_lanes loaded (fun '(i, tags) =>
                 if default 0 (tags !! j) =? key_tag
                 then (loaded_key <- hash_table_load_key b (i * 8 + j) ;;
                       ret (if loaded_key =? upsert_key
                            then Some (i * 8 + j)%nat else None))
                 else ret None) ;;
      ret (match leader_val votes with
           | Some index => Some (offset, index)
           | None => None
           end))) ;;
  ret (map (fun lane => (lane, lane_reply n_loads hit lane)) callers).

(** *** The other operations of [p2_metadata_table] *)

Definition lock_key (fuel : nat) (k : Z) : M unit :=
  sd <- get_seed ;;
  let key_hash := hash k 8 sd in
  bucket_0 <- get_first_bucket key_hash ;;
  stall_lock fuel bucket_0.

Definition unlock_key (k : Z) : M unit :=
  sd <- get_seed ;;
  let key_hash := hash k 8 sd in
  bucket_0 <- get_first_bucket key_hash ;;
  unlock bucket_0.

Definition get_lock_bucket (k : Z) : M Z :=
  sd <- get_seed ;;
  let key_hash := hash k 8 sd in
  bucket_0 <- get_first_bucket key_hash ;;
  ret bucket_0.

(** [get_num_locks] copies the table to the host and returns [n_buckets]. *)
Definition get_num_locks : M Z := fun t => Some (n_buckets t, t).

(** [upsert_no_lock]: the body of [upsert_replace_internal] after the hash
    and the primary bucket have been computed in place. *)
Definition upsert_no_lock (fuel : nat) (k v : Z) : M bool :=
  sd <- get_seed ;;
  let key_hash := hash k 8 sd in
  bucket_0 <- get_first_bucket key_hash ;;
  upsert_replace_internal fuel k v key_hash bucket_0.

(** [upsert_function_internal]: [upsert_replace_internal] with
    [upsert_existing_func] in the place of [upsert_existing]. *)
Fixpoint shortcut_loop_func (replace_func : nat → nat → Z → Z → M unit)
    (fuel : nat) (bucket_0 : nat) (k v : Z)
    (bucket_0_empty bucket_0_tombstone bucket_0_match : Z) : M (bool + Z * Z * Z) :=
  let bucket_0_size := size_from bucket_0_empty in
  if below_cutoff bucket_0_size then
    match fuel with
    | O => fail
    | S fuel' =>
        updated <- (if negb (popc bucket_0_match =? 0)
                    then upsert_existing_func replace_func bucket_0 k v bucket_0_match
                    else ret None) ;;
        match updated with
        | Some _ => ret (inl true)
        | None =>
            claimed <- claim_in bucket_0 k v bucket_0_empty bucket_0_tombstone ;;
            if claimed : bool then ret (inl true)
            else
              reload <- load_fill_ballots_huge bucket_0 k ;;
              let '(e, ts, m) := reload in
              shortcut_loop_func replace_func fuel' bucket_0 k v e ts m
        end
    end
  else ret (inr (bucket_0_empty, bucket_0_tombstone, bucket_0_match)).

Fixpoint balance_loop_func (replace_func : nat → nat → Z → Z → M unit)
    (fuel : nat) (bucket_0 bucket_1 : nat) (k v : Z)
    (bucket_0_empty bucket_0_tombstone bucket_0_match : Z)
    (bucket_1_empty bucket_1_tombstone bucket_1_match : Z) : M bool :=
  let bucket_0_size := size_from (Z.lor bucket_0_empty bucket_0_tombstone) in
  let bucket_1_size := size_from (Z.lor bucket_1_empty bucket_1_tombstone) in
  if negb (bucket_0_size =? Z.of_nat bucket_size)
     || negb (bucket_1_size =? Z.of_nat bucket_size) then
    match fuel with
    | O => fail
    | S fuel' =>
        updated_0 <- (if negb (popc bucket_0_match =? 0)
                      then upsert_existing_func replace_func bucket_0 k v bucket_0_match
                      else ret None) ;;
        match updated_0 with
        | Some _ => ret true
        | None =>
            updated_1 <- (if negb (popc bucket_1_match =? 0)
                          then upsert_existing_func replace_func bucket_1 k v bucket_1_match
                          else ret None) ;;
            match updated_1 with
            | Some _ => ret true
            | None =>
                claimed <- (if bucket_0_size <=? bucket_1_size
                            then claim_in bucket_0 k v bucket_0_empty bucket_0_tombstone
                            else claim_in bucket_1 k v bucket_1_empty bucket_1_tombstone) ;;
                if claimed : bool then ret true
                else
                  reload_0 <- load_fill_ballots_huge bucket_0 k ;;
                  reload_1 <- load_fill_ballots_huge bucket_1 k ;;
                  let '(e0, ts0, m0) := reload_0 in
                  let '(e1, ts1, m1) := reload_1 in
                  balance_loop_func replace_func fuel' bucket_0 bucket_1 k v
                                    e0 ts0 m0 e1 ts1 m1
            end
        end
    end
  else ret false.

Definition upsert_function_internal (replace_func : nat → nat → Z → Z → M unit)
    (fuel : nat) (k v key_hash bucket_0 : Z) : M bool :=
  let b0 := Z.to_nat bucket_0 in
  loaded <- load_fill_ballots_huge b0 k ;;
  let '(bucket_0_empty, bucket_0_tombstone, bucket_0_match) := loaded in
  shortcut <- shortcut_loop_func replace_func fuel b0 k v
                bucket_0_empty bucket_0_tombstone bucket_0_match ;;
  match shortcut with
  | inl r => ret r
  | inr (bucket_0_empty, bucket_0_tombstone, bucket_0_match) =>
      bucket_1 <- get_second_bucket key_hash ;;
      let b1 := Z.to_nat bucket_1 in
      loaded_1 <- load_fill_ballots_huge b1 k ;;
      let '(bucket_1_empty, bucket_1_tombstone, bucket_1_match) := loaded_1 in
      balance_loop_func replace_func fuel b0 b1 k v
                        bucket_0_empty bucket_0_tombstone bucket_0_match
                        bucket_1_empty bucket_1_tombstone bucket_1_match
  end.

Definition upsert_function (replace_func : nat → nat → Z → Z → M unit)
    (fuel : nat) (k v : Z) : M bool :=
  sd <- get_seed ;;
  let key_hash := hash k 8 sd in
  bucket_0 <- get_first_bucket key_hash ;;
  stall_lock fuel bucket_0 ;;;
  return_val <- upsert_function_internal replace_func fuel k v key_hash bucket_0 ;;
  unlock bucket_0 ;;;
  ret return_val.

Definition upsert_function_no_lock (replace_func : nat → nat → Z → Z → M unit)
    (fuel : nat) (k v : Z) : M bool :=
  sd <- get_seed ;;
  let key_hash := hash k 8 sd in
  bucket_0 <- get_first_bucket key_hash ;;
  upsert_function_internal replace_func fuel k v key_hash bucket_0.

(** [find_pair] returns the address of the slot: its bucket and index.  As
    in [find_with_reference] the lanes that got a slot from the primary
    bucket return it and the other lanes probe the secondary bucket. *)
Definition find_pair (k : Z) : M (list (option (nat * nat))) :=
  sd <- get_seed ;;
  let key_hash := hash k 8 sd in
  bucket_0 <- get_first_bucket key_hash ;;
  return_pair <- query_md_and_bucket_pair (seq 0 partition_size) (Z.to_nat bucket_0) k ;;
  let rest := List.filter (fun lane => match reply_of lane return_pair with
                                       | Some _ => false
                                       | None => true
                                       end) (seq 0 partition_size) in
  bucket_1 <- get_second_bucket key_hash ;;
  return_pair_1 <- query_md_and_bucket_pair rest (Z.to_nat bucket_1) k ;;
  ret (map (fun lane => match reply_of lane return_pair with
                        | Some index => Some (Z.to_nat bucket_0, index)
                        | None => match reply_of lane return_pair_1 with
                                  | Some index => Some (Z.to_nat bucket_1, index)
                                  | None => None
                                  end
                        end) (seq 0 partition_size)).

Definition find_pair_no_lock (k : Z) : M (list (option (nat * nat))) :=
  sd <- get_seed ;;
  let key_hash := hash k 8 sd in
  bucket_0 <- get_first_bucket key_hash ;;
  return_pair <- query_md_and_bucket_pair (seq 0 partition_size) (Z.to_nat bucket_0) k ;;
  let rest := List.filter (fun lane => match reply_of lane return_pair with
                                       | Some _ => false
                                       | None => true
                                       end) (seq 0 partition_size) in
  bucket_1 <- get_second_bucket key_hash ;;
  return_pair_1 <- query_md_and_bucket_pair rest (Z.to_nat bucket_1) k ;;
  ret (map (fun lane => match reply_of lane return_pair with
                        | Some index => Some (Z.to_nat bucket_0, index)
                        | None => match reply_of lane return_pair_1 with
                                  | Some index => Some (Z.to_nat bucket_1, index)
                                  | None => None
                                  end
                        end) (seq 0 partition_size)).

(** [remove_no_lock]: [remove] without the lock and the unlocks. *)
Definition remove_no_lock (k : Z) : M bool :=
  sd <- get_seed ;;
  let key_hash := hash k 8 sd in
  bucket_0 <- get_first_bucket key_hash ;;
  loaded <- load_fill_ballots_huge (Z.to_nat bucket_0) k ;;
  let '(_, _, bucket_0_match) := loaded in
  erase_index <- erase_reference (Z.to_nat bucket_0) k bucket_0_match ;;
  match erase_index with
  | Some index =>
      set_tombstone (Z.to_nat bucket_0) index ;;;
      ret true
  | None =>
      bucket_1 <- get_second_bucket key_hash ;;
      loaded_1 <- load_fill_ballots_huge (Z.to_nat bucket_1) k ;;
      let '(_, _, bucket_1_match) := loaded_1 in
      erase_index_1 <- erase_reference (Z.to_nat bucket_1) k bucket_1_match ;;
      match erase_index_1 with
      | Some index =>
          set_tombstone (Z.to_nat bucket_1) index ;;;
          ret true
      | None => ret false
      end
  end.

(** [get_bucket_fill]: [bucket_size - popc(empty) - popc(tombstone)], computed
    as [unsigned int] and returned as [uint64_t]. *)
Definition get_bucket_fill (bucket : Z) : M Z :=
  loaded <- load_fill_ballots_huge (Z.to_nat bucket) defaultKey ;;
  let '(bucket_empty, bucket_tombstone, _) := loaded in
  ret (wrap32 (wrap32 (Z.of_nat bucket_size - popc bucket_empty) - popc bucket_tombstone)).

(** [p2_md_get_fill_kernel], as run by the tile numbered [tid]: the tile
    returns when [tid >= n_buckets] and otherwise adds the fill of bucket
    [tid] to [item_count] with [atomicAdd]. *)
Definition p2_md_get_fill_kernel (n tid : Z) (item_count : Z) : M Z :=
  if n <=? tid then ret item_count
  else (n_items_in_bucket <- get_bucket_fill tid ;;
        ret (wrap64 (item_count + n_items_in_bucket))).

(** [p2_md_get_fill_kernel<<<n_blocks, 256>>>]: every block of 256 threads
    is cut into tiles of [partition_size] lanes, and the tiles run one after
    the other.  [gallatin::utils::get_tile_tid] belongs to a library outside
    these sources; it is taken to number the tiles of the launch from 0. *)
Definition launch_get_fill_kernel (n_blocks n : Z) (item_count : Z) : M Z :=
  fold_m (seq 0 (Z.to_nat n_blocks * (256 / partition_size)))
         (fun count tid => p2_md_get_fill_kernel n (Z.of_nat tid) count)
         item_count.

(** [get_fill]: the kernel is launched with
    [(n_buckets*partition_size-1)/256+1] blocks (a [uint64_t] narrowed to the
    [unsigned int] of the grid) on a counter that starts at 0. *)
Definition get_fill : M Z := fun t =>
  let n := n_buckets t in
  let n_blocks :=
    wrap32 (wrap64 (wrap64 (wrap64 (n * Z.of_nat partition_size) - 1) / 256 + 1)) in
  launch_get_fill_kernel n_blocks n 0 t.

End Tile.

(** * Specification vocabulary *)

(** The notions in which the properties of the table are stated: well-formed
    tables, the lock table, the masks that the ballots compute, the outcomes
    of the operations, the invariant and the reachable tables. *)

Section Specification.

Variable partition_size bucket_size : nat.

Abbreviation W := partition_size.
Abbreviation B := bucket_size.

Definition n_of (t : p2_metadata_table) : nat := Z.to_nat (n_buckets t).

(** Every bucket below [n_buckets] has [bucket_size] tags and slots. *)
Definition wf (bucket_size : nat) (t : p2_metadata_table) : Prop :=
  0 < n_buckets t
  ∧ ∀ b i, (b < n_of t)%nat → (i < bucket_size)%nat →
           is_Some (tag_at t b i) ∧ is_Some (pair_at t b i).

Definition lock_word (bucket : Z) : nat := Z.to_nat (bucket / 64).

Definition lock_bit (bucket : Z) : Z := SET_BIT_MASK (Z.to_nat (bucket mod 64)).

(** No bucket of the table is locked (and the lock words are 64-bit words). *)
Definition locks_free (t : p2_metadata_table) : Prop :=
  ∀ b, 0 ≤ b < n_buckets t →
       ∃ w, locks t !! lock_word b = Some w ∧ 0 ≤ w < 2 ^ 64
            ∧ Z.testbit w (b mod 64) = false.

(** The tag a cell holds ([0] where there is no cell). *)
Definition tagv (t : p2_metadata_table) (b i : nat) : Z := default 0 (tag_at t b i).

(** The chunks of eight tags lane [rank] loads, and what it accumulates. *)
Definition lane_chunks (rank : nat) : list nat :=
  List.filter (fun i => (i <? n_loads W B)%nat)
              (map (fun offset => (offset + rank)%nat) (rounds W (n_loads W B))).

Definition chunk_bits (t : p2_metadata_table) (b : nat) (x : Z) (i : nat) : Z :=
  local_bits (map (tagv t b) (seq (i * 8) 8)) i x 0.

Definition lane_mask (t : p2_metadata_table) (b : nat) (x : Z) (rank : nat) : Z :=
  fold_left (fun acc i => Z.lor acc (chunk_bits t b x i)) (lane_chunks rank) 0.

(** The lane that owns a bit of the masks. *)
Definition bit_owner (n : Z) : nat := ((Z.to_nat n / 8) mod W)%nat.

(** The mask of the slots of bucket [b] whose tag is [x]. *)
Fixpoint tag_mask_upto (t : p2_metadata_table) (b : nat) (x : Z) (n : nat) : Z :=
  match n with
  | O => 0
  | S n' => Z.lor (if decide (tag_at t b n' = Some x) then 2 ^ Z.of_nat n' else 0)
                  (tag_mask_upto t b x n')
  end.

Definition tag_mask (t : p2_metadata_table) (b : nat) (x : Z) : Z := tag_mask_upto t b x B.

(** What a lane finds in slot [idx] when it looks for key [k]. *)
Definition slot_hit (t : p2_metadata_table) (b : nat) (k : Z) (idx : nat) : option Z :=
  if tagv t b idx =? get_tag k
  then match pair_at t b idx with
       | Some p => if key p =? k then Some (val p) else None
       | None => None
       end
  else None.

(** No slot of bucket [b] carries the tag of [k] together with [k]. *)
Definition no_key_in (t : p2_metadata_table) (b : nat) (k : Z) : Prop :=
  ∀ i p, (i < B)%nat → tag_at t b i = Some (get_tag k) →
         pair_at t b i = Some p → key p ≠ k.

(** No tag of bucket [b] is empty or tombstoned. *)
Definition bucket_full (t : p2_metadata_table) (b : nat) : Prop :=
  ∀ i, (i < B)%nat →
       tag_at t b i ≠ Some empty_tag ∧ tag_at t b i ≠ Some tombstone_tag.

(** The guard of the first loop, on the tags of bucket [b]. *)
Definition in_shortcut (t : p2_metadata_table) (b : nat) : bool :=
  below_cutoff B (size_from B (tag_mask t b empty_tag)).

(** What an upsert of [(k, v)] with primary bucket [b0] and secondary bucket
    [b1] does to table [t]: unless both buckets are full, it overwrites the
    value of a slot that holds [k], or claims a tombstoned or (when the
    bucket has no tombstone) an empty tag and stores the pair there; when
    both buckets are full it refuses. *)
Inductive upsert_outcome (t : p2_metadata_table) (b0 b1 : nat) (k v : Z)
  : bool → p2_metadata_table → Prop :=
| upsert_updated b i p :
    (i < B)%nat → tag_at t b i = Some (get_tag k) →
    pair_at t b i = Some p → key p = k →
    b = b0 ∨ (b = b1 ∧ in_shortcut t b0 = false ∧ no_key_in t b0 k) →
    ¬ (bucket_full t b0 ∧ bucket_full t b1) →
    upsert_outcome t b0 b1 k v true (set_pair b i (mk_pair k v) t)
| upsert_claimed b i free_tag :
    (i < B)%nat → tag_at t b i = Some free_tag →
    free_tag = tombstone_tag
    ∨ (free_tag = empty_tag
       ∧ ∀ i', (i' < B)%nat → tag_at t b i' ≠ Some tombstone_tag) →
    no_key_in t b0 k →
    (b = b0 ∧ in_shortcut t b0 = true)
    ∨ (in_shortcut t b0 = false ∧ no_key_in t b1 k ∧ (b = b0 ∨ b = b1)) →
    upsert_outcome t b0 b1 k v true
      (set_pair b i (mk_pair k v) (set_tag b i (get_tag k) t))
| upsert_refused :
    in_shortcut t b0 = false → bucket_full t b0 → bucket_full t b1 →
    upsert_outcome t b0 b1 k v false t.

(** The two candidate buckets of a key. *)
Definition first_bucket (t : p2_metadata_table) (k : Z) : nat :=
  Z.to_nat (Z.land (hash k 8 (seed t)) (BITMASK 32) mod n_buckets t).

Definition second_bucket (t : p2_metadata_table) (k : Z) : nat :=
  Z.to_nat (Z.shiftr (hash k 8 (seed t)) 32 mod n_buckets t).

(** What [remove] of key [k] does to table [t]: it turns the first slot that
    holds [k] (under the tag of [k]) into a tombstone, or finds none. *)
Inductive remove_outcome (t : p2_metadata_table) (b0 b1 : nat) (k : Z)
  : bool → p2_metadata_table → Prop :=
| remove_erased b i p :
    (i < B)%nat → tag_at t b i = Some (get_tag k) →
    pair_at t b i = Some p → key p = k →
    b = b0 ∨ (b = b1 ∧ no_key_in t b0 k) →
    remove_outcome t b0 b1 k true
      (set_tag b i tombstone_tag (set_pair b i (mk_pair tombstoneKey (val p)) t))
| remove_absent :
    no_key_in t b0 k → no_key_in t b1 k →
    remove_outcome t b0 b1 k false t.

(** The round of the tag loop of a query in which the eight tags around
    slot [idx] are loaded. *)
Definition round_of (idx : nat) : nat := (idx / 8 / W * W)%nat.

(** Lane [lane] is inside the tag loop of a query in the round that loads
    slot [idx]. *)
Definition serves (idx lane : nat) : bool := (round_of idx + lane <? n_loads W B)%nat.

(** What the lanes of the tile get from a query that finds [v] in slot
    [idx]: the lanes inside the tag loop in that round get [v], the lanes
    that have left the loop get nothing.  And the replies of a query that
    finds nothing. *)
Definition lane_replies {R} (idx : nat) (v : R) : list (option R) :=
  map (fun lane => if serves idx lane then Some v else None) (seq 0 W).

Definition no_replies {R} : list (option R) := map (fun _ => None) (seq 0 W).

(** What a probe by the lanes [callers] left its tag loop with, where
    [slot idx] is what a lane that finds the key in slot [idx] reports: the
    round and the report of a slot that a caller loaded in that round, or
    nothing when no slot that a caller loads gives a report. *)
Definition probe_hit_by {R} (slot : nat → option R) (callers : list nat)
    (hit : option (nat * R)) : Prop :=
  match hit with
  | Some (offset, v) =>
      ∃ lane j, offset ∈ rounds W (n_loads W B) ∧ lane ∈ callers
                ∧ (offset + lane < n_loads W B)%nat ∧ (j < 8)%nat
                ∧ slot ((offset + lane) * 8 + j)%nat = Some v
  | None =>
      ∀ offset lane j, offset ∈ rounds W (n_loads W B) → lane ∈ callers →
                       (offset + lane < n_loads W B)%nat → (j < 8)%nat →
                       slot ((offset + lane) * 8 + j)%nat = None
  end.

(** The probe of bucket [b] for [k] by [query_md_and_bucket_large], which
    reports the value of the slot, and by [query_md_and_bucket_pair], which
    reports its index. *)
Definition probe_hit (t : p2_metadata_table) (callers : list nat) (b : nat) (k : Z)
    (hit : option (nat * Z)) : Prop :=
  probe_hit_by (slot_hit t b k) callers hit.

Definition slot_index (t : p2_metadata_table) (b : nat) (k : Z) (idx : nat) : option nat :=
  match slot_hit t b k idx with Some _ => Some idx | None => None end.

Definition probe_index (t : p2_metadata_table) (callers : list nat) (b : nat) (k : Z)
    (hit : option (nat * nat)) : Prop :=
  probe_hit_by (slot_index t b k) callers hit.

(** The lanes that a probe left without a reply. *)
Definition unserved {R} (hit : option (nat * R)) : list nat :=
  List.filter (fun lane => match lane_reply (n_loads W B) hit lane with
                           | Some _ => false
                           | None => true
                           end) (seq 0 W).

Definition key_at (t : p2_metadata_table) (b i : nat) : option Z :=
  match pair_at t b i with Some p => Some (key p) | None => None end.

(** The invariant that construction establishes and every operation
    keeps, where a stored key is a key that is neither [defaultKey] nor
    [tombstoneKey]:
    - the table is well formed and no lock is held;
    - a slot with a stored key carries the tag of its key;
    - a stored key sits in one of its two candidate buckets;
    - a stored key sits in at most one slot;
    - a stored key sits outside its primary bucket only when the primary
      bucket is at or above the cutoff of the first loop. *)
Record table_inv (t : p2_metadata_table) : Prop := {
  inv_wf : wf B t;
  inv_locks : locks_free t;
  inv_tag : ∀ b i k, (b < n_of t)%nat → (i < B)%nat →
      key_at t b i = Some k → user_key k → tag_at t b i = Some (get_tag k);
  inv_home : ∀ b i k, (b < n_of t)%nat → (i < B)%nat →
      key_at t b i = Some k → user_key k →
      b = first_bucket t k ∨ b = second_bucket t k;
  inv_unique : ∀ b i b' i' k,
      (b < n_of t)%nat → (i < B)%nat → (b' < n_of t)%nat → (i' < B)%nat →
      key_at t b i = Some k → key_at t b' i' = Some k → user_key k →
      b = b' ∧ i = i';
  inv_shortcut : ∀ b i k, (b < n_of t)%nat → (i < B)%nat →
      key_at t b i = Some k → user_key k → b ≠ first_bucket t k →
      in_shortcut t (first_bucket t k) = false
}.

(** The arrays have the right sizes and the lock words are 64-bit words. *)
Definition shape (t : p2_metadata_table) : Prop :=
  wf B t
  ∧ ∀ b, 0 ≤ b < n_buckets t →
         ∃ w, locks t !! lock_word b = Some w ∧ 0 ≤ w < 2 ^ 64.

(** Bucket [b] is as [init_bucket_and_locks] leaves it. *)
Definition bucket_fresh (t : p2_metadata_table) (b : Z) : Prop :=
  (∀ i, (i < B)%nat →
        tag_at t (Z.to_nat b) i = Some empty_tag
        ∧ pair_at t (Z.to_nat b) i = Some (mk_pair defaultKey defaultVal))
  ∧ ∃ w, locks t !! lock_word b = Some w ∧ Z.testbit w (b mod 64) = false.

Inductive operation :=
| op_upsert (k v : Z)
| op_query (k : Z)
| op_remove (k : Z).

Inductive answer :=
| ans_done (ok : bool)
| ans_found (v : list (option Z)).

Definition run_operation (fuel : nat) (o : operation) : M answer :=
  match o with
  | op_upsert k v => ok <- upsert_replace W B fuel k v ;; ret (ans_done ok)
  | op_query k => v <- find_with_reference W B k ;; ret (ans_found v)
  | op_remove k => ok <- remove W B fuel k ;; ret (ans_done ok)
  end.

(** The device can build the table for [cache_capacity]: it has the bytes
    of the three arrays, and the blocks of the [init] kernel (one thread
    per bucket, 256 threads per block) make a grid that can be launched. *)
Definition fits_device (raw : device_memory) (cache_capacity : Z) : bool :=
  let n := ext_n_buckets B cache_capacity in
  (n * (Z.of_nat B * 16) + n * (Z.of_nat B * 2) + ((n - 1) / 64 + 1) * 8 <=? raw_bytes raw)
  && (raw_bytes raw <? 2 ^ 64)
  && ((n - 1) / 256 + 1 <=? 2 ^ 31 - 1).

(** The tables that a sequence of operations can produce from a newly
    constructed table, on a device that can build it. *)
Inductive reachable : p2_metadata_table → Prop :=
| reachable_new raw cache_capacity ext_seed t :
    fits_device raw cache_capacity = true →
    generate_on_device B raw cache_capacity ext_seed = Some t → reachable t
| reachable_step t fuel o a t' :
    reachable t → run_operation fuel o t = Some (a, t') → reachable t'.

(** The number of tags of bucket [b], among the first [n], that satisfy [P]. *)
Fixpoint count_tags (P : Z → bool) (t : p2_metadata_table) (b n : nat) : nat :=
  match n with
  | O => O
  | S n' =>
      (match tag_at t b n' with
       | Some x => if P x then 1 else 0
       | None => 0
       end + count_tags P t b n')%nat
  end.

Definition not_empty_tag (x : Z) : bool := negb (x =? empty_tag).

Definition live_tag (x : Z) : bool := negb (x =? empty_tag) && negb (x =? tombstone_tag).

(** The slots whose tag is not empty (tombstones included), and the slots
    whose tag is neither empty nor a tombstone. *)
Definition non_empty_tags (t : p2_metadata_table) (b : nat) : nat :=
  count_tags not_empty_tag t b B.

Definition occupancy (t : p2_metadata_table) (b : nat) : nat :=
  count_tags live_tag t b B.

(** Slot [i] is the lowest slot of bucket [b] whose tag is [x]. *)
Definition lowest_tag (t : p2_metadata_table) (b : nat) (x : Z) (i : nat) : Prop :=
  (i < B)%nat ∧ tag_at t b i = Some x
  ∧ ∀ j, (j < i)%nat → tag_at t b j ≠ Some x.

(** The slot that a claim in bucket [b] takes: the lowest tombstoned slot,
    or, when no slot of the bucket is tombstoned, the lowest empty slot. *)
Definition claimed_slot (t : p2_metadata_table) (b i : nat) : Prop :=
  lowest_tag t b tombstone_tag i
  ∨ ((∀ j, (j < B)%nat → tag_at t b j ≠ Some tombstone_tag)
     ∧ lowest_tag t b empty_tag i).

(** The bucket in which an upsert claims a slot for a key that is not
    stored: the primary bucket [b0] while it is below the cutoff of the
    first loop, and otherwise the bucket with fewer live tags, [b0] on a
    tie. *)
Definition picked_bucket (t : p2_metadata_table) (b0 b1 : nat) : nat :=
  if in_shortcut t b0 then b0
  else if (occupancy t b0 <=? occupancy t b1)%nat then b0 else b1.

(** A computation that leaves the bucket count and the seed as they are. *)
Definition keeps_header {A} (m : M A) : Prop :=
  ∀ t r t', m t = Some (r, t') → n_buckets t' = n_buckets t ∧ seed t' = seed t.

(** A computation that leaves memory as it found it. *)
Definition read_only {A} (m : M A) : Prop :=
  ∀ t r t', m t = Some (r, t') → t' = t.

(** A computation that neither reads nor writes the lock table: run on a
    table whose locks have been changed, it does the same and leaves the
    changed locks as they are. *)
Definition lock_blind {A} (m : M A) : Prop :=
  ∀ f t, m (with_locks f t)
         = match m t with
           | Some (a, t') => Some (a, with_locks f t')
           | None => None
           end.

(** The lock of bucket [b] is held. *)
Definition lock_held (t : p2_metadata_table) (b : Z) : Prop :=
  ∃ w, locks t !! lock_word b = Some w ∧ Z.testbit w (b mod 64) = true.

(** [remove_no_lock] from its first load on, for a given hash and primary
    bucket. *)
Definition remove_from (key_hash bucket_0 k : Z) : M bool :=
  loaded <- load_fill_ballots_huge W B (Z.to_nat bucket_0) k ;;
  let '(_, _, bucket_0_match) := loaded in
  erase_index <- erase_reference W B (Z.to_nat bucket_0) k bucket_0_match ;;
  match erase_index with
  | Some index =>
      set_tombstone (Z.to_nat bucket_0) index ;;;
      ret true
  | None =>
      bucket_1 <- get_second_bucket key_hash ;;
      loaded_1 <- load_fill_ballots_huge W B (Z.to_nat bucket_1) k ;;
      let '(_, _, bucket_1_match) := loaded_1 in
      erase_index_1 <- erase_reference W B (Z.to_nat bucket_1) k bucket_1_match ;;
      match erase_index_1 with
      | Some index =>
          set_tombstone (Z.to_nat bucket_1) index ;;;
          ret true
      | None => ret false
      end
  end.

(** The slots of the first [n] buckets whose tag is neither empty nor a
    tombstone. *)
Fixpoint total_occupancy (t : p2_metadata_table) (n : nat) : nat :=
  match n with
  | O => O
  | S n' => (occupancy t n' + total_occupancy t n')%nat
  end.

(** The ballot of the round at [offset] for tag [x], shifted into place:
    what one round of [load_fill_ballots] adds to a mask. *)
Definition round_votes (t : p2_metadata_table) (b : nat) (x : Z) (offset : nat) : Z :=
  wrap32 (Z.shiftl
            (ballot_word
               (ballot (map (fun lane =>
                               (lane, (offset + lane <? B)%nat
                                      && (tagv t b (offset + lane) =? x)))
                            (lanes_in W offset (n_traversals W B)))))
            (Z.of_nat offset)).

End Specification.

(** * Sample tables *)

(** Running [m] on [t] for its effect ([t] itself where [m] does not return). *)
Definition exec {A} (m : M A) (t : p2_metadata_table) : p2_metadata_table :=
  match m t with Some (_, t') => t' | None => t end.

(** A sequence of operations, one after the other. *)
Definition replay (partition_size bucket_size : nat) (ops : list operation)
  (t : p2_metadata_table) : p2_metadata_table :=
  fold_left (fun t o => exec (run_operation partition_size bucket_size 1 o) t) ops t.

(** Device memory that holds leftovers where it is not initialised. *)
Definition stale_memory : device_memory :=
  {| raw_bytes := 2 ^ 34;
     raw_tag := fun _ _ => 7;
     raw_pair := fun _ _ => mk_pair 9 9;
     raw_lock := fun _ => 2 ^ 64 - 1 |}.

(** The table [generate_on_device] builds for [capacity] and seed [0]. *)
Definition new_table (bucket_size : nat) (capacity : Z) : p2_metadata_table :=
  default (mk_table [] [] [] 0 0) (generate_on_device bucket_size stale_memory capacity 0).

Definition upserts (keys : list Z) : list operation :=
  map (fun k => op_upsert k (10 * k)) keys.

(** Tiles of 4 lanes, buckets of 8 slots.  One bucket, with keys 1 to 7 and
    with keys 1 to 8. *)
Definition seven_keys : p2_metadata_table :=
  replay 4 8 (upserts [1; 2; 3; 4; 5; 6; 7]) (new_table 8 8).

Definition full_table : p2_metadata_table :=
  replay 4 8 (upserts [1; 2; 3; 4; 5; 6; 7; 8]) (new_table 8 8).

(** One bucket with key 1 alone. *)
Definition one_key : p2_metadata_table :=
  replay 4 8 (upserts [1]) (new_table 8 8).

(** The full table after [remove(2)]. *)
Definition holed_table : p2_metadata_table :=
  replay 4 8 [op_remove 2] full_table.

(** Two buckets; keys 1 to 6 (whose primary bucket is bucket 0) are
    inserted and keys 1 to 5 removed again. *)
Definition tombstoned_table : p2_metadata_table :=
  replay 4 8 (upserts [1; 2; 3; 4; 5; 6] ++ map op_remove [1; 2; 3; 4; 5]) (new_table 8 16).

(** Two buckets; keys 2, 3, 5, 9, 14 and 17 fill bucket 0 up to the cutoff,
    key 13 (primary bucket 0, secondary bucket 1) then goes to bucket 1,
    where keys 7, 8 and 10 follow it, and keys 2, 3 and 5 are removed. *)
Definition balanced_table : p2_metadata_table :=
  replay 4 8 (upserts [2; 3; 5; 9; 14; 17; 13; 7; 8; 10] ++ map op_remove [2; 3; 5])
         (new_table 8 16).

(** * Properties *)

(** ** Keys *)

Lemma live_user k : live_key k → user_key k.
Proof. intros (H0 & H1 & _). split; assumption. Qed.

(** ** Tags *)

Lemma cast_u16_range z : 0 ≤ cast_u16 z < 2 ^ 16.
Proof. unfold cast_u16. apply Z.mod_pos_bound. lia. Qed.

Lemma cast_u16_succ z : cast_u16 (wrap64 (z + 1)) = (cast_u16 z + 1) mod 2 ^ 16.
Proof.
  unfold cast_u16, wrap64.
  rewrite Z.mod_mod_divide by (exists (2 ^ 48); reflexivity).
  rewrite Z.add_mod_idemp_l; lia.
Qed.

Lemma succ16_neq x : 0 ≤ x < 2 ^ 16 → (x + 1) mod 2 ^ 16 ≠ x.
Proof.
  intros Hx. destruct (Z.eq_dec x (2 ^ 16 - 1)) as [-> | Hm].
  - discriminate.
  - rewrite Z.mod_small; lia.
Qed.

Lemma succ16_twice_neq x : 0 ≤ x < 2 ^ 16 → ((x + 1) mod 2 ^ 16 + 1) mod 2 ^ 16 ≠ x.
Proof.
  intros Hx. destruct (Z.eq_dec x (2 ^ 16 - 1)) as [-> | Hm].
  - discriminate.
  - rewrite (Z.mod_small (x + 1)) by lia.
    destruct (Z.eq_dec x (2 ^ 16 - 2)) as [-> | Hm'].
    + discriminate.
    + rewrite Z.mod_small; lia.
Qed.

Lemma get_tag_loop_exit fuel emptyKey tombKey k :
  (cast_u16 k =? get_empty_tag emptyKey) || (cast_u16 k =? get_tombstone_tag tombKey) = false →
  get_tag_loop fuel emptyKey tombKey k = Some (cast_u16 k).
Proof. intros H. destruct fuel; simpl; rewrite H; reflexivity. Qed.

(** The loop of [get_tag] is left after at most two steps, with a tag that
    is neither reserved value. *)
Lemma get_tag_loop_terminates emptyKey tombKey k :
  ∃ tag, (∀ fuel, get_tag_loop (2 + fuel) emptyKey tombKey k = Some tag)
         ∧ 0 ≤ tag < 2 ^ 16
         ∧ tag ≠ get_empty_tag emptyKey
         ∧ tag ≠ get_tombstone_tag tombKey.
Proof.
  set (e := get_empty_tag emptyKey). set (ts := get_tombstone_tag tombKey).
  pose proof (cast_u16_range k) as R0.
  pose proof (cast_u16_range (wrap64 (k + 1))) as R1.
  pose proof (cast_u16_range (wrap64 (wrap64 (k + 1) + 1))) as R2.
  pose proof (cast_u16_succ k) as S1.
  pose proof (cast_u16_succ (wrap64 (k + 1))) as S2.
  assert (N1 : cast_u16 (wrap64 (k + 1)) ≠ cast_u16 k).
  { rewrite S1. apply succ16_neq. exact R0. }
  assert (N2 : cast_u16 (wrap64 (wrap64 (k + 1) + 1)) ≠ cast_u16 (wrap64 (k + 1))).
  { rewrite S2. apply succ16_neq. exact R1. }
  assert (N3 : cast_u16 (wrap64 (wrap64 (k + 1) + 1)) ≠ cast_u16 k).
  { rewrite S2, S1. apply succ16_twice_neq. exact R0. }
  destruct ((cast_u16 k =? e) || (cast_u16 k =? ts)) eqn:G0.
  - destruct ((cast_u16 (wrap64 (k + 1)) =? e) || (cast_u16 (wrap64 (k + 1)) =? ts)) eqn:G1.
    + exists (cast_u16 (wrap64 (wrap64 (k + 1) + 1))).
      assert (G2 : (cast_u16 (wrap64 (wrap64 (k + 1) + 1)) =? e)
                   || (cast_u16 (wrap64 (wrap64 (k + 1) + 1)) =? ts) = false).
      { revert G0 G1.
        destruct (Z.eqb_spec (cast_u16 k) e), (Z.eqb_spec (cast_u16 k) ts),
          (Z.eqb_spec (cast_u16 (wrap64 (k + 1))) e),
          (Z.eqb_spec (cast_u16 (wrap64 (k + 1))) ts); simpl; try discriminate;
          intros _ _; apply orb_false_iff; split; apply Z.eqb_neq; lia. }
      split; [| split; [exact R2 |]].
      * intros fuel. simpl. fold e ts. rewrite G0, G1.
        apply get_tag_loop_exit. exact G2.
      * apply orb_false_iff in G2. destruct G2 as [A B]. split; apply Z.eqb_neq; assumption.
    + exists (cast_u16 (wrap64 (k + 1))).
      split; [| split; [exact R1 |]].
      * intros fuel. simpl. fold e ts. rewrite G0, G1. reflexivity.
      * apply orb_false_iff in G1. destruct G1 as [A B]. split; apply Z.eqb_neq; assumption.
  - exists (cast_u16 k).
    split; [| split; [exact R0 |]].
    + intros fuel. simpl. fold e ts. rewrite G0. reflexivity.
    + apply orb_false_iff in G0. destruct G0 as [A B]. split; apply Z.eqb_neq; assumption.
Qed.

(** [get_tag_gen] is the result of the loop, and neither reserved value. *)
Lemma get_tag_gen_spec (emptyKey tombKey k : Z) :
  (∀ fuel, get_tag_loop (2 + fuel) emptyKey tombKey k = Some (get_tag_gen emptyKey tombKey k))
  ∧ 0 ≤ get_tag_gen emptyKey tombKey k < 2 ^ 16
  ∧ get_tag_gen emptyKey tombKey k ≠ get_empty_tag emptyKey
  ∧ get_tag_gen emptyKey tombKey k ≠ get_tombstone_tag tombKey.
Proof.
  destruct (get_tag_loop_terminates emptyKey tombKey k) as (tag & Hrun & Hr & He & Ht).
  assert (E : get_tag_gen emptyKey tombKey k = tag).
  { pose proof (Hrun 0%nat) as H0. change (2 + 0)%nat with 2%nat in H0.
    unfold get_tag_gen. rewrite H0. reflexivity. }
  rewrite E. auto.
Qed.

Lemma get_tag_range k : 0 ≤ get_tag k < 2 ^ 16.
Proof.
  destruct (get_tag_loop_terminates defaultKey tombstoneKey k) as (tag & Hrun & Hr & _).
  pose proof (Hrun 0%nat) as H0. change (2 + 0)%nat with 2%nat in H0.
  unfold get_tag, get_tag_gen. rewrite H0. exact Hr.
Qed.

Lemma get_tag_not_empty k : get_tag k ≠ empty_tag.
Proof. apply (get_tag_gen_spec defaultKey tombstoneKey k). Qed.

Lemma get_tag_not_tombstone k : get_tag k ≠ tombstone_tag.
Proof. apply (get_tag_gen_spec defaultKey tombstoneKey k). Qed.

Lemma tombstone_tag_not_empty : tombstone_tag ≠ empty_tag.
Proof. discriminate. Qed.

(** C8. For every key, and whatever the two reserved keys of the table are,
    the loop of [get_tag] ends (two steps of fuel, or more, give the same
    result), and the tag it returns is a 16-bit value different from the
    empty tag and from the tombstone tag. *)
Theorem get_tag_avoids_reserved (emptyKey tombKey k : Z) :
  (∀ fuel, get_tag_loop (2 + fuel) emptyKey tombKey k = Some (get_tag_gen emptyKey tombKey k))
  ∧ 0 ≤ get_tag_gen emptyKey tombKey k < 2 ^ 16
  ∧ get_tag_gen emptyKey tombKey k ≠ get_empty_tag emptyKey
  ∧ get_tag_gen emptyKey tombKey k ≠ get_tombstone_tag tombKey.
Proof. exact (get_tag_gen_spec emptyKey tombKey k). Qed.

(** ** Bit masks *)

Lemma SET_BIT_MASK_pow2 i : (i < 64)%nat → SET_BIT_MASK i = 2 ^ Z.of_nat i.
Proof.
  intros Hi. unfold SET_BIT_MASK, wrap64.
  rewrite Z.shiftl_1_l. apply Z.mod_small. split.
  - apply Z.pow_nonneg. lia.
  - apply Z.pow_lt_mono_r; lia.
Qed.

Lemma land_pow2_testbit m i :
  0 ≤ i → (Z.land m (2 ^ i) =? 0) = negb (Z.testbit m i).
Proof.
  intros Hi. destruct (Z.testbit m i) eqn:Hb; simpl.
  - apply Z.eqb_neq. intros E.
    assert (Z.testbit (Z.land m (2 ^ i)) i = true) as Hc.
    { rewrite Z.land_spec, Hb, Z.pow2_bits_true; auto. }
    rewrite E, Z.bits_0 in Hc. discriminate.
  - apply Z.eqb_eq. apply Z.bits_inj'. intros j Hj.
    rewrite Z.land_spec, Z.bits_0.
    destruct (Z.eq_dec i j) as [<- | Hne].
    + rewrite Hb. reflexivity.
    + rewrite (Z.pow2_bits_false i j) by assumption. apply andb_false_r.
Qed.

Lemma mask_bit_testbit m i : (i < 64)%nat → mask_bit m i = Z.testbit m (Z.of_nat i).
Proof.
  intros Hi. unfold mask_bit. rewrite SET_BIT_MASK_pow2 by assumption.
  rewrite land_pow2_testbit by lia. apply negb_involutive.
Qed.

Lemma count_bits_le n x : (count_bits n x ≤ n)%nat.
Proof. induction n as [| n IH]; simpl; [lia |]. destruct (Z.testbit x (Z.of_nat n)); lia. Qed.

Lemma count_bits_mono n x y :
  (∀ i, (i < n)%nat → Z.testbit x (Z.of_nat i) = true → Z.testbit y (Z.of_nat i) = true) →
  (count_bits n x ≤ count_bits n y)%nat.
Proof.
  induction n as [| n IH]; intros H; simpl; [lia |].
  assert (count_bits n x ≤ count_bits n y)%nat by (apply IH; intros; apply H; [lia | assumption]).
  destruct (Z.testbit x (Z.of_nat n)) eqn:Hx.
  - rewrite (H n) by (lia || assumption). lia.
  - destruct (Z.testbit y (Z.of_nat n)); lia.
Qed.

Lemma count_bits_zero n x :
  count_bits n x = 0%nat ↔ ∀ i, (i < n)%nat → Z.testbit x (Z.of_nat i) = false.
Proof.
  induction n as [| n IH]; simpl.
  - split; [intros _ i Hi; lia | reflexivity].
  - split.
    + intros H i Hi. destruct (Z.testbit x (Z.of_nat n)) eqn:Hx; [lia |].
      destruct (Nat.eq_dec i n) as [-> | Hne]; [assumption |].
      apply IH; lia.
    + intros H. rewrite (H n) by lia. simpl. apply IH. intros i Hi. apply H. lia.
Qed.

(** Bits at and above [n] do not count when they are all clear. *)
Lemma count_bits_above n m x :
  (n ≤ m)%nat →
  (∀ i, (n ≤ i < m)%nat → Z.testbit x (Z.of_nat i) = false) →
  count_bits m x = count_bits n x.
Proof.
  intros Hnm. induction m as [| m IH]; intros H.
  - assert (n = 0)%nat as -> by lia. reflexivity.
  - destruct (Nat.eq_dec n (S m)) as [-> | Hne]; [reflexivity |].
    simpl. rewrite (H m) by lia. simpl. apply IH; [lia |]. intros i Hi. apply H. lia.
Qed.

Lemma popc_range x : 0 ≤ popc x ≤ 64.
Proof. unfold popc. pose proof (count_bits_le 64 x). lia. Qed.

Lemma popc_mono x y :
  (∀ i, (i < 64)%nat → Z.testbit x (Z.of_nat i) = true → Z.testbit y (Z.of_nat i) = true) →
  popc x ≤ popc y.
Proof. intros H. unfold popc. apply inj_le. apply count_bits_mono. exact H. Qed.

Lemma popc_zero x :
  popc x = 0 ↔ ∀ i, (i < 64)%nat → Z.testbit x (Z.of_nat i) = false.
Proof.
  unfold popc. rewrite <- count_bits_zero. lia.
Qed.

Lemma bit_search n m :
  (∃ i, (i < n)%nat ∧ Z.testbit m (Z.of_nat i) = true)
  ∨ (∀ i, (i < n)%nat → Z.testbit m (Z.of_nat i) = false).
Proof.
  induction n as [| n [(i & Hi & Hb) | Hnone]].
  - right. intros i Hi. lia.
  - left. exists i. split; [lia | exact Hb].
  - destruct (Z.testbit m (Z.of_nat n)) eqn:Hb.
    + left. exists n. split; [lia | exact Hb].
    + right. intros i Hi. destruct (Nat.eq_dec i n) as [-> | Hne]; [exact Hb |].
      apply Hnone. lia.
Qed.

Lemma classic_bit_search m :
  (∃ i, (i < 64)%nat ∧ Z.testbit m (Z.of_nat i) = true)
  ∨ (∀ i, (i < 64)%nat → Z.testbit m (Z.of_nat i) = false).
Proof. apply bit_search. Qed.

(** ** The monad *)

Lemma bind_Some {A B} (m : M A) (f : A → M B) t r t' :
  bind m f t = Some (r, t') ↔ ∃ a t1, m t = Some (a, t1) ∧ f a t1 = Some (r, t').
Proof.
  unfold bind. split.
  - destruct (m t) as [[a t1] |]; [| discriminate]. intros H. exists a, t1. auto.
  - intros (a & t1 & H1 & H2). rewrite H1. exact H2.
Qed.

Lemma bind_run {A B} (m : M A) (f : A → M B) t a t1 :
  m t = Some (a, t1) → bind m f t = f a t1.
Proof. intros H. unfold bind. rewrite H. reflexivity. Qed.

(** A loop whose body, when it does not return, leaves memory as it was:
    either some element makes it return, or no element does and memory is
    unchanged. *)
Lemma first_some_spec {A R} (xs : list A) (body : A → M (option R)) t
    (Q : R → p2_metadata_table → Prop) (Miss : A → Prop) :
  (∀ x, x ∈ xs →
        ∃ r t', body x t = Some (r, t')
                ∧ match r with Some y => Q y t' | None => t' = t ∧ Miss x end) →
  ∃ r t', first_some xs body t = Some (r, t')
          ∧ match r with Some y => Q y t' | None => t' = t ∧ ∀ x, x ∈ xs → Miss x end.
Proof.
  induction xs as [| x xs IH]; intros H.
  - exists None, t. split; [reflexivity |]. split; [reflexivity |].
    intros x Hx. inversion Hx.
  - destruct (H x) as (r & t' & Hb & Hr); [left |].
    simpl. destruct r as [y |].
    + exists (Some y), t'. split; [| exact Hr].
      rewrite (bind_run _ _ _ _ _ Hb). reflexivity.
    + destruct Hr as [-> Hm].
      destruct IH as (r & t' & Hf & Hr).
      { intros x' Hx'. apply H. right. exact Hx'. }
      exists r, t'. split.
      * rewrite (bind_run _ _ _ _ _ Hb). exact Hf.
      * destruct r; [exact Hr |]. destruct Hr as [-> Hall]. split; [reflexivity |].
        intros x' Hx'. inversion Hx'; subst; auto.
Qed.

(** Lanes that only read. *)
Lemma for_lanes_read {A R} (xs : list A) (body : A → M R) t (Rel : A → R → Prop) :
  (∀ x, x ∈ xs → ∃ r, body x t = Some (r, t) ∧ Rel x r) →
  ∃ rs, for_lanes xs body t = Some (rs, t) ∧ Forall2 Rel xs rs.
Proof.
  induction xs as [| x xs IH]; intros H.
  - exists []. split; [reflexivity | constructor].
  - destruct (H x) as (r & Hb & Hr); [left |].
    destruct IH as (rs & Hf & Hrs).
    { intros x' Hx'. apply H. right. exact Hx'. }
    exists (r :: rs). split; [| constructor; assumption].
    simpl. rewrite (bind_run _ _ _ _ _ Hb). rewrite (bind_run _ _ _ _ _ Hf). reflexivity.
Qed.

(** ** Reading and writing cells *)

Lemma tag_at_set_tag_eq b i x t :
  is_Some (tag_at t b i) → tag_at (set_tag b i x t) b i = Some x.
Proof.
  unfold tag_at, set_tag; simpl. intros [y Hy].
  rewrite list_lookup_alter_eq.
  destruct (metadata t !! b) as [md |]; [simpl | discriminate].
  apply list_lookup_insert_eq. apply lookup_lt_Some in Hy. exact Hy.
Qed.

Lemma tag_at_set_tag_ne b i x t b' i' :
  (b, i) ≠ (b', i') → tag_at (set_tag b i x t) b' i' = tag_at t b' i'.
Proof.
  unfold tag_at, set_tag; simpl. intros Hne.
  destruct (Nat.eq_dec b b') as [<- | Hb].
  - rewrite list_lookup_alter_eq.
    destruct (metadata t !! b) as [md |]; [simpl | reflexivity].
    apply list_lookup_insert_ne. congruence.
  - rewrite list_lookup_alter_ne by assumption. reflexivity.
Qed.

Lemma pair_at_set_pair_eq b i p t :
  is_Some (pair_at t b i) → pair_at (set_pair b i p t) b i = Some p.
Proof.
  unfold pair_at, set_pair; simpl. intros [y Hy].
  rewrite list_lookup_alter_eq.
  destruct (buckets t !! b) as [sl |]; [simpl | discriminate].
  apply list_lookup_insert_eq. apply lookup_lt_Some in Hy. exact Hy.
Qed.

Lemma pair_at_set_pair_ne b i p t b' i' :
  (b, i) ≠ (b', i') → pair_at (set_pair b i p t) b' i' = pair_at t b' i'.
Proof.
  unfold pair_at, set_pair; simpl. intros Hne.
  destruct (Nat.eq_dec b b') as [<- | Hb].
  - rewrite list_lookup_alter_eq.
    destruct (buckets t !! b) as [sl |]; [simpl | reflexivity].
    apply list_lookup_insert_ne. congruence.
  - rewrite list_lookup_alter_ne by assumption. reflexivity.
Qed.

Lemma pair_at_set_tag b i x t b' i' : pair_at (set_tag b i x t) b' i' = pair_at t b' i'.
Proof. reflexivity. Qed.

Lemma tag_at_set_pair b i p t b' i' : tag_at (set_pair b i p t) b' i' = tag_at t b' i'.
Proof. reflexivity. Qed.

(** A store keeps every cell that exists in place. *)
Lemma tag_at_set_tag_is_Some b i x t b' i' :
  is_Some (tag_at (set_tag b i x t) b' i') ↔ is_Some (tag_at t b' i').
Proof.
  destruct (decide ((b, i) = (b', i'))) as [E | Hne].
  - inversion E; subst b' i'. split; intros H.
    + unfold tag_at, set_tag in *; simpl in *.
      rewrite list_lookup_alter_eq in H.
      destruct (metadata t !! b) as [md |]; [simpl in H | destruct H; discriminate].
      apply lookup_lt_is_Some. apply lookup_lt_is_Some in H.
      rewrite length_insert in H. exact H.
    + rewrite tag_at_set_tag_eq by assumption. eauto.
  - rewrite tag_at_set_tag_ne by assumption. reflexivity.
Qed.

Lemma pair_at_set_pair_is_Some b i p t b' i' :
  is_Some (pair_at (set_pair b i p t) b' i') ↔ is_Some (pair_at t b' i').
Proof.
  destruct (decide ((b, i) = (b', i'))) as [E | Hne].
  - inversion E; subst b' i'. split; intros H.
    + unfold pair_at, set_pair in *; simpl in *.
      rewrite list_lookup_alter_eq in H.
      destruct (buckets t !! b) as [sl |]; [simpl in H | destruct H; discriminate].
      apply lookup_lt_is_Some. apply lookup_lt_is_Some in H.
      rewrite length_insert in H. exact H.
    + rewrite pair_at_set_pair_eq by assumption. eauto.
  - rewrite pair_at_set_pair_ne by assumption. reflexivity.
Qed.

(** Writing back what a cell holds changes nothing. *)
Lemma set_tag_same b i x t : tag_at t b i = Some x → set_tag b i x t = t.
Proof.
  unfold tag_at, set_tag, with_metadata. intros H. destruct t as [md bk lk n sd]; simpl in *.
  f_equal. destruct (md !! b) as [row |] eqn:Hrow; [| discriminate].
  apply list_eq. intros j. destruct (Nat.eq_dec b j) as [<- | Hne].
  - rewrite list_lookup_alter_eq, Hrow. simpl. f_equal. apply list_insert_id. exact H.
  - rewrite list_lookup_alter_ne by assumption. reflexivity.
Qed.

Lemma set_pair_same b i p t : pair_at t b i = Some p → set_pair b i p t = t.
Proof.
  unfold pair_at, set_pair, with_buckets. intros H. destruct t as [md bk lk n sd]; simpl in *.
  f_equal. destruct (bk !! b) as [row |] eqn:Hrow; [| discriminate].
  apply list_eq. intros j. destruct (Nat.eq_dec b j) as [<- | Hne].
  - rewrite list_lookup_alter_eq, Hrow. simpl. f_equal. apply list_insert_id. exact H.
  - rewrite list_lookup_alter_ne by assumption. reflexivity.
Qed.

(** ** Memory accesses *)

Lemma hash_table_load_tag_run b i t x :
  tag_at t b i = Some x → hash_table_load_tag b i t = Some (x, t).
Proof. intros H. unfold hash_table_load_tag. rewrite H. reflexivity. Qed.

Lemma store_tag_run b i x t :
  is_Some (tag_at t b i) → store_tag b i x t = Some (tt, set_tag b i x t).
Proof. intros [y H]. unfold store_tag. rewrite H. reflexivity. Qed.

Lemma typed_atomic_write_tag_run b i expected desired t x :
  tag_at t b i = Some x →
  typed_atomic_write_tag b i expected desired t
  = Some (x =? expected, if x =? expected then set_tag b i desired t else t).
Proof.
  intros H. unfold typed_atomic_write_tag.
  rewrite (bind_run _ _ _ _ _ (hash_table_load_tag_run _ _ _ _ H)).
  destruct (x =? expected); [| reflexivity].
  rewrite (bind_run _ _ _ _ _ (store_tag_run b i desired t (mk_is_Some _ _ H))).
  reflexivity.
Qed.

Lemma ht_load_packed_pair_run b i t p :
  pair_at t b i = Some p → ht_load_packed_pair b i t = Some (p, t).
Proof. intros H. unfold ht_load_packed_pair. rewrite H. reflexivity. Qed.

Lemma ht_store_packed_pair_run b i p t :
  is_Some (pair_at t b i) → ht_store_packed_pair b i p t = Some (tt, set_pair b i p t).
Proof. intros [y H]. unfold ht_store_packed_pair. rewrite H. reflexivity. Qed.

Lemma hash_table_load_key_run b i t p :
  pair_at t b i = Some p → hash_table_load_key b i t = Some (key p, t).
Proof.
  intros H. unfold hash_table_load_key.
  rewrite (bind_run _ _ _ _ _ (ht_load_packed_pair_run _ _ _ _ H)). reflexivity.
Qed.

Lemma ht_store_val_run b i v t p :
  pair_at t b i = Some p →
  ht_store_val b i v t = Some (tt, set_pair b i (mk_pair (key p) v) t).
Proof.
  intros H. unfold ht_store_val.
  rewrite (bind_run _ _ _ _ _ (ht_load_packed_pair_run _ _ _ _ H)).
  apply ht_store_packed_pair_run. eauto.
Qed.

Lemma ht_store_key_run b i k t p :
  pair_at t b i = Some p →
  ht_store_key b i k t = Some (tt, set_pair b i (mk_pair k (val p)) t).
Proof.
  intros H. unfold ht_store_key.
  rewrite (bind_run _ _ _ _ _ (ht_load_packed_pair_run _ _ _ _ H)).
  apply ht_store_packed_pair_run. eauto.
Qed.

Lemma typed_atomic_write_key_run b i expected desired t p :
  pair_at t b i = Some p →
  typed_atomic_write_key b i expected desired t
  = Some (key p =? expected,
          if key p =? expected then set_pair b i (mk_pair desired (val p)) t else t).
Proof.
  intros H. unfold typed_atomic_write_key.
  rewrite (bind_run _ _ _ _ _ (hash_table_load_key_run _ _ _ _ H)).
  destruct (key p =? expected); [| reflexivity].
  rewrite (bind_run _ _ _ _ _ (ht_store_key_run b i desired t p H)).
  reflexivity.
Qed.

(** ** The lockstep schedule *)

Lemma ballot_In (votes : list (nat * bool)) lane :
  lane ∈ ballot votes ↔ (lane, true) ∈ votes.
Proof.
  unfold ballot. rewrite list_elem_of_In, in_map_iff. split.
  - intros ([l v] & E & Hin). simpl in E. subst l.
    apply filter_In in Hin. destruct Hin as [Hin Hv]. simpl in Hv. subst v.
    apply list_elem_of_In. exact Hin.
  - intros Hin. exists (lane, true). split; [reflexivity |].
    apply filter_In. split; [apply list_elem_of_In; exact Hin | reflexivity].
Qed.

Lemma ballot_map_In (f : nat → bool) lanes lane :
  lane ∈ ballot (map (fun l => (l, f l)) lanes) ↔ lane ∈ lanes ∧ f lane = true.
Proof.
  rewrite ballot_In, list_elem_of_In, in_map_iff. split.
  - intros (l & E & Hin). inversion E; subst. split; [apply list_elem_of_In; assumption | reflexivity].
  - intros [Hin Hf]. exists lane. rewrite Hf. split; [reflexivity | apply list_elem_of_In; exact Hin].
Qed.

Section Schedule.

Variable partition_size : nat.
Hypothesis tile_nonempty : (0 < partition_size)%nat.

Lemma rounds_In bound offset :
  offset ∈ rounds partition_size bound ↔
  ∃ r, offset = (r * partition_size)%nat ∧ (r * partition_size < bound)%nat.
Proof.
  unfold rounds. rewrite list_elem_of_In, in_map_iff. split.
  - intros (r & E & Hin). apply in_seq in Hin. exists r. split; [auto |].
    destruct Hin as [_ Hr]. simpl in Hr.
    pose proof (Nat.Div0.mul_div_le (bound + partition_size - 1) partition_size). nia.
  - intros (r & -> & Hr). exists r. split; [reflexivity |]. apply in_seq. split; [lia |].
    simpl.
    assert (S r ≤ (bound + partition_size - 1) / partition_size)%nat; [| lia].
    apply Nat.div_le_lower_bound; lia.
Qed.

Lemma lanes_in_In offset bound lane :
  lane ∈ lanes_in partition_size offset bound ↔
  (lane < partition_size)%nat ∧ (offset + lane < bound)%nat.
Proof.
  unfold lanes_in. rewrite list_elem_of_In, filter_In, in_seq, Nat.ltb_lt. lia.
Qed.

(** Every index below the bound is some lane's index in some round. *)
Lemma schedule_covers bound i :
  (i < bound)%nat →
  ∃ offset lane, offset ∈ rounds partition_size bound
                 ∧ lane ∈ lanes_in partition_size offset bound
                 ∧ i = (offset + lane)%nat.
Proof.
  intros Hi. exists (i / partition_size * partition_size)%nat, (i mod partition_size)%nat.
  pose proof (Nat.div_mod_eq i partition_size) as E.
  pose proof (Nat.mod_upper_bound i partition_size ltac:(lia)) as Hm.
  split; [| split].
  - apply rounds_In. exists (i / partition_size)%nat. split; [reflexivity | nia].
  - apply lanes_in_In. split; [exact Hm | nia].
  - nia.
Qed.

End Schedule.

(** ** Well-formed tables *)

Lemma wf_set_tag B b i x t : wf B t → wf B (set_tag b i x t).
Proof.
  intros [Hn H]. split; [exact Hn |]. intros b' i' Hb' Hi'.
  rewrite tag_at_set_tag_is_Some, pair_at_set_tag. apply H; assumption.
Qed.

Lemma wf_set_pair B b i p t : wf B t → wf B (set_pair b i p t).
Proof.
  intros [Hn H]. split; [exact Hn |]. intros b' i' Hb' Hi'.
  rewrite pair_at_set_pair_is_Some, tag_at_set_pair. apply H; assumption.
Qed.

Lemma Forall2_eq_map {A R} (g : A → R) xs rs :
  Forall2 (fun x r => r = g x) xs rs → rs = map g xs.
Proof. induction 1; simpl; congruence. Qed.

Lemma fold_m_read {A S} (xs : list A) (body : S → A → M S) (step : S → A → S) s t :
  (∀ x s', x ∈ xs → body s' x t = Some (step s' x, t)) →
  fold_m xs body s t = Some (fold_left step xs s, t).
Proof.
  revert s. induction xs as [| x xs IH]; intros s H; simpl; [reflexivity |].
  rewrite (bind_run _ _ _ _ _ (H x s ltac:(left))).
  apply IH. intros x' s' Hx'. apply H. right. exact Hx'.
Qed.

Lemma fold_left_lor_testbit {A} (f : A → Z) xs acc n :
  Z.testbit (fold_left (fun acc x => Z.lor acc (f x)) xs acc) n
  = Z.testbit acc n || existsb (fun x => Z.testbit (f x) n) xs.
Proof.
  revert acc. induction xs as [| x xs IH]; intros acc; simpl.
  - rewrite orb_false_r. reflexivity.
  - rewrite IH, Z.lor_spec, orb_assoc. reflexivity.
Qed.

Lemma fold_right_lor_testbit (ms : list Z) n :
  Z.testbit (fold_right Z.lor 0 ms) n = existsb (fun m => Z.testbit m n) ms.
Proof.
  induction ms as [| m ms IH]; simpl.
  - apply Z.bits_0.
  - rewrite Z.lor_spec, IH. reflexivity.
Qed.

(** Masks that own disjoint bits add up to their disjunction. *)
Lemma sum_disjoint_masks (f : nat → Z) (owner : Z → nat) lanes :
  NoDup lanes →
  (∀ l n, l ∈ lanes → 0 ≤ n → Z.testbit (f l) n = true → owner n = l) →
  fold_right Z.add 0 (map f lanes) = fold_right Z.lor 0 (map f lanes).
Proof.
  intros Hnd. induction Hnd as [| l ls Hl Hnd IH]; intros Hown; simpl; [reflexivity |].
  rewrite IH by (intros l' n Hl'; apply Hown; right; exact Hl').
  assert (Z.land (f l) (fold_right Z.lor 0 (map f ls)) = 0) as Hdisj.
  { apply Z.bits_inj'. intros n Hn. rewrite Z.land_spec, Z.bits_0.
    destruct (Z.testbit (f l) n) eqn:Hfl; [| reflexivity]. simpl.
    rewrite fold_right_lor_testbit.
    destruct (existsb (fun m => Z.testbit m n) (map f ls)) eqn:He; [| reflexivity].
    exfalso. apply existsb_exists in He. destruct He as (m & Hm & Hbit).
    apply in_map_iff in Hm. destruct Hm as (l' & <- & Hl').
    apply Hl. apply list_elem_of_In.
    rewrite <- (Hown l n ltac:(left) Hn Hfl).
    rewrite (Hown l' n ltac:(right; apply list_elem_of_In; exact Hl') Hn Hbit). exact Hl'. }
  rewrite Z.add_nocarry_lxor by exact Hdisj. apply Z.lxor_lor. exact Hdisj.
Qed.

Lemma leader_val_Some {R} (votes : list (option R)) v :
  leader_val votes = Some v → In (Some v) votes.
Proof.
  induction votes as [| [r |] votes IH]; simpl; intros H.
  - discriminate.
  - left. exact H.
  - right. apply IH. exact H.
Qed.

Lemma leader_val_None {R} (votes : list (option R)) :
  leader_val votes = None → ∀ o, In o votes → o = None.
Proof.
  induction votes as [| [r |] votes IH]; simpl; intros H o Ho.
  - contradiction.
  - discriminate.
  - destruct Ho as [<- | Ho]; [reflexivity | apply IH; assumption].
Qed.

(** ** The lock table *)

Lemma lock_bit_pow2 b : lock_bit b = 2 ^ (b mod 64).
Proof.
  unfold lock_bit. pose proof (Z.mod_pos_bound b 64 ltac:(lia)).
  rewrite SET_BIT_MASK_pow2 by lia. rewrite Z2Nat.id by lia. reflexivity.
Qed.

Lemma lock_unlock_word w b :
  0 ≤ w < 2 ^ 64 → Z.testbit w (b mod 64) = false →
  Z.land (Z.lor w (lock_bit b)) (Z.lxor (Z.ones 64) (lock_bit b)) = w.
Proof.
  intros Hw Hclear. rewrite lock_bit_pow2.
  pose proof (Z.mod_pos_bound b 64 ltac:(lia)) as Hm.
  apply Z.bits_inj'. intros n Hn.
  rewrite Z.land_spec, Z.lor_spec, Z.lxor_spec, Z.pow2_bits_eqb by lia.
  destruct (Z.eqb_spec (b mod 64) n) as [<- | Hne].
  - rewrite Hclear, Z.ones_spec_low by lia. reflexivity.
  - rewrite orb_false_r, xorb_false_r.
    destruct (Z_lt_le_dec n 64) as [Hlo | Hhi].
    + rewrite Z.ones_spec_low by lia. apply andb_true_r.
    + rewrite Z.ones_spec_high by lia. rewrite andb_false_r.
      symmetry. apply (Z.bits_above_log2 w n); [lia |].
      destruct (Z.eq_dec w 0) as [-> | Hnz]; [simpl; lia |].
      apply Z.log2_lt_pow2; [lia |].
      apply Z.lt_le_trans with (2 ^ 64); [lia | apply Z.pow_le_mono_r; lia].
Qed.

Lemma stall_lock_one_thread_run fuel b t w :
  locks t !! lock_word b = Some w → Z.testbit w (b mod 64) = false →
  stall_lock_one_thread (S fuel) b t
  = Some (tt, with_locks (fun l => <[lock_word b := Z.lor w (lock_bit b)]> l) t).
Proof.
  intros Hw Hclear. simpl. unfold bind, atomicOr_lock. fold (lock_word b). rewrite Hw.
  fold (lock_bit b). rewrite lock_bit_pow2.
  pose proof (Z.mod_pos_bound b 64 ltac:(lia)) as Hm.
  rewrite land_pow2_testbit by lia. rewrite Hclear. reflexivity.
Qed.

Lemma unlock_bucket_one_thread_run b t w :
  locks t !! lock_word b = Some w →
  unlock_bucket_one_thread b t
  = Some (tt, with_locks
                (fun l => <[lock_word b := Z.land w (Z.lxor (Z.ones 64) (lock_bit b))]> l) t).
Proof.
  intros Hw. unfold unlock_bucket_one_thread, bind, atomicAnd_lock.
  fold (lock_word b). rewrite Hw. reflexivity.
Qed.

Lemma unlock_word_range w b :
  0 ≤ w < 2 ^ 64 → 0 ≤ Z.land w (Z.lxor (Z.ones 64) (lock_bit b)) < 2 ^ 64.
Proof.
  intros Hw.
  assert (Z.land w (Z.lxor (Z.ones 64) (lock_bit b))
          = Z.land w (Z.lxor (Z.ones 64) (lock_bit b)) mod 2 ^ 64) as ->.
  { rewrite <- Z.land_ones by lia.
    rewrite <- Z.land_assoc, (Z.land_comm _ (Z.ones 64)), Z.land_assoc.
    rewrite (Z.land_ones w) by lia. rewrite Z.mod_small by exact Hw. reflexivity. }
  apply Z.mod_pos_bound. lia.
Qed.

(** Releasing the lock of [b] clears its bit and keeps every other bit. *)
Lemma unlock_word_bit w b n :
  0 ≤ n < 64 →
  Z.testbit (Z.land w (Z.lxor (Z.ones 64) (lock_bit b))) n
  = Z.testbit w n && negb (b mod 64 =? n).
Proof.
  intros Hn. rewrite lock_bit_pow2.
  pose proof (Z.mod_pos_bound b 64 ltac:(lia)) as Hm.
  rewrite Z.land_spec, Z.lxor_spec, Z.pow2_bits_eqb, Z.ones_spec_low by lia.
  reflexivity.
Qed.

(** Taking the lock of a free bucket and releasing it restores the lock table. *)
Lemma lock_then_unlock (l : list Z) b w :
  l !! lock_word b = Some w → 0 ≤ w < 2 ^ 64 → Z.testbit w (b mod 64) = false →
  <[lock_word b := Z.land (Z.lor w (lock_bit b)) (Z.lxor (Z.ones 64) (lock_bit b))]>
    (<[lock_word b := Z.lor w (lock_bit b)]> l) = l.
Proof.
  intros Hl Hw Hclear. rewrite list_insert_insert_eq, lock_unlock_word by assumption.
  apply list_insert_id. exact Hl.
Qed.

Lemma with_locks_restore (f : list Z → list Z) t t' :
  locks t' = f (locks t) → metadata t' = metadata t → buckets t' = buckets t →
  n_buckets t' = n_buckets t → seed t' = seed t →
  with_locks (fun _ => locks t) t' = t.
Proof.
  destruct t, t'; simpl. intros _ -> -> -> ->. reflexivity.
Qed.

Lemma fold_m_app {A S} (xs ys : list A) (body : S → A → M S) s t :
  fold_m (xs ++ ys) body s t = (s' <- fold_m xs body s ;; fold_m ys body s') t.
Proof.
  revert s t. induction xs as [| x xs IH]; intros s t; simpl.
  - reflexivity.
  - unfold bind. destruct (body s x t) as [[s1 t1] |]; [| reflexivity].
    rewrite IH. reflexivity.
Qed.

(** A loop over [0 .. n) that keeps an invariant indexed by the number of
    iterations done. *)
Lemma fold_m_seq_inv (n : nat) (body : unit → nat → M unit)
    (I : nat → p2_metadata_table → Prop) t :
  I 0%nat t →
  (∀ i t1, (i < n)%nat → I i t1 → ∃ t2, body tt i t1 = Some (tt, t2) ∧ I (S i) t2) →
  ∃ t', fold_m (seq 0 n) body tt t = Some (tt, t') ∧ I n t'.
Proof.
  intros H0 Hstep. induction n as [| n IH].
  - exists t. split; [reflexivity | exact H0].
  - destruct IH as (t1 & Hrun & HI).
    { intros i t1 Hi. apply Hstep. lia. }
    destruct (Hstep n t1 ltac:(lia) HI) as (t2 & Hb & HI2).
    exists t2. split; [| exact HI2].
    rewrite seq_S, fold_m_app. simpl.
    rewrite (bind_run _ _ _ _ _ Hrun). simpl.
    rewrite (bind_run _ _ _ _ _ Hb). reflexivity.
Qed.

(** ** Queries write nothing *)

Lemma read_only_ret {A} (a : A) : read_only (ret a).
Proof. intros t r t' H. inversion H. reflexivity. Qed.

Lemma read_only_bind {A R} (m : M A) (f : A → M R) :
  read_only m → (∀ a, read_only (f a)) → read_only (bind m f).
Proof.
  intros Hm Hf t r t' H. apply bind_Some in H. destruct H as (a & t1 & H1 & H2).
  apply Hm in H1. subst t1. exact (Hf a t r t' H2).
Qed.

Lemma read_only_first_some {A R} (xs : list A) (body : A → M (option R)) :
  (∀ x, read_only (body x)) → read_only (first_some xs body).
Proof.
  intros Hb. induction xs as [| x xs IH]; simpl.
  - apply read_only_ret.
  - apply read_only_bind; [apply Hb |]. intros [y |]; [apply read_only_ret | exact IH].
Qed.

Lemma read_only_for_lanes {A R} (xs : list A) (body : A → M R) :
  (∀ x, read_only (body x)) → read_only (for_lanes xs body).
Proof.
  intros Hb. induction xs as [| x xs IH]; simpl.
  - apply read_only_ret.
  - apply read_only_bind; [apply Hb |]. intros r.
    apply read_only_bind; [exact IH |]. intros rs. apply read_only_ret.
Qed.

Lemma read_only_load_tag b i : read_only (hash_table_load_tag b i).
Proof.
  intros t r t' H. unfold hash_table_load_tag in H.
  destruct (tag_at t b i); inversion H. reflexivity.
Qed.

Lemma read_only_load_pair b i : read_only (ht_load_packed_pair b i).
Proof.
  intros t r t' H. unfold ht_load_packed_pair in H.
  destruct (pair_at t b i); inversion H. reflexivity.
Qed.

Lemma read_only_load_multi_tags b start : read_only (load_multi_tags b start).
Proof. apply read_only_for_lanes. intros i. apply read_only_load_tag. Qed.

Lemma read_only_get_seed : read_only get_seed.
Proof. intros t r t' H. inversion H. reflexivity. Qed.

Lemma read_only_get_first_bucket h : read_only (get_first_bucket h).
Proof.
  intros t r t' H. unfold get_first_bucket in H.
  destruct (n_buckets t =? 0); inversion H. reflexivity.
Qed.

Lemma read_only_get_second_bucket h : read_only (get_second_bucket h).
Proof.
  intros t r t' H. unfold get_second_bucket in H.
  destruct (n_buckets t =? 0); inversion H. reflexivity.
Qed.

Lemma read_only_query_md_and_bucket_large W B callers b k :
  read_only (query_md_and_bucket_large W B callers b k).
Proof.
  unfold query_md_and_bucket_large.
  apply read_only_bind; [| intros hit; apply read_only_ret].
  apply read_only_first_some. intros offset.
  apply read_only_bind.
  - apply read_only_for_lanes. intros lane.
    destruct (valid_to_load B (offset + lane)); [| apply read_only_ret].
    apply read_only_bind; [apply read_only_load_multi_tags |]. intros tags. apply read_only_ret.
  - intros loaded. apply read_only_first_some. intros j.
    apply read_only_bind; [| intros votes; apply read_only_ret].
    apply read_only_for_lanes. intros [i [tags |]]; [| apply read_only_ret].
    destruct (default 0 (tags !! j) =? get_tag k); [| apply read_only_ret].
    apply read_only_bind; [apply read_only_load_pair |]. intros p. apply read_only_ret.
Qed.

Lemma read_only_find_with_reference W B k : read_only (find_with_reference W B k).
Proof.
  unfold find_with_reference.
  apply read_only_bind; [apply read_only_get_seed |]. intros sd.
  apply read_only_bind; [apply read_only_get_first_bucket |]. intros bucket_0.
  apply read_only_bind; [apply read_only_query_md_and_bucket_large |]. intros found_0.
  apply read_only_bind; [apply read_only_get_second_bucket |]. intros bucket_1.
  apply read_only_bind; [apply read_only_query_md_and_bucket_large |].
  intros found_1. apply read_only_ret.
Qed.

(** ** Operations that do not touch the locks *)

Lemma lock_blind_ret {A} (a : A) : lock_blind (ret a).
Proof. intros f t. reflexivity. Qed.

Lemma lock_blind_fail {A} : lock_blind (@fail A).
Proof. intros f t. reflexivity. Qed.

Lemma lock_blind_bind {A R} (m : M A) (k : A → M R) :
  lock_blind m → (∀ a, lock_blind (k a)) → lock_blind (bind m k).
Proof.
  intros Hm Hk f t. unfold bind. rewrite Hm.
  destruct (m t) as [[a t'] |]; [apply Hk | reflexivity].
Qed.

Lemma lock_blind_first_some {A R} (xs : list A) (body : A → M (option R)) :
  (∀ x, lock_blind (body x)) → lock_blind (first_some xs body).
Proof.
  intros Hb. induction xs as [| x xs IH]; simpl.
  - apply lock_blind_ret.
  - apply lock_blind_bind; [apply Hb |]. intros [y |]; [apply lock_blind_ret | exact IH].
Qed.

Lemma lock_blind_for_lanes {A R} (xs : list A) (body : A → M R) :
  (∀ x, lock_blind (body x)) → lock_blind (for_lanes xs body).
Proof.
  intros Hb. induction xs as [| x xs IH]; simpl.
  - apply lock_blind_ret.
  - apply lock_blind_bind; [apply Hb |]. intros r.
    apply lock_blind_bind; [exact IH |]. intros rs. apply lock_blind_ret.
Qed.

Lemma lock_blind_fold_m {A S} (xs : list A) (body : S → A → M S) (s : S) :
  (∀ s' x, lock_blind (body s' x)) → lock_blind (fold_m xs body s).
Proof.
  intros Hb. revert s. induction xs as [| x xs IH]; intros s; simpl.
  - apply lock_blind_ret.
  - apply lock_blind_bind; [apply Hb |]. intros s'. apply IH.
Qed.

(** What a lock-blind computation returns has the locks it was given. *)
Lemma lock_blind_locks {A} (m : M A) t a t' :
  lock_blind m → m t = Some (a, t') → locks t' = locks t.
Proof.
  intros Hm Hrun. pose proof (Hm (fun _ => locks t) t) as H.
  replace (with_locks (fun _ => locks t) t) with t in H by (destruct t; reflexivity).
  rewrite Hrun in H. inversion H as [E]. rewrite E at 1. reflexivity.
Qed.

Lemma lock_blind_load_tag b i : lock_blind (hash_table_load_tag b i).
Proof.
  intros f t. unfold hash_table_load_tag.
  change (tag_at (with_locks f t) b i) with (tag_at t b i).
  destruct (tag_at t b i); reflexivity.
Qed.

Lemma lock_blind_store_tag b i x : lock_blind (store_tag b i x).
Proof.
  intros f t. unfold store_tag.
  change (tag_at (with_locks f t) b i) with (tag_at t b i).
  destruct (tag_at t b i); reflexivity.
Qed.

Lemma lock_blind_load_pair b i : lock_blind (ht_load_packed_pair b i).
Proof.
  intros f t. unfold ht_load_packed_pair.
  change (pair_at (with_locks f t) b i) with (pair_at t b i).
  destruct (pair_at t b i); reflexivity.
Qed.

Lemma lock_blind_store_pair b i p : lock_blind (ht_store_packed_pair b i p).
Proof.
  intros f t. unfold ht_store_packed_pair.
  change (pair_at (with_locks f t) b i) with (pair_at t b i).
  destruct (pair_at t b i); reflexivity.
Qed.

Lemma lock_blind_write_tag b i expected desired :
  lock_blind (typed_atomic_write_tag b i expected desired).
Proof.
  apply lock_blind_bind; [apply lock_blind_load_tag |]. intros cur.
  destruct (cur =? expected); [| apply lock_blind_ret].
  apply lock_blind_bind; [apply lock_blind_store_tag |]. intros _. apply lock_blind_ret.
Qed.

Lemma lock_blind_load_key b i : lock_blind (hash_table_load_key b i).
Proof.
  apply lock_blind_bind; [apply lock_blind_load_pair |]. intros p. apply lock_blind_ret.
Qed.

Lemma lock_blind_store_val b i v : lock_blind (ht_store_val b i v).
Proof.
  apply lock_blind_bind; [apply lock_blind_load_pair |]. intros p. apply lock_blind_store_pair.
Qed.

Lemma lock_blind_store_key b i k : lock_blind (ht_store_key b i k).
Proof.
  apply lock_blind_bind; [apply lock_blind_load_pair |]. intros p. apply lock_blind_store_pair.
Qed.

Lemma lock_blind_write_key b i expected desired :
  lock_blind (typed_atomic_write_key b i expected desired).
Proof.
  apply lock_blind_bind; [apply lock_blind_load_key |]. intros cur.
  destruct (cur =? expected); [| apply lock_blind_ret].
  apply lock_blind_bind; [apply lock_blind_store_key |]. intros _. apply lock_blind_ret.
Qed.

Lemma lock_blind_load_multi_tags b start : lock_blind (load_multi_tags b start).
Proof. apply lock_blind_for_lanes. intros i. apply lock_blind_load_tag. Qed.

Lemma lock_blind_get_seed : lock_blind get_seed.
Proof. intros f t. reflexivity. Qed.

Lemma lock_blind_get_first_bucket h : lock_blind (get_first_bucket h).
Proof.
  intros f t. unfold get_first_bucket.
  change (n_buckets (with_locks f t)) with (n_buckets t).
  destruct (n_buckets t =? 0); reflexivity.
Qed.

Lemma lock_blind_get_second_bucket h : lock_blind (get_second_bucket h).
Proof.
  intros f t. unfold get_second_bucket.
  change (n_buckets (with_locks f t)) with (n_buckets t).
  destruct (n_buckets t =? 0); reflexivity.
Qed.

Lemma lock_blind_upsert_existing_func W B replace_func b k v m :
  (∀ b' i k' v', lock_blind (replace_func b' i k' v')) →
  lock_blind (upsert_existing_func W B replace_func b k v m).
Proof.
  intros Hf. apply lock_blind_first_some. intros offset.
  apply lock_blind_first_some. intros leader.
  apply lock_blind_bind; [apply lock_blind_load_key |]. intros loaded_key.
  destruct (loaded_key =? k); [| apply lock_blind_ret].
  apply lock_blind_bind; [apply Hf |]. intros _. apply lock_blind_ret.
Qed.

Lemma lock_blind_upsert_existing W B b k v m : lock_blind (upsert_existing W B b k v m).
Proof.
  apply lock_blind_first_some. intros offset.
  apply lock_blind_first_some. intros leader.
  apply lock_blind_bind; [apply lock_blind_load_key |]. intros loaded_key.
  destruct (loaded_key =? k); [| apply lock_blind_ret].
  apply lock_blind_bind; [apply lock_blind_store_val |]. intros _. apply lock_blind_ret.
Qed.

Lemma lock_blind_erase_reference W B b k m : lock_blind (erase_reference W B b k m).
Proof.
  apply lock_blind_first_some. intros offset.
  apply lock_blind_bind.
  - apply lock_blind_for_lanes. intros lane. cbv zeta.
    destruct ((offset + lane <? B)%nat && mask_bit m (offset + lane)); [| apply lock_blind_ret].
    apply lock_blind_bind; [apply lock_blind_load_key |]. intros x. apply lock_blind_ret.
  - intros votes. apply lock_blind_first_some. intros leader.
    apply lock_blind_bind; [apply lock_blind_write_key |]. intros swapped. apply lock_blind_ret.
Qed.

Lemma lock_blind_match_free W B free_tag b k m : lock_blind (match_free W B free_tag b k m).
Proof.
  apply lock_blind_first_some. intros offset.
  apply lock_blind_first_some. intros leader.
  apply lock_blind_bind; [apply lock_blind_write_tag |]. intros swapped. apply lock_blind_ret.
Qed.

Lemma lock_blind_load_fill_ballots_huge W B b k : lock_blind (load_fill_ballots_huge W B b k).
Proof.
  apply lock_blind_bind.
  - apply lock_blind_for_lanes. intros rank. apply lock_blind_fold_m.
    intros [[e ts] m] i. destruct (valid_to_load B i); [| apply lock_blind_ret].
    apply lock_blind_bind; [apply lock_blind_load_multi_tags |]. intros tags.
    apply lock_blind_ret.
  - intros [| [[e ts] m] locals]; [apply lock_blind_fail | apply lock_blind_ret].
Qed.

Lemma lock_blind_claim_in W B b k v e ts : lock_blind (claim_in W B b k v e ts).
Proof.
  apply lock_blind_bind; [apply lock_blind_match_free |]. intros [pos |].
  - apply lock_blind_bind; [apply lock_blind_store_pair |]. intros _. apply lock_blind_ret.
  - apply lock_blind_bind; [apply lock_blind_match_free |]. intros [pos |].
    + apply lock_blind_bind; [apply lock_blind_store_pair |]. intros _. apply lock_blind_ret.
    + apply lock_blind_ret.
Qed.

Lemma lock_blind_shortcut_loop_func W B replace_func fuel b k v e ts m :
  (∀ b' i k' v', lock_blind (replace_func b' i k' v')) →
  lock_blind (shortcut_loop_func W B replace_func fuel b k v e ts m).
Proof.
  intros Hf. revert e ts m. induction fuel as [| fuel IH]; intros e ts m; simpl.
  - destruct (below_cutoff B (size_from B e)); [apply lock_blind_fail | apply lock_blind_ret].
  - destruct (below_cutoff B (size_from B e)); [| apply lock_blind_ret].
    apply lock_blind_bind.
    { destruct (negb (popc m =? 0)); [| apply lock_blind_ret].
      apply lock_blind_upsert_existing_func. exact Hf. }
    intros [x |]; [apply lock_blind_ret |].
    apply lock_blind_bind; [apply lock_blind_claim_in |]. intros [|]; [apply lock_blind_ret |].
    apply lock_blind_bind; [apply lock_blind_load_fill_ballots_huge |].
    intros [[e' ts'] m']. apply IH.
Qed.

Lemma lock_blind_balance_loop_func W B replace_func fuel b0 b1 k v e0 ts0 m0 e1 ts1 m1 :
  (∀ b' i k' v', lock_blind (replace_func b' i k' v')) →
  lock_blind (balance_loop_func W B replace_func fuel b0 b1 k v e0 ts0 m0 e1 ts1 m1).
Proof.
  intros Hf. revert e0 ts0 m0 e1 ts1 m1.
  induction fuel as [| fuel IH]; intros e0 ts0 m0 e1 ts1 m1; simpl.
  - destruct (negb (size_from B (Z.lor e0 ts0) =? Z.of_nat B)
              || negb (size_from B (Z.lor e1 ts1) =? Z.of_nat B));
      [apply lock_blind_fail | apply lock_blind_ret].
  - destruct (negb (size_from B (Z.lor e0 ts0) =? Z.of_nat B)
              || negb (size_from B (Z.lor e1 ts1) =? Z.of_nat B)); [| apply lock_blind_ret].
    apply lock_blind_bind.
    { destruct (negb (popc m0 =? 0)); [| apply lock_blind_ret].
      apply lock_blind_upsert_existing_func. exact Hf. }
    intros [x |]; [apply lock_blind_ret |].
    apply lock_blind_bind.
    { destruct (negb (popc m1 =? 0)); [| apply lock_blind_ret].
      apply lock_blind_upsert_existing_func. exact Hf. }
    intros [x |]; [apply lock_blind_ret |].
    apply lock_blind_bind.
    { destruct (size_from B (Z.lor e0 ts0) <=? size_from B (Z.lor e1 ts1));
        apply lock_blind_claim_in. }
    intros [|]; [apply lock_blind_ret |].
    apply lock_blind_bind; [apply lock_blind_load_fill_ballots_huge |]. intros [[e0' ts0'] m0'].
    apply lock_blind_bind; [apply lock_blind_load_fill_ballots_huge |]. intros [[e1' ts1'] m1'].
    apply IH.
Qed.

Lemma lock_blind_upsert_function_internal W B replace_func fuel k v key_hash bucket_0 :
  (∀ b' i k' v', lock_blind (replace_func b' i k' v')) →
  lock_blind (upsert_function_internal W B replace_func fuel k v key_hash bucket_0).
Proof.
  intros Hf. apply lock_blind_bind; [apply lock_blind_load_fill_ballots_huge |].
  intros [[e ts] m].
  apply lock_blind_bind; [apply lock_blind_shortcut_loop_func; exact Hf |].
  intros [r | [[e' ts'] m']]; [apply lock_blind_ret |].
  apply lock_blind_bind; [apply lock_blind_get_second_bucket |]. intros bucket_1.
  apply lock_blind_bind; [apply lock_blind_load_fill_ballots_huge |]. intros [[e1 ts1] m1].
  apply lock_blind_balance_loop_func. exact Hf.
Qed.

Lemma lock_blind_remove_from W B key_hash bucket_0 k :
  lock_blind (remove_from W B key_hash bucket_0 k).
Proof.
  apply lock_blind_bind; [apply lock_blind_load_fill_ballots_huge |]. intros [[e ts] m].
  apply lock_blind_bind; [apply lock_blind_erase_reference |]. intros [index |].
  - apply lock_blind_bind; [apply lock_blind_store_tag |]. intros _. apply lock_blind_ret.
  - apply lock_blind_bind; [apply lock_blind_get_second_bucket |]. intros bucket_1.
    apply lock_blind_bind; [apply lock_blind_load_fill_ballots_huge |]. intros [[e1 ts1] m1].
    apply lock_blind_bind; [apply lock_blind_erase_reference |]. intros [index |].
    + apply lock_blind_bind; [apply lock_blind_store_tag |]. intros _. apply lock_blind_ret.
    + apply lock_blind_ret.
Qed.

(** Two continuations that agree give binds that agree. *)
Lemma bind_ext {A R} (m : M A) (k1 k2 : A → M R) t :
  (∀ a t', k1 a t' = k2 a t') → bind m k1 t = bind m k2 t.
Proof. intros H. unfold bind. destruct (m t) as [[a t'] |]; [apply H | reflexivity]. Qed.

Lemma bind_cong {A R} (m1 m2 : M A) (k1 k2 : A → M R) t :
  m1 t = m2 t → (∀ a t', k1 a t' = k2 a t') → bind m1 k1 t = bind m2 k2 t.
Proof.
  intros Hm H. unfold bind. rewrite Hm. destruct (m2 t) as [[a t'] |]; [apply H | reflexivity].
Qed.

(** [upsert_function_internal] with a function that stores the value is
    [upsert_replace_internal]. *)
Lemma shortcut_loop_func_store W B fuel b k v e ts m t :
  shortcut_loop_func W B (fun b' i _ v' => ht_store_val b' i v') fuel b k v e ts m t
  = shortcut_loop W B fuel b k v e ts m t.
Proof.
  revert e ts m t. induction fuel as [| fuel IH]; intros e ts m t; simpl; [reflexivity |].
  destruct (below_cutoff B (size_from B e)); [| reflexivity].
  apply bind_ext. intros [x |] t1; [reflexivity |].
  apply bind_ext. intros [|] t2; [reflexivity |].
  apply bind_ext. intros [[e' ts'] m'] t3. apply IH.
Qed.

Lemma balance_loop_func_store W B fuel b0 b1 k v e0 ts0 m0 e1 ts1 m1 t :
  balance_loop_func W B (fun b' i _ v' => ht_store_val b' i v') fuel b0 b1 k v
    e0 ts0 m0 e1 ts1 m1 t
  = balance_loop W B fuel b0 b1 k v e0 ts0 m0 e1 ts1 m1 t.
Proof.
  revert e0 ts0 m0 e1 ts1 m1 t.
  induction fuel as [| fuel IH]; intros e0 ts0 m0 e1 ts1 m1 t; simpl; [reflexivity |].
  destruct (negb (size_from B (Z.lor e0 ts0) =? Z.of_nat B)
            || negb (size_from B (Z.lor e1 ts1) =? Z.of_nat B)); [| reflexivity].
  apply bind_ext. intros [x |] t1; [reflexivity |].
  apply bind_ext. intros [x |] t2; [reflexivity |].
  apply bind_ext. intros [|] t3; [reflexivity |].
  apply bind_ext. intros [[e0' ts0'] m0'] t4.
  apply bind_ext. intros [[e1' ts1'] m1'] t5. apply IH.
Qed.

Lemma upsert_function_internal_store W B fuel k v key_hash bucket_0 t :
  upsert_function_internal W B (fun b' i _ v' => ht_store_val b' i v') fuel k v
    key_hash bucket_0 t
  = upsert_replace_internal W B fuel k v key_hash bucket_0 t.
Proof.
  unfold upsert_function_internal, upsert_replace_internal.
  apply bind_ext. intros [[e ts] m] t1.
  apply bind_cong; [apply shortcut_loop_func_store |].
  intros [r | [[e' ts'] m']] t2; [reflexivity |].
  apply bind_ext. intros bucket_1 t3.
  apply bind_ext. intros [[e1 ts1] m1] t4. apply balance_loop_func_store.
Qed.

(** ** Specifications of the bucket operations

    The table is instantiated with tiles of [partition_size] lanes and
    buckets of [bucket_size] slots.  The properties below are proved for
    the instantiations in which the masks fit an [unsigned int] and the
    vector loads stay inside a bucket: [bucket_size] at most 32, a multiple
    of eight and a multiple of [partition_size]. *)

Section BucketSpecs.

Variable partition_size bucket_size : nat.
Hypothesis tile_nonempty : (0 < partition_size)%nat.
Hypothesis bucket_nonempty : (0 < bucket_size)%nat.
Hypothesis bucket_fits_mask : (bucket_size ≤ 32)%nat.

Abbreviation W := partition_size.
Abbreviation B := bucket_size.

(** The vocabulary of [Specification], at this tile and bucket size. *)
Local Abbreviation lane_chunks := (lane_chunks W B).
Local Abbreviation lane_mask := (lane_mask W B).
Local Abbreviation bit_owner := (bit_owner W).
Local Abbreviation tag_mask := (tag_mask B).
Local Abbreviation no_key_in := (no_key_in B).
Local Abbreviation bucket_full := (bucket_full B).
Local Abbreviation in_shortcut := (in_shortcut B).
Local Abbreviation upsert_outcome := (upsert_outcome B).
Local Abbreviation upsert_updated := (upsert_updated B).
Local Abbreviation upsert_claimed := (upsert_claimed B).
Local Abbreviation upsert_refused := (upsert_refused B).
Local Abbreviation remove_outcome := (remove_outcome B).
Local Abbreviation remove_erased := (remove_erased B).
Local Abbreviation remove_absent := (remove_absent B).
Local Abbreviation round_of := (round_of W).
Local Abbreviation serves := (serves W B).
Local Abbreviation lane_replies := (lane_replies W B).
Local Abbreviation no_replies := (no_replies W).
Local Abbreviation probe_hit_by := (probe_hit_by W B).
Local Abbreviation probe_hit := (probe_hit W B).
Local Abbreviation probe_index := (probe_index W B).
Local Abbreviation unserved := (unserved W B).
Local Abbreviation fits_device := (fits_device B).
Local Abbreviation lowest_tag := (lowest_tag B).
Local Abbreviation claimed_slot := (claimed_slot B).
Local Abbreviation picked_bucket := (picked_bucket B).
Local Abbreviation table_inv := (table_inv B).
Local Abbreviation inv_wf := (inv_wf B).
Local Abbreviation inv_locks := (inv_locks B).
Local Abbreviation inv_tag := (inv_tag B).
Local Abbreviation inv_home := (inv_home B).
Local Abbreviation inv_unique := (inv_unique B).
Local Abbreviation inv_shortcut := (inv_shortcut B).
Local Abbreviation shape := (shape B).
Local Abbreviation bucket_fresh := (bucket_fresh B).
Local Abbreviation run_operation := (run_operation W B).
Local Abbreviation reachable := (reachable W B).
Local Abbreviation reachable_new := (reachable_new W B).
Local Abbreviation reachable_step := (reachable_step W B).
Local Abbreviation non_empty_tags := (non_empty_tags B).
Local Abbreviation occupancy := (occupancy B).
Local Abbreviation total_occupancy := (total_occupancy B).
Local Abbreviation round_votes := (round_votes W B).

Lemma n_traversals_ge : (B ≤ n_traversals W B)%nat.
Proof.
  unfold n_traversals.
  pose proof (Nat.div_mod_eq (B - 1) W) as E.
  pose proof (Nat.mod_upper_bound (B - 1) W ltac:(lia)) as Hm.
  nia.
Qed.

(** The slots a stride loop over [n_traversals] visits with [i < bucket_size]. *)
Lemma stride_visits i :
  (i < B)%nat →
  ∃ offset lane, offset ∈ rounds W (n_traversals W B)
                 ∧ lane ∈ lanes_in W offset (n_traversals W B)
                 ∧ i = (offset + lane)%nat.
Proof.
  intros Hi. apply schedule_covers; [exact tile_nonempty |].
  pose proof n_traversals_ge. lia.
Qed.

Lemma match_free_spec free_tag b k free_match t :
  wf B t → (b < n_of t)%nat →
  ∃ r t', match_free W B free_tag b k free_match t = Some (r, t')
          ∧ match r with
            | Some i =>
                (i < B)%nat ∧ mask_bit free_match i = true
                ∧ tag_at t b i = Some free_tag
                ∧ t' = set_tag b i (get_tag k) t
            | None =>
                t' = t
                ∧ ∀ i, (i < B)%nat → mask_bit free_match i = true →
                       tag_at t b i ≠ Some free_tag
            end.
Proof.
  intros Hwf Hb. unfold match_free.
  set (Q := fun (i : nat) (t' : p2_metadata_table) =>
              (i < B)%nat ∧ mask_bit free_match i = true
              ∧ tag_at t b i = Some free_tag
              ∧ t' = set_tag b i (get_tag k) t).
  set (ballot_of := fun offset : nat =>
         ballot (map (fun lane => (lane, (offset + lane <? B)%nat
                                         && mask_bit free_match (offset + lane)))
                     (lanes_in W offset (n_traversals W B)))).
  set (body := fun (offset leader : nat) =>
         swapped <- typed_atomic_write_tag b (offset + leader) free_tag (get_tag k) ;;
         ret (if swapped then Some (offset + leader)%nat else None)).
  set (Miss := fun offset : nat =>
         ∀ leader, leader ∈ ballot_of offset →
                   tag_at t b (offset + leader) ≠ Some free_tag).
  assert (Hround : ∀ offset, offset ∈ rounds W (n_traversals W B) →
            ∃ r t', first_some (ballot_of offset) (body offset) t = Some (r, t')
                    ∧ match r with
                      | Some i => Q i t'
                      | None => t' = t ∧ Miss offset
                      end).
  { intros offset Hoff. apply first_some_spec.
    intros leader Hl. apply ballot_map_In in Hl. destruct Hl as [Hlane Hp].
    apply andb_true_iff in Hp. destruct Hp as [HiB Hbit]. apply Nat.ltb_lt in HiB.
    destruct (proj2 Hwf b (offset + leader)%nat Hb HiB) as [[x Hx] _].
    unfold body.
    rewrite (bind_run _ _ _ _ _ (typed_atomic_write_tag_run b _ free_tag (get_tag k) t x Hx)).
    destruct (Z.eqb_spec x free_tag) as [-> | Hne].
    - eexists _, _. split; [reflexivity |]. unfold Q. auto.
    - eexists _, _. split; [reflexivity |]. simpl. split; [reflexivity | congruence]. }
  destruct (first_some_spec (rounds W (n_traversals W B))
              (fun offset => first_some (ballot_of offset) (body offset)) t Q Miss Hround)
    as (r & t' & Hrun & Hr).
  exists r, t'. split; [exact Hrun |].
  destruct r as [i |]; [exact Hr |]. destruct Hr as [-> Hall].
  split; [reflexivity |]. intros i Hi Hbit.
  destruct (stride_visits i Hi) as (offset & lane & Hoff & Hlane & ->).
  apply (Hall offset Hoff lane). apply ballot_map_In. split; [exact Hlane |].
  apply andb_true_iff. split; [apply Nat.ltb_lt; exact Hi | exact Hbit].
Qed.

Lemma upsert_existing_spec b k v upsert_mapping t :
  wf B t → (b < n_of t)%nat →
  ∃ r t', upsert_existing W B b k v upsert_mapping t = Some (r, t')
          ∧ match r with
            | Some _ =>
                ∃ i p, (i < B)%nat ∧ mask_bit upsert_mapping i = true
                       ∧ pair_at t b i = Some p ∧ key p = k
                       ∧ t' = set_pair b i (mk_pair k v) t
            | None =>
                t' = t
                ∧ ∀ i p, (i < B)%nat → mask_bit upsert_mapping i = true →
                         pair_at t b i = Some p → key p ≠ k
            end.
Proof.
  intros Hwf Hb. unfold upsert_existing.
  set (Q := fun (_ : nat) (t' : p2_metadata_table) =>
              ∃ i p, (i < B)%nat ∧ mask_bit upsert_mapping i = true
                     ∧ pair_at t b i = Some p ∧ key p = k
                     ∧ t' = set_pair b i (mk_pair k v) t).
  set (ballot_of := fun offset : nat =>
         ballot (map (fun lane => (lane, (offset + lane <? B)%nat
                                         && mask_bit upsert_mapping (offset + lane)))
                     (lanes_in W offset (n_traversals W B)))).
  set (body := fun (offset leader : nat) =>
         loaded_key <- hash_table_load_key b (offset + leader) ;;
         if loaded_key =? k
         then (ht_store_val b (offset + leader) v ;;; ret (Some leader))
         else ret None).
  set (Miss := fun offset : nat =>
         ∀ leader, leader ∈ ballot_of offset →
                   ∀ p, pair_at t b (offset + leader) = Some p → key p ≠ k).
  assert (Hround : ∀ offset, offset ∈ rounds W (n_traversals W B) →
            ∃ r t', first_some (ballot_of offset) (body offset) t = Some (r, t')
                    ∧ match r with
                      | Some i => Q i t'
                      | None => t' = t ∧ Miss offset
                      end).
  { intros offset Hoff. apply first_some_spec.
    intros leader Hl. apply ballot_map_In in Hl. destruct Hl as [Hlane Hp].
    apply andb_true_iff in Hp. destruct Hp as [HiB Hbit]. apply Nat.ltb_lt in HiB.
    destruct (proj2 Hwf b (offset + leader)%nat Hb HiB) as [_ [p Hp]].
    unfold body.
    rewrite (bind_run _ _ _ _ _ (hash_table_load_key_run b _ t p Hp)).
    destruct (Z.eqb_spec (key p) k) as [E | Hne].
    - rewrite (bind_run _ _ _ _ _ (ht_store_val_run b _ v t p Hp)).
      eexists _, _. split; [reflexivity |]. unfold Q.
      exists (offset + leader)%nat, p. rewrite E. auto.
    - eexists _, _. split; [reflexivity |]. simpl. split; [reflexivity |].
      intros p' Hp'. congruence. }
  destruct (first_some_spec (rounds W (n_traversals W B))
              (fun offset => first_some (ballot_of offset) (body offset)) t Q Miss Hround)
    as (r & t' & Hrun & Hr).
  exists r, t'. split; [exact Hrun |].
  destruct r as [i |]; [exact Hr |]. destruct Hr as [-> Hall].
  split; [reflexivity |]. intros i p Hi Hbit Hp.
  destruct (stride_visits i Hi) as (offset & lane & Hoff & Hlane & ->).
  apply (Hall offset Hoff lane); [| exact Hp]. apply ballot_map_In. split; [exact Hlane |].
  apply andb_true_iff. split; [apply Nat.ltb_lt; exact Hi | exact Hbit].
Qed.

Lemma erase_reference_spec b k match_ballot t :
  wf B t → (b < n_of t)%nat →
  ∃ r t', erase_reference W B b k match_ballot t = Some (r, t')
          ∧ match r with
            | Some i =>
                ∃ p, (i < B)%nat ∧ mask_bit match_ballot i = true
                     ∧ pair_at t b i = Some p ∧ key p = k
                     ∧ t' = set_pair b i (mk_pair tombstoneKey (val p)) t
            | None =>
                t' = t
                ∧ ∀ i p, (i < B)%nat → mask_bit match_ballot i = true →
                         pair_at t b i = Some p → key p ≠ k
            end.
Proof.
  intros Hwf Hb. unfold erase_reference.
  set (Q := fun (i : nat) (t' : p2_metadata_table) =>
              ∃ p, (i < B)%nat ∧ mask_bit match_ballot i = true
                   ∧ pair_at t b i = Some p ∧ key p = k
                   ∧ t' = set_pair b i (mk_pair tombstoneKey (val p)) t).
  set (found := fun (offset lane : nat) =>
         (offset + lane <? B)%nat && mask_bit match_ballot (offset + lane)
         && match pair_at t b (offset + lane) with
            | Some p => key p =? k
            | None => false
            end).
  set (vote := fun (offset lane : nat) =>
         if (offset + lane <? B)%nat && mask_bit match_ballot (offset + lane)
         then (loaded_key <- hash_table_load_key b (offset + lane) ;;
               ret (lane, loaded_key =? k))
         else ret (lane, false)).
  set (swap := fun (offset leader : nat) =>
         swapped <- typed_atomic_write_key b (offset + leader) k tombstoneKey ;;
         ret (if swapped then Some (offset + leader)%nat else None)).
  set (round := fun offset : nat =>
         votes <- for_lanes (lanes_in W offset (n_traversals W B)) (vote offset) ;;
         first_some (ballot votes) (swap offset)).
  set (Miss := fun offset : nat =>
         ∀ lane, lane ∈ lanes_in W offset (n_traversals W B) → found offset lane = false).
  assert (Hround : ∀ offset, offset ∈ rounds W (n_traversals W B) →
            ∃ r t', round offset t = Some (r, t')
                    ∧ match r with
                      | Some i => Q i t'
                      | None => t' = t ∧ Miss offset
                      end).
  { intros offset Hoff. unfold round.
    destruct (for_lanes_read (lanes_in W offset (n_traversals W B)) (vote offset) t
                (fun lane r => r = (lane, found offset lane))) as (votes & Hvotes & Hrel).
    { intros lane Hlane. unfold vote, found.
      destruct ((offset + lane <? B)%nat && mask_bit match_ballot (offset + lane)) eqn:Hv.
      - apply andb_true_iff in Hv. destruct Hv as [HiB _]. apply Nat.ltb_lt in HiB.
        destruct (proj2 Hwf b (offset + lane)%nat Hb HiB) as [_ [p Hp]].
        rewrite (bind_run _ _ _ _ _ (hash_table_load_key_run b _ t p Hp)).
        rewrite Hp. eexists. split; reflexivity.
      - eexists. split; reflexivity. }
    apply Forall2_eq_map in Hrel. subst votes.
    rewrite (bind_run _ _ _ _ _ Hvotes).
    destruct (first_some_spec
                (ballot (map (fun lane => (lane, found offset lane))
                             (lanes_in W offset (n_traversals W B))))
                (swap offset) t Q (fun _ => False)) as (r & t' & Hrun & Hr).
    { intros leader Hl. apply ballot_map_In in Hl. destruct Hl as [Hlane Hf].
      unfold found in Hf. apply andb_true_iff in Hf. destruct Hf as [Hf Hk].
      apply andb_true_iff in Hf. destruct Hf as [HiB Hbit]. apply Nat.ltb_lt in HiB.
      destruct (pair_at t b (offset + leader)) as [p |] eqn:Hp; [| discriminate].
      unfold swap.
      rewrite (bind_run _ _ _ _ _ (typed_atomic_write_key_run b _ k tombstoneKey t p Hp)).
      rewrite Hk. eexists _, _. split; [reflexivity |]. unfold Q.
      exists p. apply Z.eqb_eq in Hk. auto. }
    exists r, t'. split; [exact Hrun |].
    destruct r as [i |]; [exact Hr |]. destruct Hr as [-> Hall].
    split; [reflexivity |]. intros lane Hlane.
    destruct (found offset lane) eqn:Hf; [| reflexivity].
    exfalso. apply (Hall lane). apply ballot_map_In. auto. }
  destruct (first_some_spec (rounds W (n_traversals W B)) round t Q Miss Hround)
    as (r & t' & Hrun & Hr).
  exists r, t'. split; [exact Hrun |].
  destruct r as [i |]; [exact Hr |]. destruct Hr as [-> Hall].
  split; [reflexivity |]. intros i p Hi Hbit Hp.
  destruct (stride_visits i Hi) as (offset & lane & Hoff & Hlane & ->).
  specialize (Hall offset Hoff lane Hlane). unfold found in Hall.
  rewrite Hp, Hbit, (proj2 (Nat.ltb_lt _ _) Hi) in Hall. simpl in Hall.
  apply Z.eqb_neq. exact Hall.
Qed.

(** *** The loops that read eight tags at a time

    They stay inside the tag array of the bucket when [bucket_size] is a
    multiple of eight and of [partition_size]. *)

Hypothesis bucket_octets : (B mod 8 = 0)%nat.
Hypothesis tile_divides : (B mod W = 0)%nat.

Lemma n_traversals_eq : n_traversals W B = B.
Proof.
  unfold n_traversals.
  pose proof (Nat.div_mod_eq B W) as E. rewrite tile_divides in E.
  set (q := (B / W)%nat) in *.
  assert (1 ≤ q)%nat by nia.
  assert ((B - 1) / W = q - 1)%nat as ->.
  { symmetry. apply (Nat.div_unique _ _ _ (W - 1)); nia. }
  nia.
Qed.

Lemma n_loads_eq : (n_loads W B * 8 = B)%nat.
Proof.
  unfold n_loads. rewrite n_traversals_eq.
  pose proof (Nat.div_mod_eq B 8) as E. rewrite bucket_octets in E.
  set (q := (B / 8)%nat) in *.
  assert (1 ≤ q)%nat by nia.
  assert ((B - 1) / 8 = q - 1)%nat as ->.
  { symmetry. apply (Nat.div_unique _ _ _ 7); nia. }
  nia.
Qed.

Lemma valid_to_load_true i : (i < n_loads W B)%nat → valid_to_load B i = true.
Proof.
  intros Hi. unfold valid_to_load. apply Nat.ltb_lt.
  pose proof n_loads_eq. change (1 / 8)%nat with 0%nat. lia.
Qed.

Lemma tagv_tag_at t b i : is_Some (tag_at t b i) → tag_at t b i = Some (tagv t b i).
Proof. intros [x Hx]. unfold tagv. rewrite Hx. reflexivity. Qed.

Lemma load_multi_tags_run b i t :
  wf B t → (b < n_of t)%nat → (i < n_loads W B)%nat →
  load_multi_tags b (i * 8) t = Some (map (tagv t b) (seq (i * 8) 8), t).
Proof.
  intros Hwf Hb Hi. unfold load_multi_tags.
  destruct (for_lanes_read (seq (i * 8) 8) (fun j => hash_table_load_tag b j) t
              (fun j r => r = tagv t b j)) as (tags & Hrun & Hrel).
  - intros j Hj. apply list_elem_of_In, in_seq in Hj.
    pose proof n_loads_eq.
    assert (j < B)%nat as HjB by lia.
    destruct (proj2 Hwf b j Hb HjB) as [Hs _].
    exists (tagv t b j). split; [| reflexivity].
    apply hash_table_load_tag_run. apply tagv_tag_at. exact Hs.
  - apply Forall2_eq_map in Hrel. subst tags. exact Hrun.
Qed.

Lemma chunk_lookup t b i j :
  (j < 8)%nat → default 0 (map (tagv t b) (seq (i * 8) 8) !! j) = tagv t b (i * 8 + j).
Proof.
  intros Hj. change (map (tagv t b) (seq (i * 8) 8)) with (tagv t b <$> seq (i * 8) 8).
  rewrite list_lookup_fmap, lookup_seq_lt by exact Hj. reflexivity.
Qed.

Lemma set_index_testbit (c : bool) idx n :
  (idx < 32)%nat → 0 ≤ n →
  Z.testbit (Z.b2z c * wrap32 (SET_BIT_MASK idx)) n = c && (n =? Z.of_nat idx).
Proof.
  intros Hidx Hn. rewrite SET_BIT_MASK_pow2 by lia.
  unfold wrap32. rewrite Z.mod_small.
  2:{ split; [apply Z.pow_nonneg; lia | apply Z.pow_lt_mono_r; lia]. }
  destruct c; simpl Z.b2z.
  - rewrite Z.mul_1_l, Z.pow2_bits_eqb by lia. simpl. rewrite Z.eqb_sym. reflexivity.
  - rewrite Z.mul_0_l, Z.bits_0. reflexivity.
Qed.

Lemma local_bits_fold_testbit (tags : list Z) i x js acc n :
  0 ≤ n → (∀ j, j ∈ js → (i * 8 + j < 32)%nat) →
  Z.testbit
    (fold_left (fun acc j =>
                  Z.lor acc (Z.b2z (default 0 (tags !! j) =? x)
                             * wrap32 (SET_BIT_MASK (i * 8 + j)))) js acc) n
  = Z.testbit acc n
    || existsb (fun j => (default 0 (tags !! j) =? x) && (n =? Z.of_nat (i * 8 + j))) js.
Proof.
  intros Hn. revert acc. induction js as [| j js IH]; intros acc Hjs; simpl.
  - rewrite orb_false_r. reflexivity.
  - rewrite IH by (intros j' Hj'; apply Hjs; right; exact Hj').
    rewrite Z.lor_spec, set_index_testbit; [| apply Hjs; left | exact Hn].
    rewrite orb_assoc. reflexivity.
Qed.

(** Bit [n] of what lane-local mask a chunk of eight tags contributes. *)
Lemma local_bits_testbit t b i x n :
  0 ≤ n → (i < n_loads W B)%nat →
  Z.testbit (local_bits (map (tagv t b) (seq (i * 8) 8)) i x 0) n = true
  ↔ ∃ j, (j < 8)%nat ∧ n = Z.of_nat (i * 8 + j) ∧ tagv t b (i * 8 + j) = x.
Proof.
  intros Hn Hi. unfold local_bits. pose proof n_loads_eq as HB.
  rewrite local_bits_fold_testbit; [| exact Hn |].
  2:{ intros j Hj. apply list_elem_of_In, in_seq in Hj. lia. }
  rewrite Z.bits_0, orb_false_l, existsb_exists. split.
  - intros (j & Hj & Hc). apply in_seq in Hj. apply andb_true_iff in Hc.
    destruct Hc as [Hx Hidx]. apply Z.eqb_eq in Hx, Hidx.
    rewrite chunk_lookup in Hx by lia. exists j. split; [lia | auto].
  - intros (j & Hj & -> & Hx). exists j. split; [apply in_seq; lia |].
    rewrite chunk_lookup by lia. apply andb_true_iff. split; apply Z.eqb_eq; auto.
Qed.

Lemma lane_chunks_In rank c :
  c ∈ lane_chunks rank ↔
  (c < n_loads W B)%nat ∧ ∃ offset, offset ∈ rounds W (n_loads W B) ∧ c = (offset + rank)%nat.
Proof.
  unfold lane_chunks. rewrite list_elem_of_In, filter_In, in_map_iff, Nat.ltb_lt. split.
  - intros [(offset & <- & Hoff) Hc]. split; [exact Hc |].
    exists offset. split; [apply list_elem_of_In; exact Hoff | reflexivity].
  - intros [Hc (offset & Hoff & ->)]. split; [| exact Hc].
    exists offset. split; [reflexivity | apply list_elem_of_In; exact Hoff].
Qed.

Lemma fold_left_triple {A} (f g h : A → Z) xs e ts m :
  fold_left (fun '(e, ts, m) i => (Z.lor e (f i), Z.lor ts (g i), Z.lor m (h i))) xs (e, ts, m)
  = (fold_left (fun acc i => Z.lor acc (f i)) xs e,
     fold_left (fun acc i => Z.lor acc (g i)) xs ts,
     fold_left (fun acc i => Z.lor acc (h i)) xs m).
Proof.
  revert e ts m. induction xs as [| x xs IH]; intros e ts m; simpl; [reflexivity |].
  apply IH.
Qed.

Lemma lane_fill_run b key_tag rank t :
  wf B t → (b < n_of t)%nat →
  lane_fill W B b key_tag rank t
  = Some ((lane_mask t b empty_tag rank, lane_mask t b tombstone_tag rank,
           lane_mask t b key_tag rank), t).
Proof.
  intros Hwf Hb. unfold lane_fill. fold (lane_chunks rank).
  erewrite fold_m_read
    with (step := fun '(e, ts, m) i =>
                    (Z.lor e (chunk_bits t b empty_tag i),
                     Z.lor ts (chunk_bits t b tombstone_tag i),
                     Z.lor m (chunk_bits t b key_tag i))).
  - rewrite fold_left_triple. reflexivity.
  - intros c [[e ts] m] Hc. apply lane_chunks_In in Hc. destruct Hc as [Hc _].
    rewrite valid_to_load_true by exact Hc.
    rewrite (bind_run _ _ _ _ _ (load_multi_tags_run b c t Hwf Hb Hc)). reflexivity.
Qed.

Lemma lane_mask_testbit t b x rank n :
  0 ≤ n →
  Z.testbit (lane_mask t b x rank) n = true
  ↔ ∃ c j, c ∈ lane_chunks rank ∧ (j < 8)%nat
           ∧ n = Z.of_nat (c * 8 + j) ∧ tagv t b (c * 8 + j) = x.
Proof.
  intros Hn. unfold lane_mask.
  rewrite fold_left_lor_testbit, Z.bits_0, orb_false_l, existsb_exists. split.
  - intros (c & Hc & Hbit). apply list_elem_of_In in Hc.
    apply local_bits_testbit in Hbit; [| exact Hn | apply lane_chunks_In in Hc; tauto].
    destruct Hbit as (j & Hj & E & Hx). exists c, j. auto.
  - intros (c & j & Hc & Hj & E & Hx). exists c. split; [apply list_elem_of_In; exact Hc |].
    apply local_bits_testbit; [exact Hn | apply lane_chunks_In in Hc; tauto |].
    exists j. auto.
Qed.

Lemma lane_mask_owner t b x rank n :
  (rank < W)%nat → 0 ≤ n → Z.testbit (lane_mask t b x rank) n = true → bit_owner n = rank.
Proof.
  intros Hr Hn Hbit. apply lane_mask_testbit in Hbit; [| exact Hn].
  destruct Hbit as (c & j & Hc & Hj & -> & _).
  apply lane_chunks_In in Hc. destruct Hc as [_ (offset & Hoff & ->)].
  apply rounds_In in Hoff; [| exact tile_nonempty]. destruct Hoff as (r & -> & _).
  unfold bit_owner. rewrite Nat2Z.id.
  replace ((r * W + rank) * 8 + j)%nat with (j + (r * W + rank) * 8)%nat by lia.
  rewrite Nat.div_add by lia. rewrite (Nat.div_small j 8) by lia. simpl.
  rewrite Nat.add_comm, Nat.Div0.mod_add. apply Nat.mod_small. exact Hr.
Qed.

Lemma tag_mask_upto_testbit t b x n m :
  Z.testbit (tag_mask_upto t b x n) (Z.of_nat m) = true
  ↔ (m < n)%nat ∧ tag_at t b m = Some x.
Proof.
  induction n as [| n IH]; simpl.
  - rewrite Z.bits_0. split; [discriminate | lia].
  - rewrite Z.lor_spec, orb_true_iff, IH. destruct (decide (tag_at t b n = Some x)) as [E | Hne].
    + rewrite Z.pow2_bits_eqb by lia. rewrite Z.eqb_eq. split.
      * intros [Hm | [Hm Hx]]; [| split; [lia | exact Hx]].
        apply Nat2Z.inj in Hm. subst m. split; [lia | exact E].
      * intros [Hm Hx]. destruct (Nat.eq_dec m n) as [-> | Hne]; [left; reflexivity |].
        right. split; [lia | exact Hx].
    + rewrite Z.bits_0. split.
      * intros [Hm | [Hm Hx]]; [discriminate | split; [lia | exact Hx]].
      * intros [Hm Hx]. right. split; [| exact Hx].
        destruct (Nat.eq_dec m n) as [-> | Hne']; [contradiction | lia].
Qed.

Lemma tag_mask_testbit t b x m :
  Z.testbit (tag_mask t b x) (Z.of_nat m) = true ↔ (m < B)%nat ∧ tag_at t b m = Some x.
Proof. apply tag_mask_upto_testbit. Qed.

Lemma lanes_mask_testbit t b x n :
  wf B t → (b < n_of t)%nat → 0 ≤ n →
  Z.testbit (fold_right Z.lor 0 (map (lane_mask t b x) (seq 0 W))) n = true
  ↔ (Z.to_nat n < B)%nat ∧ tag_at t b (Z.to_nat n) = Some x.
Proof.
  intros Hwf Hb Hn. pose proof n_loads_eq as HB.
  rewrite fold_right_lor_testbit, existsb_exists. split.
  - intros (m & Hm & Hbit). apply in_map_iff in Hm. destruct Hm as (lane & <- & Hlane).
    apply lane_mask_testbit in Hbit; [| exact Hn].
    destruct Hbit as (c & j & Hc & Hj & -> & Hx).
    apply lane_chunks_In in Hc. destruct Hc as [Hc _].
    rewrite Nat2Z.id.
    assert (c * 8 + j < B)%nat as Hlt by lia. split; [exact Hlt |].
    rewrite <- Hx. apply tagv_tag_at. apply (proj2 Hwf); assumption.
  - intros [Hlt Hx].
    set (m := Z.to_nat n) in *.
    assert (m / 8 < n_loads W B)%nat as Hc.
    { apply Nat.Div0.div_lt_upper_bound. lia. }
    destruct (schedule_covers W tile_nonempty _ _ Hc) as (offset & lane & Hoff & Hlane & E).
    exists (lane_mask t b x lane). split.
    + apply in_map_iff. exists lane. split; [reflexivity |].
      apply in_seq. apply (lanes_in_In W tile_nonempty) in Hlane. lia.
    + apply lane_mask_testbit; [exact Hn |].
      exists (m / 8)%nat, (m mod 8)%nat.
      pose proof (Nat.div_mod_eq m 8) as Hdm.
      pose proof (Nat.mod_upper_bound m 8 ltac:(lia)) as Hmod.
      replace (m / 8 * 8 + m mod 8)%nat with m by lia.
      split; [| split; [exact Hmod | split]].
      * apply lane_chunks_In. split; [exact Hc |]. exists offset. auto.
      * unfold m. lia.
      * unfold tagv. rewrite Hx. reflexivity.
Qed.

(** What the final [cg::reduce] and [|=] leave in each lane. *)
Lemma reduced_mask t b x :
  wf B t → (b < n_of t)%nat →
  Z.lor (lane_mask t b x 0) (reduce_plus (map (lane_mask t b x) (seq 0 W))) = tag_mask t b x.
Proof.
  intros Hwf Hb. unfold reduce_plus.
  rewrite (sum_disjoint_masks (lane_mask t b x) bit_owner).
  2:{ apply NoDup_seq. }
  2:{ intros l n Hl Hn Hbit. apply list_elem_of_In, in_seq in Hl.
      apply (lane_mask_owner t b x); [lia | assumption..]. }
  apply Z.bits_inj'. intros n Hn. apply eq_iff_eq_true.
  pose proof (tag_mask_testbit t b x (Z.to_nat n)) as Hrhs.
  rewrite Z2Nat.id in Hrhs by exact Hn. rewrite Hrhs. clear Hrhs.
  rewrite Z.lor_spec, orb_true_iff. unfold wrap32.
  split.
  - intros [Hbit | Hbit].
    + apply (lanes_mask_testbit t b x n Hwf Hb Hn).
      rewrite fold_right_lor_testbit. apply existsb_exists.
      exists (lane_mask t b x 0). split; [| exact Hbit].
      apply in_map_iff. exists 0%nat. split; [reflexivity |]. apply in_seq. lia.
    + destruct (Z_lt_le_dec n 32) as [Hlo | Hhi].
      * rewrite Z.mod_pow2_bits_low in Hbit by lia.
        apply (lanes_mask_testbit t b x n Hwf Hb Hn). exact Hbit.
      * rewrite Z.mod_pow2_bits_high in Hbit by lia. discriminate.
  - intros H. right. rewrite Z.mod_pow2_bits_low by lia.
    apply (lanes_mask_testbit t b x n Hwf Hb Hn). exact H.
Qed.

(** [load_fill_ballots_huge] reads the three masks of the bucket and leaves
    memory as it is. *)
Lemma load_fill_ballots_huge_run b k t :
  wf B t → (b < n_of t)%nat →
  load_fill_ballots_huge W B b k t
  = Some ((tag_mask t b empty_tag, tag_mask t b tombstone_tag, tag_mask t b (get_tag k)), t).
Proof.
  intros Hwf Hb. unfold load_fill_ballots_huge.
  destruct (for_lanes_read (seq 0 W) (lane_fill W B b (get_tag k)) t
              (fun rank r => r = (lane_mask t b empty_tag rank,
                                  lane_mask t b tombstone_tag rank,
                                  lane_mask t b (get_tag k) rank)))
    as (locals & Hrun & Hrel).
  { intros rank _. eexists. split; [apply lane_fill_run; assumption | reflexivity]. }
  apply Forall2_eq_map in Hrel.
  rewrite (bind_run _ _ _ _ _ Hrun). subst locals.
  set (g := fun rank => (lane_mask t b empty_tag rank, lane_mask t b tombstone_tag rank,
                         lane_mask t b (get_tag k) rank)).
  rewrite !map_map.
  assert (∃ rest, map g (seq 0 W) = g 0%nat :: rest) as [rest Hcons].
  { clear -tile_nonempty. destruct W; [lia |]. eexists. reflexivity. }
  rewrite Hcons. unfold g at 1. cbn [fst snd]. unfold ret.
  rewrite !reduced_mask by assumption. reflexivity.
Qed.

Lemma callers_in_In callers offset bound lane :
  lane ∈ callers_in callers offset bound ↔ lane ∈ callers ∧ (offset + lane < bound)%nat.
Proof.
  unfold callers_in. rewrite !list_elem_of_In, filter_In, Nat.ltb_lt. tauto.
Qed.

(** The probe of a bucket by the lanes [callers]: memory stays as it is;
    the lanes inside the loop in the round [offset] of the first hit get
    the value; without a hit no slot that a caller loads holds the key. *)
Lemma query_md_and_bucket_large_spec callers b k t :
  wf B t → (b < n_of t)%nat →
  ∃ hit, query_md_and_bucket_large W B callers b k t
         = Some (map (fun lane => (lane, lane_reply (n_loads W B) hit lane)) callers, t)
       ∧ probe_hit t callers b k hit.
Proof.
  intros Hwf Hb. pose proof n_loads_eq as HB. unfold query_md_and_bucket_large.
  set (Q := fun (y : nat * Z) (t' : p2_metadata_table) =>
              t' = t ∧ ∃ lane j, y.1 ∈ rounds W (n_loads W B) ∧ lane ∈ callers
                                 ∧ (y.1 + lane < n_loads W B)%nat ∧ (j < 8)%nat
                                 ∧ slot_hit t b k ((y.1 + lane) * 8 + j) = Some y.2).
  set (load := fun (offset lane : nat) =>
         if valid_to_load B (offset + lane)
         then (tags <- load_multi_tags b ((offset + lane) * 8) ;;
               ret ((offset + lane)%nat, Some tags))
         else ret ((offset + lane)%nat, None)).
  set (vote := fun (j : nat) (entry : nat * option (list Z)) =>
         let '(i, tags) := entry in
         match tags with
         | Some tags =>
             if default 0 (tags !! j) =? get_tag k
             then (loaded_pair <- ht_load_packed_pair b (i * 8 + j) ;;
                   ret (if key loaded_pair =? k then Some (val loaded_pair) else None))
             else ret None
         | None => ret None
         end).
  set (round := fun offset : nat =>
         loaded <- for_lanes (callers_in callers offset (n_loads W B)) (load offset) ;;
         first_some (seq 0 8) (fun j =>
           votes <- for_lanes loaded (vote j) ;;
           ret (match leader_val votes with
                | Some v => Some (offset, v)
                | None => None
                end))).
  set (Miss := fun offset : nat =>
         ∀ lane j, lane ∈ callers_in callers offset (n_loads W B) → (j < 8)%nat →
                   slot_hit t b k ((offset + lane) * 8 + j) = None).
  assert (Hround : ∀ offset, offset ∈ rounds W (n_loads W B) →
            ∃ r t', round offset t = Some (r, t')
                    ∧ match r with
                      | Some y => Q y t'
                      | None => t' = t ∧ Miss offset
                      end).
  { intros offset Hoff. unfold round.
    destruct (for_lanes_read (callers_in callers offset (n_loads W B)) (load offset) t
                (fun lane r => r = ((offset + lane)%nat,
                                    Some (map (tagv t b) (seq ((offset + lane) * 8) 8)))))
      as (loaded & Hloaded & Hrel).
    { intros lane Hlane. apply callers_in_In in Hlane.
      destruct Hlane as [_ Hi]. unfold load.
      rewrite valid_to_load_true by exact Hi.
      rewrite (bind_run _ _ _ _ _ (load_multi_tags_run b _ t Hwf Hb Hi)).
      eexists. split; reflexivity. }
    apply Forall2_eq_map in Hrel. rewrite (bind_run _ _ _ _ _ Hloaded).
    assert (Hentry : ∀ entry, entry ∈ loaded →
              ∃ lane, lane ∈ callers_in callers offset (n_loads W B)
                      ∧ entry = ((offset + lane)%nat,
                                 Some (map (tagv t b) (seq ((offset + lane) * 8) 8)))).
    { intros entry He. rewrite Hrel in He. apply list_elem_of_In, in_map_iff in He.
      destruct He as (lane & <- & Hlane). exists lane.
      split; [apply list_elem_of_In; exact Hlane | reflexivity]. }
    destruct (first_some_spec (seq 0 8)
                (fun j => votes <- for_lanes loaded (vote j) ;;
                          ret (match leader_val votes with
                               | Some v => Some (offset, v)
                               | None => None
                               end))
                t Q
                (fun j => ∀ entry, entry ∈ loaded → slot_hit t b k (entry.1 * 8 + j) = None))
      as (r & t' & Hrun & Hr).
    { intros j Hj. apply list_elem_of_In, in_seq in Hj.
      destruct (for_lanes_read loaded (vote j) t
                  (fun entry r => r = slot_hit t b k (entry.1 * 8 + j)))
        as (votes & Hvotes & Hvrel).
      { intros entry He. destruct (Hentry entry He) as (lane & Hlane & ->).
        apply callers_in_In in Hlane. destruct Hlane as [_ Hi].
        unfold vote, slot_hit. cbn [fst].
        rewrite chunk_lookup by lia.
        destruct (tagv t b ((offset + lane) * 8 + j) =? get_tag k).
        - assert ((offset + lane) * 8 + j < B)%nat as Hidx by lia.
          destruct (proj2 Hwf b _ Hb Hidx) as [_ [p Hp]].
          rewrite (bind_run _ _ _ _ _ (ht_load_packed_pair_run b _ t p Hp)).
          rewrite Hp. eexists. split; reflexivity.
        - eexists. split; reflexivity. }
      apply Forall2_eq_map in Hvrel. rewrite (bind_run _ _ _ _ _ Hvotes).
      destruct (leader_val votes) as [v |] eqn:Hlv.
      - exists (Some (offset, v)), t. split; [reflexivity |].
        apply leader_val_Some in Hlv. rewrite Hvrel in Hlv.
        apply in_map_iff in Hlv. destruct Hlv as (entry & Hhit & He).
        apply list_elem_of_In in He.
        destruct (Hentry entry He) as (lane & Hlane & ->).
        apply callers_in_In in Hlane. destruct Hlane as [Hcaller Hi].
        cbn [fst] in Hhit. split; [reflexivity |].
        exists lane, j. cbn [fst snd]. split; [exact Hoff |]. split; [exact Hcaller |].
        split; [exact Hi |]. split; [lia | exact Hhit].
      - exists None, t. split; [reflexivity |].
        split; [reflexivity |]. intros entry He.
        apply (leader_val_None votes Hlv).
        rewrite Hvrel. apply in_map_iff. exists entry.
        split; [reflexivity | apply list_elem_of_In; exact He]. }
    exists r, t'. split; [exact Hrun |].
    destruct r as [v |]; [exact Hr |]. destruct Hr as [-> Hall].
    split; [reflexivity |]. intros lane j Hlane Hj.
    apply (Hall j ltac:(apply list_elem_of_In, in_seq; lia)
                ((offset + lane)%nat, Some (map (tagv t b) (seq ((offset + lane) * 8) 8)))).
    rewrite Hrel. apply list_elem_of_In, in_map_iff. exists lane.
    split; [reflexivity | apply list_elem_of_In; exact Hlane]. }
  destruct (first_some_spec (rounds W (n_loads W B)) round t Q Miss Hround)
    as (r & t' & Hrun & Hr).
  assert (t' = t) as -> by (destruct r; [apply Hr | apply Hr]).
  exists r. fold load vote. fold round. rewrite (bind_run _ _ _ _ _ Hrun).
  split; [reflexivity |].
  destruct r as [[offset v] |].
  - destruct Hr as [_ Hhit]. exact Hhit.
  - destruct Hr as [_ Hall]. intros offset lane j Hoff Hlane Hi Hj.
    apply (Hall offset Hoff lane j); [| exact Hj].
    apply callers_in_In. split; assumption.
Qed.

(** The round in which the tags around a slot are loaded. *)
Lemma round_of_slot offset lane j :
  offset ∈ rounds W (n_loads W B) → (lane < W)%nat → (j < 8)%nat →
  round_of ((offset + lane) * 8 + j) = offset.
Proof.
  intros Hoff Hlane Hj. apply (rounds_In W tile_nonempty) in Hoff.
  destruct Hoff as (r & -> & _). unfold round_of.
  replace (((r * W + lane) * 8 + j) / 8)%nat with (r * W + lane)%nat.
  2:{ apply (Nat.div_unique _ _ _ j); lia. }
  replace ((r * W + lane) / W)%nat with r; [reflexivity |].
  apply (Nat.div_unique _ _ _ lane); lia.
Qed.

(** Every slot of the bucket is loaded by a lane of the tile in its round. *)
Lemma slot_schedule idx :
  (idx < B)%nat →
  ∃ lane, (lane < W)%nat ∧ round_of idx ∈ rounds W (n_loads W B)
          ∧ (round_of idx + lane < n_loads W B)%nat
          ∧ idx = ((round_of idx + lane) * 8 + idx mod 8)%nat.
Proof.
  intros Hidx. pose proof n_loads_eq as HB.
  assert (idx / 8 < n_loads W B)%nat as Hc.
  { apply Nat.Div0.div_lt_upper_bound. lia. }
  pose proof (Nat.div_mod_eq idx 8) as Hdm.
  pose proof (Nat.div_mod_eq (idx / 8) W) as E.
  pose proof (Nat.mod_upper_bound (idx / 8) W ltac:(lia)) as Hm.
  exists ((idx / 8) mod W)%nat. unfold round_of.
  split; [exact Hm |]. split.
  - apply (rounds_In W tile_nonempty). exists (idx / 8 / W)%nat. split; [reflexivity | nia].
  - split; nia.
Qed.

Lemma serves_lane_0 idx : (idx < B)%nat → serves idx 0 = true.
Proof.
  intros Hidx. destruct (slot_schedule idx Hidx) as (lane & _ & _ & Hlt & _).
  unfold serves. apply Nat.ltb_lt. lia.
Qed.

Lemma slot_hit_Some t b k idx v :
  wf B t → (b < n_of t)%nat → (idx < B)%nat →
  slot_hit t b k idx = Some v ↔
  tag_at t b idx = Some (get_tag k) ∧ pair_at t b idx = Some (mk_pair k v).
Proof.
  intros Hwf Hb Hidx. unfold slot_hit.
  destruct (proj2 Hwf b idx Hb Hidx) as [[x Hx] [p Hp]].
  unfold tagv. rewrite Hx, Hp. simpl. split.
  - destruct (Z.eqb_spec x (get_tag k)) as [-> | _]; [| discriminate].
    destruct (Z.eqb_spec (key p) k) as [Ek | _]; [| discriminate].
    intros E. inversion E. destruct p as [pk pv]. simpl in *. subst. auto.
  - intros [E1 E2]. inversion E1; inversion E2; subst. simpl.
    rewrite !Z.eqb_refl. reflexivity.
Qed.

(** *** Masks and occupancy *)

Lemma tag_mask_bit t b x i :
  (i < B)%nat → mask_bit (tag_mask t b x) i = true ↔ tag_at t b i = Some x.
Proof.
  intros Hi. rewrite mask_bit_testbit by lia. rewrite tag_mask_testbit. tauto.
Qed.

Lemma tag_mask_high t b x i :
  (B ≤ i)%nat → Z.testbit (tag_mask t b x) (Z.of_nat i) = false.
Proof.
  intros Hi. destruct (Z.testbit (tag_mask t b x) (Z.of_nat i)) eqn:Hb; [| reflexivity].
  apply tag_mask_testbit in Hb. lia.
Qed.

Lemma popc_below m :
  (∀ i, (B ≤ i)%nat → Z.testbit m (Z.of_nat i) = false) → 0 ≤ popc m ≤ Z.of_nat B.
Proof.
  intros H. unfold popc.
  rewrite (count_bits_above B 64 m) by (lia || intros i Hi; apply H; lia).
  pose proof (count_bits_le B m). lia.
Qed.

Lemma size_from_below m :
  (∀ i, (B ≤ i)%nat → Z.testbit m (Z.of_nat i) = false) →
  size_from B m = Z.of_nat B - popc m.
Proof.
  intros H. pose proof (popc_below m H). unfold size_from, wrap32.
  apply Z.mod_small. lia.
Qed.

Lemma lor_high m1 m2 :
  (∀ i, (B ≤ i)%nat → Z.testbit m1 (Z.of_nat i) = false) →
  (∀ i, (B ≤ i)%nat → Z.testbit m2 (Z.of_nat i) = false) →
  ∀ i, (B ≤ i)%nat → Z.testbit (Z.lor m1 m2) (Z.of_nat i) = false.
Proof. intros H1 H2 i Hi. rewrite Z.lor_spec, H1, H2 by exact Hi. reflexivity. Qed.

(** A mask with a set bit has a set bit below [bucket_size]. *)
Lemma popc_pos_bit m :
  (∀ i, (B ≤ i)%nat → Z.testbit m (Z.of_nat i) = false) →
  popc m ≠ 0 → ∃ i, (i < B)%nat ∧ Z.testbit m (Z.of_nat i) = true.
Proof.
  intros Hhigh Hp.
  destruct (classic_bit_search m) as [(i & Hi & Hbit) | Hnone].
  - exists i. split; [| exact Hbit].
    destruct (le_lt_dec B i) as [Hge | Hlt]; [| exact Hlt].
    rewrite Hhigh in Hbit by exact Hge. discriminate.
  - exfalso. apply Hp. apply popc_zero. exact Hnone.
Qed.

(** *** The steps of [upsert_replace_internal] *)

Lemma try_update_spec b k v t :
  wf B t → (b < n_of t)%nat →
  ∃ r t', (if negb (popc (tag_mask t b (get_tag k)) =? 0)
           then upsert_existing W B b k v (tag_mask t b (get_tag k))
           else ret None) t = Some (r, t')
          ∧ match r with
            | Some _ =>
                ∃ i p, (i < B)%nat ∧ tag_at t b i = Some (get_tag k)
                       ∧ pair_at t b i = Some p ∧ key p = k
                       ∧ t' = set_pair b i (mk_pair k v) t
            | None => t' = t ∧ no_key_in t b k
            end.
Proof.
  intros Hwf Hb. destruct (Z.eqb_spec (popc (tag_mask t b (get_tag k))) 0) as [Hz | Hnz]; simpl.
  - exists None, t. split; [reflexivity |]. split; [reflexivity |].
    intros i p Hi Htag _. exfalso.
    apply popc_zero with (i := i) in Hz; [| lia].
    apply tag_mask_bit in Htag; [| exact Hi].
    rewrite mask_bit_testbit in Htag by lia. congruence.
  - destruct (upsert_existing_spec b k v (tag_mask t b (get_tag k)) t Hwf Hb)
      as (r & t' & Hrun & Hr).
    exists r, t'. split; [exact Hrun |]. destruct r as [lane |].
    + destruct Hr as (i & p & Hi & Hbit & Hp & Hk & Ht').
      exists i, p. apply tag_mask_bit in Hbit; auto.
    + destruct Hr as [-> Hall]. split; [reflexivity |].
      intros i p Hi Htag Hp. apply (Hall i p Hi); [| exact Hp].
      apply tag_mask_bit; assumption.
Qed.

Lemma claim_in_spec b k v t :
  wf B t → (b < n_of t)%nat →
  ∃ r t', claim_in W B b k v (tag_mask t b empty_tag) (tag_mask t b tombstone_tag) t
          = Some (r, t')
          ∧ if r : bool
            then ∃ i free_tag,
                   (i < B)%nat ∧ tag_at t b i = Some free_tag
                   ∧ (free_tag = tombstone_tag
                      ∨ (free_tag = empty_tag
                         ∧ ∀ i', (i' < B)%nat → tag_at t b i' ≠ Some tombstone_tag))
                   ∧ t' = set_pair b i (mk_pair k v) (set_tag b i (get_tag k) t)
            else t' = t ∧ bucket_full t b.
Proof.
  intros Hwf Hb. unfold claim_in, match_tombstone, match_empty, store_claimed.
  destruct (match_free_spec tombstone_tag b k (tag_mask t b tombstone_tag) t Hwf Hb)
    as (r & t1 & Hrun & Hr).
  rewrite (bind_run _ _ _ _ _ Hrun). destruct r as [i |].
  - destruct Hr as (Hi & _ & Htag & ->).
    rewrite (bind_run _ _ _ _ _
               (ht_store_packed_pair_run b i (mk_pair k v) (set_tag b i (get_tag k) t)
                  (proj2 (proj2 (wf_set_tag B b i (get_tag k) t Hwf) b i Hb Hi)))).
    eexists true, _. split; [reflexivity |]. exists i, tombstone_tag. auto.
  - destruct Hr as [-> Hnotomb].
    assert (Hnt : ∀ i', (i' < B)%nat → tag_at t b i' ≠ Some tombstone_tag).
    { intros i' Hi' Htag. apply (Hnotomb i' Hi'); [| exact Htag].
      apply tag_mask_bit; assumption. }
    destruct (match_free_spec empty_tag b k (tag_mask t b empty_tag) t Hwf Hb)
      as (r & t1 & Hrun' & Hr).
    rewrite (bind_run _ _ _ _ _ Hrun'). destruct r as [i |].
    + destruct Hr as (Hi & _ & Htag & ->).
      rewrite (bind_run _ _ _ _ _
                 (ht_store_packed_pair_run b i (mk_pair k v) (set_tag b i (get_tag k) t)
                    (proj2 (proj2 (wf_set_tag B b i (get_tag k) t Hwf) b i Hb Hi)))).
      eexists true, _. split; [reflexivity |]. exists i, empty_tag.
      split; [exact Hi |]. split; [exact Htag |]. split; [right; auto | reflexivity].
    + destruct Hr as [-> Hnoempty].
      exists false, t. split; [reflexivity |]. split; [reflexivity |].
      intros i Hi. split.
      * intros Htag. apply (Hnoempty i Hi); [| exact Htag]. apply tag_mask_bit; assumption.
      * apply Hnt. exact Hi.
Qed.

(** Below the cutoff a bucket has an empty tag. *)
Lemma in_shortcut_not_full t b : in_shortcut t b = true → ¬ bucket_full t b.
Proof.
  unfold in_shortcut, below_cutoff. intros Hg Hfull. apply Z.ltb_lt in Hg.
  rewrite size_from_below in Hg by (apply tag_mask_high).
  assert (popc (tag_mask t b empty_tag) ≠ 0) as Hp by lia.
  apply popc_pos_bit in Hp; [| apply tag_mask_high].
  destruct Hp as (i & Hi & Hbit). apply tag_mask_testbit in Hbit.
  apply (proj1 (Hfull i Hi)). tauto.
Qed.

(** A bucket whose size in the second loop is [bucket_size] is full. *)
Lemma balance_size_full t b :
  size_from B (Z.lor (tag_mask t b empty_tag) (tag_mask t b tombstone_tag)) = Z.of_nat B
  ↔ bucket_full t b.
Proof.
  rewrite size_from_below by (apply lor_high; apply tag_mask_high).
  split.
  - intros Hs. assert (popc (Z.lor (tag_mask t b empty_tag) (tag_mask t b tombstone_tag)) = 0)
      as Hp by lia.
    intros i Hi. apply popc_zero with (i := i) in Hp; [| lia].
    rewrite Z.lor_spec in Hp. apply orb_false_iff in Hp. destruct Hp as [He Ht].
    split; intros Htag.
    + assert (Z.testbit (tag_mask t b empty_tag) (Z.of_nat i) = true)
        by (apply tag_mask_testbit; auto). congruence.
    + assert (Z.testbit (tag_mask t b tombstone_tag) (Z.of_nat i) = true)
        by (apply tag_mask_testbit; auto). congruence.
  - intros Hfull.
    assert (popc (Z.lor (tag_mask t b empty_tag) (tag_mask t b tombstone_tag)) = 0); [| lia].
    apply popc_zero. intros i Hi. rewrite Z.lor_spec. apply orb_false_iff.
    split.
    + destruct (Z.testbit (tag_mask t b empty_tag) (Z.of_nat i)) eqn:Hb; [| reflexivity].
      apply tag_mask_testbit in Hb. destruct Hb as [HiB Htag].
      exfalso. apply (proj1 (Hfull i HiB)). exact Htag.
    + destruct (Z.testbit (tag_mask t b tombstone_tag) (Z.of_nat i)) eqn:Hb; [| reflexivity].
      apply tag_mask_testbit in Hb. destruct Hb as [HiB Htag].
      exfalso. apply (proj2 (Hfull i HiB)). exact Htag.
Qed.

Lemma balance_size_le t b :
  size_from B (Z.lor (tag_mask t b empty_tag) (tag_mask t b tombstone_tag)) ≤ Z.of_nat B.
Proof.
  rewrite size_from_below by (apply lor_high; apply tag_mask_high).
  pose proof (popc_range (Z.lor (tag_mask t b empty_tag) (tag_mask t b tombstone_tag))). lia.
Qed.

(** *** [upsert_replace_internal] *)

Lemma shortcut_loop_S fuel b k v e ts m :
  shortcut_loop W B (S fuel) b k v e ts m
  = if below_cutoff B (size_from B e) then
      (updated <- (if negb (popc m =? 0) then upsert_existing W B b k v m else ret None) ;;
       match updated with
       | Some _ => ret (inl true)
       | None =>
           claimed <- claim_in W B b k v e ts ;;
           if claimed : bool then ret (inl true)
           else
             reload <- load_fill_ballots_huge W B b k ;;
             let '(e', ts', m') := reload in
             shortcut_loop W B fuel b k v e' ts' m'
       end)
    else ret (inr (e, ts, m)).
Proof. reflexivity. Qed.

Lemma balance_loop_S fuel b0 b1 k v e0 ts0 m0 e1 ts1 m1 :
  balance_loop W B (S fuel) b0 b1 k v e0 ts0 m0 e1 ts1 m1
  = if negb (size_from B (Z.lor e0 ts0) =? Z.of_nat B)
       || negb (size_from B (Z.lor e1 ts1) =? Z.of_nat B) then
      (updated_0 <- (if negb (popc m0 =? 0) then upsert_existing W B b0 k v m0 else ret None) ;;
       match updated_0 with
       | Some _ => ret true
       | None =>
           updated_1 <- (if negb (popc m1 =? 0)
                         then upsert_existing W B b1 k v m1 else ret None) ;;
           match updated_1 with
           | Some _ => ret true
           | None =>
               claimed <- (if size_from B (Z.lor e0 ts0) <=? size_from B (Z.lor e1 ts1)
                           then claim_in W B b0 k v e0 ts0
                           else claim_in W B b1 k v e1 ts1) ;;
               if claimed : bool then ret true
               else
                 reload_0 <- load_fill_ballots_huge W B b0 k ;;
                 reload_1 <- load_fill_ballots_huge W B b1 k ;;
                 let '(e0', ts0', m0') := reload_0 in
                 let '(e1', ts1', m1') := reload_1 in
                 balance_loop W B fuel b0 b1 k v e0' ts0' m0' e1' ts1' m1'
           end
       end)
    else ret false.
Proof. reflexivity. Qed.

Lemma shortcut_loop_spec fuel b0 b1 k v t :
  wf B t → (b0 < n_of t)%nat →
  ∃ res t', shortcut_loop W B (S fuel) b0 k v (tag_mask t b0 empty_tag)
              (tag_mask t b0 tombstone_tag) (tag_mask t b0 (get_tag k)) t
            = Some (res, t')
            ∧ match res with
              | inl r => in_shortcut t b0 = true ∧ upsert_outcome t b0 b1 k v r t'
              | inr masks =>
                  in_shortcut t b0 = false ∧ t' = t
                  ∧ masks = (tag_mask t b0 empty_tag, tag_mask t b0 tombstone_tag,
                             tag_mask t b0 (get_tag k))
              end.
Proof.
  intros Hwf Hb. rewrite shortcut_loop_S. fold (in_shortcut t b0).
  destruct (in_shortcut t b0) eqn:Hg.
  2:{ eexists (inr _), t. split; [reflexivity |]. auto. }
  destruct (try_update_spec b0 k v t Hwf Hb) as (r & t1 & Hrun & Hr).
  rewrite (bind_run _ _ _ _ _ Hrun). destruct r as [lane |].
  - destruct Hr as (i & p & Hi & Htag & Hp & Hk & ->).
    eexists (inl true), _. split; [reflexivity |]. split; [reflexivity |].
    apply (upsert_updated t b0 b1 k v b0 i p); auto.
    intros [Hfull _]. exact (in_shortcut_not_full t b0 Hg Hfull).
  - destruct Hr as [-> Hnokey].
    destruct (claim_in_spec b0 k v t Hwf Hb) as (r & t1 & Hrun' & Hr).
    rewrite (bind_run _ _ _ _ _ Hrun'). destruct r.
    + destruct Hr as (i & free_tag & Hi & Htag & Hfree & ->).
      eexists (inl true), _. split; [reflexivity |]. split; [reflexivity |].
      apply (upsert_claimed t b0 b1 k v b0 i free_tag); auto.
    + destruct Hr as [_ Hfull]. exfalso.
      apply (in_shortcut_not_full t b0 Hg Hfull).
Qed.

Lemma balance_loop_spec fuel b0 b1 k v t :
  wf B t → (b0 < n_of t)%nat → (b1 < n_of t)%nat → in_shortcut t b0 = false →
  ∃ r t', balance_loop W B (S fuel) b0 b1 k v
            (tag_mask t b0 empty_tag) (tag_mask t b0 tombstone_tag) (tag_mask t b0 (get_tag k))
            (tag_mask t b1 empty_tag) (tag_mask t b1 tombstone_tag) (tag_mask t b1 (get_tag k)) t
          = Some (r, t')
          ∧ upsert_outcome t b0 b1 k v r t'.
Proof.
  intros Hwf Hb0 Hb1 Hg. rewrite balance_loop_S.
  set (size0 := size_from B (Z.lor (tag_mask t b0 empty_tag) (tag_mask t b0 tombstone_tag))).
  set (size1 := size_from B (Z.lor (tag_mask t b1 empty_tag) (tag_mask t b1 tombstone_tag))).
  pose proof (balance_size_le t b0) as Hle0. pose proof (balance_size_le t b1) as Hle1.
  fold size0 in Hle0. fold size1 in Hle1.
  destruct (negb (size0 =? Z.of_nat B) || negb (size1 =? Z.of_nat B)) eqn:Hloop.
  2:{ apply orb_false_iff in Hloop. destruct Hloop as [H0 H1].
      apply negb_false_iff, Z.eqb_eq in H0, H1.
      exists false, t. split; [reflexivity |].
      apply upsert_refused; [exact Hg | apply balance_size_full; exact H0
                            | apply balance_size_full; exact H1]. }
  assert (Hroom : ¬ (bucket_full t b0 ∧ bucket_full t b1)).
  { intros [Hf0 Hf1]. apply balance_size_full in Hf0, Hf1. fold size0 in Hf0. fold size1 in Hf1.
    rewrite Hf0, Hf1, Z.eqb_refl in Hloop. discriminate. }
  destruct (try_update_spec b0 k v t Hwf Hb0) as (r & t1 & Hrun & Hr).
  rewrite (bind_run _ _ _ _ _ Hrun). destruct r as [lane |].
  { destruct Hr as (i & p & Hi & Htag & Hp & Hk & ->).
    eexists true, _. split; [reflexivity |].
    apply (upsert_updated t b0 b1 k v b0 i p); auto. }
  destruct Hr as [-> Hnokey0].
  destruct (try_update_spec b1 k v t Hwf Hb1) as (r & t1 & Hrun1 & Hr).
  rewrite (bind_run _ _ _ _ _ Hrun1). destruct r as [lane |].
  { destruct Hr as (i & p & Hi & Htag & Hp & Hk & ->).
    eexists true, _. split; [reflexivity |].
    apply (upsert_updated t b0 b1 k v b1 i p); auto. }
  destruct Hr as [-> Hnokey1].
  destruct (Z.leb_spec size0 size1) as [Hpick | Hpick].
  - destruct (claim_in_spec b0 k v t Hwf Hb0) as (r & t1 & Hrun' & Hr).
    rewrite (bind_run _ _ _ _ _ Hrun'). destruct r.
    + destruct Hr as (i & free_tag & Hi & Htag & Hfree & ->).
      eexists true, _. split; [reflexivity |].
      apply (upsert_claimed t b0 b1 k v b0 i free_tag); auto.
    + destruct Hr as [_ Hfull]. exfalso.
      apply balance_size_full in Hfull. fold size0 in Hfull.
      apply orb_true_iff in Hloop. destruct Hloop as [H | H];
        apply negb_true_iff, Z.eqb_neq in H; lia.
  - destruct (claim_in_spec b1 k v t Hwf Hb1) as (r & t1 & Hrun' & Hr).
    rewrite (bind_run _ _ _ _ _ Hrun'). destruct r.
    + destruct Hr as (i & free_tag & Hi & Htag & Hfree & ->).
      eexists true, _. split; [reflexivity |].
      apply (upsert_claimed t b0 b1 k v b1 i free_tag); auto.
    + destruct Hr as [_ Hfull]. exfalso.
      apply balance_size_full in Hfull. fold size1 in Hfull. lia.
Qed.

Lemma get_first_bucket_run h t :
  0 < n_buckets t →
  get_first_bucket h t = Some (Z.land h (BITMASK 32) mod n_buckets t, t).
Proof.
  intros Hn. unfold get_first_bucket.
  destruct (Z.eqb_spec (n_buckets t) 0); [lia | reflexivity].
Qed.

Lemma get_second_bucket_run h t :
  0 < n_buckets t →
  get_second_bucket h t = Some (Z.shiftr h 32 mod n_buckets t, t).
Proof.
  intros Hn. unfold get_second_bucket.
  destruct (Z.eqb_spec (n_buckets t) 0); [lia | reflexivity].
Qed.

Lemma first_bucket_lt t k : 0 < n_buckets t → (first_bucket t k < n_of t)%nat.
Proof.
  intros Hn. unfold first_bucket, n_of.
  pose proof (Z.mod_pos_bound (Z.land (hash k 8 (seed t)) (BITMASK 32)) (n_buckets t) Hn). lia.
Qed.

Lemma second_bucket_lt t k : 0 < n_buckets t → (second_bucket t k < n_of t)%nat.
Proof.
  intros Hn. unfold second_bucket, n_of.
  pose proof (Z.mod_pos_bound (Z.shiftr (hash k 8 (seed t)) 32) (n_buckets t) Hn). lia.
Qed.

Lemma upsert_replace_internal_spec fuel k v t :
  wf B t →
  ∃ r t', upsert_replace_internal W B (S fuel) k v (hash k 8 (seed t))
            (Z.land (hash k 8 (seed t)) (BITMASK 32) mod n_buckets t) t
          = Some (r, t')
          ∧ upsert_outcome t (first_bucket t k) (second_bucket t k) k v r t'.
Proof.
  intros Hwf. pose proof (proj1 Hwf) as Hn.
  pose proof (first_bucket_lt t k Hn) as Hb0. pose proof (second_bucket_lt t k Hn) as Hb1.
  unfold upsert_replace_internal. fold (first_bucket t k).
  rewrite (bind_run _ _ _ _ _ (load_fill_ballots_huge_run _ k t Hwf Hb0)).
  destruct (shortcut_loop_spec fuel (first_bucket t k) (second_bucket t k) k v t Hwf Hb0)
    as (res & t1 & Hrun & Hres).
  rewrite (bind_run _ _ _ _ _ Hrun). destruct res as [r | masks].
  - exists r, t1. split; [reflexivity | apply Hres].
  - destruct Hres as (Hg & -> & ->).
    rewrite (bind_run _ _ _ _ _ (get_second_bucket_run _ t Hn)).
    fold (second_bucket t k).
    rewrite (bind_run _ _ _ _ _ (load_fill_ballots_huge_run _ k t Hwf Hb1)).
    apply balance_loop_spec; assumption.
Qed.

(** *** The table operations *)

Lemma tag_mask_ext t t' b x :
  (∀ i, tag_at t b i = tag_at t' b i) → tag_mask t b x = tag_mask t' b x.
Proof.
  intros H. unfold tag_mask. generalize B as n.
  induction n as [| n IH]; simpl; [reflexivity |].
  rewrite IH, H. reflexivity.
Qed.

Lemma in_shortcut_ext t t' b :
  (∀ i, tag_at t b i = tag_at t' b i) → in_shortcut t b = in_shortcut t' b.
Proof. intros H. unfold in_shortcut. rewrite (tag_mask_ext t t' b _ H). reflexivity. Qed.

Lemma upsert_outcome_relock (f : list Z → list Z) t b0 b1 k v r t' :
  upsert_outcome (with_locks f t) b0 b1 k v r t' →
  upsert_outcome t b0 b1 k v r (with_locks (fun _ => locks t) t').
Proof.
  intros H.
  assert (Hg : in_shortcut (with_locks f t) b0 = in_shortcut t b0)
    by (apply in_shortcut_ext; reflexivity).
  destruct H as [b i p H1 H2 H3 H4 H5 H6 | b i free_tag H1 H2 H3 H4 H5 | H1 H2 H3];
    rewrite Hg in *.
  - replace (with_locks _ _) with (set_pair b i (mk_pair k v) t)
      by (destruct t; reflexivity).
    exact (upsert_updated t b0 b1 k v b i p H1 H2 H3 H4 H5 H6).
  - replace (with_locks _ _) with (set_pair b i (mk_pair k v) (set_tag b i (get_tag k) t))
      by (destruct t; reflexivity).
    exact (upsert_claimed t b0 b1 k v b i free_tag H1 H2 H3 H4 H5).
  - replace (with_locks _ _) with t by (destruct t; reflexivity).
    exact (upsert_refused t b0 b1 k v H1 H2 H3).
Qed.

Lemma upsert_outcome_locks t b0 b1 k v r t' :
  upsert_outcome t b0 b1 k v r t' →
  locks t' = locks t ∧ n_buckets t' = n_buckets t ∧ seed t' = seed t.
Proof. intros H. destruct H; auto. Qed.

Lemma first_bucket_range t k :
  0 < n_buckets t →
  0 ≤ Z.land (hash k 8 (seed t)) (BITMASK 32) mod n_buckets t < n_buckets t.
Proof. intros Hn. apply Z.mod_pos_bound. exact Hn. Qed.

(** [upsert_replace] on a well-formed table whose locks are free: it returns,
    with one of the three outcomes, and leaves the locks free. *)
Lemma upsert_replace_spec fuel k v t :
  wf B t → locks_free t →
  ∃ r t', upsert_replace W B (S fuel) k v t = Some (r, t')
          ∧ upsert_outcome t (first_bucket t k) (second_bucket t k) k v r t'.
Proof.
  intros Hwf Hlocks. pose proof (proj1 Hwf) as Hn.
  set (bucket_0 := Z.land (hash k 8 (seed t)) (BITMASK 32) mod n_buckets t).
  destruct (Hlocks bucket_0 (first_bucket_range t k Hn)) as (w & Hw & Hrange & Hclear).
  unfold upsert_replace. unfold get_seed at 1.
  rewrite (bind_run _ _ _ _ _ (eq_refl : (fun t => Some (seed t, t)) t = Some (seed t, t))).
  rewrite (bind_run _ _ _ _ _ (get_first_bucket_run _ t Hn)). fold bucket_0.
  unfold stall_lock.
  rewrite (bind_run _ _ _ _ _ (stall_lock_one_thread_run fuel bucket_0 t w Hw Hclear)).
  set (t1 := with_locks (fun l => <[lock_word bucket_0 := Z.lor w (lock_bit bucket_0)]> l) t).
  assert (wf B t1) as Hwf1 by exact Hwf.
  destruct (upsert_replace_internal_spec fuel k v t1 Hwf1) as (r & t2 & Hrun & Hout).
  change (seed t1) with (seed t) in Hrun. change (n_buckets t1) with (n_buckets t) in Hrun.
  fold bucket_0 in Hrun. rewrite (bind_run _ _ _ _ _ Hrun).
  destruct (upsert_outcome_locks _ _ _ _ _ _ _ Hout) as (Hl2 & Hn2 & Hs2).
  assert (locks t2 !! lock_word bucket_0 = Some (Z.lor w (lock_bit bucket_0))) as Hw2.
  { rewrite Hl2. simpl. apply list_lookup_insert_eq. apply lookup_lt_Some in Hw. exact Hw. }
  unfold unlock. rewrite (bind_run _ _ _ _ _ (unlock_bucket_one_thread_run bucket_0 t2 _ Hw2)).
  exists r. eexists. split; [reflexivity |].
  apply upsert_outcome_relock in Hout.
  replace (with_locks _ t2) with (with_locks (fun _ => locks t) t2); [exact Hout |].
  unfold with_locks. f_equal. rewrite Hl2. simpl. symmetry.
  apply lock_then_unlock; assumption.
Qed.

Lemma unlock_after bucket t w t2 :
  locks t !! lock_word bucket = Some w → 0 ≤ w < 2 ^ 64 →
  Z.testbit w (bucket mod 64) = false →
  locks t2 = <[lock_word bucket := Z.lor w (lock_bit bucket)]> (locks t) →
  unlock bucket t2 = Some (tt, with_locks (fun _ => locks t) t2).
Proof.
  intros Hw Hrange Hclear Hl2.
  assert (locks t2 !! lock_word bucket = Some (Z.lor w (lock_bit bucket))) as Hw2.
  { rewrite Hl2. apply list_lookup_insert_eq. apply lookup_lt_Some in Hw. exact Hw. }
  unfold unlock. rewrite (unlock_bucket_one_thread_run bucket t2 _ Hw2).
  unfold with_locks. do 3 f_equal. rewrite Hl2.
  apply lock_then_unlock; assumption.
Qed.

Lemma remove_spec fuel k t :
  wf B t → locks_free t →
  ∃ r t', remove W B (S fuel) k t = Some (r, t')
          ∧ remove_outcome t (first_bucket t k) (second_bucket t k) k r t'.
Proof.
  intros Hwf Hlocks. pose proof (proj1 Hwf) as Hn.
  set (bucket_0 := Z.land (hash k 8 (seed t)) (BITMASK 32) mod n_buckets t).
  destruct (Hlocks bucket_0 (first_bucket_range t k Hn)) as (w & Hw & Hrange & Hclear).
  pose proof (first_bucket_lt t k Hn) as Hb0. pose proof (second_bucket_lt t k Hn) as Hb1.
  unfold remove. unfold get_seed at 1.
  rewrite (bind_run _ _ _ _ _ (eq_refl : (fun t => Some (seed t, t)) t = Some (seed t, t))).
  rewrite (bind_run _ _ _ _ _ (get_first_bucket_run _ t Hn)). fold bucket_0.
  unfold stall_lock.
  rewrite (bind_run _ _ _ _ _ (stall_lock_one_thread_run fuel bucket_0 t w Hw Hclear)).
  set (t1 := with_locks (fun l => <[lock_word bucket_0 := Z.lor w (lock_bit bucket_0)]> l) t).
  assert (wf B t1) as Hwf1 by exact Hwf.
  fold (first_bucket t k).
  rewrite (bind_run _ _ _ _ _ (load_fill_ballots_huge_run (first_bucket t k) k t1 Hwf1 Hb0)).
  destruct (erase_reference_spec (first_bucket t k) k
              (tag_mask t1 (first_bucket t k) (get_tag k)) t1 Hwf1 Hb0)
    as (r & t2 & Hrun & Hr).
  rewrite (bind_run _ _ _ _ _ Hrun). destruct r as [i |].
  { destruct Hr as (p & Hi & Hbit & Hp & Hk & ->).
    apply tag_mask_bit in Hbit; [| exact Hi].
    unfold set_tombstone.
    rewrite (bind_run _ _ _ _ _
               (store_tag_run (first_bucket t k) i tombstone_tag _
                  (proj1 (proj2 (wf_set_pair B _ i _ t1 Hwf1) _ i Hb0 Hi)))).
    rewrite (bind_run _ _ _ _ _
               (unlock_after bucket_0 t w
                  (set_tag (first_bucket t k) i tombstone_tag
                     (set_pair (first_bucket t k) i (mk_pair tombstoneKey (val p)) t1))
                  Hw Hrange Hclear eq_refl)).
    exists true. eexists. split; [reflexivity |].
    replace (with_locks _ _)
      with (set_tag (first_bucket t k) i tombstone_tag
              (set_pair (first_bucket t k) i (mk_pair tombstoneKey (val p)) t))
      by (destruct t; reflexivity).
    exact (remove_erased t _ _ k (first_bucket t k) i p Hi Hbit Hp Hk (or_introl eq_refl)). }
  destruct Hr as [-> Hall0].
  assert (no_key_in t (first_bucket t k) k) as Hnk0.
  { intros i p Hi Htag Hp. apply (Hall0 i p Hi); [| exact Hp].
    apply tag_mask_bit; assumption. }
  rewrite (bind_run _ _ _ _ _ (get_second_bucket_run _ t1 Hn)).
  change (Z.to_nat (Z.shiftr (hash k 8 (seed t)) 32 mod n_buckets t1))
    with (second_bucket t k).
  rewrite (bind_run _ _ _ _ _ (load_fill_ballots_huge_run (second_bucket t k) k t1 Hwf1 Hb1)).
  destruct (erase_reference_spec (second_bucket t k) k
              (tag_mask t1 (second_bucket t k) (get_tag k)) t1 Hwf1 Hb1)
    as (r & t2 & Hrun1 & Hr).
  rewrite (bind_run _ _ _ _ _ Hrun1). destruct r as [i |].
  { destruct Hr as (p & Hi & Hbit & Hp & Hk & ->).
    apply tag_mask_bit in Hbit; [| exact Hi].
    unfold set_tombstone.
    rewrite (bind_run _ _ _ _ _
               (store_tag_run (second_bucket t k) i tombstone_tag _
                  (proj1 (proj2 (wf_set_pair B _ i _ t1 Hwf1) _ i Hb1 Hi)))).
    rewrite (bind_run _ _ _ _ _
               (unlock_after bucket_0 t w
                  (set_tag (second_bucket t k) i tombstone_tag
                     (set_pair (second_bucket t k) i (mk_pair tombstoneKey (val p)) t1))
                  Hw Hrange Hclear eq_refl)).
    exists true. eexists. split; [reflexivity |].
    replace (with_locks _ _)
      with (set_tag (second_bucket t k) i tombstone_tag
              (set_pair (second_bucket t k) i (mk_pair tombstoneKey (val p)) t))
      by (destruct t; reflexivity).
    exact (remove_erased t _ _ k (second_bucket t k) i p Hi Hbit Hp Hk
             (or_intror (conj eq_refl Hnk0))). }
  destruct Hr as [-> Hall1].
  rewrite (bind_run _ _ _ _ _ (unlock_after bucket_0 t w t1 Hw Hrange Hclear eq_refl)).
  exists false. eexists. split; [reflexivity |].
  replace (with_locks _ _) with t by (destruct t; reflexivity).
  apply remove_absent; [exact Hnk0 |].
  intros i p Hi Htag Hp. apply (Hall1 i p Hi); [| exact Hp].
  apply tag_mask_bit; assumption.
Qed.

Lemma reply_of_map {R} (f : nat → option R) callers lane :
  reply_of lane (map (fun l => (l, f l)) callers)
  = if bool_decide (lane ∈ callers) then f lane else None.
Proof.
  unfold reply_of. induction callers as [| c callers IH]; simpl.
  - reflexivity.
  - destruct (Nat.eqb_spec c lane) as [-> | Hne]; simpl.
    + rewrite bool_decide_true by left. reflexivity.
    + rewrite IH. destruct (bool_decide (lane ∈ callers)) eqn:E.
      * apply bool_decide_eq_true in E. rewrite bool_decide_true by (right; exact E).
        reflexivity.
      * apply bool_decide_eq_false in E. rewrite bool_decide_false; [reflexivity |].
        intros Hin. inversion Hin; subst; auto.
Qed.

Lemma unserved_In {R} (hit : option (nat * R)) lane :
  lane ∈ unserved hit ↔ (lane < W)%nat ∧ lane_reply (n_loads W B) hit lane = None.
Proof.
  unfold unserved. rewrite list_elem_of_In, filter_In, in_seq.
  destruct (lane_reply (n_loads W B) hit lane); split; intros [H1 H2];
    (discriminate || split; (lia || reflexivity)).
Qed.

(** [find_with_reference] probes the primary bucket with the whole tile and
    the secondary bucket with the lanes the first probe left without a
    reply; a lane returns the first reply it got. *)
Lemma find_with_reference_run k t :
  wf B t →
  ∃ hit0 hit1,
    find_with_reference W B k t
    = Some (map (fun lane => match lane_reply (n_loads W B) hit0 lane with
                             | Some v => Some v
                             | None => lane_reply (n_loads W B) hit1 lane
                             end) (seq 0 W), t)
    ∧ probe_hit t (seq 0 W) (first_bucket t k) k hit0
    ∧ probe_hit t (unserved hit0) (second_bucket t k) k hit1.
Proof.
  intros Hwf. pose proof (proj1 Hwf) as Hn.
  pose proof (first_bucket_lt t k Hn) as Hb0. pose proof (second_bucket_lt t k Hn) as Hb1.
  unfold find_with_reference. unfold get_seed at 1.
  rewrite (bind_run _ _ _ _ _ (eq_refl : (fun t => Some (seed t, t)) t = Some (seed t, t))).
  rewrite (bind_run _ _ _ _ _ (get_first_bucket_run _ t Hn)). fold (first_bucket t k).
  destruct (query_md_and_bucket_large_spec (seq 0 W) (first_bucket t k) k t Hwf Hb0)
    as (hit0 & Hrun0 & H0).
  rewrite (bind_run _ _ _ _ _ Hrun0).
  rewrite (bind_run _ _ _ _ _ (get_second_bucket_run _ t Hn)). fold (second_bucket t k).
  assert (Hrest : List.filter
            (fun lane => match reply_of lane
                                 (map (fun lane0 => (lane0, lane_reply (n_loads W B) hit0 lane0))
                                      (seq 0 W)) with
                         | Some _ => false
                         | None => true
                         end) (seq 0 W) = unserved hit0).
  { unfold unserved. apply filter_ext_in. intros lane Hlane.
    rewrite reply_of_map, bool_decide_true by (apply list_elem_of_In; exact Hlane).
    reflexivity. }
  rewrite Hrest.
  destruct (query_md_and_bucket_large_spec (unserved hit0) (second_bucket t k) k t Hwf Hb1)
    as (hit1 & Hrun1 & H1).
  rewrite (bind_run _ _ _ _ _ Hrun1).
  exists hit0, hit1. split; [| split; assumption].
  unfold ret. f_equal. f_equal. apply map_ext_in. intros lane Hlane.
  rewrite reply_of_map, bool_decide_true by (apply list_elem_of_In; exact Hlane).
  destruct (lane_reply (n_loads W B) hit0 lane) as [v |] eqn:E0; [reflexivity |].
  rewrite reply_of_map, bool_decide_true; [reflexivity |].
  apply unserved_In. split; [apply in_seq in Hlane; lia | exact E0].
Qed.

Lemma find_with_reference_spec k t :
  wf B t → ∃ r, find_with_reference W B k t = Some (r, t).
Proof.
  intros Hwf. destruct (find_with_reference_run k t Hwf) as (hit0 & hit1 & Hrun & _).
  eauto.
Qed.

Lemma find_with_reference_no_lock_eq k :
  find_with_reference_no_lock W B k = find_with_reference W B k.
Proof. reflexivity. Qed.

(** ** The invariant of the table *)

Lemma key_at_set_pair_eq b i p t :
  is_Some (pair_at t b i) → key_at (set_pair b i p t) b i = Some (key p).
Proof. intros H. unfold key_at. rewrite pair_at_set_pair_eq by exact H. reflexivity. Qed.

Lemma key_at_set_pair_ne b i p t b' i' :
  (b, i) ≠ (b', i') → key_at (set_pair b i p t) b' i' = key_at t b' i'.
Proof. intros H. unfold key_at. rewrite pair_at_set_pair_ne by exact H. reflexivity. Qed.

Lemma key_at_set_tag b i x t b' i' : key_at (set_tag b i x t) b' i' = key_at t b' i'.
Proof. reflexivity. Qed.

Lemma no_key_in_key_at t b k i :
  no_key_in t b k → (i < B)%nat → tag_at t b i = Some (get_tag k) → key_at t b i ≠ Some k.
Proof.
  intros Hno Hi Htag Hk. unfold key_at in Hk.
  destruct (pair_at t b i) as [p |] eqn:Hp; [| discriminate].
  inversion Hk. apply (Hno i p Hi Htag Hp). assumption.
Qed.

(** Tags that do not become empty keep a bucket at or above the cutoff. *)
Lemma in_shortcut_mono t t' b :
  (∀ j, (j < B)%nat → tag_at t' b j = Some empty_tag → tag_at t b j = Some empty_tag) →
  in_shortcut t b = false → in_shortcut t' b = false.
Proof.
  unfold in_shortcut, below_cutoff. intros Hsub Hg.
  rewrite size_from_below in * by (apply tag_mask_high).
  apply Z.ltb_ge in Hg. apply Z.ltb_ge.
  assert (popc (tag_mask t' b empty_tag) ≤ popc (tag_mask t b empty_tag)); [| lia].
  apply popc_mono. intros j Hj Hbit. apply tag_mask_testbit in Hbit.
  apply tag_mask_testbit. destruct Hbit as [HjB Htag]. auto.
Qed.

(** A live key found in the table is found by the scan of its bucket. *)
Lemma inv_no_key t k b i :
  table_inv t → user_key k → (b < n_of t)%nat → (i < B)%nat →
  key_at t b i = Some k → no_key_in t b k → False.
Proof.
  intros Hinv Hlive Hb Hi Hk Hno.
  apply (no_key_in_key_at t b k i Hno Hi); [| exact Hk].
  apply (inv_tag t Hinv b i k); assumption.
Qed.

Lemma user_key_not_tombstone : ¬ user_key tombstoneKey.
Proof. intros [_ H]. apply H. reflexivity. Qed.

(** Overwriting the value of a slot keeps the invariant. *)
Lemma inv_updated t b i p v :
  table_inv t → pair_at t b i = Some p →
  table_inv (set_pair b i (mk_pair (key p) v) t).
Proof.
  intros Hinv Hp.
  set (t' := set_pair b i (mk_pair (key p) v) t).
  assert (Hkey : ∀ x j, key_at t' x j = key_at t x j).
  { intros x j. destruct (decide ((b, i) = (x, j))) as [E | Hne].
    - inversion E; subst x j. unfold t'. rewrite key_at_set_pair_eq by eauto.
      unfold key_at. rewrite Hp. reflexivity.
    - apply key_at_set_pair_ne. exact Hne. }
  assert (Hcut : ∀ x, in_shortcut t' x = in_shortcut t x).
  { intros x. apply in_shortcut_ext. reflexivity. }
  split.
  - apply wf_set_pair. apply (inv_wf t Hinv).
  - exact (inv_locks t Hinv).
  - intros x j k Hx Hj Hk Hlive. rewrite Hkey in Hk.
    exact (inv_tag t Hinv x j k Hx Hj Hk Hlive).
  - intros x j k Hx Hj Hk Hlive. rewrite Hkey in Hk.
    exact (inv_home t Hinv x j k Hx Hj Hk Hlive).
  - intros x j x' j' k Hx Hj Hx' Hj' Hk Hk' Hlive. rewrite Hkey in Hk, Hk'.
    exact (inv_unique t Hinv x j x' j' k Hx Hj Hx' Hj' Hk Hk' Hlive).
  - intros x j k Hx Hj Hk Hlive Hne. rewrite Hkey in Hk. rewrite Hcut.
    exact (inv_shortcut t Hinv x j k Hx Hj Hk Hlive Hne).
Qed.

(** Claiming a slot for a key that is nowhere in the table keeps the invariant. *)
Lemma inv_claimed t b i k v :
  table_inv t → (b < n_of t)%nat → (i < B)%nat →
  (user_key k → b = first_bucket t k ∨ b = second_bucket t k) →
  (user_key k → ∀ x j, (x < n_of t)%nat → (j < B)%nat → key_at t x j ≠ Some k) →
  (user_key k → b ≠ first_bucket t k → in_shortcut t (first_bucket t k) = false) →
  table_inv (set_pair b i (mk_pair k v) (set_tag b i (get_tag k) t)).
Proof.
  intros Hinv Hb Hi Hhome Habsent Hcutoff.
  set (t' := set_pair b i (mk_pair k v) (set_tag b i (get_tag k) t)).
  pose proof (inv_wf t Hinv) as Hwf.
  destruct (proj2 Hwf b i Hb Hi) as [Htag_some Hpair_some].
  assert (Hkey_new : key_at t' b i = Some k).
  { unfold t'. rewrite key_at_set_pair_eq; [reflexivity |].
    rewrite pair_at_set_tag. exact Hpair_some. }
  assert (Htag_new : tag_at t' b i = Some (get_tag k)).
  { unfold t'. rewrite tag_at_set_pair. apply tag_at_set_tag_eq. exact Htag_some. }
  assert (Hkey_old : ∀ x j, (b, i) ≠ (x, j) → key_at t' x j = key_at t x j).
  { intros x j Hne. unfold t'. rewrite key_at_set_pair_ne by exact Hne. reflexivity. }
  assert (Htag_old : ∀ x j, (b, i) ≠ (x, j) → tag_at t' x j = tag_at t x j).
  { intros x j Hne. unfold t'. rewrite tag_at_set_pair. apply tag_at_set_tag_ne. exact Hne. }
  assert (Hmono : ∀ x, in_shortcut t x = false → in_shortcut t' x = false).
  { intros x. apply in_shortcut_mono. intros j Hj Htag.
    destruct (decide ((b, i) = (x, j))) as [E | Hne].
    - inversion E; subst x j. rewrite Htag_new in Htag. inversion Htag as [E'].
      exfalso. exact (get_tag_not_empty k E').
    - rewrite Htag_old in Htag by exact Hne. exact Htag. }
  split.
  - apply wf_set_pair, wf_set_tag. exact Hwf.
  - exact (inv_locks t Hinv).
  - intros x j k' Hx Hj Hk Hlive. destruct (decide ((b, i) = (x, j))) as [E | Hne].
    + inversion E; subst x j. rewrite Hkey_new in Hk. inversion Hk; subst k'. exact Htag_new.
    + rewrite Hkey_old in Hk by exact Hne. rewrite Htag_old by exact Hne.
      exact (inv_tag t Hinv x j k' Hx Hj Hk Hlive).
  - intros x j k' Hx Hj Hk Hlive. destruct (decide ((b, i) = (x, j))) as [E | Hne].
    + inversion E; subst x j. rewrite Hkey_new in Hk. inversion Hk; subst k'.
      exact (Hhome Hlive).
    + rewrite Hkey_old in Hk by exact Hne.
      exact (inv_home t Hinv x j k' Hx Hj Hk Hlive).
  - intros x j x' j' k' Hx Hj Hx' Hj' Hk Hk' Hlive.
    destruct (decide ((b, i) = (x, j))) as [E | Hne];
      destruct (decide ((b, i) = (x', j'))) as [E' | Hne'].
    + inversion E; inversion E'; subst. auto.
    + inversion E; subst x j. rewrite Hkey_new in Hk. inversion Hk; subst k'.
      rewrite Hkey_old in Hk' by exact Hne'.
      exfalso. exact (Habsent Hlive x' j' Hx' Hj' Hk').
    + inversion E'; subst x' j'. rewrite Hkey_new in Hk'. inversion Hk'; subst k'.
      rewrite Hkey_old in Hk by exact Hne.
      exfalso. exact (Habsent Hlive x j Hx Hj Hk).
    + rewrite Hkey_old in Hk by exact Hne. rewrite Hkey_old in Hk' by exact Hne'.
      exact (inv_unique t Hinv x j x' j' k' Hx Hj Hx' Hj' Hk Hk' Hlive).
  - intros x j k' Hx Hj Hk Hlive Hnb. destruct (decide ((b, i) = (x, j))) as [E | Hne].
    + inversion E; subst x j. rewrite Hkey_new in Hk. inversion Hk; subst k'.
      apply Hmono. exact (Hcutoff Hlive Hnb).
    + rewrite Hkey_old in Hk by exact Hne. apply Hmono.
      exact (inv_shortcut t Hinv x j k' Hx Hj Hk Hlive Hnb).
Qed.

(** Turning a slot into a tombstone keeps the invariant. *)
Lemma inv_erased t b i x :
  table_inv t → (b < n_of t)%nat → (i < B)%nat →
  table_inv (set_tag b i tombstone_tag (set_pair b i (mk_pair tombstoneKey x) t)).
Proof.
  intros Hinv Hb Hi.
  set (t' := set_tag b i tombstone_tag (set_pair b i (mk_pair tombstoneKey x) t)).
  pose proof (inv_wf t Hinv) as Hwf.
  destruct (proj2 Hwf b i Hb Hi) as [Htag_some Hpair_some].
  assert (Hkey_new : key_at t' b i = Some tombstoneKey).
  { unfold t'. rewrite key_at_set_tag. apply key_at_set_pair_eq. exact Hpair_some. }
  assert (Htag_new : tag_at t' b i = Some tombstone_tag).
  { unfold t'. apply tag_at_set_tag_eq. rewrite tag_at_set_pair. exact Htag_some. }
  assert (Hkey_old : ∀ y j, (b, i) ≠ (y, j) → key_at t' y j = key_at t y j).
  { intros y j Hne. unfold t'. rewrite key_at_set_tag. apply key_at_set_pair_ne. exact Hne. }
  assert (Htag_old : ∀ y j, (b, i) ≠ (y, j) → tag_at t' y j = tag_at t y j).
  { intros y j Hne. unfold t'. rewrite tag_at_set_tag_ne by exact Hne. reflexivity. }
  assert (Hmono : ∀ y, in_shortcut t y = false → in_shortcut t' y = false).
  { intros y. apply in_shortcut_mono. intros j Hj Htag.
    destruct (decide ((b, i) = (y, j))) as [E | Hne].
    - inversion E; subst y j. rewrite Htag_new in Htag. inversion Htag.
    - rewrite Htag_old in Htag by exact Hne. exact Htag. }
  assert (Hlive_old : ∀ y j k, key_at t' y j = Some k → user_key k → (b, i) ≠ (y, j)).
  { intros y j k Hk Hlive E. inversion E; subst y j. rewrite Hkey_new in Hk.
    inversion Hk; subst k. exact (user_key_not_tombstone Hlive). }
  split.
  - apply wf_set_tag, wf_set_pair. exact Hwf.
  - exact (inv_locks t Hinv).
  - intros y j k Hy Hj Hk Hlive. pose proof (Hlive_old y j k Hk Hlive) as Hne.
    rewrite Hkey_old in Hk by exact Hne. rewrite Htag_old by exact Hne.
    exact (inv_tag t Hinv y j k Hy Hj Hk Hlive).
  - intros y j k Hy Hj Hk Hlive. pose proof (Hlive_old y j k Hk Hlive) as Hne.
    rewrite Hkey_old in Hk by exact Hne.
    exact (inv_home t Hinv y j k Hy Hj Hk Hlive).
  - intros y j y' j' k Hy Hj Hy' Hj' Hk Hk' Hlive.
    pose proof (Hlive_old y j k Hk Hlive) as Hne.
    pose proof (Hlive_old y' j' k Hk' Hlive) as Hne'.
    rewrite Hkey_old in Hk by exact Hne. rewrite Hkey_old in Hk' by exact Hne'.
    exact (inv_unique t Hinv y j y' j' k Hy Hj Hy' Hj' Hk Hk' Hlive).
  - intros y j k Hy Hj Hk Hlive Hnb. pose proof (Hlive_old y j k Hk Hlive) as Hne.
    rewrite Hkey_old in Hk by exact Hne. apply Hmono.
    exact (inv_shortcut t Hinv y j k Hy Hj Hk Hlive Hnb).
Qed.

(** A live key that the scans of an upsert did not find is nowhere in the table. *)
Lemma absent_everywhere t k :
  table_inv t → user_key k →
  no_key_in t (first_bucket t k) k →
  in_shortcut t (first_bucket t k) = true ∨ no_key_in t (second_bucket t k) k →
  ∀ x j, (x < n_of t)%nat → (j < B)%nat → key_at t x j ≠ Some k.
Proof.
  intros Hinv Hlive Hno0 Hrest x j Hx Hj Hk.
  destruct (Nat.eq_dec x (first_bucket t k)) as [-> | Hne].
  - exact (inv_no_key t k _ j Hinv Hlive Hx Hj Hk Hno0).
  - destruct Hrest as [Hcut | Hno1].
    + rewrite (inv_shortcut t Hinv x j k Hx Hj Hk Hlive Hne) in Hcut. discriminate.
    + destruct (inv_home t Hinv x j k Hx Hj Hk Hlive) as [-> | ->]; [contradiction |].
      exact (inv_no_key t k _ j Hinv Hlive Hx Hj Hk Hno1).
Qed.

Lemma upsert_outcome_inv t k v r t' :
  table_inv t →
  upsert_outcome t (first_bucket t k) (second_bucket t k) k v r t' →
  table_inv t'.
Proof.
  intros Hinv Hout. pose proof (proj1 (inv_wf t Hinv)) as Hn.
  destruct Hout as [b i p Hi Htag Hp Hk Hwhere _ | b i free_tag Hi Htag Hfree Hno0 Hwhere | ].
  - rewrite <- Hk. apply inv_updated; assumption.
  - assert (b = first_bucket t k ∨ b = second_bucket t k) as Hhome by tauto.
    assert (b < n_of t)%nat as Hb.
    { destruct Hhome as [-> | ->]; [apply first_bucket_lt | apply second_bucket_lt]; exact Hn. }
    apply inv_claimed; try assumption.
    + intros _. exact Hhome.
    + intros Hlive. apply absent_everywhere; try assumption. tauto.
    + intros _ Hne. destruct Hwhere as [[-> _] | [Hcut _]]; [contradiction | exact Hcut].
  - exact Hinv.
Qed.

Lemma remove_outcome_inv t k r t' :
  table_inv t →
  remove_outcome t (first_bucket t k) (second_bucket t k) k r t' →
  table_inv t'.
Proof.
  intros Hinv Hout. pose proof (proj1 (inv_wf t Hinv)) as Hn.
  destruct Hout as [b i p Hi Htag Hp Hk Hwhere | ].
  - assert (b < n_of t)%nat as Hb.
    { destruct Hwhere as [-> | [-> _]]; [apply first_bucket_lt | apply second_bucket_lt];
        exact Hn. }
    apply inv_erased; assumption.
  - exact Hinv.
Qed.

(** ** Construction *)

Lemma metadata_init_spec b t :
  (∀ i, (i < B)%nat → is_Some (tag_at t b i)) →
  ∃ t', metadata_init B b t = Some (tt, t')
        ∧ (∀ i, (i < B)%nat → tag_at t' b i = Some empty_tag)
        ∧ (∀ y j, y ≠ b → tag_at t' y j = tag_at t y j)
        ∧ (∀ y j, is_Some (tag_at t y j) → is_Some (tag_at t' y j))
        ∧ buckets t' = buckets t ∧ locks t' = locks t
        ∧ n_buckets t' = n_buckets t ∧ seed t' = seed t.
Proof.
  intros Hsome. unfold metadata_init.
  destruct (fold_m_seq_inv B (fun _ i => store_tag b i empty_tag)
              (fun n t1 =>
                 (∀ i, (i < n)%nat → tag_at t1 b i = Some empty_tag)
                 ∧ (∀ y j, y ≠ b → tag_at t1 y j = tag_at t y j)
                 ∧ (∀ y j, is_Some (tag_at t y j) → is_Some (tag_at t1 y j))
                 ∧ buckets t1 = buckets t ∧ locks t1 = locks t
                 ∧ n_buckets t1 = n_buckets t ∧ seed t1 = seed t) t)
    as (t' & Hrun & HI).
  - split; [intros i Hi; lia | auto 10].
  - intros i t1 Hi (Hdone & Hother & Hkeep & Hb & Hl & Hn & Hs).
    assert (is_Some (tag_at t1 b i)) as Hcell by (apply Hkeep, Hsome; exact Hi).
    exists (set_tag b i empty_tag t1). split; [apply store_tag_run; exact Hcell |].
    split; [| split; [| split]].
    + intros j Hj. destruct (Nat.eq_dec j i) as [-> | Hne].
      * apply tag_at_set_tag_eq. exact Hcell.
      * rewrite tag_at_set_tag_ne by congruence. apply Hdone. lia.
    + intros y j Hy. rewrite tag_at_set_tag_ne by congruence. apply Hother. exact Hy.
    + intros y j Hyj. apply tag_at_set_tag_is_Some. apply Hkeep. exact Hyj.
    + auto.
  - exists t'. split; [exact Hrun | exact HI].
Qed.

Lemma bucket_init_spec b t :
  (∀ i, (i < B)%nat → is_Some (pair_at t b i)) →
  ∃ t', bucket_init B b t = Some (tt, t')
        ∧ (∀ i, (i < B)%nat → pair_at t' b i = Some (mk_pair defaultKey defaultVal))
        ∧ (∀ y j, y ≠ b → pair_at t' y j = pair_at t y j)
        ∧ (∀ y j, is_Some (pair_at t y j) → is_Some (pair_at t' y j))
        ∧ metadata t' = metadata t ∧ locks t' = locks t
        ∧ n_buckets t' = n_buckets t ∧ seed t' = seed t.
Proof.
  intros Hsome. unfold bucket_init.
  destruct (fold_m_seq_inv B
              (fun _ i => ht_store_packed_pair b i (mk_pair defaultKey defaultVal))
              (fun n t1 =>
                 (∀ i, (i < n)%nat → pair_at t1 b i = Some (mk_pair defaultKey defaultVal))
                 ∧ (∀ y j, y ≠ b → pair_at t1 y j = pair_at t y j)
                 ∧ (∀ y j, is_Some (pair_at t y j) → is_Some (pair_at t1 y j))
                 ∧ metadata t1 = metadata t ∧ locks t1 = locks t
                 ∧ n_buckets t1 = n_buckets t ∧ seed t1 = seed t) t)
    as (t' & Hrun & HI).
  - split; [intros i Hi; lia | auto 10].
  - intros i t1 Hi (Hdone & Hother & Hkeep & Hb & Hl & Hn & Hs).
    assert (is_Some (pair_at t1 b i)) as Hcell by (apply Hkeep, Hsome; exact Hi).
    exists (set_pair b i (mk_pair defaultKey defaultVal) t1).
    split; [apply ht_store_packed_pair_run; exact Hcell |].
    split; [| split; [| split]].
    + intros j Hj. destruct (Nat.eq_dec j i) as [-> | Hne].
      * apply pair_at_set_pair_eq. exact Hcell.
      * rewrite pair_at_set_pair_ne by congruence. apply Hdone. lia.
    + intros y j Hy. rewrite pair_at_set_pair_ne by congruence. apply Hother. exact Hy.
    + intros y j Hyj. apply pair_at_set_pair_is_Some. apply Hkeep. exact Hyj.
    + auto.
  - exists t'. split; [exact Hrun | exact HI].
Qed.

Lemma tag_at_metadata_eq t t' b i : metadata t' = metadata t → tag_at t' b i = tag_at t b i.
Proof. intros H. unfold tag_at. rewrite H. reflexivity. Qed.

Lemma pair_at_buckets_eq t t' b i : buckets t' = buckets t → pair_at t' b i = pair_at t b i.
Proof. intros H. unfold pair_at. rewrite H. reflexivity. Qed.

(** [init_bucket_and_locks(tid)] makes bucket [tid] fresh and keeps the
    buckets that already are. *)
Lemma init_bucket_and_locks_spec tid t :
  shape t → 0 ≤ tid < n_buckets t →
  ∃ t', init_bucket_and_locks B tid t = Some (tt, t')
        ∧ shape t' ∧ n_buckets t' = n_buckets t ∧ seed t' = seed t
        ∧ bucket_fresh t' tid
        ∧ ∀ y, 0 ≤ y → y ≠ tid → bucket_fresh t y → bucket_fresh t' y.
Proof.
  intros [Hwf Hlk] Htid. unfold init_bucket_and_locks.
  destruct (Z.ltb_spec tid (n_buckets t)) as [_ | Hge]; [| lia].
  assert (Z.to_nat tid < n_of t)%nat as Hb by (unfold n_of; lia).
  destruct (metadata_init_spec (Z.to_nat tid) t) as (t1 & Hrun1 & Ht1 & Ho1 & Hk1 & Hb1 & Hl1 & Hn1 & Hs1).
  { intros i Hi. apply (proj2 Hwf); assumption. }
  rewrite (bind_run _ _ _ _ _ Hrun1).
  destruct (bucket_init_spec (Z.to_nat tid) t1) as (t2 & Hrun2 & Ht2 & Ho2 & Hk2 & Hm2 & Hl2 & Hn2 & Hs2).
  { intros i Hi. rewrite (pair_at_buckets_eq t t1) by exact Hb1. apply (proj2 Hwf); assumption. }
  rewrite (bind_run _ _ _ _ _ Hrun2).
  destruct (Hlk tid Htid) as (w & Hw & Hrange).
  assert (locks t2 !! lock_word tid = Some w) as Hw2 by (rewrite Hl2, Hl1; exact Hw).
  rewrite (unlock_bucket_one_thread_run tid t2 w Hw2).
  set (w' := Z.land w (Z.lxor (Z.ones 64) (lock_bit tid))).
  set (t3 := with_locks (fun l => <[lock_word tid := w']> l) t2).
  pose proof (Z.mod_pos_bound tid 64 ltac:(lia)) as Hmod.
  assert (Htag3 : ∀ y j, tag_at t3 y j = tag_at t1 y j).
  { intros y j. unfold t3. apply (tag_at_metadata_eq t1 t2). exact Hm2. }
  assert (Hlock3 : ∀ y, locks t3 !! lock_word y
                        = if decide (lock_word tid = lock_word y)
                          then Some w' else locks t !! lock_word y).
  { intros y. unfold t3. simpl. rewrite Hl2, Hl1.
    destruct (decide (lock_word tid = lock_word y)) as [E | Hne].
    - rewrite <- E. apply list_lookup_insert_eq. apply lookup_lt_Some in Hw. exact Hw.
    - apply list_lookup_insert_ne. exact Hne. }
  exists t3. split; [reflexivity |].
  split; [| split; [| split; [| split]]].
  - split.
    + split; [simpl; rewrite Hn2, Hn1; apply (proj1 Hwf) |].
      intros y j Hy Hj.
      assert (y < n_of t)%nat as Hy' by (unfold n_of in *; simpl in Hy; rewrite Hn2, Hn1 in Hy; exact Hy).
      split.
      * rewrite Htag3. apply Hk1. apply (proj2 Hwf); assumption.
      * change (pair_at t3 y j) with (pair_at t2 y j). apply Hk2.
        rewrite (pair_at_buckets_eq t t1) by exact Hb1. apply (proj2 Hwf); assumption.
    + intros y Hy. simpl in Hy. rewrite Hn2, Hn1 in Hy. rewrite Hlock3.
      destruct (decide (lock_word tid = lock_word y)).
      * exists w'. split; [reflexivity | apply unlock_word_range; exact Hrange].
      * destruct (Hlk y Hy) as (wy & Hwy & Hry). eauto.
  - simpl. rewrite Hn2, Hn1. reflexivity.
  - simpl. rewrite Hs2, Hs1. reflexivity.
  - split.
    + intros i Hi. split.
      * rewrite Htag3. apply Ht1. exact Hi.
      * change (pair_at t3 (Z.to_nat tid) i) with (pair_at t2 (Z.to_nat tid) i).
        apply Ht2. exact Hi.
    + exists w'. rewrite Hlock3. rewrite decide_True by reflexivity.
      split; [reflexivity |]. unfold w'. rewrite unlock_word_bit by lia.
      rewrite Z.eqb_refl. apply andb_false_r.
  - intros y Hy Hne [Hcells (wy & Hwy & Hclear)].
    assert (Z.to_nat y ≠ Z.to_nat tid) as Hne' by lia.
    split.
    + intros i Hi. destruct (Hcells i Hi) as [Htag Hpair]. split.
      * rewrite Htag3, Ho1 by exact Hne'. exact Htag.
      * change (pair_at t3 (Z.to_nat y) i) with (pair_at t2 (Z.to_nat y) i).
        rewrite Ho2 by exact Hne'. rewrite (pair_at_buckets_eq t t1) by exact Hb1. exact Hpair.
    + rewrite Hlock3. destruct (decide (lock_word tid = lock_word y)) as [E | Hnw].
      * exists w'. split; [reflexivity |].
        pose proof (Z.mod_pos_bound y 64 ltac:(lia)) as Hmy.
        unfold w'. rewrite unlock_word_bit by lia.
        rewrite E in Hw. rewrite Hwy in Hw. inversion Hw; subst wy.
        rewrite Hclear. reflexivity.
      * exists wy. auto.
Qed.

Lemma init_p2_md_table_kernel_spec n_threads t :
  shape t → n_buckets t ≤ Z.of_nat n_threads →
  ∃ t', init_p2_md_table_kernel B n_threads t = Some (tt, t')
        ∧ shape t' ∧ n_buckets t' = n_buckets t ∧ seed t' = seed t
        ∧ ∀ y, 0 ≤ y < n_buckets t → bucket_fresh t' y.
Proof.
  intros Hshape Hthreads. unfold init_p2_md_table_kernel.
  destruct (fold_m_seq_inv n_threads (fun _ tid => init_bucket_and_locks B (Z.of_nat tid))
              (fun m t1 =>
                 shape t1 ∧ n_buckets t1 = n_buckets t ∧ seed t1 = seed t
                 ∧ ∀ y, 0 ≤ y < n_buckets t → y < Z.of_nat m → bucket_fresh t1 y) t)
    as (t' & Hrun & Hsh & Hn & Hs & Hfresh).
  - split; [exact Hshape |]. split; [reflexivity |]. split; [reflexivity |].
    intros y Hy Hlt. lia.
  - intros i t1 Hi (Hsh1 & Hn1 & Hs1 & Hf1).
    destruct (Z_lt_le_dec (Z.of_nat i) (n_buckets t)) as [Hin | Hout].
    + destruct (init_bucket_and_locks_spec (Z.of_nat i) t1 Hsh1 ltac:(lia))
        as (t2 & Hrun2 & Hsh2 & Hn2 & Hs2 & Hnew & Hold).
      exists t2. split; [exact Hrun2 |].
      split; [exact Hsh2 |]. split; [congruence |]. split; [congruence |].
      intros y Hy Hlt.
      destruct (Z.eq_dec y (Z.of_nat i)) as [-> | Hne]; [exact Hnew |].
      apply Hold; [lia | exact Hne |]. apply Hf1; lia.
    + exists t1. split.
      * unfold init_bucket_and_locks.
        destruct (Z.ltb_spec (Z.of_nat i) (n_buckets t1)); [lia | reflexivity].
      * split; [exact Hsh1 |]. split; [exact Hn1 |]. split; [exact Hs1 |].
        intros y Hy Hlt. apply Hf1; lia.
  - exists t'. split; [exact Hrun |]. split; [exact Hsh |].
    split; [exact Hn |]. split; [exact Hs |].
    intros y Hy. apply Hfresh; lia.
Qed.

Lemma ext_n_buckets_range c :
  1 ≤ ext_n_buckets B c ≤ 2 ^ 64 / Z.of_nat B + 1.
Proof.
  unfold ext_n_buckets, wrap64.
  pose proof (Z.mod_pos_bound (c - 1) (2 ^ 64) ltac:(lia)) as Hm.
  assert (0 ≤ (c - 1) mod 2 ^ 64 / Z.of_nat B) as Hq by (apply Z.div_pos; lia).
  assert ((c - 1) mod 2 ^ 64 / Z.of_nat B ≤ 2 ^ 64 / Z.of_nat B) as Hq'
    by (apply Z.div_le_mono; lia).
  assert (2 ^ 64 / Z.of_nat B ≤ 2 ^ 64 / 8) as Hq''.
  { apply Z.div_le_compat_l; [lia |].
    pose proof (Nat.div_mod_eq B 8) as E. rewrite bucket_octets in E. lia. }
  change (2 ^ 64 / 8) with (2 ^ 61) in Hq''.
  rewrite Z.mod_small; lia.
Qed.

Lemma bucket_size_ge_8 : (8 ≤ B)%nat.
Proof. pose proof (Nat.div_mod_eq B 8) as E. rewrite bucket_octets in E. lia. Qed.

(** The kernel leaves the bucket count and the seed as they are. *)
Lemma keeps_header_ret {A} (a : A) : keeps_header (ret a).
Proof. intros t r t' H. inversion H. auto. Qed.

Lemma keeps_header_bind {A R} (m : M A) (f : A → M R) :
  keeps_header m → (∀ a, keeps_header (f a)) → keeps_header (bind m f).
Proof.
  intros Hm Hf t r t' H. apply bind_Some in H. destruct H as (a & t1 & H1 & H2).
  apply Hm in H1. apply Hf in H2. destruct H1, H2. split; congruence.
Qed.

Lemma keeps_header_fold_m {A S} (xs : list A) (body : S → A → M S) (s : S) :
  (∀ s' x, keeps_header (body s' x)) → keeps_header (fold_m xs body s).
Proof.
  intros Hb. revert s. induction xs as [| x xs IH]; intros s; simpl.
  - apply keeps_header_ret.
  - apply keeps_header_bind; [apply Hb |]. intros s'. apply IH.
Qed.

Lemma keeps_header_init_bucket_and_locks tid : keeps_header (init_bucket_and_locks B tid).
Proof.
  intros t r t' H. unfold init_bucket_and_locks in H.
  destruct (tid <? n_buckets t); [| inversion H; auto].
  revert t r t' H. apply keeps_header_bind; [| intros _; apply keeps_header_bind].
  - apply keeps_header_fold_m. intros _ i t r t' H. unfold store_tag in H.
    destruct (tag_at t _ i); inversion H. auto.
  - apply keeps_header_fold_m. intros _ i t r t' H. unfold ht_store_packed_pair in H.
    destruct (pair_at t _ i); inversion H. auto.
  - intros _. unfold unlock_bucket_one_thread.
    apply keeps_header_bind; [| intros _; apply keeps_header_ret].
    intros t r t' H. unfold atomicAnd_lock in H.
    destruct (locks t !! _); inversion H. auto.
Qed.

Lemma keeps_header_init_p2_md_table_kernel n_threads :
  keeps_header (init_p2_md_table_kernel B n_threads).
Proof.
  unfold init_p2_md_table_kernel. apply keeps_header_fold_m.
  intros _ tid. apply keeps_header_init_bucket_and_locks.
Qed.

(** [generate_on_device] always returns a table; its bucket count and seed
    are those of the call, whatever became of the allocations and of the
    launch. *)
Lemma generate_on_device_returns raw c sd :
  ∃ t, generate_on_device B raw c sd = Some t
       ∧ n_buckets t = ext_n_buckets B c ∧ seed t = sd.
Proof.
  unfold generate_on_device.
  assert (Hhost : n_buckets (allocate B raw c sd) = ext_n_buckets B c
                  ∧ seed (allocate B raw c sd) = sd).
  { unfold allocate.
    destruct (get_device_version _ _ _) as [n_slots free].
    destruct (get_device_version _ _ _) as [n_md free'].
    destruct (get_device_version _ _ _) as [n_locks free'']. split; reflexivity. }
  destruct (launch_accepted _); [| eauto].
  destruct (init_p2_md_table_kernel B _ _) as [[[] t] |] eqn:Hrun; [| eauto].
  exists t. split; [reflexivity |].
  apply keeps_header_init_p2_md_table_kernel in Hrun. destruct Hrun, Hhost.
  split; congruence.
Qed.

Lemma get_device_version_fits free n size_of :
  0 ≤ n → 0 < size_of → n * size_of ≤ free → free < 2 ^ 64 →
  get_device_version free n size_of = (Z.to_nat n, free - n * size_of).
Proof.
  intros Hn Hs Hfree Hlt. unfold get_device_version, wrap64.
  rewrite Z.mod_small by nia.
  destruct (Z.leb_spec (n * size_of) free) as [_ | H]; [| lia].
  rewrite Z.div_mul by lia. reflexivity.
Qed.

(** On a device that has the memory, the three arrays have their cells. *)
Lemma allocate_fits raw c sd :
  fits_device raw c = true →
  let n := ext_n_buckets B c in
  allocate B raw c sd
  = {| metadata := map (fun b => map (raw_tag raw b) (seq 0 B)) (seq 0 (Z.to_nat n));
       buckets := map (fun b => map (raw_pair raw b) (seq 0 B)) (seq 0 (Z.to_nat n));
       locks := map (fun w => wrap64 (raw_lock raw w)) (seq 0 (Z.to_nat ((n - 1) / 64 + 1)));
       n_buckets := n;
       seed := sd |}.
Proof.
  intros Hfits n. pose proof (ext_n_buckets_range c) as Hn. pose proof bucket_size_ge_8 as HB8.
  assert (2 ^ 64 / Z.of_nat B ≤ 2 ^ 61) as Hq.
  { change (2 ^ 61) with (2 ^ 64 / 8). apply Z.div_le_compat_l; lia. }
  unfold fits_device in Hfits. fold n in Hfits, Hn.
  apply andb_prop in Hfits. destruct Hfits as [Hfits _].
  apply andb_prop in Hfits. destruct Hfits as [Hmem Hlt].
  apply Z.leb_le in Hmem. apply Z.ltb_lt in Hlt.
  assert (0 ≤ (n - 1) / 64 ≤ n - 1) as Hw.
  { split; [apply Z.div_pos; lia | apply Z.div_le_upper_bound; lia]. }
  unfold allocate. fold n.
  rewrite get_device_version_fits by nia.
  rewrite get_device_version_fits by nia.
  assert (wrap64 (wrap64 (n - 1) / 64 + 1) = (n - 1) / 64 + 1) as ->.
  { unfold wrap64. rewrite (Z.mod_small (n - 1)) by lia. apply Z.mod_small. lia. }
  rewrite get_device_version_fits by nia.
  reflexivity.
Qed.

Lemma allocate_shape raw c sd :
  fits_device raw c = true → shape (allocate B raw c sd).
Proof.
  intros Hfits. rewrite (allocate_fits raw c sd Hfits).
  pose proof (ext_n_buckets_range c) as Hn. pose proof bucket_size_ge_8 as HB8.
  assert (2 ^ 64 / Z.of_nat B ≤ 2 ^ 61) as Hq.
  { change (2 ^ 61) with (2 ^ 64 / 8). apply Z.div_le_compat_l; lia. }
  set (n := ext_n_buckets B c) in *.
  split; [split |].
  - simpl. lia.
  - intros b i Hb Hi. unfold n_of in Hb. simpl in Hb.
    unfold tag_at, pair_at. simpl.
    change (map ?f ?l) with (f <$> l).
    rewrite !list_lookup_fmap, !lookup_seq_lt by assumption. simpl.
    rewrite !list_lookup_fmap, !lookup_seq_lt by assumption. simpl. eauto.
  - intros b Hb. simpl in Hb. simpl.
    change (map ?f ?l) with (f <$> l).
    assert (lock_word b < Z.to_nat ((n - 1) / 64 + 1))%nat as Hw.
    { unfold lock_word.
      assert (b / 64 ≤ (n - 1) / 64) by (apply Z.div_le_mono; lia).
      assert (0 ≤ b / 64) by (apply Z.div_pos; lia). lia. }
    rewrite list_lookup_fmap, lookup_seq_lt by exact Hw. simpl.
    eexists. split; [reflexivity |]. apply Z.mod_pos_bound. lia.
Qed.

(** On a device that can build it, [generate_on_device] returns a table of
    [ext_n_buckets] fresh buckets. *)
Lemma generate_on_device_spec raw c sd :
  fits_device raw c = true →
  ∃ t, generate_on_device B raw c sd = Some t
       ∧ shape t ∧ n_buckets t = ext_n_buckets B c ∧ seed t = sd
       ∧ ∀ y, 0 ≤ y < n_buckets t → bucket_fresh t y.
Proof.
  intros Hfits.
  pose proof (ext_n_buckets_range c) as Hn. pose proof bucket_size_ge_8 as HB8.
  assert (2 ^ 64 / Z.of_nat B ≤ 2 ^ 61) as Hq.
  { change (2 ^ 61) with (2 ^ 64 / 8). apply Z.div_le_compat_l; lia. }
  pose proof (allocate_shape raw c sd Hfits) as Hshape.
  unfold generate_on_device.
  set (host := allocate B raw c sd) in *.
  assert (n_buckets host = ext_n_buckets B c ∧ seed host = sd) as [Hhost Hseed].
  { unfold host. rewrite (allocate_fits raw c sd Hfits). split; reflexivity. }
  set (n := n_buckets host) in *.
  assert (Hgrid : init_grid n = (n - 1) / 256 + 1 ∧ launch_accepted (init_grid n) = true).
  { unfold fits_device in Hfits. rewrite <- Hhost in Hfits.
    apply andb_prop in Hfits. destruct Hfits as [_ Hblocks]. apply Z.leb_le in Hblocks.
    assert (0 ≤ (n - 1) / 256) by (apply Z.div_pos; lia).
    assert (init_grid n = (n - 1) / 256 + 1) as E.
    { unfold init_grid, wrap32, wrap64. rewrite (Z.mod_small (n - 1)) by lia.
      rewrite (Z.mod_small ((n - 1) / 256 + 1)) by lia. apply Z.mod_small. lia. }
    split; [exact E |]. rewrite E. unfold launch_accepted.
    apply andb_true_intro. split; [apply Z.ltb_lt | apply Z.leb_le]; lia. }
  destruct Hgrid as [Egrid ->]. rewrite Egrid.
  destruct (init_p2_md_table_kernel_spec (Z.to_nat (((n - 1) / 256 + 1) * 256)) host Hshape)
    as (t & Hrun & Hsh & Hnt & Hst & Hfresh).
  { fold n.
    pose proof (Z.div_mod (n - 1) 256 ltac:(lia)).
    pose proof (Z.mod_pos_bound (n - 1) 256 ltac:(lia)). lia. }
  rewrite Hrun. exists t. split; [reflexivity |]. split; [exact Hsh |].
  split; [rewrite Hnt; exact Hhost |]. split; [congruence |].
  intros y Hy. apply Hfresh. rewrite <- Hnt. exact Hy.
Qed.

(** A table of fresh buckets satisfies the invariant. *)
Lemma fresh_table_inv t :
  shape t → (∀ y, 0 ≤ y < n_buckets t → bucket_fresh t y) → table_inv t.
Proof.
  intros [Hwf Hlk] Hfresh.
  assert (Hkey : ∀ b i k, (b < n_of t)%nat → (i < B)%nat →
                          key_at t b i = Some k → ¬ user_key k).
  { intros b i k Hb Hi Hk Hlive. unfold n_of in Hb.
    destruct (Hfresh (Z.of_nat b) ltac:(lia)) as [Hcells _].
    rewrite Nat2Z.id in Hcells. destruct (Hcells i Hi) as [_ Hp].
    unfold key_at in Hk. rewrite Hp in Hk. inversion Hk; subst k.
    destruct Hlive as [H _]. apply H. reflexivity. }
  split.
  - exact Hwf.
  - intros b Hb. destruct (Hlk b Hb) as (w & Hw & Hr).
    destruct (Hfresh b Hb) as [_ (w' & Hw' & Hclear)].
    rewrite Hw in Hw'. inversion Hw'; subst w'. eauto.
  - intros b i k Hb Hi Hk Hlive. exfalso. exact (Hkey b i k Hb Hi Hk Hlive).
  - intros b i k Hb Hi Hk Hlive. exfalso. exact (Hkey b i k Hb Hi Hk Hlive).
  - intros b i b' i' k Hb Hi Hb' Hi' Hk Hk' Hlive. exfalso. exact (Hkey b i k Hb Hi Hk Hlive).
  - intros b i k Hb Hi Hk Hlive. exfalso. exact (Hkey b i k Hb Hi Hk Hlive).
Qed.

(** ** Runs of the public operations *)

Lemma upsert_replace_fuel_0 k v t : upsert_replace W B 0 k v t = None.
Proof.
  unfold upsert_replace, bind, get_seed, get_first_bucket, stall_lock. simpl.
  destruct (n_buckets t =? 0); reflexivity.
Qed.

Lemma remove_fuel_0 k t : remove W B 0 k t = None.
Proof.
  unfold remove, bind, get_seed, get_first_bucket, stall_lock. simpl.
  destruct (n_buckets t =? 0); reflexivity.
Qed.

Lemma run_operation_inv fuel o t a t' :
  table_inv t → run_operation fuel o t = Some (a, t') → table_inv t'.
Proof.
  intros Hinv Hrun. destruct o as [k v | k | k]; simpl in Hrun.
  - destruct fuel as [| fuel].
    { unfold bind in Hrun. rewrite upsert_replace_fuel_0 in Hrun. discriminate. }
    destruct (upsert_replace_spec fuel k v t (inv_wf t Hinv) (inv_locks t Hinv))
      as (r & t1 & Hr & Hout).
    rewrite (bind_run _ _ _ _ _ Hr) in Hrun. inversion Hrun; subst.
    exact (upsert_outcome_inv t k v r t' Hinv Hout).
  - destruct (find_with_reference_spec k t (inv_wf t Hinv)) as (r & Hr).
    rewrite (bind_run _ _ _ _ _ Hr) in Hrun. inversion Hrun; subst. exact Hinv.
  - destruct fuel as [| fuel].
    { unfold bind in Hrun. rewrite remove_fuel_0 in Hrun. discriminate. }
    destruct (remove_spec fuel k t (inv_wf t Hinv) (inv_locks t Hinv))
      as (r & t1 & Hr & Hout).
    rewrite (bind_run _ _ _ _ _ Hr) in Hrun. inversion Hrun; subst.
    exact (remove_outcome_inv t k r t' Hinv Hout).
Qed.

(** Every reachable table satisfies the invariant. *)
Lemma reachable_inv t : reachable t → table_inv t.
Proof.
  induction 1 as [raw c sd t Hfits Hgen | t fuel o a t' _ IH Hrun].
  - destruct (generate_on_device_spec raw c sd Hfits) as (t0 & Hgen0 & Hsh & _ & _ & Hfresh).
    rewrite Hgen in Hgen0. inversion Hgen0; subst t0.
    apply fresh_table_inv; assumption.
  - exact (run_operation_inv fuel o t a t' IH Hrun).
Qed.

(** On a reachable table every operation returns, given any fuel but none. *)
Lemma run_operation_returns fuel o t :
  table_inv t → ∃ a t', run_operation (S fuel) o t = Some (a, t').
Proof.
  intros Hinv. destruct o as [k v | k | k]; simpl.
  - destruct (upsert_replace_spec fuel k v t (inv_wf t Hinv) (inv_locks t Hinv))
      as (r & t1 & Hr & _).
    rewrite (bind_run _ _ _ _ _ Hr). eauto.
  - destruct (find_with_reference_spec k t (inv_wf t Hinv)) as (r & Hr).
    rewrite (bind_run _ _ _ _ _ Hr). eauto.
  - destruct (remove_spec fuel k t (inv_wf t Hinv) (inv_locks t Hinv))
      as (r & t1 & Hr & _).
    rewrite (bind_run _ _ _ _ _ Hr). eauto.
Qed.

(** *** Queries on a table that satisfies the invariant *)

(** The slot behind a hit of a probe. *)
Lemma probe_hit_slot t callers b k offset v :
  wf B t → (b < n_of t)%nat → (∀ lane, lane ∈ callers → (lane < W)%nat) →
  probe_hit t callers b k (Some (offset, v)) →
  ∃ idx lane, (idx < B)%nat ∧ round_of idx = offset ∧ lane ∈ callers
              ∧ (offset + lane < n_loads W B)%nat
              ∧ tag_at t b idx = Some (get_tag k) ∧ pair_at t b idx = Some (mk_pair k v).
Proof.
  intros Hwf Hb Hcallers (lane & j & Hoff & Hlane & Hlt & Hj & Hhit).
  pose proof n_loads_eq as HB.
  assert ((offset + lane) * 8 + j < B)%nat as Hidx by lia.
  exists ((offset + lane) * 8 + j)%nat, lane. split; [exact Hidx |].
  split; [apply round_of_slot; auto |]. split; [exact Hlane |]. split; [exact Hlt |].
  apply (slot_hit_Some t b k _ v Hwf Hb Hidx). exact Hhit.
Qed.

(** A probe by lanes that reach the slot of the key does not miss it. *)
Lemma probe_hit_miss t callers b k idx lane v :
  wf B t → (b < n_of t)%nat → (idx < B)%nat →
  tag_at t b idx = Some (get_tag k) → pair_at t b idx = Some (mk_pair k v) →
  lane ∈ callers → idx = ((round_of idx + lane) * 8 + idx mod 8)%nat →
  round_of idx ∈ rounds W (n_loads W B) → (round_of idx + lane < n_loads W B)%nat →
  probe_hit t callers b k None → False.
Proof.
  intros Hwf Hb Hidx Htag Hp Hlane E Hoff Hlt Hmiss.
  pose proof (Nat.mod_upper_bound idx 8 ltac:(lia)) as Hm.
  specialize (Hmiss (round_of idx) lane (idx mod 8)%nat Hoff Hlane Hlt Hm).
  rewrite <- E in Hmiss.
  assert (slot_hit t b k idx = Some v) as Hhit
      by (apply (slot_hit_Some t b k idx v Hwf Hb Hidx); auto).
  congruence.
Qed.

Lemma lane_replies_length {R} idx (v : R) : length (lane_replies idx v) = W.
Proof. unfold lane_replies. rewrite length_map, length_seq. reflexivity. Qed.

Lemma lane_replies_lookup {R} idx (v : R) lane :
  (lane < W)%nat →
  lane_replies idx v !! lane = Some (if serves idx lane then Some v else None).
Proof.
  intros Hlane. unfold lane_replies.
  change (map ?f ?l) with (f <$> l).
  rewrite list_lookup_fmap, lookup_seq_lt by exact Hlane. reflexivity.
Qed.

Lemma no_replies_lookup {R} lane :
  (lane < W)%nat → (no_replies : list (option R)) !! lane = Some None.
Proof.
  intros Hlane. unfold no_replies.
  change (map ?f ?l) with (f <$> l).
  rewrite list_lookup_fmap, lookup_seq_lt by exact Hlane. reflexivity.
Qed.

(** The query for a key that sits in slot [i] of a candidate bucket gives
    the value of the slot to the lanes inside the tag loop in the round
    that loads slot [i], and nothing to the other lanes. *)
Lemma find_present t k b i p :
  table_inv t → user_key k → (b < n_of t)%nat → (i < B)%nat →
  pair_at t b i = Some p → key p = k →
  find_with_reference W B k t = Some (lane_replies i (val p), t).
Proof.
  intros Hinv Hlive Hb Hi Hp Hk.
  assert (key_at t b i = Some k) as Hkey by (unfold key_at; rewrite Hp, Hk; reflexivity).
  pose proof (inv_wf t Hinv) as Hwf. pose proof (proj1 Hwf) as Hn.
  pose proof (first_bucket_lt t k Hn) as Hb0. pose proof (second_bucket_lt t k Hn) as Hb1.
  pose proof (inv_tag t Hinv b i k Hb Hi Hkey Hlive) as Htag.
  assert (Hpk : pair_at t b i = Some (mk_pair k (val p)))
    by (rewrite Hp; destruct p; simpl in *; subst; reflexivity).
  destruct (find_with_reference_run k t Hwf) as (hit0 & hit1 & Hrun & H0 & H1).
  rewrite Hrun. f_equal. f_equal.
  (* every hit is the slot of the key *)
  assert (Hhit : ∀ callers b' offset v,
            (b' < n_of t)%nat → (∀ lane, lane ∈ callers → (lane < W)%nat) →
            probe_hit t callers b' k (Some (offset, v)) →
            offset = round_of i ∧ v = val p).
  { intros callers b' offset v Hb' Hcallers Hprobe.
    destruct (probe_hit_slot t callers b' k offset v Hwf Hb' Hcallers Hprobe)
      as (idx & lane & Hidx & Hround & _ & _ & _ & Hp').
    assert (key_at t b' idx = Some k) as Hkey' by (unfold key_at; rewrite Hp'; reflexivity).
    destruct (inv_unique t Hinv b i b' idx k Hb Hi Hb' Hidx Hkey Hkey' Hlive) as [<- <-].
    rewrite Hpk in Hp'. inversion Hp'. auto. }
  assert (Hall : ∀ lane, lane ∈ seq 0 W → (lane < W)%nat).
  { intros lane Hlane. apply list_elem_of_In, in_seq in Hlane. lia. }
  assert (Hrest : ∀ lane, lane ∈ unserved hit0 → (lane < W)%nat).
  { intros lane Hlane. apply unserved_In in Hlane. tauto. }
  destruct (slot_schedule i Hi) as (owner & Howner & Hoff & Hlt & Hslot).
  unfold lane_replies. apply map_ext_in. intros lane Hlane. unfold serves.
  destruct hit0 as [[offset0 v0] |].
  - destruct (Hhit _ _ _ _ Hb0 Hall H0) as [-> ->]. simpl.
    destruct (round_of i + lane <? n_loads W B)%nat eqn:E; [reflexivity |].
    destruct hit1 as [[offset1 v1] |]; [| reflexivity].
    destruct (Hhit _ _ _ _ Hb1 Hrest H1) as [-> ->]. simpl. rewrite E. reflexivity.
  - simpl.
    assert (b ≠ first_bucket t k) as Hne.
    { intros ->. apply (probe_hit_miss t (seq 0 W) _ k i owner (val p) Hwf Hb Hi Htag Hpk);
        auto. apply list_elem_of_In, in_seq. lia. }
    assert (b = second_bucket t k) as ->.
    { destruct (inv_home t Hinv b i k Hb Hi Hkey Hlive) as [E | E]; [contradiction | exact E]. }
    destruct hit1 as [[offset1 v1] |].
    + destruct (Hhit _ _ _ _ Hb1 Hrest H1) as [-> ->]. reflexivity.
    + exfalso.
      apply (probe_hit_miss t (unserved (@None (nat * Z))) _ k i owner (val p) Hwf Hb Hi Htag Hpk); auto.
      apply unserved_In. split; [exact Howner | reflexivity].
Qed.

Lemma find_absent t k :
  table_inv t →
  (∀ b i, (b < n_of t)%nat → (i < B)%nat → key_at t b i ≠ Some k) →
  find_with_reference W B k t = Some (no_replies, t).
Proof.
  intros Hinv Habsent. pose proof (inv_wf t Hinv) as Hwf. pose proof (proj1 Hwf) as Hn.
  pose proof (first_bucket_lt t k Hn) as Hb0. pose proof (second_bucket_lt t k Hn) as Hb1.
  destruct (find_with_reference_run k t Hwf) as (hit0 & hit1 & Hrun & H0 & H1).
  rewrite Hrun.
  assert (Hhit : ∀ callers b' offset v,
            (b' < n_of t)%nat → (∀ lane, lane ∈ callers → (lane < W)%nat) →
            probe_hit t callers b' k (Some (offset, v)) → False).
  { intros callers b' offset v Hb' Hcallers Hprobe.
    destruct (probe_hit_slot t callers b' k offset v Hwf Hb' Hcallers Hprobe)
      as (idx & lane & Hidx & _ & _ & _ & _ & Hp').
    apply (Habsent b' idx Hb' Hidx). unfold key_at. rewrite Hp'. reflexivity. }
  destruct hit0 as [[offset0 v0] |].
  { exfalso. apply (Hhit _ _ _ _ Hb0) in H0; [exact H0 |].
    intros lane Hlane. apply list_elem_of_In, in_seq in Hlane. lia. }
  destruct hit1 as [[offset1 v1] |].
  { exfalso. apply (Hhit _ _ _ _ Hb1) in H1; [exact H1 |].
    intros lane Hlane. apply unserved_In in Hlane. tauto. }
  reflexivity.
Qed.

(** A query for a key whose tag is on no slot of its candidate buckets
    returns nothing. *)
Lemma find_no_tag t k :
  wf B t →
  (∀ b i, b = first_bucket t k ∨ b = second_bucket t k → (i < B)%nat →
          tag_at t b i ≠ Some (get_tag k)) →
  find_with_reference W B k t = Some (no_replies, t).
Proof.
  intros Hwf Hnotag. pose proof (proj1 Hwf) as Hn.
  pose proof (first_bucket_lt t k Hn) as Hb0. pose proof (second_bucket_lt t k Hn) as Hb1.
  destruct (find_with_reference_run k t Hwf) as (hit0 & hit1 & Hrun & H0 & H1).
  rewrite Hrun.
  destruct hit0 as [[offset0 v0] |].
  { exfalso.
    assert (Hall : ∀ lane, lane ∈ seq 0 W → (lane < W)%nat).
    { intros lane Hlane. apply list_elem_of_In, in_seq in Hlane. lia. }
    destruct (probe_hit_slot t _ _ k offset0 v0 Hwf Hb0 Hall H0)
      as (idx & lane & Hidx & _ & _ & _ & Htag & _).
    apply (Hnotag _ idx (or_introl eq_refl) Hidx Htag). }
  destruct hit1 as [[offset1 v1] |].
  { exfalso.
    assert (Hrest : ∀ lane, lane ∈ unserved (@None (nat * Z)) → (lane < W)%nat).
    { intros lane Hlane. apply unserved_In in Hlane. tauto. }
    destruct (probe_hit_slot t _ _ k offset1 v1 Hwf Hb1 Hrest H1)
      as (idx & lane & Hidx & _ & _ & _ & Htag & _).
    apply (Hnotag _ idx (or_intror eq_refl) Hidx Htag). }
  reflexivity.
Qed.

(** After a successful upsert the pair sits in a slot of a candidate bucket. *)
Lemma upsert_outcome_stored t k v t' :
  wf B t →
  upsert_outcome t (first_bucket t k) (second_bucket t k) k v true t' →
  ∃ b i, (b < n_of t')%nat ∧ (i < B)%nat ∧ pair_at t' b i = Some (mk_pair k v).
Proof.
  intros Hwf Hout. pose proof (proj1 Hwf) as Hn.
  inversion Hout as [b i p Hi Htag Hp Hk Hwhere _ Er Et
                    | b i free_tag Hi Htag Hfree Hno0 Hwhere Er Et | ].
  - assert (b < n_of t)%nat as Hb.
    { destruct Hwhere as [-> | [-> _]]; [apply first_bucket_lt | apply second_bucket_lt];
        exact Hn. }
    exists b, i. split; [exact Hb |]. split; [exact Hi |].
    apply pair_at_set_pair_eq. eauto.
  - assert (b < n_of t)%nat as Hb.
    { destruct Hwhere as [[-> _] | (_ & _ & [-> | ->])];
        [apply first_bucket_lt | apply first_bucket_lt | apply second_bucket_lt]; exact Hn. }
    exists b, i. split; [exact Hb |]. split; [exact Hi |].
    apply pair_at_set_pair_eq. rewrite pair_at_set_tag. apply (proj2 Hwf); assumption.
Qed.

(** ** Single-threaded runs *)

Lemma upsert_replace_outcome fuel k v t r t' :
  table_inv t → upsert_replace W B fuel k v t = Some (r, t') →
  upsert_outcome t (first_bucket t k) (second_bucket t k) k v r t'.
Proof.
  intros Hinv Hrun. destruct fuel as [| fuel].
  { rewrite upsert_replace_fuel_0 in Hrun. discriminate. }
  destruct (upsert_replace_spec fuel k v t (inv_wf t Hinv) (inv_locks t Hinv))
    as (r1 & t1 & Hr & Hout).
  rewrite Hr in Hrun. inversion Hrun; subst. exact Hout.
Qed.

Lemma remove_outcome_of_run fuel k t r t' :
  table_inv t → remove W B fuel k t = Some (r, t') →
  remove_outcome t (first_bucket t k) (second_bucket t k) k r t'.
Proof.
  intros Hinv Hrun. destruct fuel as [| fuel].
  { rewrite remove_fuel_0 in Hrun. discriminate. }
  destruct (remove_spec fuel k t (inv_wf t Hinv) (inv_locks t Hinv))
    as (r1 & t1 & Hr & Hout).
  rewrite Hr in Hrun. inversion Hrun; subst. exact Hout.
Qed.

(** A successful upsert is seen by the query that follows it. *)
Lemma upsert_then_find t fuel k v t' :
  table_inv t → user_key k →
  upsert_replace W B fuel k v t = Some (true, t') →
  ∃ b i, (b = first_bucket t' k ∨ b = second_bucket t' k) ∧ (i < B)%nat
         ∧ pair_at t' b i = Some (mk_pair k v)
         ∧ find_with_reference W B k t' = Some (lane_replies i v, t').
Proof.
  intros Hinv Hlive Hrun.
  pose proof (upsert_replace_outcome fuel k v t true t' Hinv Hrun) as Hout.
  pose proof (upsert_outcome_inv t k v true t' Hinv Hout) as Hinv'.
  destruct (upsert_outcome_stored t k v t' (inv_wf t Hinv) Hout) as (b & i & Hb & Hi & Hp).
  exists b, i. split.
  { apply (inv_home t' Hinv' b i k Hb Hi); [| exact Hlive].
    unfold key_at. rewrite Hp. reflexivity. }
  split; [exact Hi |]. split; [exact Hp |].
  exact (find_present t' k b i (mk_pair k v) Hinv' Hlive Hb Hi Hp eq_refl).
Qed.

(** An upsert returns false exactly when both candidate buckets are full. *)
Lemma upsert_refuses_iff_full t fuel k v :
  table_inv t →
  ∃ r t', upsert_replace W B (S fuel) k v t = Some (r, t')
          ∧ (r = false ↔ bucket_full t (first_bucket t k) ∧ bucket_full t (second_bucket t k))
          ∧ (r = false → t' = t).
Proof.
  intros Hinv.
  destruct (upsert_replace_spec fuel k v t (inv_wf t Hinv) (inv_locks t Hinv))
    as (r & t' & Hrun & Hout).
  exists r, t'. split; [exact Hrun |].
  destruct Hout as [b i p Hi Htag Hp Hk Hwhere Hroom
                   | b i free_tag Hi Htag Hfree Hno0 Hwhere | Hg Hf0 Hf1].
  - split; [split; [discriminate | intros H; contradiction] | discriminate].
  - split; [| discriminate]. split; [discriminate |]. intros [Hf0 Hf1]. exfalso.
    assert (tag_at t b i ≠ Some empty_tag ∧ tag_at t b i ≠ Some tombstone_tag) as [He Ht].
    { destruct Hwhere as [[-> _] | (_ & _ & [-> | ->])]; [apply Hf0 | apply Hf0 | apply Hf1];
        exact Hi. }
    destruct Hfree as [-> | [-> _]]; contradiction.
  - split; [| reflexivity]. split; [intros _; split; assumption | reflexivity].
Qed.

(** C1, as amended.  On a table reached by any sequence of operations, for
    a key [k] that is none of the reserved keys: when [upsert(k, v)]
    returns true, [k] sits with [v] in a slot [i] of one of its two
    candidate buckets, and the query that follows returns [v] on lane 0 and
    on every lane that is inside the tag loop of the query in the round
    that loads slot [i]. *)
Theorem upsert_then_query t fuel k v t' :
  reachable t → live_key k →
  upsert_replace W B fuel k v t = Some (true, t') →
  ∃ b i replies,
    (b = first_bucket t' k ∨ b = second_bucket t' k) ∧ (i < B)%nat
    ∧ pair_at t' b i = Some (mk_pair k v)
    ∧ find_with_reference W B k t' = Some (replies, t')
    ∧ length replies = W
    ∧ replies !! 0%nat = Some (Some v)
    ∧ ∀ lane, (lane < W)%nat → serves i lane = true → replies !! lane = Some (Some v).
Proof.
  intros Hreach Hlive Hrun.
  destruct (upsert_then_find t fuel k v t' (reachable_inv t Hreach) (live_user k Hlive) Hrun)
    as (b & i & Hb & Hi & Hp & Hfind).
  exists b, i, (lane_replies i v).
  split; [exact Hb |]. split; [exact Hi |]. split; [exact Hp |]. split; [exact Hfind |].
  split; [apply lane_replies_length |]. split.
  - rewrite lane_replies_lookup by exact tile_nonempty.
    rewrite serves_lane_0 by exact Hi. reflexivity.
  - intros lane Hlane Hserved. rewrite lane_replies_lookup by exact Hlane.
    rewrite Hserved. reflexivity.
Qed.

(** C2.  [generate_on_device] always returns a table; every operation on a
    table reached from one that was constructed on a device that can build
    it returns; and in every table so reached a key that is none of the
    reserved keys sits in at most one slot of its two candidate buckets. *)
Theorem one_slot_per_key :
  (∀ raw cache_capacity ext_seed,
     ∃ t, generate_on_device B raw cache_capacity ext_seed = Some t)
  ∧ (∀ t o fuel, reachable t → ∃ a t', run_operation (S fuel) o t = Some (a, t'))
  ∧ (∀ t k b i b' i',
       reachable t → live_key k →
       b = first_bucket t k ∨ b = second_bucket t k →
       b' = first_bucket t k ∨ b' = second_bucket t k →
       (i < B)%nat → (i' < B)%nat →
       key_at t b i = Some k → key_at t b' i' = Some k →
       b = b' ∧ i = i').
Proof.
  split; [| split].
  - intros raw c sd. destruct (generate_on_device_returns raw c sd) as (t & Hgen & _). eauto.
  - intros t o fuel Hreach. apply run_operation_returns. apply reachable_inv. exact Hreach.
  - intros t k b i b' i' Hreach Hlive Hb Hb' Hi Hi' Hk Hk'.
    pose proof (reachable_inv t Hreach) as Hinv.
    pose proof (proj1 (inv_wf t Hinv)) as Hn.
    apply (inv_unique t Hinv b i b' i' k); try assumption.
    + destruct Hb as [-> | ->]; [apply first_bucket_lt | apply second_bucket_lt]; exact Hn.
    + destruct Hb' as [-> | ->]; [apply first_bucket_lt | apply second_bucket_lt]; exact Hn.
    + apply live_user. exact Hlive.
Qed.

Lemma bucket_full_not_shortcut t b : bucket_full t b → in_shortcut t b = false.
Proof.
  intros Hfull. destruct (in_shortcut t b) eqn:Hg; [| reflexivity].
  exfalso. exact (in_shortcut_not_full t b Hg Hfull).
Qed.

(** X28.  On a table reached by any sequence of operations, for a key [k]
    that is neither [defaultKey] nor [tombstoneKey]: when [remove(k)]
    returns true, the query that follows returns nothing on any lane, a
    following [upsert(k, v2)] returns true and puts [k] with [v2] into a
    slot [i] of a candidate bucket, and the query after it returns [v2] on
    the lanes inside the tag loop in the round that loads slot [i] and
    nothing on the other lanes. *)
Theorem remove_then_query_then_upsert t fuel fuel' k v2 t1 :
  reachable t → user_key k →
  remove W B fuel k t = Some (true, t1) →
  find_with_reference W B k t1 = Some (no_replies, t1)
  ∧ ∃ t2 b i, upsert_replace W B (S fuel') k v2 t1 = Some (true, t2)
              ∧ (b = first_bucket t2 k ∨ b = second_bucket t2 k) ∧ (i < B)%nat
              ∧ pair_at t2 b i = Some (mk_pair k v2)
              ∧ find_with_reference W B k t2 = Some (lane_replies i v2, t2).
Proof.
  intros Hreach Hlive Hrun. pose proof (reachable_inv t Hreach) as Hinv.
  pose proof (remove_outcome_of_run fuel k t true t1 Hinv Hrun) as Hout.
  pose proof (remove_outcome_inv t k true t1 Hinv Hout) as Hinv1.
  pose proof (proj1 (inv_wf t Hinv)) as Hn.
  inversion Hout as [b i p Hi Htag Hp Hk Hwhere Er Et | ]. subst t1.
  assert (b < n_of t)%nat as Hb.
  { destruct Hwhere as [-> | [-> _]]; [apply first_bucket_lt | apply second_bucket_lt];
      exact Hn. }
  assert (key_at t b i = Some k) as Hkey by (unfold key_at; rewrite Hp, Hk; reflexivity).
  set (t1 := set_tag b i tombstone_tag (set_pair b i (mk_pair tombstoneKey (val p)) t)) in *.
  assert (Htomb : tag_at t1 b i = Some tombstone_tag).
  { unfold t1. apply tag_at_set_tag_eq. rewrite tag_at_set_pair. rewrite Htag. eauto. }
  split.
  - apply find_absent; [exact Hinv1 |]. intros x j Hx Hj Hkx.
    destruct (decide ((b, i) = (x, j))) as [E | Hne].
    + inversion E; subst x j. unfold t1 in Hkx. rewrite key_at_set_tag in Hkx.
      rewrite key_at_set_pair_eq in Hkx by eauto. inversion Hkx as [E'].
      exact (proj2 Hlive (eq_sym E')).
    + unfold t1 in Hkx. rewrite key_at_set_tag, key_at_set_pair_ne in Hkx by exact Hne.
      destruct (inv_unique t Hinv b i x j k Hb Hi Hx Hj Hkey Hkx Hlive) as [-> ->].
      apply Hne. reflexivity.
  - destruct (upsert_refuses_iff_full t1 fuel' k v2 Hinv1) as (r & t2 & Hrun2 & Hiff & _).
    destruct r.
    + destruct (upsert_then_find t1 (S fuel') k v2 t2 Hinv1 Hlive Hrun2)
        as (b' & i' & Hb' & Hi' & Hp' & Hfind).
      exists t2, b', i'. auto.
    + exfalso. destruct (proj1 Hiff eq_refl) as [Hf0 Hf1].
      change (first_bucket t1 k) with (first_bucket t k) in Hf0.
      change (second_bucket t1 k) with (second_bucket t k) in Hf1.
      destruct Hwhere as [-> | [-> _]].
      * exact (proj2 (Hf0 i Hi) Htomb).
      * exact (proj2 (Hf1 i Hi) Htomb).
Qed.

Lemma first_bucket_header t t' k :
  n_buckets t' = n_buckets t → seed t' = seed t → first_bucket t' k = first_bucket t k.
Proof. intros Hn Hs. unfold first_bucket. rewrite Hn, Hs. reflexivity. Qed.

Lemma second_bucket_header t t' k :
  n_buckets t' = n_buckets t → seed t' = seed t → second_bucket t' k = second_bucket t k.
Proof. intros Hn Hs. unfold second_bucket. rewrite Hn, Hs. reflexivity. Qed.

(** *** The number of buckets *)

Lemma ext_n_buckets_ceiling c :
  1 ≤ c < 2 ^ 64 →
  ext_n_buckets B c = (c + Z.of_nat B - 1) / Z.of_nat B.
Proof.
  intros Hc. pose proof (ext_n_buckets_range c) as Hr. pose proof bucket_size_ge_8 as HB8.
  unfold ext_n_buckets in *. unfold wrap64 in *.
  rewrite (Z.mod_small (c - 1)) in * by lia.
  assert (0 ≤ (c - 1) / Z.of_nat B ≤ c - 1) as Hq.
  { split; [apply Z.div_pos; lia | apply Z.div_le_upper_bound; nia]. }
  rewrite Z.mod_small by lia.
  replace (c + Z.of_nat B - 1) with (c - 1 + 1 * Z.of_nat B) by lia.
  rewrite Z.div_add by lia. reflexivity.
Qed.

(** C9, as amended.  For every requested capacity from 1 up to the largest
    [uint64_t], [generate_on_device] returns a table whose bucket count is
    the capacity divided by [bucket_size] and rounded up: the least count
    whose buckets hold the capacity. *)
Theorem n_buckets_is_ceiling raw cache_capacity ext_seed :
  1 ≤ cache_capacity < 2 ^ 64 →
  ∃ t, generate_on_device B raw cache_capacity ext_seed = Some t
       ∧ n_buckets t = (cache_capacity + Z.of_nat B - 1) / Z.of_nat B
       ∧ (n_buckets t - 1) * Z.of_nat B < cache_capacity ≤ n_buckets t * Z.of_nat B.
Proof.
  intros Hc. pose proof bucket_size_ge_8 as HB8.
  destruct (generate_on_device_returns raw cache_capacity ext_seed)
    as (t & Hgen & Hn & _).
  exists t. split; [exact Hgen |].
  rewrite Hn, ext_n_buckets_ceiling by exact Hc. split; [reflexivity |].
  pose proof (Z.div_mod (cache_capacity + Z.of_nat B - 1) (Z.of_nat B) ltac:(lia)) as Hdm.
  pose proof (Z.mod_pos_bound (cache_capacity + Z.of_nat B - 1) (Z.of_nat B) ltac:(lia)) as Hm.
  nia.
Qed.

(** *** The cutoff of the first loop *)

Lemma empty_bits_count t b n :
  (n ≤ B)%nat → (∀ i, (i < n)%nat → is_Some (tag_at t b i)) →
  (count_bits n (tag_mask t b empty_tag)
   + count_tags not_empty_tag t b n = n)%nat.
Proof.
  induction n as [| n IH]; intros Hn Hsome; simpl; [reflexivity |].
  specialize (IH ltac:(lia) ltac:(intros i Hi; apply Hsome; lia)).
  destruct (Hsome n ltac:(lia)) as [x Hx]. rewrite Hx. unfold not_empty_tag at 1.
  destruct (Z.eqb_spec x empty_tag) as [-> | Hne]; simpl.
  - rewrite (proj2 (tag_mask_testbit t b empty_tag n)) by (split; [lia | exact Hx]).
    simpl. lia.
  - destruct (Z.testbit (tag_mask t b empty_tag) (Z.of_nat n)) eqn:Hbit; [| simpl; lia].
    apply tag_mask_testbit in Hbit. destruct Hbit as [_ Hbit]. congruence.
Qed.

(** The guard of the first loop compares the number of non-empty tags,
    tombstones included, with three quarters of [bucket_size]. *)
Lemma in_shortcut_count t b :
  wf B t → (b < n_of t)%nat →
  in_shortcut t b = true ↔ 4 * Z.of_nat (non_empty_tags t b) < 3 * Z.of_nat B.
Proof.
  intros Hwf Hb. unfold in_shortcut, below_cutoff.
  rewrite size_from_below by (apply tag_mask_high).
  assert (popc (tag_mask t b empty_tag) + Z.of_nat (non_empty_tags t b) = Z.of_nat B) as E.
  { unfold popc, non_empty_tags.
    rewrite (count_bits_above B 64) by (lia || intros i Hi; apply tag_mask_high; lia).
    pose proof (empty_bits_count t b B ltac:(lia)
                  ltac:(intros i Hi; apply (proj2 Hwf); assumption)). lia. }
  rewrite Z.ltb_lt. lia.
Qed.

(** C3, as amended.  The first loop of an upsert, which works on the
    primary bucket alone, is entered exactly when the number of tags of the
    primary bucket that are not empty, tombstones included, is below three
    quarters of [bucket_size]; the upsert then returns true from inside it
    and changes no other bucket.  Otherwise the loop is skipped, memory is
    untouched by it, and the upsert is the balancing loop over both
    buckets. *)
Theorem shortcut_exactly_below_cutoff t fuel k v :
  wf B t →
  let b0 := first_bucket t k in
  let b1 := second_bucket t k in
  let masks b := (tag_mask t b empty_tag, tag_mask t b tombstone_tag,
                  tag_mask t b (get_tag k)) in
  let upsert :=
    upsert_replace_internal W B (S fuel) k v (hash k 8 (seed t))
      (Z.land (hash k 8 (seed t)) (BITMASK 32) mod n_buckets t) t in
  (4 * Z.of_nat (non_empty_tags t b0) < 3 * Z.of_nat B →
     ∃ t', shortcut_loop W B (S fuel) b0 k v (masks b0).1.1 (masks b0).1.2 (masks b0).2 t
           = Some (inl true, t')
           ∧ upsert = Some (true, t')
           ∧ ∀ b i, b ≠ b0 → tag_at t' b i = tag_at t b i ∧ pair_at t' b i = pair_at t b i)
  ∧ (3 * Z.of_nat B ≤ 4 * Z.of_nat (non_empty_tags t b0) →
     shortcut_loop W B (S fuel) b0 k v (masks b0).1.1 (masks b0).1.2 (masks b0).2 t
     = Some (inr (masks b0), t)
     ∧ upsert
       = balance_loop W B (S fuel) b0 b1 k v
           (masks b0).1.1 (masks b0).1.2 (masks b0).2
           (masks b1).1.1 (masks b1).1.2 (masks b1).2 t).
Proof.
  intros Hwf b0 b1 masks upsert. pose proof (proj1 Hwf) as Hn.
  pose proof (first_bucket_lt t k Hn : (b0 < n_of t)%nat) as Hb0.
  pose proof (second_bucket_lt t k Hn : (b1 < n_of t)%nat) as Hb1.
  pose proof (in_shortcut_count t b0 Hwf Hb0) as Hcount.
  destruct (shortcut_loop_spec fuel b0 b1 k v t Hwf Hb0) as (res & t1 & Hrun & Hres).
  assert (Hup : upsert
                = (shortcut <- shortcut_loop W B (S fuel) b0 k v (masks b0).1.1
                                 (masks b0).1.2 (masks b0).2 ;;
                   match shortcut with
                   | inl r => ret r
                   | inr (e, ts, m) =>
                       bucket_1 <- get_second_bucket (hash k 8 (seed t)) ;;
                       loaded_1 <- load_fill_ballots_huge W B (Z.to_nat bucket_1) k ;;
                       let '(e1, ts1, m1) := loaded_1 in
                       balance_loop W B (S fuel) b0 (Z.to_nat bucket_1) k v e ts m e1 ts1 m1
                   end) t).
  { unfold upsert, upsert_replace_internal. fold (first_bucket t k). fold b0.
    rewrite (bind_run _ _ _ _ _ (load_fill_ballots_huge_run b0 k t Hwf Hb0)). reflexivity. }
  cbn [fst snd] in *. split.
  - intros Hbelow. apply Hcount in Hbelow.
    destruct res as [r | m]; [| destruct Hres as [Hg _]; congruence].
    destruct Hres as [_ Hout].
    assert (r = true ∧ ∀ b i, b ≠ b0 →
              tag_at t1 b i = tag_at t b i ∧ pair_at t1 b i = pair_at t b i) as [-> Hframe].
    { destruct Hout as [b i p Hi Htag Hp Hk Hwhere _
                       | b i free_tag Hi Htag Hfree Hno0 Hwhere | Hg _ _].
      - assert (b = b0) as -> by (destruct Hwhere as [-> | (_ & Hg & _)]; congruence).
        split; [reflexivity |]. intros b' i' Hne.
        rewrite tag_at_set_pair, pair_at_set_pair_ne by congruence. auto.
      - assert (b = b0) as -> by (destruct Hwhere as [[-> _] | (Hg & _)]; congruence).
        split; [reflexivity |]. intros b' i' Hne.
        rewrite tag_at_set_pair, tag_at_set_tag_ne by congruence.
        rewrite pair_at_set_pair_ne, pair_at_set_tag by congruence. auto.
      - congruence. }
    exists t1. split; [exact Hrun |]. split; [| exact Hframe].
    rewrite Hup, (bind_run _ _ _ _ _ Hrun). reflexivity.
  - intros Habove.
    assert (in_shortcut t b0 = false) as Hg.
    { apply not_true_is_false. intros Hg. apply Hcount in Hg. lia. }
    destruct res as [r | m]; [destruct Hres as [Hg' _]; congruence |].
    destruct Hres as (_ & -> & ->). split; [exact Hrun |].
    rewrite Hup, (bind_run _ _ _ _ _ Hrun).
    rewrite (bind_run _ _ _ _ _ (get_second_bucket_run _ t Hn)).
    fold (second_bucket t k). fold b1.
    rewrite (bind_run _ _ _ _ _ (load_fill_ballots_huge_run b1 k t Hwf Hb1)). reflexivity.
Qed.

(** *** Queries *)

(** C10.  Whatever the table and the key, a query that returns, with or
    without the name [_no_lock], returns the table it was given: the bucket
    store, the metadata store and the lock table are untouched (no lock is
    taken), and the result is its only effect.  On a well-formed table both
    queries do return, with the same result. *)
Theorem query_writes_nothing k t :
  (∀ r t',
     find_with_reference W B k t = Some (r, t')
     ∨ find_with_reference_no_lock W B k t = Some (r, t') →
     t' = t
     ∧ buckets t' = buckets t ∧ metadata t' = metadata t ∧ locks t' = locks t)
  ∧ (wf B t →
     ∃ r, find_with_reference W B k t = Some (r, t)
          ∧ find_with_reference_no_lock W B k t = Some (r, t)).
Proof.
  split.
  - intros r t' H.
    assert (t' = t) as ->.
    { destruct H as [H | H]; exact (read_only_find_with_reference W B k t r t' H). }
    auto.
  - intros Hwf. destruct (find_with_reference_spec k t Hwf) as (r & Hr).
    exists r. split; exact Hr.
Qed.

(** ** Locks and the variants without locks *)

Lemma bind_assoc {A R S} (m : M A) (k : A → M R) (h : R → M S) t :
  bind (bind m k) h t = bind m (fun a => bind (k a) h) t.
Proof. unfold bind. destruct (m t) as [[a t'] |]; reflexivity. Qed.

(** A lock-blind computation between [stall_lock] and [unlock] of a free
    lock does what it does without them. *)
Lemma run_under_lock {A} (m : M A) fuel b t w :
  lock_blind m → locks t !! lock_word b = Some w → 0 ≤ w < 2 ^ 64 →
  Z.testbit w (b mod 64) = false →
  (stall_lock (S fuel) b ;;; r <- m ;; unlock b ;;; ret r) t = m t.
Proof.
  intros Hm Hw Hrange Hclear. unfold stall_lock.
  rewrite (bind_run _ _ _ _ _ (stall_lock_one_thread_run fuel b t w Hw Hclear)).
  set (f := fun l : list Z => <[lock_word b := Z.lor w (lock_bit b)]> l).
  unfold bind at 1. rewrite (Hm f t).
  destruct (m t) as [[r t'] |] eqn:Hrun; [| reflexivity].
  pose proof (lock_blind_locks m t r t' Hm Hrun) as Hl.
  assert (Hl2 : locks (with_locks f t') = <[lock_word b := Z.lor w (lock_bit b)]> (locks t)).
  { simpl. unfold f. rewrite Hl. reflexivity. }
  rewrite (bind_run _ _ _ _ _ (unlock_after b t w (with_locks f t') Hw Hrange Hclear Hl2)).
  unfold ret. f_equal. f_equal. destruct t'; simpl in *. rewrite <- Hl. reflexivity.
Qed.

Lemma lock_blind_upsert_replace_internal fuel k v key_hash bucket_0 :
  lock_blind (upsert_replace_internal W B fuel k v key_hash bucket_0).
Proof.
  intros f t. rewrite <- !upsert_function_internal_store.
  apply lock_blind_upsert_function_internal. intros b i k' v'. apply lock_blind_store_val.
Qed.

(** [remove] is [remove_no_lock] between the lock and the unlock. *)
Lemma remove_locked fuel k t :
  remove W B fuel k t
  = (sd <- get_seed ;;
     bucket_0 <- get_first_bucket (hash k 8 sd) ;;
     stall_lock fuel bucket_0 ;;;
     r <- remove_from W B (hash k 8 sd) bucket_0 k ;;
     unlock bucket_0 ;;;
     ret r) t.
Proof.
  unfold remove, remove_from.
  apply bind_ext. intros sd t1. apply bind_ext. intros bucket_0 t2.
  apply bind_ext. intros _ t3.
  rewrite bind_assoc. apply bind_ext. intros [[e ts] m] t4.
  rewrite bind_assoc. apply bind_ext. intros [index |] t5.
  - rewrite bind_assoc. reflexivity.
  - rewrite bind_assoc. apply bind_ext. intros bucket_1 t6.
    rewrite bind_assoc. apply bind_ext. intros [[e1 ts1] m1] t7.
    rewrite bind_assoc. apply bind_ext. intros [index |] t8.
    + rewrite bind_assoc. reflexivity.
    + reflexivity.
Qed.

Lemma first_bucket_Z t k :
  0 < n_buckets t →
  Z.of_nat (first_bucket t k) = Z.land (hash k 8 (seed t)) (BITMASK 32) mod n_buckets t.
Proof.
  intros Hn. unfold first_bucket. pose proof (first_bucket_range t k Hn). lia.
Qed.

(** A held lock is never obtained: [stall_lock] spins through any fuel. *)
Lemma stall_lock_held fuel b t : lock_held t b → stall_lock fuel b t = None.
Proof.
  unfold stall_lock. revert t. induction fuel as [| fuel IH]; intros t (w & Hw & Hbit);
    [reflexivity |].
  simpl. unfold bind, atomicOr_lock. fold (lock_word b). rewrite Hw.
  fold (lock_bit b). rewrite lock_bit_pow2.
  pose proof (Z.mod_pos_bound b 64 ltac:(lia)) as Hm.
  rewrite land_pow2_testbit by lia. rewrite Hbit. simpl.
  apply IH. exists (Z.lor w (2 ^ (b mod 64))). split.
  - simpl. apply list_lookup_insert_eq. apply lookup_lt_Some in Hw. exact Hw.
  - rewrite Z.lor_spec, Hbit. reflexivity.
Qed.

Lemma lock_word_inj b b' :
  0 ≤ b → 0 ≤ b' → lock_word b = lock_word b' → b mod 64 = b' mod 64 → b = b'.
Proof.
  unfold lock_word. intros Hb Hb' Hw Hm.
  assert (b / 64 = b' / 64) as Hd.
  { pose proof (Z.div_pos b 64 Hb ltac:(lia)). pose proof (Z.div_pos b' 64 Hb' ltac:(lia)).
    lia. }
  rewrite (Z.div_mod b 64), (Z.div_mod b' 64) by lia. lia.
Qed.

(** What [lock_key] does, for the proofs below. *)
Lemma lock_key_then_unlock_key_aux fuel k t :
  wf B t → locks_free t →
  ∃ t1, lock_key (S fuel) k t = Some (tt, t1)
        ∧ lock_held t1 (Z.land (hash k 8 (seed t)) (BITMASK 32) mod n_buckets t)
        ∧ n_buckets t1 = n_buckets t ∧ seed t1 = seed t.
Proof.
  intros Hwf Hlocks. pose proof (proj1 Hwf) as Hn.
  set (b := Z.land (hash k 8 (seed t)) (BITMASK 32) mod n_buckets t).
  pose proof (first_bucket_range t k Hn : 0 ≤ b < n_buckets t) as Hb.
  destruct (Hlocks b Hb) as (w & Hw & Hrange & Hclear).
  pose proof (Z.mod_pos_bound b 64 ltac:(lia)) as Hm.
  exists (with_locks (fun l => <[lock_word b := Z.lor w (lock_bit b)]> l) t).
  split; [| split; [| split; reflexivity]].
  - unfold lock_key, get_seed.
    rewrite (bind_run _ _ _ _ _ (eq_refl : (fun t => Some (seed t, t)) t = Some (seed t, t))).
    rewrite (bind_run _ _ _ _ _ (get_first_bucket_run _ t Hn)). fold b.
    unfold stall_lock. exact (stall_lock_one_thread_run fuel b t w Hw Hclear).
  - exists (Z.lor w (lock_bit b)). split.
    + simpl. apply list_lookup_insert_eq. apply lookup_lt_Some in Hw. exact Hw.
    + rewrite lock_bit_pow2, Z.lor_spec, Z.pow2_bits_true by lia. apply orb_true_r.
Qed.

(** X1.  On a well-formed table with no lock held, [lock_key(k)] returns
    and takes the lock of the primary bucket of [k], the bucket that
    [get_lock_bucket(k)] reports and that is below what [get_num_locks]
    returns: that lock is then held, the lock of every
    other bucket is still free, tags and slots are untouched, and
    [unlock_key(k)] gives back the table as it was. *)
Theorem lock_key_then_unlock_key fuel k t :
  wf B t → locks_free t →
  let b := Z.land (hash k 8 (seed t)) (BITMASK 32) mod n_buckets t in
  ∃ t1, lock_key (S fuel) k t = Some (tt, t1)
        ∧ get_lock_bucket k t = Some (b, t)
        ∧ (∃ n, get_num_locks t = Some (n, t) ∧ 0 ≤ b < n)
        ∧ lock_held t1 b
        ∧ (∀ b', 0 ≤ b' < n_buckets t → b' ≠ b → ¬ lock_held t1 b')
        ∧ metadata t1 = metadata t ∧ buckets t1 = buckets t
        ∧ unlock_key k t1 = Some (tt, t).
Proof.
  intros Hwf Hlocks b. pose proof (proj1 Hwf) as Hn.
  pose proof (first_bucket_range t k Hn : 0 ≤ b < n_buckets t) as Hb.
  destruct (Hlocks b Hb) as (w & Hw & Hrange & Hclear).
  pose proof (Z.mod_pos_bound b 64 ltac:(lia)) as Hm.
  set (t1 := with_locks (fun l => <[lock_word b := Z.lor w (lock_bit b)]> l) t).
  assert (Hlen : (lock_word b < length (locks t))%nat) by (apply lookup_lt_Some in Hw; exact Hw).
  exists t1. split; [| split; [| split; [exists (n_buckets t); split; [reflexivity | exact Hb]
                                        | split; [| split; [| split; [| split]]]]]].
  - unfold lock_key, get_seed.
    rewrite (bind_run _ _ _ _ _ (eq_refl : (fun t => Some (seed t, t)) t = Some (seed t, t))).
    rewrite (bind_run _ _ _ _ _ (get_first_bucket_run _ t Hn)). fold b.
    unfold stall_lock. exact (stall_lock_one_thread_run fuel b t w Hw Hclear).
  - unfold get_lock_bucket, get_seed.
    rewrite (bind_run _ _ _ _ _ (eq_refl : (fun t => Some (seed t, t)) t = Some (seed t, t))).
    rewrite (bind_run _ _ _ _ _ (get_first_bucket_run _ t Hn)). reflexivity.
  - exists (Z.lor w (lock_bit b)). split.
    + simpl. apply list_lookup_insert_eq. exact Hlen.
    + rewrite lock_bit_pow2, Z.lor_spec, Z.pow2_bits_true by lia. apply orb_true_r.
  - intros b' Hb' Hne (w' & Hw' & Hbit').
    destruct (Hlocks b' Hb') as (w0 & Hw0 & _ & Hclear0).
    destruct (Nat.eq_dec (lock_word b') (lock_word b)) as [E | Hdiff].
    + simpl in Hw'. rewrite E, list_lookup_insert_eq in Hw' by exact Hlen.
      inversion Hw'; subst w'. rewrite E, Hw in Hw0. inversion Hw0; subst w0.
      rewrite lock_bit_pow2, Z.lor_spec, Hclear0 in Hbit'. simpl in Hbit'.
      pose proof (Z.mod_pos_bound b' 64 ltac:(lia)) as Hm'.
      destruct (Z.eq_dec (b mod 64) (b' mod 64)) as [Emod | Hmod].
      * apply Hne. apply lock_word_inj; [lia | lia | exact E | symmetry; exact Emod].
      * rewrite Z.pow2_bits_false in Hbit' by exact Hmod. discriminate.
    + simpl in Hw'. rewrite list_lookup_insert_ne in Hw' by (intros E; apply Hdiff; symmetry; exact E).
      rewrite Hw0 in Hw'. inversion Hw'; subst w'. rewrite Hclear0 in Hbit'. discriminate.
  - reflexivity.
  - reflexivity.
  - unfold unlock_key, get_seed.
    rewrite (bind_run _ _ _ _ _ (eq_refl : (fun t => Some (seed t, t)) t1 = Some (seed t1, t1))).
    rewrite (bind_run _ _ _ _ _ (get_first_bucket_run _ t1 Hn)).
    change (Z.land (hash k 8 (seed t1)) (BITMASK 32) mod n_buckets t1) with b.
    rewrite (unlock_after b t w t1 Hw Hrange Hclear eq_refl).
    f_equal. f_equal. destruct t; reflexivity.
Qed.

(** X2.  The locks are not re-entrant.  While the lock taken by
    [lock_key(k)] is held, every operation that takes the lock of the same
    primary bucket ([lock_key], [upsert_replace], [upsert_function],
    [remove]) spins without end: it returns for no amount of fuel. *)
Theorem lock_not_reentrant fuel k t :
  wf B t → locks_free t →
  ∃ t1, lock_key (S fuel) k t = Some (tt, t1)
        ∧ ∀ fuel' k' v replace_func,
            first_bucket t k' = first_bucket t k →
            lock_key fuel' k' t1 = None
            ∧ upsert_replace W B fuel' k' v t1 = None
            ∧ upsert_function W B replace_func fuel' k' v t1 = None
            ∧ remove W B fuel' k' t1 = None.
Proof.
  intros Hwf Hlocks. pose proof (proj1 Hwf) as Hn.
  destruct (lock_key_then_unlock_key_aux fuel k t Hwf Hlocks) as (t1 & Hrun & Hheld & Hn1 & Hs1).
  exists t1. split; [exact Hrun |]. intros fuel' k' v replace_func Hsame.
  assert (Hb : Z.land (hash k' 8 (seed t1)) (BITMASK 32) mod n_buckets t1
               = Z.land (hash k 8 (seed t)) (BITMASK 32) mod n_buckets t).
  { rewrite Hn1, Hs1. rewrite <- !first_bucket_Z by exact Hn. rewrite Hsame. reflexivity. }
  assert (Hn1' : 0 < n_buckets t1) by (rewrite Hn1; exact Hn).
  split; [| split; [| split]].
  - unfold lock_key, get_seed.
    rewrite (bind_run _ _ _ _ _ (eq_refl : (fun t => Some (seed t, t)) t1 = Some (seed t1, t1))).
    rewrite (bind_run _ _ _ _ _ (get_first_bucket_run _ t1 Hn1')). rewrite Hb.
    exact (stall_lock_held fuel' _ t1 Hheld).
  - unfold upsert_replace.
    rewrite (bind_run _ _ _ _ _ (eq_refl : get_seed t1 = Some (seed t1, t1))).
    rewrite (bind_run _ _ _ _ _ (get_first_bucket_run _ t1 Hn1')). rewrite Hb.
    unfold bind. rewrite (stall_lock_held fuel' _ t1 Hheld). reflexivity.
  - unfold upsert_function.
    rewrite (bind_run _ _ _ _ _ (eq_refl : get_seed t1 = Some (seed t1, t1))).
    rewrite (bind_run _ _ _ _ _ (get_first_bucket_run _ t1 Hn1')). rewrite Hb.
    unfold bind. rewrite (stall_lock_held fuel' _ t1 Hheld). reflexivity.
  - unfold remove.
    rewrite (bind_run _ _ _ _ _ (eq_refl : get_seed t1 = Some (seed t1, t1))).
    rewrite (bind_run _ _ _ _ _ (get_first_bucket_run _ t1 Hn1')). rewrite Hb.
    unfold bind. rewrite (stall_lock_held fuel' _ t1 Hheld). reflexivity.
Qed.

(** X3.  On a well-formed table with no lock held, [upsert_no_lock] and
    [upsert_replace] return, with the same result and the same table:
    taking and releasing the lock leaves no trace. *)
Theorem upsert_no_lock_agrees fuel k v t :
  wf B t → locks_free t →
  ∃ r t', upsert_no_lock W B (S fuel) k v t = Some (r, t')
          ∧ upsert_replace W B (S fuel) k v t = Some (r, t').
Proof.
  intros Hwf Hlocks. pose proof (proj1 Hwf) as Hn.
  set (bucket_0 := Z.land (hash k 8 (seed t)) (BITMASK 32) mod n_buckets t).
  destruct (Hlocks bucket_0 (first_bucket_range t k Hn)) as (w & Hw & Hrange & Hclear).
  destruct (upsert_replace_internal_spec fuel k v t Hwf) as (r & t' & Hrun & _).
  fold bucket_0 in Hrun.
  exists r, t'. split.
  - unfold upsert_no_lock.
    rewrite (bind_run _ _ _ _ _ (eq_refl : get_seed t = Some (seed t, t))).
    rewrite (bind_run _ _ _ _ _ (get_first_bucket_run _ t Hn)). exact Hrun.
  - unfold upsert_replace.
    rewrite (bind_run _ _ _ _ _ (eq_refl : get_seed t = Some (seed t, t))).
    rewrite (bind_run _ _ _ _ _ (get_first_bucket_run _ t Hn)). fold bucket_0.
    rewrite (run_under_lock _ fuel bucket_0 t w
               (lock_blind_upsert_replace_internal (S fuel) k v _ bucket_0) Hw Hrange Hclear).
    exact Hrun.
Qed.

(** X4.  On a well-formed table with no lock held, [remove_no_lock] and
    [remove] return, with the same result and the same table. *)
Theorem remove_no_lock_agrees fuel k t :
  wf B t → locks_free t →
  ∃ r t', remove_no_lock W B k t = Some (r, t')
          ∧ remove W B (S fuel) k t = Some (r, t').
Proof.
  intros Hwf Hlocks. pose proof (proj1 Hwf) as Hn.
  set (bucket_0 := Z.land (hash k 8 (seed t)) (BITMASK 32) mod n_buckets t).
  destruct (Hlocks bucket_0 (first_bucket_range t k Hn)) as (w & Hw & Hrange & Hclear).
  destruct (remove_spec fuel k t Hwf Hlocks) as (r & t' & Hrun & _).
  exists r, t'. split; [| exact Hrun].
  rewrite remove_locked in Hrun.
  rewrite (bind_run _ _ _ _ _ (eq_refl : get_seed t = Some (seed t, t))) in Hrun.
  rewrite (bind_run _ _ _ _ _ (get_first_bucket_run _ t Hn)) in Hrun. fold bucket_0 in Hrun.
  rewrite (run_under_lock _ fuel bucket_0 t w
             (lock_blind_remove_from W B _ bucket_0 k) Hw Hrange Hclear) in Hrun.
  change (remove_no_lock W B k t)
    with ((sd <- get_seed ;;
           bucket_0 <- get_first_bucket (hash k 8 sd) ;;
           remove_from W B (hash k 8 sd) bucket_0 k) t).
  rewrite (bind_run _ _ _ _ _ (eq_refl : get_seed t = Some (seed t, t))).
  rewrite (bind_run _ _ _ _ _ (get_first_bucket_run _ t Hn)). exact Hrun.
Qed.

(** X5.  On a well-formed table with no lock held, [lock_key(k)], then
    [upsert_no_lock(k, v)], then [unlock_key(k)] returns, and is
    [upsert_replace(k, v)]: the same result and the same table. *)
Theorem upsert_under_lock_key fuel k v t :
  wf B t → locks_free t →
  ∃ r t', (lock_key (S fuel) k ;;;
           return_val <- upsert_no_lock W B (S fuel) k v ;;
           unlock_key k ;;;
           ret return_val) t = Some (r, t')
          ∧ upsert_replace W B (S fuel) k v t = Some (r, t').
Proof.
  intros Hwf Hlocks. pose proof (proj1 Hwf) as Hn.
  set (bucket_0 := Z.land (hash k 8 (seed t)) (BITMASK 32) mod n_buckets t).
  destruct (Hlocks bucket_0 (first_bucket_range t k Hn)) as (w & Hw & Hrange & Hclear).
  destruct (upsert_replace_spec fuel k v t Hwf Hlocks) as (r & t' & Hrun & _).
  exists r, t'. split; [| exact Hrun]. revert Hrun.
  unfold upsert_replace, lock_key, upsert_no_lock, unlock_key, stall_lock.
  rewrite (bind_run _ _ _ _ _ (eq_refl : get_seed t = Some (seed t, t))).
  rewrite (bind_run _ _ _ _ _ (get_first_bucket_run _ t Hn)). fold bucket_0.
  rewrite (bind_run _ _ _ _ _ (stall_lock_one_thread_run fuel bucket_0 t w Hw Hclear)).
  rewrite bind_assoc, (bind_run _ _ _ _ _ (eq_refl : get_seed t = Some (seed t, t))).
  rewrite bind_assoc, (bind_run _ _ _ _ _ (get_first_bucket_run _ t Hn)). fold bucket_0.
  rewrite (bind_run _ _ _ _ _ (stall_lock_one_thread_run fuel bucket_0 t w Hw Hclear)).
  set (t1 := with_locks (fun l => <[lock_word bucket_0 := Z.lor w (lock_bit bucket_0)]> l) t).
  assert (wf B t1) as Hwf1 by exact Hwf.
  rewrite bind_assoc, (bind_run _ _ _ _ _ (eq_refl : get_seed t1 = Some (seed t1, t1))).
  rewrite bind_assoc, (bind_run _ _ _ _ _ (get_first_bucket_run _ t1 Hn)).
  change (seed t1) with (seed t). change (n_buckets t1) with (n_buckets t). fold bucket_0.
  destruct (upsert_replace_internal_spec fuel k v t1 Hwf1) as (r1 & t2 & Hint & Hout).
  change (seed t1) with (seed t) in Hint. change (n_buckets t1) with (n_buckets t) in Hint.
  fold bucket_0 in Hint. rewrite !(bind_run _ _ _ _ _ Hint).
  destruct (upsert_outcome_locks _ _ _ _ _ _ _ Hout) as (_ & Hn2 & Hs2).
  change (n_buckets t1) with (n_buckets t) in Hn2. change (seed t1) with (seed t) in Hs2.
  assert (Hn2' : 0 < n_buckets t2) by (rewrite Hn2; exact Hn).
  rewrite bind_assoc, (bind_run _ _ _ _ _ (eq_refl : get_seed t2 = Some (seed t2, t2))).
  rewrite bind_assoc, (bind_run _ _ _ _ _ (get_first_bucket_run _ t2 Hn2')).
  rewrite Hn2, Hs2. fold bucket_0. intros Hrun. exact Hrun.
Qed.

Lemma upsert_function_as_replace fuel k v t :
  upsert_function W B (fun b i _ v' => ht_store_val b i v') fuel k v t
  = upsert_replace W B fuel k v t.
Proof.
  unfold upsert_function, upsert_replace.
  apply bind_ext. intros sd t1. apply bind_ext. intros bucket_0 t2.
  apply bind_ext. intros _ t3.
  apply bind_cong; [apply upsert_function_internal_store | reflexivity].
Qed.

(** X6.  [upsert_function] and [upsert_function_no_lock], called with a
    function that stores the new value in the slot it is given, are
    [upsert_replace] and [upsert_no_lock], for every table, key and
    value. *)
Theorem upsert_function_store fuel k v t :
  upsert_function W B (fun b i _ v' => ht_store_val b i v') fuel k v t
  = upsert_replace W B fuel k v t
  ∧ upsert_function_no_lock W B (fun b i _ v' => ht_store_val b i v') fuel k v t
    = upsert_no_lock W B fuel k v t.
Proof.
  split.
  - apply upsert_function_as_replace.
  - unfold upsert_function_no_lock, upsert_no_lock.
    apply bind_ext. intros sd t1. apply bind_ext. intros bucket_0 t2.
    apply upsert_function_internal_store.
Qed.

(** ** What the operations leave alone *)

Lemma remove_outcome_locks t b0 b1 k r t' :
  remove_outcome t b0 b1 k r t' →
  locks t' = locks t ∧ n_buckets t' = n_buckets t ∧ seed t' = seed t.
Proof. intros H. destruct H; repeat split; reflexivity. Qed.

Lemma key_at_pair t b i k :
  key_at t b i = Some k ↔ ∃ p, pair_at t b i = Some p ∧ key p = k.
Proof.
  unfold key_at. destruct (pair_at t b i) as [p |].
  - split.
    + intros E. inversion E. eauto.
    + intros (p' & E & Hk). inversion E; subst p'. rewrite Hk. reflexivity.
  - split; [discriminate | intros (p' & E & _); discriminate].
Qed.

(** Two tables that hold key [k'] in the same slots with the same values
    answer a query for [k'] alike. *)
Lemma key_present_or_absent t k :
  table_inv t → user_key k →
  (∃ b i p, (b < n_of t)%nat ∧ (i < B)%nat ∧ pair_at t b i = Some p ∧ key p = k)
  ∨ (∀ b i, (b < n_of t)%nat → (i < B)%nat → key_at t b i ≠ Some k).
Proof.
  intros Hinv Hlive. pose proof (proj1 (inv_wf t Hinv)) as Hn.
  destruct (remove_spec 0 k t (inv_wf t Hinv) (inv_locks t Hinv)) as (r & t' & _ & Hout).
  destruct Hout as [b i p Hi Htag Hp Hk Hwhere | Hno0 Hno1].
  - left. exists b, i, p. split; [| auto].
    destruct Hwhere as [-> | [-> _]]; [apply first_bucket_lt | apply second_bucket_lt];
      exact Hn.
  - right. exact (absent_everywhere t k Hinv Hlive Hno0 (or_intror Hno1)).
Qed.

Lemma find_transfers t t' k' :
  table_inv t → table_inv t' → n_of t' = n_of t → user_key k' →
  (∀ x j p, (x < n_of t)%nat → (j < B)%nat → key p = k' →
            (pair_at t' x j = Some p ↔ pair_at t x j = Some p)) →
  ∃ q, find_with_reference W B k' t = Some (q, t)
       ∧ find_with_reference W B k' t' = Some (q, t').
Proof.
  intros Hinv Hinv' Hn' Hlive Hsame.
  destruct (key_present_or_absent t k' Hinv Hlive) as [(b' & i' & p' & Hb' & Hi' & Hp' & Hk') | Habs].
  - exists (lane_replies i' (val p')). split.
    + exact (find_present t k' b' i' p' Hinv Hlive Hb' Hi' Hp' Hk').
    + apply (find_present t' k' b' i' p' Hinv' Hlive); try assumption.
      * rewrite Hn'. exact Hb'.
      * apply Hsame; assumption.
  - exists no_replies. split; [apply find_absent; assumption |].
    apply find_absent; [exact Hinv' |]. intros x j Hx Hj Hkey.
    rewrite Hn' in Hx. apply key_at_pair in Hkey. destruct Hkey as (p & Hp & Hk).
    apply (Habs x j Hx Hj). apply key_at_pair. exists p. split; [| exact Hk].
    apply Hsame; assumption.
Qed.

Lemma upsert_outcome_other_keys t b0 b1 k v r t' k' :
  table_inv t → user_key k' → k' ≠ k → upsert_outcome t b0 b1 k v r t' →
  ∀ x j p, (x < n_of t)%nat → (j < B)%nat → key p = k' →
           (pair_at t' x j = Some p ↔ pair_at t x j = Some p).
Proof.
  intros Hinv Hlive Hne Hout x j p Hx Hj Hk.
  destruct Hout as [b i p0 Hi Htag Hp0 Hk0 Hwhere Hroom
                   | b i free_tag Hi Htag Hfree Hno0 Hwhere | Hg Hf0 Hf1].
  - destruct (decide ((b, i) = (x, j))) as [E | Hdiff].
    + inversion E; subst x j. rewrite pair_at_set_pair_eq by eauto. rewrite Hp0.
      split; intros E'; inversion E'; subst p; simpl in *; congruence.
    + rewrite pair_at_set_pair_ne by exact Hdiff. reflexivity.
  - destruct (decide ((b, i) = (x, j))) as [E | Hdiff].
    + inversion E; subst x j.
      assert (is_Some (pair_at (set_tag b i (get_tag k) t) b i)) as Hsome.
      { rewrite pair_at_set_tag. apply (proj2 (inv_wf t Hinv)); assumption. }
      rewrite pair_at_set_pair_eq by exact Hsome. split.
      * intros E'. inversion E'; subst p. simpl in Hk. congruence.
      * intros Hp. exfalso.
        assert (key_at t b i = Some k') as Hkey by (apply key_at_pair; eauto).
        pose proof (inv_tag t Hinv b i k' Hx Hi Hkey Hlive) as Htag'.
        rewrite Htag in Htag'. inversion Htag' as [E''].
        destruct Hfree as [-> | [-> _]].
        -- exact (get_tag_not_tombstone k' (eq_sym E'')).
        -- exact (get_tag_not_empty k' (eq_sym E'')).
    + rewrite pair_at_set_pair_ne by exact Hdiff. rewrite pair_at_set_tag. reflexivity.
  - reflexivity.
Qed.

Lemma remove_outcome_other_keys t b0 b1 k r t' k' :
  user_key k' → k' ≠ k → remove_outcome t b0 b1 k r t' →
  ∀ x j p, key p = k' → (pair_at t' x j = Some p ↔ pair_at t x j = Some p).
Proof.
  intros Hlive Hne Hout x j p Hk.
  destruct Hout as [b i p0 Hi Htag Hp0 Hk0 Hwhere | Hno0 Hno1]; [| reflexivity].
  rewrite pair_at_set_tag.
  destruct (decide ((b, i) = (x, j))) as [E | Hdiff].
  - inversion E; subst x j. rewrite pair_at_set_pair_eq by eauto. rewrite Hp0.
    split; intros E'; inversion E'; subst p; simpl in *.
    + exfalso. apply (proj2 Hlive). symmetry. exact Hk.
    + congruence.
  - rewrite pair_at_set_pair_ne by exact Hdiff. reflexivity.
Qed.

(** X7.  On a table reached by any sequence of operations, an upsert of
    key [k], whatever it returns, does not change what a query for any
    other key [k'] (neither [defaultKey] nor [tombstoneKey]) returns on
    any lane. *)
Theorem upsert_keeps_other_keys t fuel k v r t' k' :
  reachable t → user_key k' → k' ≠ k →
  upsert_replace W B fuel k v t = Some (r, t') →
  ∃ q, find_with_reference W B k' t = Some (q, t)
       ∧ find_with_reference W B k' t' = Some (q, t').
Proof.
  intros Hreach Hlive Hne Hrun. pose proof (reachable_inv t Hreach) as Hinv.
  pose proof (upsert_replace_outcome fuel k v t r t' Hinv Hrun) as Hout.
  pose proof (upsert_outcome_inv t k v r t' Hinv Hout) as Hinv'.
  destruct (upsert_outcome_locks _ _ _ _ _ _ _ Hout) as (_ & Hn' & _).
  apply (find_transfers t t' k' Hinv Hinv'); [unfold n_of; rewrite Hn'; reflexivity | exact Hlive |].
  exact (upsert_outcome_other_keys t _ _ k v r t' k' Hinv Hlive Hne Hout).
Qed.

(** X8.  On a table reached by any sequence of operations, a remove of
    key [k], whatever it returns, does not change what a query for any
    other key [k'] (neither [defaultKey] nor [tombstoneKey]) returns on
    any lane. *)
Theorem remove_keeps_other_keys t fuel k r t' k' :
  reachable t → user_key k' → k' ≠ k →
  remove W B fuel k t = Some (r, t') →
  ∃ q, find_with_reference W B k' t = Some (q, t)
       ∧ find_with_reference W B k' t' = Some (q, t').
Proof.
  intros Hreach Hlive Hne Hrun. pose proof (reachable_inv t Hreach) as Hinv.
  pose proof (remove_outcome_of_run fuel k t r t' Hinv Hrun) as Hout.
  pose proof (remove_outcome_inv t k r t' Hinv Hout) as Hinv'.
  destruct (remove_outcome_locks _ _ _ _ _ _ Hout) as (_ & Hn' & _).
  apply (find_transfers t t' k' Hinv Hinv'); [unfold n_of; rewrite Hn'; reflexivity | exact Hlive |].
  intros x j p _ _. exact (remove_outcome_other_keys t _ _ k r t' k' Hlive Hne Hout x j p).
Qed.

(** After a remove of a key that is neither [defaultKey] nor
    [tombstoneKey], no slot holds the key. *)
Lemma remove_outcome_absent t k r t' :
  table_inv t → user_key k →
  remove_outcome t (first_bucket t k) (second_bucket t k) k r t' →
  ∀ x j, (x < n_of t)%nat → (j < B)%nat → key_at t' x j ≠ Some k.
Proof.
  intros Hinv Hlive Hout. pose proof (proj1 (inv_wf t Hinv)) as Hn.
  destruct Hout as [b i p Hi Htag Hp Hk Hwhere | Hno0 Hno1].
  - assert (b < n_of t)%nat as Hb.
    { destruct Hwhere as [-> | [-> _]]; [apply first_bucket_lt | apply second_bucket_lt];
        exact Hn. }
    assert (key_at t b i = Some k) as Hkey by (apply key_at_pair; eauto).
    intros x j Hx Hj Hkx. rewrite key_at_set_tag in Hkx.
    destruct (decide ((b, i) = (x, j))) as [E | Hdiff].
    + inversion E; subst x j. rewrite key_at_set_pair_eq in Hkx by eauto.
      inversion Hkx as [E']. exact (proj2 Hlive (eq_sym E')).
    + rewrite key_at_set_pair_ne in Hkx by exact Hdiff.
      destruct (inv_unique t Hinv b i x j k Hb Hi Hx Hj Hkey Hkx Hlive) as [-> ->].
      apply Hdiff. reflexivity.
  - exact (absent_everywhere t k Hinv Hlive Hno0 (or_intror Hno1)).
Qed.

(** X9.  On a table reached by any sequence of operations, for a key [k]
    that is neither [defaultKey] nor [tombstoneKey], [remove(k)] returns;
    it returns true exactly when a query for [k] returns a value on lane
    0, it leaves the table as it was when it returns false, and either way
    a query for [k] after it returns nothing on any lane. *)
Theorem remove_true_iff_present t fuel k :
  reachable t → user_key k →
  ∃ r t', remove W B (S fuel) k t = Some (r, t')
          ∧ (r = true ↔ ∃ v replies, find_with_reference W B k t = Some (replies, t)
                                     ∧ replies !! 0%nat = Some (Some v))
          ∧ (r = false → t' = t)
          ∧ find_with_reference W B k t' = Some (no_replies, t').
Proof.
  intros Hreach Hlive. pose proof (reachable_inv t Hreach) as Hinv.
  pose proof (proj1 (inv_wf t Hinv)) as Hn.
  destruct (remove_spec fuel k t (inv_wf t Hinv) (inv_locks t Hinv)) as (r & t' & Hrun & Hout).
  pose proof (remove_outcome_inv t k r t' Hinv Hout) as Hinv'.
  pose proof (remove_outcome_absent t k r t' Hinv Hlive Hout) as Habs'.
  destruct (remove_outcome_locks _ _ _ _ _ _ Hout) as (_ & Hn' & _).
  exists r, t'. split; [exact Hrun |]. split; [| split].
  - destruct Hout as [b i p Hi Htag Hp Hk Hwhere | Hno0 Hno1].
    + split; [intros _ | reflexivity]. exists (val p), (lane_replies i (val p)).
      assert (b < n_of t)%nat as Hb.
      { destruct Hwhere as [-> | [-> _]]; [apply first_bucket_lt | apply second_bucket_lt];
          exact Hn. }
      split; [exact (find_present t k b i p Hinv Hlive Hb Hi Hp Hk) |].
      rewrite lane_replies_lookup by exact tile_nonempty.
      rewrite serves_lane_0 by exact Hi. reflexivity.
    + split; [discriminate |]. intros (v & replies & Hfind & Hlane0). exfalso.
      pose proof (absent_everywhere t k Hinv Hlive Hno0 (or_intror Hno1)) as Habs.
      rewrite (find_absent t k Hinv Habs) in Hfind. inversion Hfind; subst replies.
      rewrite no_replies_lookup in Hlane0 by exact tile_nonempty. discriminate.
  - intros ->. inversion Hout. reflexivity.
  - apply find_absent; [exact Hinv' |]. intros x j Hx Hj.
    apply Habs'; [| exact Hj]. unfold n_of in *. rewrite <- Hn'. exact Hx.
Qed.

(** ** New tables, and what every operation restores *)

Lemma fresh_table_cells t :
  shape t → (∀ y, 0 ≤ y < n_buckets t → bucket_fresh t y) →
  ∀ b i, (b < n_of t)%nat → (i < B)%nat →
         tag_at t b i = Some empty_tag
         ∧ pair_at t b i = Some (mk_pair defaultKey defaultVal).
Proof.
  intros Hshape Hfresh b i Hb Hi. unfold n_of in Hb.
  destruct (Hfresh (Z.of_nat b) ltac:(lia)) as [Hcells _].
  rewrite Nat2Z.id in Hcells. exact (Hcells i Hi).
Qed.

(** X10.  On a device that can build the table (it has the bytes of the
    three arrays and the grid of the [init] kernel can be launched),
    whatever the allocated memory holds and whatever seed is requested,
    [generate_on_device] returns a table with at least one bucket and the
    requested seed, in which every tag is the empty tag, every slot holds
    the default key and value, and no lock is held. *)
Theorem new_table_is_empty raw cache_capacity ext_seed :
  fits_device raw cache_capacity = true →
  ∃ t, generate_on_device B raw cache_capacity ext_seed = Some t
       ∧ 1 ≤ n_buckets t ∧ seed t = ext_seed
       ∧ (∀ b i, (b < n_of t)%nat → (i < B)%nat →
                 tag_at t b i = Some empty_tag
                 ∧ pair_at t b i = Some (mk_pair defaultKey defaultVal))
       ∧ locks_free t.
Proof.
  intros Hfits.
  destruct (generate_on_device_spec raw cache_capacity ext_seed Hfits)
    as (t & Hgen & Hshape & _ & Hseed & Hfresh).
  pose proof (fresh_table_inv t Hshape Hfresh) as Hinv.
  exists t. split; [exact Hgen |]. split; [| split; [exact Hseed | split]].
  - pose proof (proj1 (inv_wf t Hinv)). lia.
  - exact (fresh_table_cells t Hshape Hfresh).
  - exact (inv_locks t Hinv).
Qed.

(** X11.  On a table newly constructed on a device that can build it, for
    every key (the reserved keys included), a query returns nothing on any
    lane and changes nothing, and a remove returns false and changes
    nothing. *)
Theorem new_table_finds_nothing raw cache_capacity ext_seed :
  fits_device raw cache_capacity = true →
  ∃ t, generate_on_device B raw cache_capacity ext_seed = Some t
       ∧ ∀ k fuel,
           find_with_reference W B k t = Some (no_replies, t)
           ∧ remove W B (S fuel) k t = Some (false, t).
Proof.
  intros Hfits.
  destruct (generate_on_device_spec raw cache_capacity ext_seed Hfits)
    as (t & Hgen & Hshape & _ & _ & Hfresh).
  pose proof (fresh_table_inv t Hshape Hfresh) as Hinv.
  pose proof (fresh_table_cells t Hshape Hfresh) as Hcells.
  pose proof (proj1 (inv_wf t Hinv)) as Hn.
  assert (Hnotag : ∀ k b i, b = first_bucket t k ∨ b = second_bucket t k → (i < B)%nat →
                            tag_at t b i ≠ Some (get_tag k)).
  { intros k b i Hwhere Hi Htag.
    assert (b < n_of t)%nat as Hb.
    { destruct Hwhere as [-> | ->]; [apply first_bucket_lt | apply second_bucket_lt]; exact Hn. }
    destruct (Hcells b i Hb Hi) as [Hempty _]. rewrite Hempty in Htag.
    inversion Htag as [E]. exact (get_tag_not_empty k (eq_sym E)). }
  exists t. split; [exact Hgen |]. intros k fuel. split.
  - apply find_no_tag; [exact (inv_wf t Hinv) | apply Hnotag].
  - destruct (remove_spec fuel k t (inv_wf t Hinv) (inv_locks t Hinv)) as (r & t' & Hrun & Hout).
    destruct Hout as [b i p Hi Htag _ _ Hwhere | _ _]; [exfalso | exact Hrun].
    apply (Hnotag k b i); [tauto | exact Hi | exact Htag].
Qed.

(** X12.  On a table reached by any sequence of operations, every
    operation that returns leaves the lock table exactly as it found it
    (in particular no lock is held afterwards, also when an upsert or a
    remove returns false), keeps the number of buckets and the seed, and
    leaves every bucket with [bucket_size] tags and slots. *)
Theorem operations_restore_locks t fuel o a t' :
  reachable t → run_operation fuel o t = Some (a, t') →
  locks t' = locks t ∧ n_buckets t' = n_buckets t ∧ seed t' = seed t
  ∧ locks_free t' ∧ wf B t'.
Proof.
  intros Hreach Hrun. pose proof (reachable_inv t Hreach) as Hinv.
  pose proof (run_operation_inv fuel o t a t' Hinv Hrun) as Hinv'.
  assert (locks t' = locks t ∧ n_buckets t' = n_buckets t ∧ seed t' = seed t) as Hsame.
  { destruct o as [k v | k | k]; simpl in Hrun; apply bind_Some in Hrun;
      destruct Hrun as (x & t1 & Hop & Hret); inversion Hret; subst.
    - exact (upsert_outcome_locks _ _ _ _ _ _ _ (upsert_replace_outcome _ _ _ _ _ _ Hinv Hop)).
    - destruct (find_with_reference_spec k t (inv_wf t Hinv)) as (q & Hq).
      rewrite Hq in Hop. inversion Hop. auto.
    - exact (remove_outcome_locks _ _ _ _ _ _ (remove_outcome_of_run _ _ _ _ _ Hinv Hop)). }
  destruct Hsame as (Hl & Hn & Hs).
  split; [exact Hl |]. split; [exact Hn |]. split; [exact Hs |].
  split; [exact (inv_locks t' Hinv') | exact (inv_wf t' Hinv')].
Qed.

Lemma tag_mask_nonneg t b x : 0 ≤ tag_mask t b x.
Proof.
  unfold tag_mask. generalize B as n. induction n as [| n IH]; simpl; [lia |].
  apply Z.lor_nonneg. split; [| exact IH].
  destruct (decide (tag_at t b n = Some x)); [apply Z.pow_nonneg |]; lia.
Qed.

(** X13.  On a well-formed table [load_fill_ballots_huge] returns three
    masks and writes nothing: for every [i], bit [i] of the first mask is
    set exactly when [i] is below [bucket_size] and tag [i] of the bucket
    is the empty tag, and likewise the second mask for the tombstone tag
    and the third for the tag of the key. *)
Theorem load_fill_ballots_huge_masks b k t :
  wf B t → (b < n_of t)%nat →
  ∃ e ts m, load_fill_ballots_huge W B b k t = Some ((e, ts, m), t)
            ∧ 0 ≤ e ∧ 0 ≤ ts ∧ 0 ≤ m
            ∧ ∀ i : nat,
                (Z.testbit e (Z.of_nat i) = true
                 ↔ (i < B)%nat ∧ tag_at t b i = Some empty_tag)
                ∧ (Z.testbit ts (Z.of_nat i) = true
                   ↔ (i < B)%nat ∧ tag_at t b i = Some tombstone_tag)
                ∧ (Z.testbit m (Z.of_nat i) = true
                   ↔ (i < B)%nat ∧ tag_at t b i = Some (get_tag k)).
Proof.
  intros Hwf Hb.
  exists (tag_mask t b empty_tag), (tag_mask t b tombstone_tag), (tag_mask t b (get_tag k)).
  split; [exact (load_fill_ballots_huge_run b k t Hwf Hb) |].
  split; [apply tag_mask_nonneg |]. split; [apply tag_mask_nonneg |].
  split; [apply tag_mask_nonneg |].
  intros i. split; [| split]; apply tag_mask_testbit.
Qed.

(** ** [find_pair] *)

Lemma filter_all {A} (f : A → bool) (l : list A) :
  (∀ x, In x l → f x = true) → List.filter f l = l.
Proof.
  induction l as [| a l IH]; simpl; intros H; [reflexivity |].
  rewrite (H a) by (left; reflexivity). f_equal. apply IH. intros x Hx. apply H. right. exact Hx.
Qed.

Lemma query_md_and_bucket_pair_spec callers b k t :
  wf B t → (b < n_of t)%nat →
  ∃ hit, query_md_and_bucket_pair W B callers b k t
         = Some (map (fun lane => (lane, lane_reply (n_loads W B) hit lane)) callers, t)
       ∧ probe_index t callers b k hit.
Proof.
  intros Hwf Hb. pose proof n_loads_eq as HB. unfold query_md_and_bucket_pair.
  set (Q := fun (y : nat * nat) (t' : p2_metadata_table) =>
              t' = t ∧ ∃ lane j, y.1 ∈ rounds W (n_loads W B) ∧ lane ∈ callers
                                 ∧ (y.1 + lane < n_loads W B)%nat ∧ (j < 8)%nat
                                 ∧ slot_index t b k ((y.1 + lane) * 8 + j) = Some y.2).
  set (load := fun (offset lane : nat) =>
         tags <- load_multi_tags b ((offset + lane) * 8) ;;
         ret ((offset + lane)%nat, tags)).
  set (vote := fun (j : nat) (entry : nat * list Z) =>
         let '(i, tags) := entry in
         if default 0 (tags !! j) =? get_tag k
         then (loaded_key <- hash_table_load_key b (i * 8 + j) ;;
               ret (if loaded_key =? k then Some (i * 8 + j)%nat else None))
         else ret None).
  set (round := fun offset : nat =>
         loaded <- for_lanes (List.filter (fun lane => valid_to_load B (offset + lane))
                                          (callers_in callers offset (n_loads W B)))
                             (load offset) ;;
         first_some (seq 0 8) (fun j =>
           votes <- for_lanes loaded (vote j) ;;
           ret (match leader_val votes with
                | Some index => Some (offset, index)
                | None => None
                end))).
  set (Miss := fun offset : nat =>
         ∀ lane j, lane ∈ callers_in callers offset (n_loads W B) → (j < 8)%nat →
                   slot_index t b k ((offset + lane) * 8 + j) = None).
  assert (Hround : ∀ offset, offset ∈ rounds W (n_loads W B) →
            ∃ r t', round offset t = Some (r, t')
                    ∧ match r with
                      | Some y => Q y t'
                      | None => t' = t ∧ Miss offset
                      end).
  { intros offset Hoff. unfold round.
    rewrite filter_all.
    2:{ intros lane Hlane. apply list_elem_of_In, callers_in_In in Hlane.
        apply valid_to_load_true. apply Hlane. }
    destruct (for_lanes_read (callers_in callers offset (n_loads W B)) (load offset) t
                (fun lane r => r = ((offset + lane)%nat,
                                    map (tagv t b) (seq ((offset + lane) * 8) 8))))
      as (loaded & Hloaded & Hrel).
    { intros lane Hlane. apply callers_in_In in Hlane.
      destruct Hlane as [_ Hi]. unfold load.
      rewrite (bind_run _ _ _ _ _ (load_multi_tags_run b _ t Hwf Hb Hi)).
      eexists. split; reflexivity. }
    apply Forall2_eq_map in Hrel. rewrite (bind_run _ _ _ _ _ Hloaded).
    assert (Hentry : ∀ entry, entry ∈ loaded →
              ∃ lane, lane ∈ callers_in callers offset (n_loads W B)
                      ∧ entry = ((offset + lane)%nat,
                                 map (tagv t b) (seq ((offset + lane) * 8) 8))).
    { intros entry He. rewrite Hrel in He. apply list_elem_of_In, in_map_iff in He.
      destruct He as (lane & <- & Hlane). exists lane.
      split; [apply list_elem_of_In; exact Hlane | reflexivity]. }
    destruct (first_some_spec (seq 0 8)
                (fun j => votes <- for_lanes loaded (vote j) ;;
                          ret (match leader_val votes with
                               | Some index => Some (offset, index)
                               | None => None
                               end))
                t Q
                (fun j => ∀ entry, entry ∈ loaded → slot_index t b k (entry.1 * 8 + j) = None))
      as (r & t' & Hrun & Hr).
    { intros j Hj. apply list_elem_of_In, in_seq in Hj.
      destruct (for_lanes_read loaded (vote j) t
                  (fun entry r => r = slot_index t b k (entry.1 * 8 + j)%nat))
        as (votes & Hvotes & Hvrel).
      { intros entry He. destruct (Hentry entry He) as (lane & Hlane & ->).
        apply callers_in_In in Hlane. destruct Hlane as [_ Hi].
        unfold vote, slot_index, slot_hit. cbn [fst].
        rewrite chunk_lookup by lia.
        destruct (tagv t b ((offset + lane) * 8 + j) =? get_tag k).
        - assert ((offset + lane) * 8 + j < B)%nat as Hidx by lia.
          destruct (proj2 Hwf b _ Hb Hidx) as [_ [p Hp]].
          rewrite (bind_run _ _ _ _ _ (hash_table_load_key_run b _ t p Hp)).
          rewrite Hp. eexists. split; [reflexivity |].
          destruct (key p =? k); reflexivity.
        - eexists. split; reflexivity. }
      apply Forall2_eq_map in Hvrel. rewrite (bind_run _ _ _ _ _ Hvotes).
      destruct (leader_val votes) as [idx |] eqn:Hlv.
      - exists (Some (offset, idx)), t. split; [reflexivity |].
        apply leader_val_Some in Hlv. rewrite Hvrel in Hlv.
        apply in_map_iff in Hlv. destruct Hlv as (entry & Hhit & He).
        apply list_elem_of_In in He.
        destruct (Hentry entry He) as (lane & Hlane & ->).
        apply callers_in_In in Hlane. destruct Hlane as [Hcaller Hi].
        cbn [fst] in Hhit. split; [reflexivity |].
        exists lane, j. cbn [fst snd]. split; [exact Hoff |]. split; [exact Hcaller |].
        split; [exact Hi |]. split; [lia | exact Hhit].
      - exists None, t. split; [reflexivity |]. split; [reflexivity |]. intros entry He.
        apply (leader_val_None votes Hlv).
        rewrite Hvrel. apply in_map_iff. exists entry.
        split; [reflexivity | apply list_elem_of_In; exact He]. }
    exists r, t'. split; [exact Hrun |].
    destruct r as [idx |]; [exact Hr |]. destruct Hr as [-> Hall].
    split; [reflexivity |]. intros lane j Hlane Hj.
    apply (Hall j ltac:(apply list_elem_of_In, in_seq; lia)
                ((offset + lane)%nat, map (tagv t b) (seq ((offset + lane) * 8) 8))).
    rewrite Hrel. apply list_elem_of_In, in_map_iff. exists lane.
    split; [reflexivity | apply list_elem_of_In; exact Hlane]. }
  destruct (first_some_spec (rounds W (n_loads W B)) round t Q Miss Hround)
    as (r & t' & Hrun & Hr).
  assert (t' = t) as -> by (destruct r; [apply Hr | apply Hr]).
  exists r. fold load vote. fold round. rewrite (bind_run _ _ _ _ _ Hrun).
  split; [reflexivity |].
  destruct r as [[offset idx] |].
  - destruct Hr as [_ Hhit]. exact Hhit.
  - destruct Hr as [_ Hall]. intros offset lane j Hoff Hlane Hi Hj.
    apply (Hall offset Hoff lane j); [| exact Hj].
    apply callers_in_In. split; assumption.
Qed.

Lemma read_only_find_pair k : read_only (find_pair W B k).
Proof.
  assert (Hq : ∀ callers b, read_only (query_md_and_bucket_pair W B callers b k)).
  { intros callers b. unfold query_md_and_bucket_pair.
    apply read_only_bind; [| intros hit; apply read_only_ret].
    apply read_only_first_some. intros offset.
    apply read_only_bind.
    - apply read_only_for_lanes. intros lane.
      apply read_only_bind; [apply read_only_load_multi_tags |]. intros tags.
      apply read_only_ret.
    - intros loaded. apply read_only_first_some. intros j.
      apply read_only_bind; [| intros votes; apply read_only_ret].
      apply read_only_for_lanes. intros [i tags].
      destruct (default 0 (tags !! j) =? get_tag k); [| apply read_only_ret].
      apply read_only_bind; [| intros x; apply read_only_ret].
      apply read_only_bind; [apply read_only_load_pair |]. intros p. apply read_only_ret. }
  unfold find_pair.
  apply read_only_bind; [apply read_only_get_seed |]. intros sd.
  apply read_only_bind; [apply read_only_get_first_bucket |]. intros bucket_0.
  apply read_only_bind; [apply Hq |]. intros return_pair.
  apply read_only_bind; [apply read_only_get_second_bucket |]. intros bucket_1.
  apply read_only_bind; [apply Hq |]. intros return_pair_1. apply read_only_ret.
Qed.

(** [find_pair] probes as [find_with_reference] does. *)
Lemma find_pair_run k t :
  wf B t →
  ∃ hit0 hit1,
    find_pair W B k t
    = Some (map (fun lane => match lane_reply (n_loads W B) hit0 lane with
                             | Some index => Some (first_bucket t k, index)
                             | None => match lane_reply (n_loads W B) hit1 lane with
                                       | Some index => Some (second_bucket t k, index)
                                       | None => None
                                       end
                             end) (seq 0 W), t)
    ∧ probe_index t (seq 0 W) (first_bucket t k) k hit0
    ∧ probe_index t (unserved hit0) (second_bucket t k) k hit1.
Proof.
  intros Hwf. pose proof (proj1 Hwf) as Hn.
  pose proof (first_bucket_lt t k Hn) as Hb0. pose proof (second_bucket_lt t k Hn) as Hb1.
  unfold find_pair. unfold get_seed at 1.
  rewrite (bind_run _ _ _ _ _ (eq_refl : (fun t => Some (seed t, t)) t = Some (seed t, t))).
  rewrite (bind_run _ _ _ _ _ (get_first_bucket_run _ t Hn)). fold (first_bucket t k).
  destruct (query_md_and_bucket_pair_spec (seq 0 W) (first_bucket t k) k t Hwf Hb0)
    as (hit0 & Hrun0 & H0).
  rewrite (bind_run _ _ _ _ _ Hrun0).
  rewrite (bind_run _ _ _ _ _ (get_second_bucket_run _ t Hn)). fold (second_bucket t k).
  assert (Hrest : List.filter
            (fun lane => match reply_of lane
                                 (map (fun lane0 => (lane0, lane_reply (n_loads W B) hit0 lane0))
                                      (seq 0 W)) with
                         | Some _ => false
                         | None => true
                         end) (seq 0 W) = unserved hit0).
  { unfold unserved. apply filter_ext_in. intros lane Hlane.
    rewrite reply_of_map, bool_decide_true by (apply list_elem_of_In; exact Hlane).
    reflexivity. }
  rewrite Hrest.
  destruct (query_md_and_bucket_pair_spec (unserved hit0) (second_bucket t k) k t Hwf Hb1)
    as (hit1 & Hrun1 & H1).
  rewrite (bind_run _ _ _ _ _ Hrun1).
  exists hit0, hit1. split; [| split; assumption].
  unfold ret. f_equal. f_equal. apply map_ext_in. intros lane Hlane.
  rewrite reply_of_map, bool_decide_true by (apply list_elem_of_In; exact Hlane).
  destruct (lane_reply (n_loads W B) hit0 lane) as [v |] eqn:E0; [reflexivity |].
  rewrite reply_of_map, bool_decide_true; [reflexivity |].
  apply unserved_In. split; [apply in_seq in Hlane; lia | exact E0].
Qed.

(** The slot behind a hit of a probe for the index. *)
Lemma probe_index_slot t callers b k offset idx :
  wf B t → (b < n_of t)%nat → (∀ lane, lane ∈ callers → (lane < W)%nat) →
  probe_index t callers b k (Some (offset, idx)) →
  ∃ v, (idx < B)%nat ∧ round_of idx = offset
       ∧ tag_at t b idx = Some (get_tag k) ∧ pair_at t b idx = Some (mk_pair k v).
Proof.
  intros Hwf Hb Hcallers (lane & j & Hoff & Hlane & Hlt & Hj & Hhit).
  pose proof n_loads_eq as HB.
  assert ((offset + lane) * 8 + j < B)%nat as Hidx by lia.
  unfold slot_index in Hhit.
  destruct (slot_hit t b k ((offset + lane) * 8 + j)) as [v |] eqn:Hs; [| discriminate].
  inversion Hhit; subst idx. exists v. split; [exact Hidx |].
  split; [apply round_of_slot; auto |].
  apply (slot_hit_Some t b k _ v Hwf Hb Hidx). exact Hs.
Qed.

Lemma probe_index_miss t callers b k idx lane v :
  wf B t → (b < n_of t)%nat → (idx < B)%nat →
  tag_at t b idx = Some (get_tag k) → pair_at t b idx = Some (mk_pair k v) →
  lane ∈ callers → idx = ((round_of idx + lane) * 8 + idx mod 8)%nat →
  round_of idx ∈ rounds W (n_loads W B) → (round_of idx + lane < n_loads W B)%nat →
  probe_index t callers b k None → False.
Proof.
  intros Hwf Hb Hidx Htag Hp Hlane E Hoff Hlt Hmiss.
  pose proof (Nat.mod_upper_bound idx 8 ltac:(lia)) as Hm.
  specialize (Hmiss (round_of idx) lane (idx mod 8)%nat Hoff Hlane Hlt Hm).
  rewrite <- E in Hmiss. unfold slot_index in Hmiss.
  assert (slot_hit t b k idx = Some v) as Hhit
      by (apply (slot_hit_Some t b k idx v Hwf Hb Hidx); auto).
  rewrite Hhit in Hmiss. discriminate.
Qed.

(** [find_pair] for a key that sits in slot [i] of bucket [b] gives the
    address of the slot to the lanes to which [find_with_reference] gives
    its value. *)
Lemma find_pair_present t k b i p :
  table_inv t → user_key k → (b < n_of t)%nat → (i < B)%nat →
  pair_at t b i = Some p → key p = k →
  find_pair W B k t = Some (lane_replies i (b, i), t).
Proof.
  intros Hinv Hlive Hb Hi Hp Hk.
  assert (key_at t b i = Some k) as Hkey by (unfold key_at; rewrite Hp, Hk; reflexivity).
  pose proof (inv_wf t Hinv) as Hwf. pose proof (proj1 Hwf) as Hn.
  pose proof (first_bucket_lt t k Hn) as Hb0. pose proof (second_bucket_lt t k Hn) as Hb1.
  pose proof (inv_tag t Hinv b i k Hb Hi Hkey Hlive) as Htag.
  assert (Hpk : pair_at t b i = Some (mk_pair k (val p)))
    by (rewrite Hp; destruct p; simpl in *; subst; reflexivity).
  destruct (find_pair_run k t Hwf) as (hit0 & hit1 & Hrun & H0 & H1).
  rewrite Hrun. f_equal. f_equal.
  assert (Hhit : ∀ callers b' offset idx,
            (b' < n_of t)%nat → (∀ lane, lane ∈ callers → (lane < W)%nat) →
            probe_index t callers b' k (Some (offset, idx)) →
            offset = round_of i ∧ idx = i ∧ b' = b).
  { intros callers b' offset idx Hb' Hcallers Hprobe.
    destruct (probe_index_slot t callers b' k offset idx Hwf Hb' Hcallers Hprobe)
      as (v & Hidx & Hround & _ & Hp').
    assert (key_at t b' idx = Some k) as Hkey' by (unfold key_at; rewrite Hp'; reflexivity).
    destruct (inv_unique t Hinv b i b' idx k Hb Hi Hb' Hidx Hkey Hkey' Hlive) as [<- <-].
    auto. }
  assert (Hall : ∀ lane, lane ∈ seq 0 W → (lane < W)%nat).
  { intros lane Hlane. apply list_elem_of_In, in_seq in Hlane. lia. }
  assert (Hrest : ∀ lane, lane ∈ unserved hit0 → (lane < W)%nat).
  { intros lane Hlane. apply unserved_In in Hlane. tauto. }
  destruct (slot_schedule i Hi) as (owner & Howner & Hoff & Hlt & Hslot).
  unfold lane_replies. apply map_ext_in. intros lane Hlane. unfold serves.
  destruct hit0 as [[offset0 idx0] |].
  - destruct (Hhit _ _ _ _ Hb0 Hall H0) as (-> & -> & <-). simpl.
    destruct (round_of i + lane <? n_loads W B)%nat eqn:E; [reflexivity |].
    destruct hit1 as [[offset1 idx1] |]; [| reflexivity].
    destruct (Hhit _ _ _ _ Hb1 Hrest H1) as (-> & -> & _). simpl. rewrite E. reflexivity.
  - simpl.
    assert (b ≠ first_bucket t k) as Hne.
    { intros ->. apply (probe_index_miss t (seq 0 W) _ k i owner (val p) Hwf Hb Hi Htag Hpk);
        auto. apply list_elem_of_In, in_seq. lia. }
    assert (b = second_bucket t k) as ->.
    { destruct (inv_home t Hinv b i k Hb Hi Hkey Hlive) as [E | E]; [contradiction | exact E]. }
    destruct hit1 as [[offset1 idx1] |].
    + destruct (Hhit _ _ _ _ Hb1 Hrest H1) as (-> & -> & _). simpl.
      destruct (round_of i + lane <? n_loads W B)%nat; reflexivity.
    + exfalso.
      apply (probe_index_miss t (unserved (@None (nat * nat))) _ k i owner (val p)
               Hwf Hb Hi Htag Hpk); auto.
      apply unserved_In. split; [exact Howner | reflexivity].
Qed.

Lemma find_pair_absent t k :
  table_inv t →
  (∀ b i, (b < n_of t)%nat → (i < B)%nat → key_at t b i ≠ Some k) →
  find_pair W B k t = Some (no_replies, t).
Proof.
  intros Hinv Habsent. pose proof (inv_wf t Hinv) as Hwf. pose proof (proj1 Hwf) as Hn.
  pose proof (first_bucket_lt t k Hn) as Hb0. pose proof (second_bucket_lt t k Hn) as Hb1.
  destruct (find_pair_run k t Hwf) as (hit0 & hit1 & Hrun & H0 & H1).
  rewrite Hrun.
  assert (Hhit : ∀ callers b' offset idx,
            (b' < n_of t)%nat → (∀ lane, lane ∈ callers → (lane < W)%nat) →
            probe_index t callers b' k (Some (offset, idx)) → False).
  { intros callers b' offset idx Hb' Hcallers Hprobe.
    destruct (probe_index_slot t callers b' k offset idx Hwf Hb' Hcallers Hprobe)
      as (v & Hidx & _ & _ & Hp').
    apply (Habsent b' idx Hb' Hidx). unfold key_at. rewrite Hp'. reflexivity. }
  destruct hit0 as [[offset0 idx0] |].
  { exfalso. apply (Hhit _ _ _ _ Hb0) in H0; [exact H0 |].
    intros lane Hlane. apply list_elem_of_In, in_seq in Hlane. lia. }
  destruct hit1 as [[offset1 idx1] |].
  { exfalso. apply (Hhit _ _ _ _ Hb1) in H1; [exact H1 |].
    intros lane Hlane. apply unserved_In in Hlane. tauto. }
  reflexivity.
Qed.

(** X14.  [find_pair] and [find_pair_no_lock] are the same function and
    write nothing, whatever the table.  On a table reached by any
    sequence of operations, for a key [k] that is neither [defaultKey] nor
    [tombstoneKey], they and [find_with_reference] return, one reply per
    lane of the tile; on every lane, the slot that [find_pair] returns
    lies in a candidate bucket of [k] and holds [k] with the value that
    [find_with_reference] returns on that lane, and [find_pair] returns no
    slot on a lane exactly when [find_with_reference] returns nothing on
    it. *)
Theorem find_pair_agrees k t :
  (find_pair_no_lock W B k t = find_pair W B k t
   ∧ ∀ r t', find_pair W B k t = Some (r, t') → t' = t)
  ∧ (reachable t → user_key k →
     ∃ slots replies,
       find_pair W B k t = Some (slots, t)
       ∧ find_with_reference W B k t = Some (replies, t)
       ∧ ∀ lane, (lane < W)%nat →
           ∃ slot reply, slots !! lane = Some slot ∧ replies !! lane = Some reply
             ∧ match slot with
               | Some (b, i) =>
                   (b = first_bucket t k ∨ b = second_bucket t k) ∧ (i < B)%nat
                   ∧ ∃ v, pair_at t b i = Some (mk_pair k v) ∧ reply = Some v
               | None => reply = None
               end).
Proof.
  split; [split; [reflexivity | exact (read_only_find_pair k t)] |].
  intros Hreach Hlive. pose proof (reachable_inv t Hreach) as Hinv.
  destruct (key_present_or_absent t k Hinv Hlive) as [(b & i & p & Hb & Hi & Hp & Hk) | Habs].
  - exists (lane_replies i (b, i)), (lane_replies i (val p)).
    split; [exact (find_pair_present t k b i p Hinv Hlive Hb Hi Hp Hk) |].
    split; [exact (find_present t k b i p Hinv Hlive Hb Hi Hp Hk) |].
    intros lane Hlane. rewrite !lane_replies_lookup by exact Hlane.
    eexists _, _. split; [reflexivity |]. split; [reflexivity |].
    destruct (serves i lane); [| reflexivity].
    split.
    { apply (inv_home t Hinv b i k Hb Hi); [| exact Hlive].
      unfold key_at. rewrite Hp, Hk. reflexivity. }
    split; [exact Hi |]. exists (val p). split; [| reflexivity].
    rewrite Hp. destruct p as [pk pv]. simpl in Hk. subst pk. reflexivity.
  - exists no_replies, no_replies.
    split; [exact (find_pair_absent t k Hinv Habs) |].
    split; [exact (find_absent t k Hinv Habs) |].
    intros lane Hlane. rewrite !no_replies_lookup by exact Hlane.
    eexists _, _. split; [reflexivity |]. split; reflexivity.
Qed.

(** ** The fill of the table *)

Lemma count_tags_le P t b n : (count_tags P t b n ≤ n)%nat.
Proof.
  induction n as [| n IH]; simpl; [lia |].
  destruct (tag_at t b n) as [x |]; [destruct (P x) |]; lia.
Qed.

Lemma tag_bits_count t b x n :
  (n ≤ B)%nat →
  count_bits n (tag_mask t b x) = count_tags (fun y => (y =? x)%Z) t b n.
Proof.
  induction n as [| n IH]; intros Hn; simpl; [reflexivity |].
  rewrite IH by lia. f_equal.
  destruct (tag_at t b n) as [y |] eqn:Hy.
  - destruct (Z.eqb_spec y x) as [-> | Hne].
    + rewrite (proj2 (tag_mask_testbit t b x n)) by (split; [lia | exact Hy]). reflexivity.
    + destruct (Z.testbit (tag_mask t b x) (Z.of_nat n)) eqn:Hbit; [| reflexivity].
      apply tag_mask_testbit in Hbit. destruct Hbit as [_ Hbit]. congruence.
  - destruct (Z.testbit (tag_mask t b x) (Z.of_nat n)) eqn:Hbit; [| reflexivity].
    apply tag_mask_testbit in Hbit. destruct Hbit as [_ Hbit]. congruence.
Qed.

Lemma popc_tag_mask t b x :
  popc (tag_mask t b x) = Z.of_nat (count_tags (fun y => (y =? x)%Z) t b B).
Proof.
  unfold popc.
  rewrite (count_bits_above B 64) by (lia || intros i Hi; apply tag_mask_high; lia).
  rewrite tag_bits_count by lia. reflexivity.
Qed.

Lemma live_tags_count t b n :
  (∀ i, (i < n)%nat → is_Some (tag_at t b i)) →
  (count_tags live_tag t b n + count_tags (fun y => (y =? empty_tag)%Z) t b n
   + count_tags (fun y => (y =? tombstone_tag)%Z) t b n = n)%nat.
Proof.
  induction n as [| n IH]; intros Hsome; simpl; [reflexivity |].
  specialize (IH ltac:(intros i Hi; apply Hsome; lia)).
  destruct (Hsome n ltac:(lia)) as [x Hx]. rewrite Hx. unfold live_tag at 1.
  pose proof tombstone_tag_not_empty as Hte.
  destruct (Z.eqb_spec x empty_tag) as [E1 | He], (Z.eqb_spec x tombstone_tag) as [E2 | Ht];
    simpl; lia.
Qed.

(** [get_bucket_fill] counts the tags that are neither empty nor
    tombstones. *)
Lemma get_bucket_fill_run b t :
  wf B t → (b < n_of t)%nat →
  get_bucket_fill W B (Z.of_nat b) t = Some (Z.of_nat (occupancy t b), t).
Proof.
  intros Hwf Hb. unfold get_bucket_fill. rewrite Nat2Z.id.
  rewrite (bind_run _ _ _ _ _ (load_fill_ballots_huge_run b defaultKey t Hwf Hb)).
  unfold ret. f_equal. f_equal. rewrite !popc_tag_mask.
  pose proof (live_tags_count t b B ltac:(intros i Hi; apply (proj2 Hwf); assumption)) as Hsum.
  fold (occupancy t b) in Hsum.
  pose proof (count_tags_le (fun y => (y =? empty_tag)%Z) t b B).
  pose proof (count_tags_le (fun y => (y =? tombstone_tag)%Z) t b B).
  set (ce := count_tags (fun y => (y =? empty_tag)%Z) t b B) in *.
  set (ct := count_tags (fun y => (y =? tombstone_tag)%Z) t b B) in *.
  unfold wrap32. rewrite (Z.mod_small (Z.of_nat B - Z.of_nat ce)) by lia.
  rewrite Z.mod_small by lia. lia.
Qed.

(** X15.  On a well-formed table [get_bucket_fill] writes nothing and
    returns the number of slots of the bucket whose tag is neither the
    empty tag nor the tombstone tag, a number from 0 to [bucket_size]. *)
Theorem get_bucket_fill_counts b t :
  wf B t → (b < n_of t)%nat →
  get_bucket_fill W B (Z.of_nat b) t = Some (Z.of_nat (occupancy t b), t)
  ∧ (occupancy t b ≤ B)%nat.
Proof.
  intros Hwf Hb. split; [exact (get_bucket_fill_run b t Hwf Hb) |].
  apply count_tags_le.
Qed.

Lemma wrap64_add_l a b : wrap64 (wrap64 a + b) = wrap64 (a + b).
Proof. unfold wrap64. apply Z.add_mod_idemp_l. lia. Qed.

(** The kernel adds up the fill of the buckets below [n_buckets]. *)
Lemma p2_md_get_fill_kernel_run n_tiles count t :
  wf B t →
  fold_m (seq 0 n_tiles)
         (fun count tid => p2_md_get_fill_kernel W B (n_buckets t) (Z.of_nat tid) count)
         (wrap64 count) t
  = Some (wrap64 (count + Z.of_nat (total_occupancy t (Nat.min n_tiles (n_of t)))), t).
Proof.
  intros Hwf. pose proof (proj1 Hwf) as Hn.
  induction n_tiles as [| n IH].
  - simpl. unfold ret. rewrite Z.add_0_r. reflexivity.
  - rewrite seq_S, fold_m_app, (bind_run _ _ _ _ _ IH). cbn [fold_m Nat.add].
    unfold p2_md_get_fill_kernel.
    destruct (Z.leb_spec (n_buckets t) (Z.of_nat n)) as [Hge | Hlt].
    + unfold bind, ret. rewrite !Nat.min_r by (unfold n_of; lia). reflexivity.
    + assert (n < n_of t)%nat as Hb by (unfold n_of; lia).
      rewrite bind_assoc, (bind_run _ _ _ _ _ (get_bucket_fill_run n t Hwf Hb)).
      unfold bind, ret. rewrite wrap64_add_l.
      rewrite Nat.min_l by lia. replace (Nat.min (S n) (n_of t)) with (S n) by lia.
      cbn [total_occupancy]. f_equal. f_equal. f_equal. lia.
Qed.

Lemma total_occupancy_le t n : (total_occupancy t n ≤ n * B)%nat.
Proof.
  induction n as [| n IH]; simpl; [lia |].
  pose proof (count_tags_le live_tag t n B). unfold occupancy. lia.
Qed.

(** The launch of [get_fill] covers every bucket, and the sum fits the
    counter. *)
Lemma get_fill_run t :
  wf B t → (256 mod W = 0)%nat →
  (n_buckets t * Z.of_nat W - 1) / 256 + 1 < 2 ^ 31 →
  get_fill W B t = Some (Z.of_nat (total_occupancy t (n_of t)), t).
Proof.
  intros Hwf Hdiv Hgrid. pose proof (proj1 Hwf) as Hn.
  unfold get_fill, launch_get_fill_kernel.
  set (nw := n_buckets t * Z.of_nat W).
  assert (1 ≤ nw) as Hnw by (unfold nw; nia).
  assert (0 ≤ (nw - 1) / 256) as Hq by (apply Z.div_pos; lia).
  assert (nw - 1 < 2 ^ 39) as Hlt.
  { pose proof (Z.mul_div_le (nw - 1) 256 ltac:(lia)).
    pose proof (Z.mod_pos_bound (nw - 1) 256 ltac:(lia)).
    pose proof (Z.div_mod (nw - 1) 256 ltac:(lia)). fold nw in Hgrid. lia. }
  fold nw. unfold wrap64 at 3. rewrite (Z.mod_small nw) by lia.
  unfold wrap64 at 2. rewrite (Z.mod_small (nw - 1)) by lia.
  unfold wrap64 at 1. rewrite (Z.mod_small ((nw - 1) / 256 + 1)) by (fold nw in Hgrid; lia).
  unfold wrap32. rewrite (Z.mod_small ((nw - 1) / 256 + 1)) by (fold nw in Hgrid; lia).
  set (n_tiles := (Z.to_nat ((nw - 1) / 256 + 1) * (256 / W))%nat).
  pose proof (p2_md_get_fill_kernel_run n_tiles 0 t Hwf) as Hrun.
  change (wrap64 0) with 0 in Hrun. rewrite Hrun. rewrite Z.add_0_l.
  assert (n_of t ≤ n_tiles)%nat as Hcover.
  { unfold n_tiles.
    assert (256 = 256 / W * W)%nat as Hw.
    { pose proof (Nat.div_mod_eq 256 W). lia. }
    pose proof (Z.div_mod (nw - 1) 256 ltac:(lia)) as Hdm.
    pose proof (Z.mod_pos_bound (nw - 1) 256 ltac:(lia)) as Hm.
    assert (nw ≤ ((nw - 1) / 256 + 1) * 256) as Hblocks by lia.
    assert (Z.of_nat (n_of t) * Z.of_nat W
            ≤ Z.of_nat (Z.to_nat ((nw - 1) / 256 + 1) * (256 / W)) * Z.of_nat W) as Hmul.
    { unfold n_of. rewrite Z2Nat.id by lia. fold nw.
      rewrite Nat2Z.inj_mul, Z2Nat.id by lia.
      rewrite <- Z.mul_assoc, <- Nat2Z.inj_mul, <- Hw. exact Hblocks. }
    nia. }
  rewrite Nat.min_r by exact Hcover.
  pose proof (total_occupancy_le t (n_of t)) as Hle.
  assert (Z.of_nat (n_of t) ≤ 2 ^ 39) as Hnb.
  { unfold n_of. rewrite Z2Nat.id by lia. unfold nw in Hlt. nia. }
  unfold wrap64. rewrite Z.mod_small; [reflexivity |].
  split; [lia |].
  apply Z.le_lt_trans with (Z.of_nat (n_of t) * Z.of_nat B); [nia |].
  apply Z.le_lt_trans with (2 ^ 39 * 32); [nia | reflexivity].
Qed.

(** X16.  On a well-formed table, when the tile size divides 256 and the
    launch stays within the largest grid, [get_fill] writes nothing and
    returns the number of slots of the whole table whose tag is neither
    the empty tag nor the tombstone tag; the number is at most
    [n_buckets * bucket_size]. *)
Theorem get_fill_counts t :
  wf B t → (256 mod W = 0)%nat →
  (n_buckets t * Z.of_nat W - 1) / 256 + 1 < 2 ^ 31 →
  get_fill W B t = Some (Z.of_nat (total_occupancy t (n_of t)), t)
  ∧ Z.of_nat (total_occupancy t (n_of t)) ≤ n_buckets t * Z.of_nat B.
Proof.
  intros Hwf Hdiv Hgrid. split; [exact (get_fill_run t Hwf Hdiv Hgrid) |].
  pose proof (total_occupancy_le t (n_of t)) as Hle. pose proof (proj1 Hwf) as Hn.
  unfold n_of in *. nia.
Qed.

(** How the operations move the fill. *)
Lemma count_tags_set_pair P b i p t b' n :
  count_tags P (set_pair b i p t) b' n = count_tags P t b' n.
Proof.
  induction n as [| n IH]; simpl; [reflexivity |].
  rewrite tag_at_set_pair, IH. reflexivity.
Qed.

Lemma count_tags_set_tag_other P b i x t b' n :
  b' ≠ b ∨ (n ≤ i)%nat →
  count_tags P (set_tag b i x t) b' n = count_tags P t b' n.
Proof.
  intros Hdiff. induction n as [| n IH]; simpl; [reflexivity |].
  rewrite tag_at_set_tag_ne by (intros E; inversion E; lia).
  rewrite IH by lia. reflexivity.
Qed.

Lemma count_tags_set_tag P b i x old t n :
  tag_at t b i = Some old → (i < n)%nat →
  (count_tags P (set_tag b i x t) b n + (if P old then 1 else 0)
   = count_tags P t b n + (if P x then 1 else 0))%nat.
Proof.
  intros Hold Hi. induction n as [| n IH]; [lia |].
  simpl. destruct (Nat.eq_dec i n) as [-> | Hne].
  - rewrite tag_at_set_tag_eq by eauto. rewrite Hold.
    rewrite count_tags_set_tag_other by lia. lia.
  - rewrite tag_at_set_tag_ne by (intros E; inversion E; lia).
    specialize (IH ltac:(lia)). lia.
Qed.

Lemma total_occupancy_set_pair b i p t n :
  total_occupancy (set_pair b i p t) n = total_occupancy t n.
Proof.
  induction n as [| n IH]; simpl; [reflexivity |].
  unfold occupancy. rewrite count_tags_set_pair, IH. reflexivity.
Qed.

Lemma total_occupancy_set_tag_above b i x t n :
  (n ≤ b)%nat → total_occupancy (set_tag b i x t) n = total_occupancy t n.
Proof.
  intros Hn. induction n as [| n IH]; simpl; [reflexivity |].
  unfold occupancy. rewrite count_tags_set_tag_other by (left; lia).
  rewrite IH by lia. reflexivity.
Qed.

Lemma total_occupancy_set_tag b i x old t n :
  tag_at t b i = Some old → (i < B)%nat → (b < n)%nat →
  (total_occupancy (set_tag b i x t) n + (if live_tag old then 1 else 0)
   = total_occupancy t n + (if live_tag x then 1 else 0))%nat.
Proof.
  intros Hold Hi Hb. induction n as [| n IH]; [lia |].
  simpl. unfold occupancy. destruct (Nat.eq_dec b n) as [-> | Hne].
  - pose proof (count_tags_set_tag live_tag n i x old t B Hold Hi) as Hc.
    rewrite total_occupancy_set_tag_above by lia. lia.
  - rewrite count_tags_set_tag_other by (left; lia).
    specialize (IH ltac:(lia)). lia.
Qed.

Lemma live_tag_get_tag k : live_tag (get_tag k) = true.
Proof.
  unfold live_tag. pose proof (get_tag_not_empty k). pose proof (get_tag_not_tombstone k).
  apply andb_true_iff. rewrite !negb_true_iff, !Z.eqb_neq. tauto.
Qed.

Lemma live_tag_free x : x = tombstone_tag ∨ x = empty_tag → live_tag x = false.
Proof.
  unfold live_tag. intros [-> | ->].
  - rewrite Z.eqb_refl, andb_false_r. reflexivity.
  - rewrite Z.eqb_refl. reflexivity.
Qed.

Lemma upsert_outcome_fill t k v r t' :
  table_inv t → user_key k →
  upsert_outcome t (first_bucket t k) (second_bucket t k) k v r t' →
  ∃ q, find_with_reference W B k t = Some (q, t)
       ∧ total_occupancy t' (n_of t)
         = match r, q !! 0%nat with
           | true, Some None => S (total_occupancy t (n_of t))
           | _, _ => total_occupancy t (n_of t)
           end.
Proof.
  intros Hinv Hlive Hout. pose proof (proj1 (inv_wf t Hinv)) as Hn.
  destruct Hout as [b i p Hi Htag Hp Hk Hwhere _
                   | b i free_tag Hi Htag Hfree Hno0 Hwhere | Hcut Hf0 Hf1].
  - assert (b < n_of t)%nat as Hb.
    { destruct Hwhere as [-> | [-> _]]; [apply first_bucket_lt | apply second_bucket_lt];
        exact Hn. }
    exists (lane_replies i (val p)).
    split; [exact (find_present t k b i p Hinv Hlive Hb Hi Hp Hk) |].
    rewrite lane_replies_lookup by exact tile_nonempty.
    rewrite serves_lane_0 by exact Hi.
    apply total_occupancy_set_pair.
  - assert (b < n_of t)%nat as Hb.
    { assert (b = first_bucket t k ∨ b = second_bucket t k) as [-> | ->] by tauto;
        [apply first_bucket_lt | apply second_bucket_lt]; exact Hn. }
    exists no_replies. split.
    + apply find_absent; [exact Hinv |].
      apply (absent_everywhere t k Hinv Hlive Hno0). tauto.
    + rewrite no_replies_lookup by exact tile_nonempty.
      rewrite total_occupancy_set_pair.
      pose proof (total_occupancy_set_tag b i (get_tag k) free_tag t (n_of t) Htag Hi Hb) as Hc.
      rewrite live_tag_get_tag, live_tag_free in Hc by tauto. lia.
  - destruct (find_with_reference_spec k t (inv_wf t Hinv)) as (q & Hq).
    exists q. split; [exact Hq | reflexivity].
Qed.

Lemma remove_outcome_fill t b0 b1 k r t' :
  wf B t → (b0 < n_of t)%nat → (b1 < n_of t)%nat →
  remove_outcome t b0 b1 k r t' →
  (total_occupancy t' (n_of t) + (if r then 1 else 0) = total_occupancy t (n_of t))%nat.
Proof.
  intros Hwf Hb0 Hb1 Hout.
  destruct Hout as [b i p Hi Htag Hp Hk Hwhere | Hno0 Hno1]; [| lia].
  assert (b < n_of t)%nat as Hb by (destruct Hwhere as [-> | [-> _]]; assumption).
  assert (tag_at (set_pair b i (mk_pair tombstoneKey (val p)) t) b i = Some (get_tag k))
    as Htag' by (rewrite tag_at_set_pair; exact Htag).
  pose proof (total_occupancy_set_tag b i tombstone_tag (get_tag k) _ (n_of t) Htag' Hi Hb) as Hc.
  rewrite live_tag_get_tag, live_tag_free, total_occupancy_set_pair in Hc by tauto. lia.
Qed.

(** X17.  On a table reached by any sequence of operations, an [upsert] of
    a key that is neither [defaultKey] nor [tombstoneKey] raises what
    [get_fill] returns by one when it returns true and a query for the key
    returned nothing on lane 0 before, and leaves it as it was otherwise
    (value replaced, or upsert refused). *)
Theorem upsert_moves_fill t fuel k v r t' :
  reachable t → user_key k → (256 mod W = 0)%nat →
  (n_buckets t * Z.of_nat W - 1) / 256 + 1 < 2 ^ 31 →
  upsert_replace W B fuel k v t = Some (r, t') →
  ∃ q n, find_with_reference W B k t = Some (q, t)
         ∧ get_fill W B t = Some (n, t)
         ∧ get_fill W B t' = Some (match r, q !! 0%nat with
                                   | true, Some None => n + 1
                                   | _, _ => n
                                   end, t').
Proof.
  intros Hreach Hlive Hdiv Hgrid Hrun. pose proof (reachable_inv t Hreach) as Hinv.
  pose proof (upsert_replace_outcome fuel k v t r t' Hinv Hrun) as Hout.
  pose proof (upsert_outcome_inv t k v r t' Hinv Hout) as Hinv'.
  destruct (upsert_outcome_locks _ _ _ _ _ _ _ Hout) as (_ & Hn' & _).
  destruct (upsert_outcome_fill t k v r t' Hinv Hlive Hout) as (q & Hq & Hfill).
  exists q, (Z.of_nat (total_occupancy t (n_of t))).
  split; [exact Hq |]. split; [exact (get_fill_run t (inv_wf t Hinv) Hdiv Hgrid) |].
  rewrite (get_fill_run t' (inv_wf t' Hinv') Hdiv) by (rewrite Hn'; exact Hgrid).
  assert (n_of t' = n_of t) as -> by (unfold n_of; rewrite Hn'; reflexivity).
  rewrite Hfill. destruct r, (q !! 0%nat) as [[reply |] |]; try reflexivity.
  f_equal. f_equal. lia.
Qed.

(** X18.  On a table reached by any sequence of operations, a [remove] that
    returns true lowers what [get_fill] returns by one, and a [remove]
    that returns false leaves it as it was. *)
Theorem remove_moves_fill t fuel k r t' :
  reachable t → (256 mod W = 0)%nat →
  (n_buckets t * Z.of_nat W - 1) / 256 + 1 < 2 ^ 31 →
  remove W B fuel k t = Some (r, t') →
  ∃ n, get_fill W B t = Some (n, t)
       ∧ get_fill W B t' = Some (if r then n - 1 else n, t').
Proof.
  intros Hreach Hdiv Hgrid Hrun. pose proof (reachable_inv t Hreach) as Hinv.
  pose proof (proj1 (inv_wf t Hinv)) as Hn.
  pose proof (remove_outcome_of_run fuel k t r t' Hinv Hrun) as Hout.
  pose proof (remove_outcome_inv t k r t' Hinv Hout) as Hinv'.
  destruct (remove_outcome_locks _ _ _ _ _ _ Hout) as (_ & Hn' & _).
  pose proof (remove_outcome_fill t _ _ k r t' (inv_wf t Hinv)
                (first_bucket_lt t k Hn) (second_bucket_lt t k Hn) Hout) as Hfill.
  exists (Z.of_nat (total_occupancy t (n_of t))).
  split; [exact (get_fill_run t (inv_wf t Hinv) Hdiv Hgrid) |].
  rewrite (get_fill_run t' (inv_wf t' Hinv') Hdiv) by (rewrite Hn'; exact Hgrid).
  assert (n_of t' = n_of t) as -> by (unfold n_of; rewrite Hn'; reflexivity).
  f_equal. f_equal. destruct r; lia.
Qed.

(** ** [load_fill_ballots] *)

Lemma ballot_word_testbit lanes n :
  0 ≤ n →
  Z.testbit (ballot_word lanes) n = true ↔ ∃ lane, lane ∈ lanes ∧ n = Z.of_nat lane.
Proof.
  intros Hn. induction lanes as [| l lanes IH]; simpl.
  - rewrite Z.bits_0. split; [discriminate |].
    intros (lane & Hin & _). inversion Hin.
  - rewrite Z.lor_spec, orb_true_iff, IH, Z.shiftl_1_l, Z.pow2_bits_eqb by lia.
    rewrite Z.eqb_eq. split.
    + intros [E | (lane & Hin & E)].
      * exists l. split; [left | lia].
      * exists lane. split; [right; exact Hin | exact E].
    + intros (lane & Hin & E). inversion Hin; subst.
      * left. reflexivity.
      * right. exists lane. split; [assumption | reflexivity].
Qed.

Lemma round_votes_testbit t b x offset n :
  wf B t → (b < n_of t)%nat → 0 ≤ n →
  Z.testbit (round_votes t b x offset) n = true
  ↔ ∃ lane, lane ∈ lanes_in W offset (n_traversals W B)
            ∧ n = Z.of_nat (offset + lane) ∧ (offset + lane < B)%nat
            ∧ tag_at t b (offset + lane) = Some x.
Proof.
  intros Hwf Hb Hn. unfold round_votes, wrap32.
  assert (∀ lane, (offset + lane <? B)%nat && (tagv t b (offset + lane) =? x) = true
                  ↔ (offset + lane < B)%nat ∧ tag_at t b (offset + lane) = Some x) as Hvote.
  { intros lane. rewrite andb_true_iff, Nat.ltb_lt, Z.eqb_eq. split.
    - intros [Hlt E]. split; [exact Hlt |].
      rewrite (tagv_tag_at t b (offset + lane)) by (apply (proj2 Hwf); assumption).
      rewrite E. reflexivity.
    - intros [Hlt E]. split; [exact Hlt |]. unfold tagv. rewrite E. reflexivity. }
  destruct (Z.lt_ge_cases n 32) as [Hlow | Hhigh].
  - rewrite Z.mod_pow2_bits_low by lia. rewrite Z.shiftl_spec by lia.
    destruct (Z.lt_ge_cases (n - Z.of_nat offset) 0) as [Hneg | Hpos].
    + rewrite Z.testbit_neg_r by lia. split; [discriminate |].
      intros (lane & _ & E & _). lia.
    + rewrite ballot_word_testbit by lia. split.
      * intros (lane & Hin & E). apply ballot_map_In in Hin. destruct Hin as [Hin Hv].
        apply Hvote in Hv. exists lane. split; [exact Hin |]. split; [lia | exact Hv].
      * intros (lane & Hin & E & Hv). exists lane. split; [| lia].
        apply ballot_map_In. split; [exact Hin |]. apply Hvote. exact Hv.
  - rewrite Z.mod_pow2_bits_high by lia. split; [discriminate |].
    intros (lane & _ & E & Hlt & _). lia.
Qed.

Lemma rounds_votes_mask t b x :
  wf B t → (b < n_of t)%nat →
  fold_left (fun acc offset => Z.lor acc (round_votes t b x offset))
            (rounds W (n_traversals W B)) 0
  = tag_mask t b x.
Proof.
  intros Hwf Hb. apply Z.bits_inj'. intros n Hn.
  rewrite fold_left_lor_testbit, Z.bits_0, orb_false_l.
  apply eq_true_iff_eq. rewrite existsb_exists.
  pose proof (tag_mask_testbit t b x (Z.to_nat n)) as Hmask.
  rewrite Z2Nat.id in Hmask by lia. rewrite Hmask. clear Hmask. split.
  - intros (offset & _ & Hbit).
    apply (round_votes_testbit t b x offset n Hwf Hb Hn) in Hbit.
    destruct Hbit as (lane & _ & E & Hlt & Htag). subst n. rewrite Nat2Z.id. tauto.
  - intros [Hlt Htag]. destruct (stride_visits (Z.to_nat n) Hlt) as (offset & lane & Ho & Hl & E).
    exists offset. split; [apply list_elem_of_In; exact Ho |].
    apply (round_votes_testbit t b x offset n Hwf Hb Hn).
    exists lane. split; [exact Hl |]. rewrite <- E. split; [lia |]. split; assumption.
Qed.

(** [load_fill_ballots] computes the masks of the bucket. *)
Lemma load_fill_ballots_run b k t :
  wf B t → (b < n_of t)%nat →
  load_fill_ballots W B b k t
  = Some ((tag_mask t b empty_tag, tag_mask t b tombstone_tag, tag_mask t b (get_tag k)), t).
Proof.
  intros Hwf Hb. unfold load_fill_ballots.
  rewrite (fold_m_read _ _
             (fun '(e, ts, m) offset =>
                (Z.lor e (round_votes t b empty_tag offset),
                 Z.lor ts (round_votes t b tombstone_tag offset),
                 Z.lor m (round_votes t b (get_tag k) offset)))).
  - rewrite fold_left_triple, !rounds_votes_mask by assumption. reflexivity.
  - intros offset [[e ts] m] _.
    destruct (for_lanes_read (lanes_in W offset (n_traversals W B))
                (fun lane =>
                   if (offset + lane <? B)%nat
                   then (loaded_key <- hash_table_load_tag b (offset + lane) ;;
                         ret (lane, Some loaded_key))
                   else ret (lane, None))
                t
                (fun lane r =>
                   r = (lane, if (offset + lane <? B)%nat
                              then Some (tagv t b (offset + lane)) else None)))
      as (loaded & Hrun & Hrel).
    { intros lane _. destruct (Nat.ltb_spec (offset + lane) B) as [Hlt | Hge].
      - exists (lane, Some (tagv t b (offset + lane))). split; [| reflexivity].
        rewrite (bind_run _ _ _ _ _
                   (hash_table_load_tag_run b (offset + lane) t _
                      (tagv_tag_at t b (offset + lane) (proj1 (proj2 Hwf b _ Hb Hlt))))).
        reflexivity.
      - exists (lane, None). split; reflexivity. }
    apply Forall2_eq_map in Hrel. subst loaded.
    rewrite (bind_run _ _ _ _ _ Hrun). unfold ret, round_votes.
    assert (∀ x,
      ballot (map (fun '(lane, loaded_key) =>
                     (lane, match loaded_key with
                            | Some y => y =? x
                            | None => false
                            end))
                  (map (fun lane => (lane, if (offset + lane <? B)%nat
                                           then Some (tagv t b (offset + lane)) else None))
                       (lanes_in W offset (n_traversals W B))))
      = ballot (map (fun lane => (lane, (offset + lane <? B)%nat
                                        && (tagv t b (offset + lane) =? x)))
                    (lanes_in W offset (n_traversals W B)))) as Hvotes.
    { intros x. rewrite map_map. f_equal. apply map_ext. intros lane.
      destruct (offset + lane <? B)%nat; reflexivity. }
    rewrite !Hvotes. reflexivity.
Qed.

(** X19.  On a well-formed table [load_fill_ballots], the loader that reads
    one tag per lane, computes the masks that [load_fill_ballots_huge], the
    loader that reads eight tags per lane, computes, and writes nothing. *)
Theorem load_fill_ballots_agree b k t :
  wf B t → (b < n_of t)%nat →
  ∃ masks, load_fill_ballots W B b k t = Some (masks, t)
           ∧ load_fill_ballots_huge W B b k t = Some (masks, t).
Proof.
  intros Hwf Hb. eexists. split.
  - exact (load_fill_ballots_run b k t Hwf Hb).
  - exact (load_fill_ballots_huge_run b k t Hwf Hb).
Qed.

(** ** The scans of [p2_md_bucket] that do not use the tags *)

Lemma first_some_ext {A R} (xs : list A) (body1 body2 : A → M (option R)) t :
  (∀ x t', body1 x t' = body2 x t') → first_some xs body1 t = first_some xs body2 t.
Proof.
  intros Hext. revert t. induction xs as [| x xs IH]; intros t; simpl; [reflexivity |].
  apply bind_cong; [apply Hext |]. intros [y |] t'; [reflexivity | apply IH].
Qed.

Lemma for_lanes_ext {A R} (xs : list A) (body1 body2 : A → M R) t :
  (∀ x t', body1 x t' = body2 x t') → for_lanes xs body1 t = for_lanes xs body2 t.
Proof.
  intros Hext. revert t. induction xs as [| x xs IH]; intros t; simpl; [reflexivity |].
  apply bind_cong; [apply Hext |]. intros r t'.
  apply bind_cong; [apply IH | reflexivity].
Qed.

Lemma mask_bit_ones i : (i < B)%nat → mask_bit (Z.ones 64) i = true.
Proof.
  intros Hi. rewrite mask_bit_testbit by lia. apply Z.ones_spec_low. lia.
Qed.

Lemma slot_guard_ones i : (i <? B)%nat = (i <? B)%nat && mask_bit (Z.ones 64) i.
Proof.
  destruct (Nat.ltb_spec i B) as [Hi | _]; [| reflexivity].
  rewrite mask_bit_ones by exact Hi. reflexivity.
Qed.

(** [query] is [query_match] with every slot in the bitmap, and [erase] is
    [erase_reference] with every slot in the ballot. *)
Lemma query_as_query_match b k t :
  query W B b k t = query_match W B b k (Z.ones 64) t.
Proof.
  unfold query, query_match. change (popc (Z.ones 64) =? 0) with false. cbv iota.
  apply first_some_ext. intros offset t1.
  apply bind_cong; [| reflexivity].
  apply for_lanes_ext. intros lane t2. cbv zeta.
  rewrite <- slot_guard_ones. reflexivity.
Qed.

Lemma erase_as_erase_reference b k t :
  erase W B b k t = erase_reference W B b k (Z.ones 64) t.
Proof.
  unfold erase, erase_reference.
  apply first_some_ext. intros offset t1.
  apply bind_cong; [| reflexivity].
  apply for_lanes_ext. intros lane t2. cbv zeta.
  rewrite <- slot_guard_ones. reflexivity.
Qed.

Lemma query_match_spec b k m t :
  wf B t → (b < n_of t)%nat →
  ∃ r, query_match W B b k m t = Some (r, t)
       ∧ match r with
         | Some v =>
             ∃ i p, (i < B)%nat ∧ mask_bit m i = true
                    ∧ pair_at t b i = Some p ∧ key p = k ∧ val p = v
         | None =>
             ∀ i p, (i < B)%nat → mask_bit m i = true →
                    pair_at t b i = Some p → key p ≠ k
         end.
Proof.
  intros Hwf Hb. unfold query_match.
  destruct (Z.eqb_spec (popc m) 0) as [Hzero | _].
  { exists None. split; [reflexivity |]. intros i p Hi Hbit _ _.
    rewrite mask_bit_testbit in Hbit by lia.
    rewrite (proj1 (popc_zero m) Hzero i) in Hbit by lia. discriminate. }
  set (hit := fun i : nat =>
         if (i <? B)%nat && mask_bit m i
         then match pair_at t b i with
              | Some p => if key p =? k then Some (val p) else None
              | None => None
              end
         else None).
  set (Q := fun (v : Z) (t' : p2_metadata_table) =>
              t' = t ∧ ∃ i, (i < B)%nat ∧ hit i = Some v).
  set (Miss := fun offset : nat =>
         ∀ lane, lane ∈ lanes_in W offset (n_traversals W B) → hit (offset + lane)%nat = None).
  destruct (first_some_spec (rounds W (n_traversals W B))
              (fun offset =>
                 votes <- for_lanes (lanes_in W offset (n_traversals W B)) (fun lane =>
                            if ((offset + lane) <? B)%nat && mask_bit m (offset + lane)
                            then (loaded_pair <- ht_load_packed_pair b (offset + lane) ;;
                                  ret (if key loaded_pair =? k
                                       then Some (val loaded_pair) else None))
                            else ret None) ;;
                 ret (leader_val votes))
              t Q Miss) as (r & t' & Hrun & Hr).
  { intros offset Hoff.
    destruct (for_lanes_read (lanes_in W offset (n_traversals W B))
                (fun lane =>
                   if ((offset + lane) <? B)%nat && mask_bit m (offset + lane)
                   then (loaded_pair <- ht_load_packed_pair b (offset + lane) ;;
                         ret (if key loaded_pair =? k
                              then Some (val loaded_pair) else None))
                   else ret None)
                t (fun lane r => r = hit (offset + lane)%nat))
      as (votes & Hvotes & Hrel).
    { intros lane _. unfold hit.
      destruct (Nat.ltb_spec (offset + lane) B) as [Hi | _]; simpl;
        [| eexists; split; reflexivity].
      destruct (mask_bit m (offset + lane)); [| eexists; split; reflexivity].
      destruct (proj2 Hwf b _ Hb Hi) as [_ [p Hp]].
      rewrite (bind_run _ _ _ _ _ (ht_load_packed_pair_run b _ t p Hp)), Hp.
      eexists. split; reflexivity. }
    apply Forall2_eq_map in Hrel. rewrite (bind_run _ _ _ _ _ Hvotes).
    exists (leader_val votes), t. split; [reflexivity |].
    destruct (leader_val votes) as [v |] eqn:Hlv.
    - apply leader_val_Some in Hlv. rewrite Hrel in Hlv.
      apply in_map_iff in Hlv. destruct Hlv as (lane & Hhit & _).
      split; [reflexivity |]. exists (offset + lane)%nat. split; [| exact Hhit].
      unfold hit in Hhit. destruct (Nat.ltb_spec (offset + lane) B); [assumption | discriminate].
    - split; [reflexivity |]. intros lane Hlane.
      apply (leader_val_None votes Hlv). rewrite Hrel. apply in_map_iff.
      exists lane. split; [reflexivity | apply list_elem_of_In; exact Hlane]. }
  assert (t' = t) as -> by (destruct r; apply Hr).
  exists r. split; [exact Hrun |]. destruct r as [v |].
  - destruct Hr as [_ (i & Hi & Hhit)]. unfold hit in Hhit.
    destruct ((i <? B)%nat && mask_bit m i) eqn:Hguard; [| discriminate].
    apply andb_true_iff in Hguard. destruct Hguard as [_ Hbit].
    destruct (pair_at t b i) as [p |] eqn:Hp; [| discriminate].
    destruct (Z.eqb_spec (key p) k) as [Ek | _]; [| discriminate].
    inversion Hhit. exists i, p. auto.
  - destruct Hr as [_ Hall]. intros i p Hi Hbit Hp.
    destruct (stride_visits i Hi) as (offset & lane & Hoff & Hlane & E).
    specialize (Hall offset Hoff lane Hlane). rewrite <- E in Hall. unfold hit in Hall.
    rewrite (proj2 (Nat.ltb_lt i B) Hi), Hbit, Hp in Hall. simpl in Hall.
    destruct (Z.eqb_spec (key p) k) as [Ek | Hne]; [discriminate | exact Hne].
Qed.

(** On a table that satisfies the invariant a key that is neither
    [defaultKey] nor [tombstoneKey] is in the mask of its tag, and in one
    slot. *)
Lemma key_slot_tagged t b k i p :
  table_inv t → user_key k → (b < n_of t)%nat → (i < B)%nat →
  pair_at t b i = Some p → key p = k →
  tag_at t b i = Some (get_tag k) ∧ mask_bit (tag_mask t b (get_tag k)) i = true.
Proof.
  intros Hinv Hlive Hb Hi Hp Hk.
  assert (tag_at t b i = Some (get_tag k)) as Htag.
  { apply (inv_tag t Hinv b i k Hb Hi); [| exact Hlive]. apply key_at_pair. eauto. }
  split; [exact Htag |]. rewrite mask_bit_testbit by lia.
  apply tag_mask_testbit. split; assumption.
Qed.

Lemma key_slot_unique t b k i p i' p' :
  table_inv t → user_key k → (b < n_of t)%nat → (i < B)%nat → (i' < B)%nat →
  pair_at t b i = Some p → key p = k → pair_at t b i' = Some p' → key p' = k →
  i = i' ∧ p = p'.
Proof.
  intros Hinv Hlive Hb Hi Hi' Hp Hk Hp' Hk'.
  destruct (inv_unique t Hinv b i b i' k Hb Hi Hb Hi') as [_ ->];
    [apply key_at_pair; eauto | apply key_at_pair; eauto | exact Hlive |].
  split; [reflexivity | congruence].
Qed.

(** X20.  On a table reached by any sequence of operations, for a key that
    is neither [defaultKey] nor [tombstoneKey], the scans of a bucket that
    compare every key ([query]) and the keys of a bitmap ([query_match],
    given the match mask of [load_fill_ballots_huge]) return the same and
    write nothing; [query_md_and_bucket_large], called by the whole tile,
    writes nothing and returns that value on the lanes inside its tag loop
    in the round that loads the slot of the key, and nothing on the other
    lanes, or nothing on any lane when the other two return nothing. *)
Theorem bucket_queries_agree b k t :
  reachable t → user_key k → (b < n_of t)%nat →
  ∃ r replies,
    query W B b k t = Some (r, t)
    ∧ (masks <- load_fill_ballots_huge W B b k ;;
       query_match W B b k masks.2) t = Some (r, t)
    ∧ query_md_and_bucket_large W B (seq 0 W) b k t = Some (replies, t)
    ∧ match r with
      | Some v =>
          ∃ i, (i < B)%nat ∧ pair_at t b i = Some (mk_pair k v)
               ∧ replies = map (fun lane => (lane, if serves i lane then Some v else None))
                               (seq 0 W)
      | None => replies = map (fun lane => (lane, None)) (seq 0 W)
      end.
Proof.
  intros Hreach Hlive Hb. pose proof (reachable_inv t Hreach) as Hinv.
  pose proof (inv_wf t Hinv) as Hwf.
  destruct (query_match_spec b k (Z.ones 64) t Hwf Hb) as (r & Hscan & Hr).
  assert (∀ m, (∀ i p, (i < B)%nat → pair_at t b i = Some p → key p = k →
                        mask_bit m i = true) →
               query_match W B b k m t = Some (r, t)) as Hany.
  { intros m Hm. destruct (query_match_spec b k m t Hwf Hb) as (r' & Hrun & Hr').
    rewrite Hrun. f_equal. f_equal.
    destruct r' as [v' |], r as [v |].
    - destruct Hr' as (i' & p' & Hi' & _ & Hp' & Hk' & Hv').
      destruct Hr as (i & p & Hi & _ & Hp & Hk & Hv).
      destruct (key_slot_unique t b k i p i' p' Hinv Hlive Hb Hi Hi' Hp Hk Hp' Hk')
        as [_ ->]. congruence.
    - exfalso. destruct Hr' as (i' & p' & Hi' & _ & Hp' & Hk' & _).
      exact (Hr i' p' Hi' (mask_bit_ones i' Hi') Hp' Hk').
    - exfalso. destruct Hr as (i & p & Hi & _ & Hp & Hk & _).
      exact (Hr' i p Hi (Hm i p Hi Hp Hk) Hp Hk).
    - reflexivity. }
  destruct (query_md_and_bucket_large_spec (seq 0 W) b k t Hwf Hb) as (hit & Hlarge & Hhit).
  assert (Hall : ∀ lane, lane ∈ seq 0 W → (lane < W)%nat).
  { intros lane Hlane. apply list_elem_of_In, in_seq in Hlane. lia. }
  exists r. eexists. split; [| split; [| split; [exact Hlarge |]]].
  - rewrite query_as_query_match. exact Hscan.
  - rewrite (bind_run _ _ _ _ _ (load_fill_ballots_huge_run b k t Hwf Hb)). cbn [snd].
    apply Hany. intros i p Hi Hp Hk.
    exact (proj2 (key_slot_tagged t b k i p Hinv Hlive Hb Hi Hp Hk)).
  - destruct r as [v |].
    + destruct Hr as (i & p & Hi & _ & Hp & Hk & Hv).
      assert (Hpk : pair_at t b i = Some (mk_pair k v)).
      { rewrite Hp. destruct p as [pk pv]. simpl in *. subst. reflexivity. }
      pose proof (proj1 (key_slot_tagged t b k i p Hinv Hlive Hb Hi Hp Hk)) as Htag.
      exists i. split; [exact Hi |]. split; [exact Hpk |].
      destruct hit as [[offset v'] |].
      * destruct (probe_hit_slot t _ b k offset v' Hwf Hb Hall Hhit)
          as (idx & lane & Hidx & Hround & _ & _ & _ & Hp').
        destruct (key_slot_unique t b k i p idx (mk_pair k v') Hinv Hlive Hb Hi Hidx
                    Hp Hk Hp' eq_refl) as [<- Ep].
        rewrite Ep in Hv. simpl in Hv. subst v' offset. reflexivity.
      * exfalso. destruct (slot_schedule i Hi) as (owner & Howner & Hoff & Hlt & Hslot).
        apply (probe_hit_miss t (seq 0 W) b k i owner v Hwf Hb Hi Htag Hpk); auto.
        apply list_elem_of_In, in_seq. lia.
    + destruct hit as [[offset v'] |]; [exfalso | reflexivity].
      destruct (probe_hit_slot t _ b k offset v' Hwf Hb Hall Hhit)
        as (idx & lane & Hidx & _ & _ & _ & _ & Hp').
      exact (Hr idx (mk_pair k v') Hidx (mask_bit_ones idx Hidx) Hp' eq_refl).
Qed.

(** X21.  On a table reached by any sequence of operations, for a key that
    is neither [defaultKey] nor [tombstoneKey], [erase], which compares
    every key of the
    bucket, returns the slot and leaves the table that [erase_reference]
    does when it is given the match mask of [load_fill_ballots_huge]: the
    slot that held the key, its key replaced by the tombstone key, or
    nothing and the table as it was. *)
Theorem erase_agrees b k t :
  reachable t → user_key k → (b < n_of t)%nat →
  ∃ r t', erase W B b k t = Some (r, t')
          ∧ (masks <- load_fill_ballots_huge W B b k ;;
             erase_reference W B b k masks.2) t = Some (r, t')
          ∧ match r with
            | Some i =>
                ∃ v, (i < B)%nat ∧ pair_at t b i = Some (mk_pair k v)
                     ∧ t' = set_pair b i (mk_pair tombstoneKey v) t
            | None =>
                t' = t ∧ ∀ i, (i < B)%nat → key_at t b i ≠ Some k
            end.
Proof.
  intros Hreach Hlive Hb. pose proof (reachable_inv t Hreach) as Hinv.
  pose proof (inv_wf t Hinv) as Hwf.
  rewrite (bind_run _ _ _ _ _ (load_fill_ballots_huge_run b k t Hwf Hb)). cbn [snd].
  rewrite erase_as_erase_reference.
  destruct (erase_reference_spec b k (Z.ones 64) t Hwf Hb) as (r & t' & Hrun & Hr).
  destruct (erase_reference_spec b k (tag_mask t b (get_tag k)) t Hwf Hb)
    as (r' & t'' & Hrun' & Hr').
  exists r, t'. split; [exact Hrun |].
  assert (r' = r ∧ t'' = t') as [-> ->].
  { destruct r' as [i' |], r as [i |].
    - destruct Hr' as (p' & Hi' & _ & Hp' & Hk' & ->).
      destruct Hr as (p & Hi & _ & Hp & Hk & ->).
      destruct (key_slot_unique t b k i p i' p' Hinv Hlive Hb Hi Hi' Hp Hk Hp' Hk')
        as [-> ->]. split; reflexivity.
    - exfalso. destruct Hr' as (p' & Hi' & _ & Hp' & Hk' & _). destruct Hr as [_ Hr].
      exact (Hr i' p' Hi' (mask_bit_ones i' Hi') Hp' Hk').
    - exfalso. destruct Hr as (p & Hi & _ & Hp & Hk & _). destruct Hr' as [_ Hr'].
      exact (Hr' i p Hi (proj2 (key_slot_tagged t b k i p Hinv Hlive Hb Hi Hp Hk)) Hp Hk).
    - destruct Hr as [-> _], Hr' as [-> _]. split; reflexivity. }
  split; [exact Hrun' |]. destruct r as [i |].
  - destruct Hr as (p & Hi & _ & Hp & Hk & ->). exists (val p).
    split; [exact Hi |]. split; [| reflexivity].
    rewrite Hp. f_equal. destruct p as [pk pv]. simpl in *. subst pk. reflexivity.
  - destruct Hr as [-> Hr]. split; [reflexivity |]. intros i Hi Hkey.
    apply key_at_pair in Hkey. destruct Hkey as (p & Hp & Hk).
    exact (Hr i p Hi (mask_bit_ones i Hi) Hp Hk).
Qed.

(** ** [upsert_function] and its callback *)

(** A scan whose steps either miss, leaving the table as it is, or all do
    the same [g], which never misses. *)
Lemma first_some_scan {A R} (xs : list A) (body : A → M (option R)) t (g : M (option R)) :
  (∀ x, x ∈ xs → body x t = Some (None, t) ∨ body x t = g t) →
  (∀ t', g t ≠ Some (None, t')) →
  (first_some xs body t = g t ∧ ∃ x, x ∈ xs ∧ body x t = g t)
  ∨ (first_some xs body t = Some (None, t) ∧ ∀ x, x ∈ xs → body x t = Some (None, t)).
Proof.
  intros Hstep Hg. induction xs as [| x xs IH].
  - right. split; [reflexivity |]. intros x Hx. inversion Hx.
  - destruct (Hstep x ltac:(left)) as [Hmiss | Hhit].
    + destruct (IH ltac:(intros y Hy; apply Hstep; right; exact Hy))
        as [[Hrun (y & Hy & Hbody)] | [Hrun Hall]].
      * left. split.
        -- simpl. rewrite (bind_run _ _ _ _ _ Hmiss). exact Hrun.
        -- exists y. split; [right; exact Hy | exact Hbody].
      * right. split.
        -- simpl. rewrite (bind_run _ _ _ _ _ Hmiss). exact Hrun.
        -- intros y Hy. inversion Hy; subst; [exact Hmiss | apply Hall; assumption].
    + left. split; [| exists x; split; [left | exact Hhit]].
      simpl. unfold bind. rewrite Hhit.
      destruct (g t) as [[[y |] t'] |] eqn:Hgt; [reflexivity | | reflexivity].
      exfalso. exact (Hg t' eq_refl).
Qed.

Lemma upsert_existing_func_miss replace_func b k v m t :
  wf B t → (b < n_of t)%nat →
  (∀ i p, (i < B)%nat → mask_bit m i = true → pair_at t b i = Some p → key p ≠ k) →
  upsert_existing_func W B replace_func b k v m t = Some (None, t).
Proof.
  intros Hwf Hb Hmiss. unfold upsert_existing_func.
  destruct (first_some_spec (rounds W (n_traversals W B))
              (fun offset =>
                 first_some
                   (ballot (map (fun lane => (lane, (offset + lane <? B)%nat
                                                    && mask_bit m (offset + lane)))
                                (lanes_in W offset (n_traversals W B))))
                   (fun leader =>
                      loaded_key <- hash_table_load_key b (offset + leader) ;;
                      if loaded_key =? k
                      then (replace_func b (offset + leader)%nat k v ;;; ret (Some leader))
                      else ret None))
              t (fun _ _ => False) (fun _ => True)) as (r & t' & Hrun & Hr).
  { intros offset _.
    destruct (first_some_spec
                (ballot (map (fun lane => (lane, (offset + lane <? B)%nat
                                                 && mask_bit m (offset + lane)))
                             (lanes_in W offset (n_traversals W B))))
                (fun leader =>
                   loaded_key <- hash_table_load_key b (offset + leader) ;;
                   if loaded_key =? k
                   then (replace_func b (offset + leader)%nat k v ;;; ret (Some leader))
                   else ret None)
                t (fun _ _ => False) (fun _ => True)) as (r & t' & Hrun & Hr).
    { intros leader Hl. apply ballot_map_In in Hl. destruct Hl as [_ Hguard].
      apply andb_true_iff in Hguard. destruct Hguard as [Hi Hbit]. apply Nat.ltb_lt in Hi.
      destruct (proj2 Hwf b _ Hb Hi) as [_ [p Hp]].
      rewrite (bind_run _ _ _ _ _ (hash_table_load_key_run b _ t p Hp)).
      destruct (Z.eqb_spec (key p) k) as [E | _]; [exfalso; exact (Hmiss _ p Hi Hbit Hp E) |].
      exists None, t. auto. }
    exists r, t'. split; [exact Hrun |]. destruct r; [exact Hr | tauto]. }
  rewrite Hrun. destruct r as [y |]; [contradiction |]. destruct Hr as [-> _]. reflexivity.
Qed.

Lemma callback_never_misses {R} (m : M unit) (y : R) t t' :
  (m ;;; ret (Some y)) t ≠ Some (None, t').
Proof. unfold bind, ret. destruct (m t) as [[[] t1] |]; discriminate. Qed.

Lemma upsert_existing_func_hit replace_func b k v m t i p :
  wf B t → (b < n_of t)%nat → (i < B)%nat → mask_bit m i = true →
  pair_at t b i = Some p → key p = k →
  (∀ i' p', (i' < B)%nat → pair_at t b i' = Some p' → key p' = k → i' = i) →
  upsert_existing_func W B replace_func b k v m t
  = (replace_func b i k v ;;; ret (Some (i mod W)%nat)) t.
Proof.
  intros Hwf Hb Hi Hbit Hp Hk Huniq. unfold upsert_existing_func.
  set (g := replace_func b i k v ;;; ret (Some (i mod W)%nat)).
  set (ballot_of := fun offset : nat =>
         ballot (map (fun lane => (lane, (offset + lane <? B)%nat
                                         && mask_bit m (offset + lane)))
                     (lanes_in W offset (n_traversals W B)))).
  set (body := fun (offset leader : nat) =>
         loaded_key <- hash_table_load_key b (offset + leader) ;;
         if loaded_key =? k
         then (replace_func b (offset + leader)%nat k v ;;; ret (Some leader))
         else ret None).
  assert (Hleader : ∀ offset leader,
            offset ∈ rounds W (n_traversals W B) → leader ∈ ballot_of offset →
            body offset leader t = Some (None, t)
            ∨ (body offset leader t = g t ∧ (offset + leader)%nat = i)).
  { intros offset leader Hoff Hl. apply ballot_map_In in Hl. destruct Hl as [Hlane Hguard].
    apply andb_true_iff in Hguard. destruct Hguard as [Hi' _]. apply Nat.ltb_lt in Hi'.
    destruct (proj2 Hwf b _ Hb Hi') as [_ [p' Hp']]. unfold body.
    rewrite (bind_run _ _ _ _ _ (hash_table_load_key_run b _ t p' Hp')).
    destruct (Z.eqb_spec (key p') k) as [E | _]; [right | left; reflexivity].
    pose proof (Huniq _ p' Hi' Hp' E) as Ei. split; [| exact Ei].
    apply (rounds_In W tile_nonempty) in Hoff. destruct Hoff as (r & -> & _).
    apply (lanes_in_In W tile_nonempty) in Hlane. destruct Hlane as [Hlt _].
    unfold g. rewrite <- Ei.
    rewrite (Nat.add_comm (r * W) leader), Nat.Div0.mod_add, Nat.mod_small by exact Hlt.
    rewrite (Nat.add_comm leader (r * W)). reflexivity. }
  assert (Hg : ∀ t', g t ≠ Some (None, t')) by (intros t'; apply callback_never_misses).
  assert (Hround : ∀ offset, offset ∈ rounds W (n_traversals W B) →
            (first_some (ballot_of offset) (body offset) t = g t
             ∧ ∃ leader, leader ∈ ballot_of offset ∧ body offset leader t = g t)
            ∨ (first_some (ballot_of offset) (body offset) t = Some (None, t)
               ∧ ∀ leader, leader ∈ ballot_of offset → body offset leader t = Some (None, t))).
  { intros offset Hoff. apply first_some_scan; [| exact Hg].
    intros leader Hl. destruct (Hleader offset leader Hoff Hl) as [H | [H _]]; auto. }
  destruct (first_some_scan (rounds W (n_traversals W B))
              (fun offset => first_some (ballot_of offset) (body offset)) t g)
    as [[Hrun _] | [_ Hall]]; [| exact Hg | exact Hrun |].
  { intros offset Hoff. destruct (Hround offset Hoff) as [[H _] | [H _]]; auto. }
  exfalso. destruct (stride_visits i Hi) as (offset & lane & Hoff & Hlane & E).
  assert (lane ∈ ballot_of offset) as Hl.
  { apply ballot_map_In. split; [exact Hlane |]. rewrite <- E.
    apply andb_true_iff. split; [apply Nat.ltb_lt; exact Hi | exact Hbit]. }
  destruct (Hround offset Hoff) as [[Hrun _] | [_ Hmiss]].
  - rewrite (Hall offset Hoff) in Hrun. exact (Hg t (eq_sym Hrun)).
  - specialize (Hmiss lane Hl). unfold body in Hmiss. rewrite <- E in Hmiss.
    rewrite (bind_run _ _ _ _ _ (hash_table_load_key_run b _ t p Hp)) in Hmiss.
    rewrite Hk, Z.eqb_refl in Hmiss. exact (callback_never_misses _ _ _ _ Hmiss).
Qed.

Lemma try_update_func_miss replace_func b k v t :
  wf B t → (b < n_of t)%nat → no_key_in t b k →
  (if negb (popc (tag_mask t b (get_tag k)) =? 0)
   then upsert_existing_func W B replace_func b k v (tag_mask t b (get_tag k))
   else ret None) t = Some (None, t).
Proof.
  intros Hwf Hb Hno. destruct (negb (popc (tag_mask t b (get_tag k)) =? 0)); [| reflexivity].
  apply upsert_existing_func_miss; [exact Hwf | exact Hb |].
  intros i p Hi Hbit Hp. apply (Hno i p Hi); [| exact Hp]. apply tag_mask_bit; assumption.
Qed.

Lemma try_update_func_hit replace_func b k v t i p :
  table_inv t → user_key k → (b < n_of t)%nat → (i < B)%nat →
  pair_at t b i = Some p → key p = k →
  (if negb (popc (tag_mask t b (get_tag k)) =? 0)
   then upsert_existing_func W B replace_func b k v (tag_mask t b (get_tag k))
   else ret None) t
  = (replace_func b i k v ;;; ret (Some (i mod W)%nat)) t.
Proof.
  intros Hinv Hlive Hb Hi Hp Hk.
  destruct (key_slot_tagged t b k i p Hinv Hlive Hb Hi Hp Hk) as [_ Hbit].
  destruct (Z.eqb_spec (popc (tag_mask t b (get_tag k))) 0) as [Hz | _]; simpl.
  { exfalso. rewrite mask_bit_testbit in Hbit by lia.
    rewrite (proj1 (popc_zero _) Hz i) in Hbit by lia. discriminate. }
  apply (upsert_existing_func_hit replace_func b k v _ t i p (inv_wf t Hinv) Hb Hi Hbit Hp Hk).
  intros i' p' Hi' Hp' Hk'.
  destruct (key_slot_unique t b k i p i' p' Hinv Hlive Hb Hi Hi' Hp Hk Hp' Hk') as [-> _].
  reflexivity.
Qed.

Lemma shortcut_loop_func_S replace_func fuel b k v e ts m :
  shortcut_loop_func W B replace_func (S fuel) b k v e ts m
  = if below_cutoff B (size_from B e) then
      (updated <- (if negb (popc m =? 0)
                   then upsert_existing_func W B replace_func b k v m else ret None) ;;
       match updated with
       | Some _ => ret (inl true)
       | None =>
           claimed <- claim_in W B b k v e ts ;;
           if claimed : bool then ret (inl true)
           else
             reload <- load_fill_ballots_huge W B b k ;;
             let '(e', ts', m') := reload in
             shortcut_loop_func W B replace_func fuel b k v e' ts' m'
       end)
    else ret (inr (e, ts, m)).
Proof. reflexivity. Qed.

Lemma balance_loop_func_S replace_func fuel b0 b1 k v e0 ts0 m0 e1 ts1 m1 :
  balance_loop_func W B replace_func (S fuel) b0 b1 k v e0 ts0 m0 e1 ts1 m1
  = if negb (size_from B (Z.lor e0 ts0) =? Z.of_nat B)
       || negb (size_from B (Z.lor e1 ts1) =? Z.of_nat B) then
      (updated_0 <- (if negb (popc m0 =? 0)
                     then upsert_existing_func W B replace_func b0 k v m0 else ret None) ;;
       match updated_0 with
       | Some _ => ret true
       | None =>
           updated_1 <- (if negb (popc m1 =? 0)
                         then upsert_existing_func W B replace_func b1 k v m1 else ret None) ;;
           match updated_1 with
           | Some _ => ret true
           | None =>
               claimed <- (if size_from B (Z.lor e0 ts0) <=? size_from B (Z.lor e1 ts1)
                           then claim_in W B b0 k v e0 ts0
                           else claim_in W B b1 k v e1 ts1) ;;
               if claimed : bool then ret true
               else
                 reload_0 <- load_fill_ballots_huge W B b0 k ;;
                 reload_1 <- load_fill_ballots_huge W B b1 k ;;
                 let '(e0', ts0', m0') := reload_0 in
                 let '(e1', ts1', m1') := reload_1 in
                 balance_loop_func W B replace_func fuel b0 b1 k v e0' ts0' m0' e1' ts1' m1'
           end
       end)
    else ret false.
Proof. reflexivity. Qed.

Lemma upsert_function_internal_present replace_func fuel k v t b i p :
  table_inv t → user_key k → (b < n_of t)%nat → (i < B)%nat →
  pair_at t b i = Some p → key p = k →
  ¬ (bucket_full t (first_bucket t k) ∧ bucket_full t (second_bucket t k)) →
  upsert_function_internal W B replace_func (S fuel) k v (hash k 8 (seed t))
    (Z.land (hash k 8 (seed t)) (BITMASK 32) mod n_buckets t) t
  = (replace_func b i k v ;;; ret true) t.
Proof.
  intros Hinv Hlive Hb Hi Hp Hk Hroom.
  pose proof (inv_wf t Hinv) as Hwf. pose proof (proj1 Hwf) as Hn.
  pose proof (first_bucket_lt t k Hn) as Hb0. pose proof (second_bucket_lt t k Hn) as Hb1.
  assert (key_at t b i = Some k) as Hkey by (apply key_at_pair; eauto).
  unfold upsert_function_internal. fold (first_bucket t k).
  rewrite (bind_run _ _ _ _ _ (load_fill_ballots_huge_run _ k t Hwf Hb0)).
  rewrite shortcut_loop_func_S. fold (in_shortcut t (first_bucket t k)).
  destruct (in_shortcut t (first_bucket t k)) eqn:Hg.
  - destruct (Nat.eq_dec b (first_bucket t k)) as [-> | Hne].
    2:{ rewrite (inv_shortcut t Hinv b i k Hb Hi Hkey Hlive Hne) in Hg. discriminate. }
    rewrite bind_assoc. unfold bind at 1.
    rewrite (try_update_func_hit replace_func _ k v t i p Hinv Hlive Hb Hi Hp Hk).
    unfold bind, ret. destruct (replace_func _ i k v t) as [[[] t1] |]; reflexivity.
  - rewrite (bind_run _ _ t
               (inr (tag_mask t (first_bucket t k) empty_tag,
                     tag_mask t (first_bucket t k) tombstone_tag,
                     tag_mask t (first_bucket t k) (get_tag k))) t eq_refl).
    rewrite (bind_run _ _ _ _ _ (get_second_bucket_run _ t Hn)).
    fold (second_bucket t k).
    rewrite (bind_run _ _ _ _ _ (load_fill_ballots_huge_run _ k t Hwf Hb1)).
    rewrite balance_loop_func_S.
    destruct (negb (size_from B (Z.lor (tag_mask t (first_bucket t k) empty_tag)
                                       (tag_mask t (first_bucket t k) tombstone_tag))
                    =? Z.of_nat B)
              || negb (size_from B (Z.lor (tag_mask t (second_bucket t k) empty_tag)
                                          (tag_mask t (second_bucket t k) tombstone_tag))
                       =? Z.of_nat B)) eqn:Hloop.
    2:{ exfalso. apply Hroom. apply orb_false_iff in Hloop. destruct Hloop as [H0 H1].
        apply negb_false_iff, Z.eqb_eq in H0, H1.
        split; apply balance_size_full; assumption. }
    destruct (Nat.eq_dec b (first_bucket t k)) as [-> | Hne].
    + unfold bind at 1.
      rewrite (try_update_func_hit replace_func _ k v t i p Hinv Hlive Hb Hi Hp Hk).
      unfold bind, ret. destruct (replace_func _ i k v t) as [[[] t1] |]; reflexivity.
    + assert (b = second_bucket t k) as ->
          by (destruct (inv_home t Hinv b i k Hb Hi Hkey Hlive); [contradiction | assumption]).
      assert (no_key_in t (first_bucket t k) k) as Hno0.
      { intros i' p' Hi' _ Hp' Hk'.
        destruct (inv_unique t Hinv (first_bucket t k) i' (second_bucket t k) i k
                    Hb0 Hi' Hb Hi) as [E _];
          [apply key_at_pair; eauto | exact Hkey | exact Hlive |].
        apply Hne. symmetry. exact E. }
      rewrite (bind_run _ _ _ _ _ (try_update_func_miss replace_func _ k v t Hwf Hb0 Hno0)).
      unfold bind at 1.
      rewrite (try_update_func_hit replace_func _ k v t i p Hinv Hlive Hb Hi Hp Hk).
      unfold bind, ret. destruct (replace_func _ i k v t) as [[[] t1] |]; reflexivity.
Qed.

Lemma upsert_function_internal_absent f g fuel k v t :
  wf B t →
  no_key_in t (first_bucket t k) k → no_key_in t (second_bucket t k) k →
  upsert_function_internal W B f (S fuel) k v (hash k 8 (seed t))
    (Z.land (hash k 8 (seed t)) (BITMASK 32) mod n_buckets t) t
  = upsert_function_internal W B g (S fuel) k v (hash k 8 (seed t))
      (Z.land (hash k 8 (seed t)) (BITMASK 32) mod n_buckets t) t.
Proof.
  intros Hwf Hno0 Hno1. pose proof (proj1 Hwf) as Hn.
  pose proof (first_bucket_lt t k Hn) as Hb0. pose proof (second_bucket_lt t k Hn) as Hb1.
  unfold upsert_function_internal. fold (first_bucket t k).
  rewrite !(bind_run _ _ _ _ _ (load_fill_ballots_huge_run _ k t Hwf Hb0)).
  rewrite !shortcut_loop_func_S. fold (in_shortcut t (first_bucket t k)).
  destruct (in_shortcut t (first_bucket t k)) eqn:Hg.
  - rewrite !bind_assoc.
    rewrite (bind_run _ _ _ _ _ (try_update_func_miss f _ k v t Hwf Hb0 Hno0)).
    rewrite (bind_run _ _ _ _ _ (try_update_func_miss g _ k v t Hwf Hb0 Hno0)).
    destruct (claim_in_spec (first_bucket t k) k v t Hwf Hb0) as (r & t1 & Hrun & Hr).
    rewrite !bind_assoc, !(bind_run _ _ _ _ _ Hrun). destruct r; [reflexivity |].
    exfalso. exact (in_shortcut_not_full t _ Hg (proj2 Hr)).
  - rewrite !(bind_run _ _ t
                (inr (tag_mask t (first_bucket t k) empty_tag,
                      tag_mask t (first_bucket t k) tombstone_tag,
                      tag_mask t (first_bucket t k) (get_tag k))) t eq_refl).
    rewrite !(bind_run _ _ _ _ _ (get_second_bucket_run _ t Hn)).
    fold (second_bucket t k).
    rewrite !(bind_run _ _ _ _ _ (load_fill_ballots_huge_run _ k t Hwf Hb1)).
    rewrite !balance_loop_func_S.
    set (size0 := size_from B (Z.lor (tag_mask t (first_bucket t k) empty_tag)
                                     (tag_mask t (first_bucket t k) tombstone_tag))).
    set (size1 := size_from B (Z.lor (tag_mask t (second_bucket t k) empty_tag)
                                     (tag_mask t (second_bucket t k) tombstone_tag))).
    pose proof (balance_size_le t (first_bucket t k)) as Hle0.
    pose proof (balance_size_le t (second_bucket t k)) as Hle1.
    fold size0 in Hle0. fold size1 in Hle1.
    destruct (negb (size0 =? Z.of_nat B) || negb (size1 =? Z.of_nat B)) eqn:Hloop;
      [| reflexivity].
    rewrite (bind_run _ _ _ _ _ (try_update_func_miss f _ k v t Hwf Hb0 Hno0)).
    rewrite (bind_run _ _ _ _ _ (try_update_func_miss g _ k v t Hwf Hb0 Hno0)).
    rewrite (bind_run _ _ _ _ _ (try_update_func_miss f _ k v t Hwf Hb1 Hno1)).
    rewrite (bind_run _ _ _ _ _ (try_update_func_miss g _ k v t Hwf Hb1 Hno1)).
    destruct (Z.leb_spec size0 size1) as [Hpick | Hpick].
    + destruct (claim_in_spec (first_bucket t k) k v t Hwf Hb0) as (r & t1 & Hrun & Hr).
      rewrite !(bind_run _ _ _ _ _ Hrun). destruct r; [reflexivity |].
      exfalso. destruct Hr as [_ Hfull].
      apply balance_size_full in Hfull. fold size0 in Hfull.
      apply orb_true_iff in Hloop. destruct Hloop as [H | H];
        apply negb_true_iff, Z.eqb_neq in H; lia.
    + destruct (claim_in_spec (second_bucket t k) k v t Hwf Hb1) as (r & t1 & Hrun & Hr).
      rewrite !(bind_run _ _ _ _ _ Hrun). destruct r; [reflexivity |].
      exfalso. destruct Hr as [_ Hfull].
      apply balance_size_full in Hfull. fold size1 in Hfull. lia.
Qed.

Lemma upsert_function_internal_full replace_func fuel k v t :
  wf B t → bucket_full t (first_bucket t k) → bucket_full t (second_bucket t k) →
  upsert_function_internal W B replace_func (S fuel) k v (hash k 8 (seed t))
    (Z.land (hash k 8 (seed t)) (BITMASK 32) mod n_buckets t) t
  = Some (false, t).
Proof.
  intros Hwf Hf0 Hf1. pose proof (proj1 Hwf) as Hn.
  pose proof (first_bucket_lt t k Hn) as Hb0. pose proof (second_bucket_lt t k Hn) as Hb1.
  unfold upsert_function_internal. fold (first_bucket t k).
  rewrite (bind_run _ _ _ _ _ (load_fill_ballots_huge_run _ k t Hwf Hb0)).
  rewrite shortcut_loop_func_S. fold (in_shortcut t (first_bucket t k)).
  rewrite (bucket_full_not_shortcut t _ Hf0).
  rewrite (bind_run _ _ t
             (inr (tag_mask t (first_bucket t k) empty_tag,
                   tag_mask t (first_bucket t k) tombstone_tag,
                   tag_mask t (first_bucket t k) (get_tag k))) t eq_refl).
  rewrite (bind_run _ _ _ _ _ (get_second_bucket_run _ t Hn)).
  fold (second_bucket t k).
  rewrite (bind_run _ _ _ _ _ (load_fill_ballots_huge_run _ k t Hwf Hb1)).
  rewrite balance_loop_func_S.
  rewrite (proj2 (balance_size_full t _) Hf0), (proj2 (balance_size_full t _) Hf1).
  rewrite Z.eqb_refl. reflexivity.
Qed.

(** [upsert_function] is [upsert_function_internal] where no lock is held
    and the callback leaves the locks alone. *)
Lemma upsert_function_unlocked replace_func fuel k v t :
  (∀ b i k' v', lock_blind (replace_func b i k' v')) →
  wf B t → locks_free t →
  upsert_function W B replace_func (S fuel) k v t
  = upsert_function_internal W B replace_func (S fuel) k v (hash k 8 (seed t))
      (Z.land (hash k 8 (seed t)) (BITMASK 32) mod n_buckets t) t.
Proof.
  intros Hblind Hwf Hlocks. pose proof (proj1 Hwf) as Hn.
  set (bucket_0 := Z.land (hash k 8 (seed t)) (BITMASK 32) mod n_buckets t).
  destruct (Hlocks bucket_0 (first_bucket_range t k Hn)) as (w & Hw & Hrange & Hclear).
  unfold upsert_function.
  rewrite (bind_run _ _ _ _ _ (eq_refl : get_seed t = Some (seed t, t))).
  rewrite (bind_run _ _ _ _ _ (get_first_bucket_run _ t Hn)). fold bucket_0.
  apply (run_under_lock _ fuel bucket_0 t w); [| exact Hw | exact Hrange | exact Hclear].
  apply lock_blind_upsert_function_internal. exact Hblind.
Qed.

(** X22.  On a table reached by any sequence of operations, for a key that
    is neither [defaultKey] nor [tombstoneKey] and a callback that leaves
    the locks alone: when a slot holds the key and the two candidate buckets are not
    both full, [upsert_function] calls the callback once, on that slot with
    the key and the value, and returns true; when no slot holds the key it
    does what [upsert_replace] does, whatever the callback; when both
    buckets are full it returns false and changes nothing. *)
Theorem upsert_function_calls_back replace_func fuel k v t :
  reachable t → user_key k →
  (∀ b i k' v', lock_blind (replace_func b i k' v')) →
  (∀ b i p, (b < n_of t)%nat → (i < B)%nat → pair_at t b i = Some p → key p = k →
            ¬ (bucket_full t (first_bucket t k) ∧ bucket_full t (second_bucket t k)) →
            upsert_function W B replace_func (S fuel) k v t
            = (replace_func b i k v ;;; ret true) t)
  ∧ ((∀ b i, (b < n_of t)%nat → (i < B)%nat → key_at t b i ≠ Some k) →
     upsert_function W B replace_func (S fuel) k v t = upsert_replace W B (S fuel) k v t)
  ∧ (bucket_full t (first_bucket t k) → bucket_full t (second_bucket t k) →
     upsert_function W B replace_func (S fuel) k v t = Some (false, t)).
Proof.
  intros Hreach Hlive Hblind. pose proof (reachable_inv t Hreach) as Hinv.
  pose proof (inv_wf t Hinv) as Hwf. pose proof (proj1 Hwf) as Hn.
  rewrite (upsert_function_unlocked replace_func fuel k v t Hblind Hwf (inv_locks t Hinv)).
  split; [| split].
  - intros b i p Hb Hi Hp Hk Hroom.
    exact (upsert_function_internal_present replace_func fuel k v t b i p
             Hinv Hlive Hb Hi Hp Hk Hroom).
  - intros Habsent.
    rewrite <- upsert_function_as_replace.
    rewrite (upsert_function_unlocked _ fuel k v t
               (fun b i _ v' => lock_blind_store_val b i v') Hwf (inv_locks t Hinv)).
    apply upsert_function_internal_absent; [exact Hwf | |].
    + intros i p Hi _ Hp Hk.
      apply (Habsent _ i (first_bucket_lt t k Hn) Hi). apply key_at_pair. eauto.
    + intros i p Hi _ Hp Hk.
      apply (Habsent _ i (second_bucket_lt t k Hn) Hi). apply key_at_pair. eauto.
  - intros Hf0 Hf1. exact (upsert_function_internal_full replace_func fuel k v t Hwf Hf0 Hf1).
Qed.

(** ** [match_empty] and [match_tombstone] *)

(** X23.  On a well-formed table [match_empty] and [match_tombstone],
    given any mask, return: either the index of a slot of the mask whose
    tag was the empty tag (the tombstone tag) and now is the tag of the
    key, nothing else being changed, or nothing, the table being as it was
    and no slot of the mask having that tag.  A slot of the mask whose tag
    has changed since the mask was taken is never claimed. *)
Theorem match_claims_free_slot b k free_match t :
  wf B t → (b < n_of t)%nat →
  (∃ r t', match_empty W B b k free_match t = Some (r, t')
           ∧ match r with
             | Some i =>
                 (i < B)%nat ∧ mask_bit free_match i = true
                 ∧ tag_at t b i = Some empty_tag
                 ∧ t' = set_tag b i (get_tag k) t
             | None =>
                 t' = t
                 ∧ ∀ i, (i < B)%nat → mask_bit free_match i = true →
                        tag_at t b i ≠ Some empty_tag
             end)
  ∧ (∃ r t', match_tombstone W B b k free_match t = Some (r, t')
             ∧ match r with
               | Some i =>
                   (i < B)%nat ∧ mask_bit free_match i = true
                   ∧ tag_at t b i = Some tombstone_tag
                   ∧ t' = set_tag b i (get_tag k) t
               | None =>
                   t' = t
                   ∧ ∀ i, (i < B)%nat → mask_bit free_match i = true →
                          tag_at t b i ≠ Some tombstone_tag
               end).
Proof.
  intros Hwf Hb. split.
  - exact (match_free_spec empty_tag b k free_match t Hwf Hb).
  - exact (match_free_spec tombstone_tag b k free_match t Hwf Hb).
Qed.

(** ** The choice of the bucket in the second loop *)

Lemma tag_mask_testbit_eq t b x n :
  (n < B)%nat →
  Z.testbit (tag_mask t b x) (Z.of_nat n)
  = match tag_at t b n with Some y => y =? x | None => false end.
Proof.
  intros Hn. apply eq_true_iff_eq. rewrite tag_mask_testbit.
  destruct (tag_at t b n) as [y |].
  - rewrite Z.eqb_eq. split; [intros [_ E]; congruence | intros ->; auto].
  - split; [intros [_ E]; discriminate | discriminate].
Qed.

Lemma free_bits_count t b n :
  (n ≤ B)%nat →
  count_bits n (Z.lor (tag_mask t b empty_tag) (tag_mask t b tombstone_tag))
  = count_tags (fun y => negb (live_tag y)) t b n.
Proof.
  induction n as [| n IH]; intros Hn; simpl; [reflexivity |].
  rewrite IH by lia. f_equal.
  rewrite Z.lor_spec, !tag_mask_testbit_eq by lia.
  destruct (tag_at t b n) as [y |]; [| reflexivity].
  unfold live_tag. rewrite negb_andb, !negb_involutive. reflexivity.
Qed.

Lemma live_free_count t b n :
  (∀ i, (i < n)%nat → is_Some (tag_at t b i)) →
  (count_tags live_tag t b n + count_tags (fun y => negb (live_tag y)) t b n = n)%nat.
Proof.
  induction n as [| n IH]; intros Hsome; simpl; [reflexivity |].
  specialize (IH ltac:(intros i Hi; apply Hsome; lia)).
  destruct (Hsome n ltac:(lia)) as [x Hx]. rewrite Hx.
  destruct (live_tag x); simpl; lia.
Qed.

(** The size of a bucket in the second loop is its number of live tags. *)
Lemma balance_size_occupancy t b :
  wf B t → (b < n_of t)%nat →
  size_from B (Z.lor (tag_mask t b empty_tag) (tag_mask t b tombstone_tag))
  = Z.of_nat (occupancy t b).
Proof.
  intros Hwf Hb. rewrite size_from_below by (apply lor_high; apply tag_mask_high).
  unfold popc.
  rewrite (count_bits_above B 64)
    by (lia || (intros i Hi; apply lor_high; [apply tag_mask_high | apply tag_mask_high | lia])).
  rewrite free_bits_count by lia.
  pose proof (live_free_count t b B ltac:(intros i Hi; apply (proj2 Hwf); assumption)).
  unfold occupancy. lia.
Qed.

Lemma upsert_replace_unlocked fuel k v t :
  wf B t → locks_free t →
  upsert_replace W B (S fuel) k v t
  = upsert_replace_internal W B (S fuel) k v (hash k 8 (seed t))
      (Z.land (hash k 8 (seed t)) (BITMASK 32) mod n_buckets t) t.
Proof.
  intros Hwf Hlocks.
  rewrite <- upsert_function_as_replace, <- upsert_function_internal_store.
  apply upsert_function_unlocked; [| exact Hwf | exact Hlocks].
  intros b i _ v'. apply lock_blind_store_val.
Qed.

(** X24.  The second loop balances the two buckets.  On a table reached by
    any sequence of operations, for a key that is neither [defaultKey] nor
    [tombstoneKey] and is in no slot: when the primary bucket is at or above the
    cutoff of the first loop and the two candidate buckets are not both
    full, [upsert_replace] returns true and stores the pair in a free slot
    of the primary bucket if that bucket has at most as many live tags as
    the secondary bucket, and in a free slot of the secondary bucket
    otherwise. *)
Theorem upsert_picks_emptier_bucket t fuel k v :
  reachable t → user_key k →
  (∀ b i, (b < n_of t)%nat → (i < B)%nat → key_at t b i ≠ Some k) →
  3 * Z.of_nat B ≤ 4 * Z.of_nat (non_empty_tags t (first_bucket t k)) →
  ¬ (bucket_full t (first_bucket t k) ∧ bucket_full t (second_bucket t k)) →
  let b := if (occupancy t (first_bucket t k) <=? occupancy t (second_bucket t k))%nat
           then first_bucket t k else second_bucket t k in
  ∃ i free_tag,
    (i < B)%nat ∧ tag_at t b i = Some free_tag
    ∧ (free_tag = tombstone_tag ∨ free_tag = empty_tag)
    ∧ upsert_replace W B (S fuel) k v t
      = Some (true, set_pair b i (mk_pair k v) (set_tag b i (get_tag k) t)).
Proof.
  intros Hreach Hlive Habsent Hcut Hroom b. pose proof (reachable_inv t Hreach) as Hinv.
  pose proof (inv_wf t Hinv) as Hwf. pose proof (proj1 Hwf) as Hn.
  pose proof (first_bucket_lt t k Hn) as Hb0. pose proof (second_bucket_lt t k Hn) as Hb1.
  assert (in_shortcut t (first_bucket t k) = false) as Hg.
  { apply not_true_is_false. intros Hg.
    apply (in_shortcut_count t _ Hwf Hb0) in Hg. lia. }
  assert (∀ x, (x < n_of t)%nat → no_key_in t x k) as Hno.
  { intros x Hx i p Hi _ Hp Hk. apply (Habsent x i Hx Hi). apply key_at_pair. eauto. }
  rewrite (upsert_replace_unlocked fuel k v t Hwf (inv_locks t Hinv)).
  unfold upsert_replace_internal. fold (first_bucket t k).
  rewrite (bind_run _ _ _ _ _ (load_fill_ballots_huge_run _ k t Hwf Hb0)).
  rewrite shortcut_loop_S. fold (in_shortcut t (first_bucket t k)). rewrite Hg.
  rewrite (bind_run _ _ t
             (inr (tag_mask t (first_bucket t k) empty_tag,
                   tag_mask t (first_bucket t k) tombstone_tag,
                   tag_mask t (first_bucket t k) (get_tag k))) t eq_refl).
  rewrite (bind_run _ _ _ _ _ (get_second_bucket_run _ t Hn)).
  fold (second_bucket t k).
  rewrite (bind_run _ _ _ _ _ (load_fill_ballots_huge_run _ k t Hwf Hb1)).
  rewrite balance_loop_S.
  rewrite !balance_size_occupancy by assumption.
  assert (occupancy t (first_bucket t k) ≤ B)%nat as Hle0 by apply count_tags_le.
  assert (occupancy t (second_bucket t k) ≤ B)%nat as Hle1 by apply count_tags_le.
  assert (∀ x, (x < n_of t)%nat → occupancy t x = B → bucket_full t x) as Hfull.
  { intros x Hx E. apply balance_size_full.
    rewrite balance_size_occupancy by assumption. rewrite E. reflexivity. }
  destruct (negb (Z.of_nat (occupancy t (first_bucket t k)) =? Z.of_nat B)
            || negb (Z.of_nat (occupancy t (second_bucket t k)) =? Z.of_nat B)) eqn:Hloop.
  2:{ exfalso. apply Hroom. apply orb_false_iff in Hloop. destruct Hloop as [H0 H1].
      apply negb_false_iff, Z.eqb_eq in H0, H1. split; apply Hfull; (assumption || lia). }
  destruct (try_update_spec _ k v t Hwf Hb0) as (r0 & t0 & Hrun0 & Hr0).
  rewrite (bind_run _ _ _ _ _ Hrun0). destruct r0 as [lane |].
  { exfalso. destruct Hr0 as (i & p & Hi & Htag & Hp & Hk & _).
    exact (Hno _ Hb0 i p Hi Htag Hp Hk). }
  destruct Hr0 as [-> _].
  destruct (try_update_spec _ k v t Hwf Hb1) as (r1 & t1 & Hrun1 & Hr1).
  rewrite (bind_run _ _ _ _ _ Hrun1). destruct r1 as [lane |].
  { exfalso. destruct Hr1 as (i & p & Hi & Htag & Hp & Hk & _).
    exact (Hno _ Hb1 i p Hi Htag Hp Hk). }
  destruct Hr1 as [-> _].
  assert ((Z.of_nat (occupancy t (first_bucket t k))
           <=? Z.of_nat (occupancy t (second_bucket t k)))
          = (occupancy t (first_bucket t k) <=? occupancy t (second_bucket t k))%nat) as Hcmp.
  { destruct (Nat.leb_spec (occupancy t (first_bucket t k))
                           (occupancy t (second_bucket t k)));
      [apply Z.leb_le | apply Z.leb_gt]; lia. }
  rewrite Hcmp. subst b.
  destruct (Nat.leb_spec (occupancy t (first_bucket t k))
                         (occupancy t (second_bucket t k))) as [Hpick | Hpick].
  - destruct (claim_in_spec _ k v t Hwf Hb0) as (r & t2 & Hrun & Hr).
    rewrite (bind_run _ _ _ _ _ Hrun). destruct r.
    + destruct Hr as (i & free_tag & Hi & Htag & Hfree & ->).
      exists i, free_tag. split; [exact Hi |]. split; [exact Htag |].
      split; [tauto | reflexivity].
    + exfalso. destruct Hr as [_ Hf0]. apply Hroom. split; [exact Hf0 |].
      apply balance_size_full in Hf0. rewrite balance_size_occupancy in Hf0 by assumption.
      apply Hfull; [exact Hb1 | lia].
  - destruct (claim_in_spec _ k v t Hwf Hb1) as (r & t2 & Hrun & Hr).
    rewrite (bind_run _ _ _ _ _ Hrun). destruct r.
    + destruct Hr as (i & free_tag & Hi & Htag & Hfree & ->).
      exists i, free_tag. split; [exact Hi |]. split; [exact Htag |].
      split; [tauto | reflexivity].
    + exfalso. destruct Hr as [_ Hf1].
      apply balance_size_full in Hf1. rewrite balance_size_occupancy in Hf1 by assumption. lia.
Qed.

(** ** The slot that an upsert claims *)

Lemma sorted_seq a n : StronglySorted lt (seq a n).
Proof.
  revert a. induction n as [| n IH]; intros a; simpl; constructor.
  - apply IH.
  - apply Forall_forall. intros x Hx. apply list_elem_of_In, in_seq in Hx. lia.
Qed.

Lemma sorted_filter (f : nat → bool) l :
  StronglySorted lt l → StronglySorted lt (List.filter f l).
Proof.
  induction 1 as [| a l Hs IH Hall]; simpl; [constructor |].
  destruct (f a); [| exact IH]. constructor; [exact IH |].
  apply Forall_forall. intros x Hx. apply list_elem_of_In, filter_In in Hx.
  rewrite Forall_forall in Hall. apply Hall. apply list_elem_of_In. tauto.
Qed.

Lemma sorted_map (f : nat → nat) l :
  (∀ x y, (x < y)%nat → (f x < f y)%nat) →
  StronglySorted lt l → StronglySorted lt (map f l).
Proof.
  intros Hf. induction 1 as [| a l Hs IH Hall]; simpl; constructor; [exact IH |].
  apply Forall_forall. intros y Hy. apply list_elem_of_In, in_map_iff in Hy.
  destruct Hy as (x & <- & Hx). apply Hf.
  rewrite Forall_forall in Hall. apply Hall. apply list_elem_of_In. exact Hx.
Qed.

(** In an ascending list what is below an element stands before it. *)
Lemma sorted_before pre (x : nat) post y :
  StronglySorted lt (pre ++ x :: post) → y ∈ pre ++ x :: post → (y < x)%nat → y ∈ pre.
Proof.
  induction pre as [| a pre IH]; simpl; intros Hs Hy Hlt.
  - apply StronglySorted_inv in Hs. destruct Hs as [_ Hall].
    rewrite Forall_forall in Hall.
    inversion Hy as [| ? ? ? Hin]; subst; [lia |]. specialize (Hall y Hin). lia.
  - apply StronglySorted_inv in Hs. destruct Hs as [Hs _].
    inversion Hy as [| ? ? ? Hin]; subst; [left | right; apply IH; assumption].
Qed.

Lemma ballot_map_filter (f : nat → bool) lanes :
  ballot (map (fun l => (l, f l)) lanes) = List.filter f lanes.
Proof.
  unfold ballot. induction lanes as [| l lanes IH]; simpl; [reflexivity |].
  destruct (f l); simpl; rewrite IH; reflexivity.
Qed.

Lemma sorted_rounds bound : StronglySorted lt (rounds W bound).
Proof.
  unfold rounds. apply sorted_map; [| apply sorted_seq]. intros x y Hxy. nia.
Qed.

Lemma sorted_ballot (f : nat → bool) offset bound :
  StronglySorted lt (ballot (map (fun l => (l, f l)) (lanes_in W offset bound))).
Proof.
  rewrite ballot_map_filter. unfold lanes_in. apply sorted_filter, sorted_filter, sorted_seq.
Qed.

(** The first step of a scan that does not miss, and the steps before it. *)
Lemma first_some_ordered {A R} (xs : list A) (body : A → M (option R)) t
    (Q : A → R → p2_metadata_table → Prop) (Miss : A → Prop) :
  (∀ x, x ∈ xs →
        ∃ r t', body x t = Some (r, t')
                ∧ match r with Some y => Q x y t' | None => t' = t ∧ Miss x end) →
  ∃ r t', first_some xs body t = Some (r, t')
          ∧ match r with
            | Some y => ∃ pre x post, xs = pre ++ x :: post
                                      ∧ (∀ x', x' ∈ pre → Miss x') ∧ Q x y t'
            | None => t' = t ∧ ∀ x, x ∈ xs → Miss x
            end.
Proof.
  induction xs as [| x xs IH]; intros H.
  - exists None, t. split; [reflexivity |]. split; [reflexivity |].
    intros x Hx. inversion Hx.
  - destruct (H x) as (r & t' & Hb & Hr); [left |].
    simpl. destruct r as [y |].
    + exists (Some y), t'. split; [rewrite (bind_run _ _ _ _ _ Hb); reflexivity |].
      exists [], x, xs. split; [reflexivity |]. split; [| exact Hr].
      intros x' Hx'. inversion Hx'.
    + destruct Hr as [-> Hm].
      destruct IH as (r & t' & Hf & Hr).
      { intros x' Hx'. apply H. right. exact Hx'. }
      exists r, t'. split.
      * rewrite (bind_run _ _ _ _ _ Hb). exact Hf.
      * destruct r as [y |].
        -- destruct Hr as (pre & x0 & post & -> & Hpre & HQ).
           exists (x :: pre), x0, post. split; [reflexivity |]. split; [| exact HQ].
           intros x' Hx'. inversion Hx'; subst; auto.
        -- destruct Hr as [-> Hall]. split; [reflexivity |].
           intros x' Hx'. inversion Hx'; subst; auto.
Qed.

(** [match_empty] and [match_tombstone] claim the lowest slot of the mask
    that carries the tag. *)
Lemma match_free_lowest free_tag b k free_match t :
  wf B t → (b < n_of t)%nat →
  ∃ r t', match_free W B free_tag b k free_match t = Some (r, t')
          ∧ match r with
            | Some i =>
                (i < B)%nat ∧ mask_bit free_match i = true
                ∧ tag_at t b i = Some free_tag
                ∧ (∀ j, (j < i)%nat → mask_bit free_match j = true →
                        tag_at t b j ≠ Some free_tag)
                ∧ t' = set_tag b i (get_tag k) t
            | None =>
                t' = t
                ∧ ∀ i, (i < B)%nat → mask_bit free_match i = true →
                       tag_at t b i ≠ Some free_tag
            end.
Proof.
  intros Hwf Hb. unfold match_free.
  set (guard := fun offset lane : nat =>
         (offset + lane <? B)%nat && mask_bit free_match (offset + lane)).
  set (ballot_of := fun offset : nat =>
         ballot (map (fun lane => (lane, guard offset lane))
                     (lanes_in W offset (n_traversals W B)))).
  set (body := fun (offset leader : nat) =>
         swapped <- typed_atomic_write_tag b (offset + leader) free_tag (get_tag k) ;;
         ret (if swapped then Some (offset + leader)%nat else None)).
  set (Miss_in := fun (offset leader : nat) =>
         tag_at t b (offset + leader) ≠ Some free_tag).
  set (Q_in := fun (offset leader i : nat) (t' : p2_metadata_table) =>
         i = (offset + leader)%nat ∧ tag_at t b i = Some free_tag
         ∧ t' = set_tag b i (get_tag k) t).
  set (Q := fun (offset i : nat) (t' : p2_metadata_table) =>
         ∃ pre leader post, ballot_of offset = pre ++ leader :: post
                            ∧ (∀ l, l ∈ pre → Miss_in offset l)
                            ∧ Q_in offset leader i t').
  set (Miss := fun offset : nat => ∀ leader, leader ∈ ballot_of offset → Miss_in offset leader).
  assert (Hround : ∀ offset, offset ∈ rounds W (n_traversals W B) →
            ∃ r t', first_some (ballot_of offset) (body offset) t = Some (r, t')
                    ∧ match r with
                      | Some i => Q offset i t'
                      | None => t' = t ∧ Miss offset
                      end).
  { intros offset Hoff.
    apply (first_some_ordered (ballot_of offset) (body offset) t (Q_in offset) (Miss_in offset)).
    intros leader Hl. apply ballot_map_In in Hl. destruct Hl as [Hlane Hp].
    apply andb_true_iff in Hp. destruct Hp as [HiB Hbit]. apply Nat.ltb_lt in HiB.
    destruct (proj2 Hwf b (offset + leader)%nat Hb HiB) as [[x Hx] _].
    unfold body.
    rewrite (bind_run _ _ _ _ _ (typed_atomic_write_tag_run b _ free_tag (get_tag k) t x Hx)).
    destruct (Z.eqb_spec x free_tag) as [-> | Hne].
    - eexists _, _. split; [reflexivity |]. unfold Q_in. auto.
    - eexists _, _. split; [reflexivity |]. simpl. split; [reflexivity |].
      unfold Miss_in. congruence. }
  destruct (first_some_ordered (rounds W (n_traversals W B))
              (fun offset => first_some (ballot_of offset) (body offset)) t Q Miss Hround)
    as (r & t' & Hrun & Hr).
  exists r, t'. split; [exact Hrun |].
  destruct r as [i |].
  - destruct Hr as (pre_r & offset & post_r & Hrounds & Hpre_r
                    & pre & leader & post & Hballot & Hpre & -> & Htag & ->).
    assert (Hleader : leader ∈ ballot_of offset).
    { rewrite Hballot. apply list_elem_of_In, in_or_app. right. left. reflexivity. }
    apply ballot_map_In in Hleader. destruct Hleader as [Hlane Hguard].
    apply andb_true_iff in Hguard. destruct Hguard as [HiB Hbit]. apply Nat.ltb_lt in HiB.
    apply (lanes_in_In W tile_nonempty) in Hlane. destruct Hlane as [HlW _].
    assert (Hoff : offset ∈ rounds W (n_traversals W B)).
    { rewrite Hrounds. apply list_elem_of_In, in_or_app. right. left. reflexivity. }
    split; [exact HiB |]. split; [exact Hbit |]. split; [exact Htag |].
    split; [| reflexivity].
    intros j Hj Hjbit.
    destruct (stride_visits j ltac:(lia)) as (offset_j & lane_j & Hoff_j & Hlane_j & ->).
    assert (Hin_j : lane_j ∈ ballot_of offset_j).
    { apply ballot_map_In. split; [exact Hlane_j |]. unfold guard.
      apply andb_true_iff. split; [apply Nat.ltb_lt; lia | exact Hjbit]. }
    apply (lanes_in_In W tile_nonempty) in Hlane_j. destruct Hlane_j as [HljW _].
    pose proof Hoff as Hoff'. pose proof Hoff_j as Hoff_j'.
    apply (rounds_In W tile_nonempty) in Hoff'. destruct Hoff' as (r0 & Er0 & _).
    apply (rounds_In W tile_nonempty) in Hoff_j'. destruct Hoff_j' as (rj & Erj & _).
    destruct (Nat.lt_ge_cases offset_j offset) as [Hlt | Hge].
    + apply (Hpre_r offset_j); [| exact Hin_j].
      apply (sorted_before pre_r offset post_r); [| | exact Hlt].
      * rewrite <- Hrounds. apply sorted_rounds.
      * rewrite <- Hrounds. exact Hoff_j.
    + assert (offset_j = offset) as ->.
      { subst offset offset_j.
        assert (rj < r0 + 1)%nat by (apply (Nat.mul_lt_mono_pos_r W); lia).
        assert (r0 ≤ rj)%nat by (apply (Nat.mul_le_mono_pos_r _ _ W); lia).
        replace rj with r0 by lia. reflexivity. }
      apply (Hpre lane_j).
      apply (sorted_before pre leader post); [| | lia].
      * rewrite <- Hballot. apply sorted_ballot.
      * rewrite <- Hballot. exact Hin_j.
  - destruct Hr as [-> Hall].
    split; [reflexivity |]. intros i Hi Hbit.
    destruct (stride_visits i Hi) as (offset & lane & Hoff & Hlane & ->).
    apply (Hall offset Hoff lane). apply ballot_map_In. split; [exact Hlane |].
    apply andb_true_iff. split; [apply Nat.ltb_lt; exact Hi | exact Hbit].
Qed.

(** A claim in a bucket that is not full takes the lowest tombstoned slot,
    or the lowest empty slot when the bucket has no tombstone. *)
Lemma claim_in_lowest b k v t :
  wf B t → (b < n_of t)%nat → ¬ bucket_full t b →
  ∃ i, claimed_slot t b i
       ∧ claim_in W B b k v (tag_mask t b empty_tag) (tag_mask t b tombstone_tag) t
         = Some (true, set_pair b i (mk_pair k v) (set_tag b i (get_tag k) t)).
Proof.
  intros Hwf Hb Hroom. unfold claim_in, match_tombstone, match_empty, store_claimed.
  assert (Hlow : ∀ x i, (i < B)%nat → tag_at t b i = Some x →
                        (∀ j, (j < i)%nat → mask_bit (tag_mask t b x) j = true →
                              tag_at t b j ≠ Some x) →
                        lowest_tag t b x i).
  { intros x i Hi Htag Hbefore. split; [exact Hi |]. split; [exact Htag |].
    intros j Hj Hx. apply (Hbefore j Hj); [| exact Hx]. apply tag_mask_bit; [lia | exact Hx]. }
  destruct (match_free_lowest tombstone_tag b k (tag_mask t b tombstone_tag) t Hwf Hb)
    as (r & t1 & Hrun & Hr).
  rewrite (bind_run _ _ _ _ _ Hrun). destruct r as [i |].
  - destruct Hr as (Hi & _ & Htag & Hbefore & ->).
    rewrite (bind_run _ _ _ _ _
               (ht_store_packed_pair_run b i (mk_pair k v) (set_tag b i (get_tag k) t)
                  (proj2 (proj2 (wf_set_tag B b i (get_tag k) t Hwf) b i Hb Hi)))).
    exists i. split; [left; apply Hlow; assumption | reflexivity].
  - destruct Hr as [-> Hnotomb].
    assert (Hnt : ∀ i', (i' < B)%nat → tag_at t b i' ≠ Some tombstone_tag).
    { intros i' Hi' Htag. apply (Hnotomb i' Hi'); [| exact Htag].
      apply tag_mask_bit; assumption. }
    destruct (match_free_lowest empty_tag b k (tag_mask t b empty_tag) t Hwf Hb)
      as (r & t1 & Hrun' & Hr).
    rewrite (bind_run _ _ _ _ _ Hrun'). destruct r as [i |].
    + destruct Hr as (Hi & _ & Htag & Hbefore & ->).
      rewrite (bind_run _ _ _ _ _
                 (ht_store_packed_pair_run b i (mk_pair k v) (set_tag b i (get_tag k) t)
                    (proj2 (proj2 (wf_set_tag B b i (get_tag k) t Hwf) b i Hb Hi)))).
      exists i. split; [right; split; [exact Hnt | apply Hlow; assumption] | reflexivity].
    + exfalso. destruct Hr as [_ Hnoempty]. apply Hroom.
      intros i Hi. split.
      * intros Htag. apply (Hnoempty i Hi); [| exact Htag]. apply tag_mask_bit; assumption.
      * apply Hnt. exact Hi.
Qed.

Lemma claimed_slot_unique t b i i' :
  claimed_slot t b i → claimed_slot t b i' → i = i'.
Proof.
  assert (Hlow : ∀ x j j', lowest_tag t b x j → lowest_tag t b x j' → j = j').
  { intros x j j' (Hj & Htag & Hbefore) (Hj' & Htag' & Hbefore').
    destruct (Nat.lt_trichotomy j j') as [Hlt | [E | Hgt]]; [| exact E |].
    - exfalso. exact (Hbefore' j Hlt Htag).
    - exfalso. exact (Hbefore j' Hgt Htag'). }
  intros [H | [Hnt H]] [H' | [Hnt' H']].
  - exact (Hlow _ _ _ H H').
  - exfalso. destruct H as (Hi & Htag & _). exact (Hnt' i Hi Htag).
  - exfalso. destruct H' as (Hi & Htag & _). exact (Hnt i' Hi Htag).
  - exact (Hlow _ _ _ H H').
Qed.

(** An upsert of a key that is in no slot claims the slot of the bucket it
    picks, unless both candidate buckets are full. *)
Lemma upsert_absent_run t fuel k v :
  table_inv t →
  (∀ b i, (b < n_of t)%nat → (i < B)%nat → key_at t b i ≠ Some k) →
  ¬ (bucket_full t (first_bucket t k) ∧ bucket_full t (second_bucket t k)) →
  let b := picked_bucket t (first_bucket t k) (second_bucket t k) in
  ∃ i, claimed_slot t b i
       ∧ upsert_replace W B (S fuel) k v t
         = Some (true, set_pair b i (mk_pair k v) (set_tag b i (get_tag k) t)).
Proof.
  intros Hinv Habsent Hroom b.
  pose proof (inv_wf t Hinv) as Hwf. pose proof (proj1 Hwf) as Hn.
  pose proof (first_bucket_lt t k Hn) as Hb0. pose proof (second_bucket_lt t k Hn) as Hb1.
  assert (∀ x, (x < n_of t)%nat → no_key_in t x k) as Hno.
  { intros x Hx i p Hi _ Hp Hk. apply (Habsent x i Hx Hi). apply key_at_pair. eauto. }
  rewrite (upsert_replace_unlocked fuel k v t Hwf (inv_locks t Hinv)).
  unfold upsert_replace_internal. fold (first_bucket t k).
  rewrite (bind_run _ _ _ _ _ (load_fill_ballots_huge_run _ k t Hwf Hb0)).
  rewrite shortcut_loop_S. fold (in_shortcut t (first_bucket t k)).
  subst b. unfold picked_bucket.
  destruct (in_shortcut t (first_bucket t k)) eqn:Hg.
  - destruct (try_update_spec _ k v t Hwf Hb0) as (r0 & t0 & Hrun0 & Hr0).
    rewrite bind_assoc, (bind_run _ _ _ _ _ Hrun0). destruct r0 as [lane |].
    { exfalso. destruct Hr0 as (i & p & Hi & Htag & Hp & Hk & _).
      exact (Hno _ Hb0 i p Hi Htag Hp Hk). }
    destruct Hr0 as [-> _].
    destruct (claim_in_lowest _ k v t Hwf Hb0 (in_shortcut_not_full t _ Hg)) as (i & Hslot & Hrun).
    rewrite bind_assoc, (bind_run _ _ _ _ _ Hrun).
    exists i. split; [exact Hslot | reflexivity].
  - rewrite (bind_run _ _ t
               (inr (tag_mask t (first_bucket t k) empty_tag,
                     tag_mask t (first_bucket t k) tombstone_tag,
                     tag_mask t (first_bucket t k) (get_tag k))) t eq_refl).
    rewrite (bind_run _ _ _ _ _ (get_second_bucket_run _ t Hn)).
    fold (second_bucket t k).
    rewrite (bind_run _ _ _ _ _ (load_fill_ballots_huge_run _ k t Hwf Hb1)).
    rewrite balance_loop_S.
    rewrite !balance_size_occupancy by assumption.
    assert (occupancy t (first_bucket t k) ≤ B)%nat as Hle0 by apply count_tags_le.
    assert (occupancy t (second_bucket t k) ≤ B)%nat as Hle1 by apply count_tags_le.
    assert (∀ x, (x < n_of t)%nat → occupancy t x = B → bucket_full t x) as Hfull.
    { intros x Hx E. apply balance_size_full.
      rewrite balance_size_occupancy by assumption. rewrite E. reflexivity. }
    assert (∀ x, (x < n_of t)%nat → bucket_full t x → occupancy t x = B) as Hfull'.
    { intros x Hx Hf. apply balance_size_full in Hf.
      rewrite balance_size_occupancy in Hf by assumption. lia. }
    destruct (negb (Z.of_nat (occupancy t (first_bucket t k)) =? Z.of_nat B)
              || negb (Z.of_nat (occupancy t (second_bucket t k)) =? Z.of_nat B)) eqn:Hloop.
    2:{ exfalso. apply Hroom. apply orb_false_iff in Hloop. destruct Hloop as [H0 H1].
        apply negb_false_iff, Z.eqb_eq in H0, H1. split; apply Hfull; (assumption || lia). }
    destruct (try_update_spec _ k v t Hwf Hb0) as (r0 & t0 & Hrun0 & Hr0).
    rewrite (bind_run _ _ _ _ _ Hrun0). destruct r0 as [lane |].
    { exfalso. destruct Hr0 as (i & p & Hi & Htag & Hp & Hk & _).
      exact (Hno _ Hb0 i p Hi Htag Hp Hk). }
    destruct Hr0 as [-> _].
    destruct (try_update_spec _ k v t Hwf Hb1) as (r1 & t1 & Hrun1 & Hr1).
    rewrite (bind_run _ _ _ _ _ Hrun1). destruct r1 as [lane |].
    { exfalso. destruct Hr1 as (i & p & Hi & Htag & Hp & Hk & _).
      exact (Hno _ Hb1 i p Hi Htag Hp Hk). }
    destruct Hr1 as [-> _].
    assert ((Z.of_nat (occupancy t (first_bucket t k))
             <=? Z.of_nat (occupancy t (second_bucket t k)))
            = (occupancy t (first_bucket t k) <=? occupancy t (second_bucket t k))%nat) as Hcmp.
    { destruct (Nat.leb_spec (occupancy t (first_bucket t k))
                             (occupancy t (second_bucket t k)));
        [apply Z.leb_le | apply Z.leb_gt]; lia. }
    rewrite Hcmp.
    destruct (Nat.leb_spec (occupancy t (first_bucket t k))
                           (occupancy t (second_bucket t k))) as [Hpick | Hpick].
    + destruct (claim_in_lowest _ k v t Hwf Hb0) as (i & Hslot & Hrun).
      { intros Hf0. apply Hroom. split; [exact Hf0 |].
        apply Hfull; [exact Hb1 |]. pose proof (Hfull' _ Hb0 Hf0). lia. }
      rewrite (bind_run _ _ _ _ _ Hrun). exists i. split; [exact Hslot | reflexivity].
    + destruct (claim_in_lowest _ k v t Hwf Hb1) as (i & Hslot & Hrun).
      { intros Hf1. pose proof (Hfull' _ Hb1 Hf1). lia. }
      rewrite (bind_run _ _ _ _ _ Hrun). exists i. split; [exact Hslot | reflexivity].
Qed.

(** C7, as amended.  On a reachable table, for keys [k1] and [k2] that are
    none of the reserved keys and have the same two candidate buckets: when
    [upsert(k1, v)] returns true, the [remove(k1)] that follows returns true
    and turns the slot of [k1] into a tombstone, and the [upsert(k2, v2)]
    after it returns true, whether or not the candidate buckets have an
    empty slot.  When [k2] is not already stored it claims a slot of the
    bucket it picks (the primary bucket while that is below the cutoff of
    the first loop, otherwise the bucket with fewer live tags, the primary
    one on a tie): the lowest tombstoned slot of that bucket, before any
    empty slot, and the lowest empty slot only when the bucket has no
    tombstone.  So when the vacated slot is in the picked bucket, [k2]
    takes a tombstoned slot, however many slots are empty, and it takes
    the very slot that the remove vacated when no tombstoned slot precedes
    it there. *)
Theorem tombstone_reuse t fuel fuel1 fuel2 k1 v k2 v2 t1 :
  reachable t → live_key k1 → live_key k2 →
  first_bucket t k2 = first_bucket t k1 → second_bucket t k2 = second_bucket t k1 →
  upsert_replace W B fuel k1 v t = Some (true, t1) →
  ∃ b i t2 t3,
    (b = first_bucket t k1 ∨ b = second_bucket t k1) ∧ (i < B)%nat
    ∧ pair_at t1 b i = Some (mk_pair k1 v)
    ∧ remove W B (S fuel1) k1 t1 = Some (true, t2)
    ∧ t2 = set_tag b i tombstone_tag (set_pair b i (mk_pair tombstoneKey v) t1)
    ∧ upsert_replace W B (S fuel2) k2 v2 t2 = Some (true, t3)
    ∧ ((∀ x j, (x < n_of t2)%nat → (j < B)%nat → key_at t2 x j ≠ Some k2) →
       ∃ b' i',
         b' = picked_bucket t2 (first_bucket t k1) (second_bucket t k1)
         ∧ claimed_slot t2 b' i'
         ∧ t3 = set_pair b' i' (mk_pair k2 v2) (set_tag b' i' (get_tag k2) t2)
         ∧ (b' = b → tag_at t2 b' i' = Some tombstone_tag ∧ (i' ≤ i)%nat)
         ∧ (b' = b → (∀ j, (j < i)%nat → tag_at t2 b j ≠ Some tombstone_tag) → i' = i)).
Proof.
  intros Hreach Hlive1' Hlive2' Hfirst Hsecond Hrun1.
  pose proof (live_user k1 Hlive1') as Hlive1. pose proof (live_user k2 Hlive2') as Hlive2.
  pose proof (reachable_inv t Hreach) as Hinv.
  pose proof (upsert_replace_outcome fuel k1 v t true t1 Hinv Hrun1) as Hout1.
  pose proof (upsert_outcome_inv t k1 v true t1 Hinv Hout1) as Hinv1.
  destruct (upsert_outcome_locks _ _ _ _ _ _ _ Hout1) as (_ & Hn1 & Hs1).
  destruct (upsert_outcome_stored t k1 v t1 (inv_wf t Hinv) Hout1) as (b & i & Hb & Hi & Hp).
  assert (key_at t1 b i = Some k1) as Hkey by (unfold key_at; rewrite Hp; reflexivity).
  assert (Hhome : b = first_bucket t k1 ∨ b = second_bucket t k1).
  { rewrite <- (first_bucket_header t t1 k1 Hn1 Hs1), <- (second_bucket_header t t1 k1 Hn1 Hs1).
    exact (inv_home t1 Hinv1 b i k1 Hb Hi Hkey Hlive1). }
  destruct (remove_spec fuel1 k1 t1 (inv_wf t1 Hinv1) (inv_locks t1 Hinv1))
    as (r & t2 & Hrun2 & Hout2).
  assert (r = true ∧ t2 = set_tag b i tombstone_tag (set_pair b i (mk_pair tombstoneKey v) t1))
    as [-> Ht2].
  { pose proof (proj1 (inv_wf t1 Hinv1)) as Hn.
    destruct Hout2 as [b' i' p' Hi' Htag' Hp' Hk' Hwhere' | Hno0 Hno1].
    - assert (b' < n_of t1)%nat as Hb'.
      { destruct Hwhere' as [-> | [-> _]]; [apply first_bucket_lt | apply second_bucket_lt];
          exact Hn. }
      assert (key_at t1 b' i' = Some k1) as Hkey'
          by (unfold key_at; rewrite Hp', Hk'; reflexivity).
      destruct (inv_unique t1 Hinv1 b i b' i' k1 Hb Hi Hb' Hi' Hkey Hkey' Hlive1) as [<- <-].
      rewrite Hp in Hp'. inversion Hp'; subst p'. auto.
    - exfalso. destruct (inv_home t1 Hinv1 b i k1 Hb Hi Hkey Hlive1) as [E | E]; rewrite E in *.
      + exact (inv_no_key t1 k1 _ i Hinv1 Hlive1 Hb Hi Hkey Hno0).
      + exact (inv_no_key t1 k1 _ i Hinv1 Hlive1 Hb Hi Hkey Hno1). }
  pose proof (remove_outcome_inv t1 k1 true t2 Hinv1
                (remove_outcome_of_run (S fuel1) k1 t1 true t2 Hinv1 Hrun2)) as Hinv2.
  assert (Hn2 : n_buckets t2 = n_buckets t) by (rewrite Ht2; exact Hn1).
  assert (Hs2 : seed t2 = seed t) by (rewrite Ht2; exact Hs1).
  assert (Hf2 : first_bucket t2 k2 = first_bucket t k1)
    by (rewrite (first_bucket_header t t2 k2 Hn2 Hs2); exact Hfirst).
  assert (Hg2 : second_bucket t2 k2 = second_bucket t k1)
    by (rewrite (second_bucket_header t t2 k2 Hn2 Hs2); exact Hsecond).
  assert (Htomb : tag_at t2 b i = Some tombstone_tag).
  { rewrite Ht2. apply tag_at_set_tag_eq. rewrite tag_at_set_pair.
    apply (proj2 (inv_wf t1 Hinv1)); assumption. }
  assert (Hroom : ¬ (bucket_full t2 (first_bucket t2 k2) ∧ bucket_full t2 (second_bucket t2 k2))).
  { rewrite Hf2, Hg2. intros [Hf0 Hf1]. destruct Hhome as [-> | ->].
    - exact (proj2 (Hf0 i Hi) Htomb).
    - exact (proj2 (Hf1 i Hi) Htomb). }
  destruct (upsert_refuses_iff_full t2 fuel2 k2 v2 Hinv2) as (r & t3 & Hrun3 & Hiff & _).
  assert (r = true) as ->.
  { destruct r; [reflexivity |]. exfalso. apply Hroom. apply Hiff. reflexivity. }
  exists b, i, t2, t3.
  split; [exact Hhome |]. split; [exact Hi |]. split; [exact Hp |].
  split; [exact Hrun2 |]. split; [exact Ht2 |]. split; [exact Hrun3 |].
  intros Habsent.
  destruct (upsert_absent_run t2 fuel2 k2 v2 Hinv2 Habsent Hroom) as (i' & Hslot & Hrun3').
  rewrite Hf2, Hg2 in Hslot, Hrun3'.
  rewrite Hrun3 in Hrun3'. inversion Hrun3' as [Et3].
  eexists _, i'. split; [reflexivity |]. split; [exact Hslot |]. split; [reflexivity |].
  split.
  - intros Eb. rewrite Eb in *.
    destruct Hslot as [(_ & Htag' & Hbefore) | [Hnone _]].
    + split; [exact Htag' |].
      destruct (Nat.le_gt_cases i' i) as [Hle | Hgt]; [exact Hle |].
      exfalso. exact (Hbefore i Hgt Htomb).
    + exfalso. exact (Hnone i Hi Htomb).
  - intros Eb Hfirst_tomb. rewrite Eb in Hslot.
    apply (claimed_slot_unique t2 b i' i Hslot).
    left. split; [exact Hi |]. split; [exact Htomb | exact Hfirst_tomb].
Qed.

(** X29.  On a table reached by any sequence of operations, an
    [upsert_replace] of a key that is in no slot returns true unless both
    candidate buckets are full, and stores the pair in the bucket it picks (the primary
    bucket while that is below the cutoff of the first loop, otherwise the
    bucket with fewer live tags, the primary one on a tie), in the lowest
    tombstoned slot of that bucket, or in its lowest empty slot when the
    bucket has no tombstoned slot. *)
Theorem upsert_claims_lowest_slot t fuel k v :
  reachable t →
  (∀ b i, (b < n_of t)%nat → (i < B)%nat → key_at t b i ≠ Some k) →
  ¬ (bucket_full t (first_bucket t k) ∧ bucket_full t (second_bucket t k)) →
  let b := picked_bucket t (first_bucket t k) (second_bucket t k) in
  ∃ i, claimed_slot t b i
       ∧ upsert_replace W B (S fuel) k v t
         = Some (true, set_pair b i (mk_pair k v) (set_tag b i (get_tag k) t)).
Proof.
  intros Hreach Habsent Hroom.
  exact (upsert_absent_run t fuel k v (reachable_inv t Hreach) Habsent Hroom).
Qed.

(** X30.  On a table reached by any sequence of operations, for a key [k]
    that is neither [defaultKey] nor [tombstoneKey], [find_with_reference]
    returns one reply per lane of the tile and writes nothing: when [k]
    sits with value [v] in slot [i] of one of its candidate buckets, the
    lanes inside the tag loop in the round that loads slot [i] (lane 0
    among them) get [v] and the other lanes get nothing; when [k] is in no
    slot, every lane gets nothing. *)
Theorem find_with_reference_replies k t :
  reachable t → user_key k →
  (∃ b i v, (b = first_bucket t k ∨ b = second_bucket t k) ∧ (i < B)%nat
            ∧ pair_at t b i = Some (mk_pair k v)
            ∧ find_with_reference W B k t = Some (lane_replies i v, t)
            ∧ serves i 0 = true)
  ∨ ((∀ b i, (b < n_of t)%nat → (i < B)%nat → key_at t b i ≠ Some k)
     ∧ find_with_reference W B k t = Some (no_replies, t)).
Proof.
  intros Hreach Hlive. pose proof (reachable_inv t Hreach) as Hinv.
  destruct (key_present_or_absent t k Hinv Hlive) as [(b & i & p & Hb & Hi & Hp & Hk) | Habs].
  - left. exists b, i, (val p). split.
    { apply (inv_home t Hinv b i k Hb Hi); [| exact Hlive].
      unfold key_at. rewrite Hp, Hk. reflexivity. }
    split; [exact Hi |]. split.
    { rewrite Hp. destruct p as [pk pv]. simpl in Hk. subst pk. reflexivity. }
    split; [exact (find_present t k b i p Hinv Hlive Hb Hi Hp Hk) |].
    apply serves_lane_0. exact Hi.
  - right. split; [exact Habs | exact (find_absent t k Hinv Habs)].
Qed.

(** ** Removing twice *)

(** X25.  On a table reached by any sequence of operations, for a key that
    is neither [defaultKey] nor [tombstoneKey], a [remove] that follows a
    [remove] of the same key returns false and changes nothing, whatever
    the first one returned. *)
Theorem remove_twice t fuel fuel' k r t1 :
  reachable t → user_key k →
  remove W B fuel k t = Some (r, t1) →
  remove W B (S fuel') k t1 = Some (false, t1).
Proof.
  intros Hreach Hlive Hrun. pose proof (reachable_inv t Hreach) as Hinv.
  pose proof (remove_outcome_of_run fuel k t r t1 Hinv Hrun) as Hout.
  pose proof (remove_outcome_inv t k r t1 Hinv Hout) as Hinv1.
  pose proof (remove_outcome_absent t k r t1 Hinv Hlive Hout) as Habs.
  destruct (remove_outcome_locks _ _ _ _ _ _ Hout) as (_ & Hn1 & _).
  pose proof (proj1 (inv_wf t1 Hinv1)) as Hpos.
  destruct (remove_spec fuel' k t1 (inv_wf t1 Hinv1) (inv_locks t1 Hinv1))
    as (r' & t2 & Hrun' & Hout').
  rewrite Hrun'. destruct Hout' as [b i p Hi Htag Hp Hk Hwhere | _ _]; [| reflexivity].
  exfalso. apply (Habs b i); [| exact Hi | apply key_at_pair; eauto].
  unfold n_of. rewrite <- Hn1. fold (n_of t1).
  destruct Hwhere as [-> | [-> _]]; [apply first_bucket_lt | apply second_bucket_lt];
    exact Hpos.
Qed.

(** ** The locks of other buckets *)

Lemma lock_blind_query_md_and_bucket_large callers b k :
  lock_blind (query_md_and_bucket_large W B callers b k).
Proof.
  unfold query_md_and_bucket_large.
  apply lock_blind_bind; [| intros hit; apply lock_blind_ret].
  apply lock_blind_first_some. intros offset.
  apply lock_blind_bind.
  - apply lock_blind_for_lanes. intros lane.
    destruct (valid_to_load B (offset + lane)); [| apply lock_blind_ret].
    apply lock_blind_bind; [apply lock_blind_load_multi_tags |]. intros tags.
    apply lock_blind_ret.
  - intros loaded. apply lock_blind_first_some. intros j.
    apply lock_blind_bind; [| intros votes; apply lock_blind_ret].
    apply lock_blind_for_lanes. intros [i [tags |]]; [| apply lock_blind_ret].
    destruct (default 0 (tags !! j) =? get_tag k); [| apply lock_blind_ret].
    apply lock_blind_bind; [apply lock_blind_load_pair |]. intros p. apply lock_blind_ret.
Qed.

Lemma lock_blind_find_with_reference k : lock_blind (find_with_reference W B k).
Proof.
  unfold find_with_reference.
  apply lock_blind_bind; [apply lock_blind_get_seed |]. intros sd.
  apply lock_blind_bind; [apply lock_blind_get_first_bucket |]. intros bucket_0.
  apply lock_blind_bind; [apply lock_blind_query_md_and_bucket_large |]. intros found_0.
  apply lock_blind_bind; [apply lock_blind_get_second_bucket |]. intros bucket_1.
  apply lock_blind_bind; [apply lock_blind_query_md_and_bucket_large |].
  intros found_1. apply lock_blind_ret.
Qed.

Lemma lock_word_set_range w b : 0 ≤ w < 2 ^ 64 → 0 ≤ Z.lor w (lock_bit b) < 2 ^ 64.
Proof.
  intros Hw. pose proof (Z.mod_pos_bound b 64 ltac:(lia)) as Hm.
  rewrite lock_bit_pow2.
  assert (0 < 2 ^ (b mod 64)) as Hp by (apply Z.pow_pos_nonneg; lia).
  assert (0 ≤ Z.lor w (2 ^ (b mod 64))) as Hnn by (apply Z.lor_nonneg; lia).
  split; [exact Hnn |].
  destruct (Z.eq_dec (Z.lor w (2 ^ (b mod 64))) 0) as [E | Hne]; [rewrite E; lia |].
  apply Z.log2_lt_pow2; [lia |].
  rewrite Z.log2_lor by lia. rewrite Z.log2_pow2 by lia.
  apply Z.max_lub_lt; [| lia].
  destruct (Z.eq_dec w 0) as [-> | Hw0]; [simpl; lia |].
  apply Z.log2_lt_pow2; lia.
Qed.

(** With the lock of bucket [b] taken, the lock of another bucket is free. *)
Lemma other_lock_free t b b' w :
  locks_free t → 0 ≤ b < n_buckets t → 0 ≤ b' < n_buckets t → b' ≠ b →
  locks t !! lock_word b = Some w →
  ∃ w', locks (with_locks (fun l => <[lock_word b := Z.lor w (lock_bit b)]> l) t)
          !! lock_word b' = Some w'
        ∧ 0 ≤ w' < 2 ^ 64 ∧ Z.testbit w' (b' mod 64) = false.
Proof.
  intros Hlocks Hb Hb' Hne Hw.
  destruct (Hlocks b' Hb') as (w0 & Hw0 & Hrange0 & Hclear0).
  pose proof (Z.mod_pos_bound b 64 ltac:(lia)) as Hm.
  pose proof (Z.mod_pos_bound b' 64 ltac:(lia)) as Hm'.
  destruct (Nat.eq_dec (lock_word b') (lock_word b)) as [E | Hdiff].
  - exists (Z.lor w (lock_bit b)). rewrite E, Hw in Hw0. inversion Hw0; subst w0.
    split; [| split].
    + simpl. rewrite E. apply list_lookup_insert_eq. apply lookup_lt_Some in Hw. exact Hw.
    + apply lock_word_set_range. exact Hrange0.
    + rewrite lock_bit_pow2, Z.lor_spec, Hclear0. simpl.
      apply Z.pow2_bits_false. intros Emod. apply Hne.
      apply lock_word_inj; [lia | lia | exact E | symmetry; exact Emod].
  - exists w0. split; [| split; assumption].
    simpl. rewrite list_lookup_insert_ne by (intros E; apply Hdiff; symmetry; exact E).
    exact Hw0.
Qed.

(** A lock-blind computation between [stall_lock] and [unlock] of bucket
    [b'] runs under the held lock of another bucket [b] as it runs with no
    lock held, and leaves the lock of [b] held. *)
Lemma run_under_other_lock {A} (m : M A) fuel t b b' w :
  lock_blind m → locks_free t →
  0 ≤ b < n_buckets t → 0 ≤ b' < n_buckets t → b' ≠ b →
  locks t !! lock_word b = Some w →
  (stall_lock (S fuel) b' ;;; r <- m ;; unlock b' ;;; ret r)
    (with_locks (fun l => <[lock_word b := Z.lor w (lock_bit b)]> l) t)
  = match m t with
    | Some (r, t') =>
        Some (r, with_locks (fun l => <[lock_word b := Z.lor w (lock_bit b)]> l) t')
    | None => None
    end.
Proof.
  intros Hm Hlocks Hb Hb' Hne Hw.
  destruct (other_lock_free t b b' w Hlocks Hb Hb' Hne Hw) as (w' & Hw' & Hrange' & Hclear').
  rewrite (run_under_lock m fuel b' _ w' Hm Hw' Hrange' Hclear').
  apply Hm.
Qed.

Lemma unlock_key_after k t t' w :
  0 < n_buckets t →
  locks t !! lock_word (Z.land (hash k 8 (seed t)) (BITMASK 32) mod n_buckets t) = Some w →
  0 ≤ w < 2 ^ 64 →
  Z.testbit w ((Z.land (hash k 8 (seed t)) (BITMASK 32) mod n_buckets t) mod 64) = false →
  locks t' = locks t → n_buckets t' = n_buckets t → seed t' = seed t →
  unlock_key k
    (with_locks
       (fun l => <[lock_word (Z.land (hash k 8 (seed t)) (BITMASK 32) mod n_buckets t)
                   := Z.lor w (lock_bit (Z.land (hash k 8 (seed t)) (BITMASK 32)
                                         mod n_buckets t))]> l) t')
  = Some (tt, t').
Proof.
  intros Hn Hw Hrange Hclear Hl Hn' Hs'.
  set (b := Z.land (hash k 8 (seed t)) (BITMASK 32) mod n_buckets t) in *.
  set (t1 := with_locks (fun l => <[lock_word b := Z.lor w (lock_bit b)]> l) t').
  unfold unlock_key.
  rewrite (bind_run _ _ _ _ _ (eq_refl : get_seed t1 = Some (seed t1, t1))).
  assert (0 < n_buckets t1) as Hn1 by (simpl; lia).
  rewrite (bind_run _ _ _ _ _ (get_first_bucket_run _ t1 Hn1)).
  replace (Z.land (hash k 8 (seed t1)) (BITMASK 32) mod n_buckets t1) with b
    by (unfold b; simpl; rewrite Hn', Hs'; reflexivity).
  rewrite <- Hl in Hw.
  rewrite (unlock_after b t' w t1 Hw Hrange Hclear eq_refl).
  f_equal. f_equal. destruct t'; reflexivity.
Qed.

(** With the lock of bucket [b] taken on a table whose locks were free,
    that lock is held and no other. *)
Lemma held_after t t' b w :
  locks_free t → 0 ≤ b < n_buckets t → locks t !! lock_word b = Some w →
  locks t' = locks t →
  lock_held (with_locks (fun l => <[lock_word b := Z.lor w (lock_bit b)]> l) t') b
  ∧ ∀ b', 0 ≤ b' < n_buckets t → b' ≠ b →
          ¬ lock_held (with_locks (fun l => <[lock_word b := Z.lor w (lock_bit b)]> l) t') b'.
Proof.
  intros Hlocks Hb Hw Hl. pose proof (Z.mod_pos_bound b 64 ltac:(lia)) as Hm.
  split.
  - exists (Z.lor w (lock_bit b)). split.
    + simpl. rewrite Hl. apply list_lookup_insert_eq. apply lookup_lt_Some in Hw. exact Hw.
    + rewrite lock_bit_pow2, Z.lor_spec, Z.pow2_bits_true by lia. apply orb_true_r.
  - intros b' Hb' Hne (w' & Hw' & Hset).
    destruct (other_lock_free t b b' w Hlocks Hb Hb' Hne Hw) as (w0 & Hw0 & _ & Hclear).
    simpl in Hw', Hw0. rewrite Hl in Hw'. rewrite Hw0 in Hw'. inversion Hw'; subst w'.
    rewrite Hclear in Hset. discriminate.
Qed.

(** X26.  The locks are per bucket.  On a well-formed table with no lock
    held, once [lock_key(k)] has taken the lock of the primary bucket of
    [k]: an [upsert_replace] or a [remove] of a key with another primary
    bucket returns what it returns with no lock held and makes the same
    changes; after it the lock of [k] is still held and no other lock is,
    and [unlock_key(k)] then gives the table the operation alone would
    have given; and [find_with_reference], for any key, returns what it
    returns with no lock held and leaves the lock of [k] held. *)
Theorem operations_pass_other_locks fuel fuel' k k' v t :
  wf B t → locks_free t → first_bucket t k' ≠ first_bucket t k →
  let b := Z.land (hash k 8 (seed t)) (BITMASK 32) mod n_buckets t in
  ∃ t1, lock_key (S fuel) k t = Some (tt, t1)
        ∧ lock_held t1 b
        ∧ (∃ r t', upsert_replace W B (S fuel') k' v t = Some (r, t')
                   ∧ ∃ t1', upsert_replace W B (S fuel') k' v t1 = Some (r, t1')
                            ∧ lock_held t1' b
                            ∧ (∀ b', 0 ≤ b' < n_buckets t → b' ≠ b → ¬ lock_held t1' b')
                            ∧ unlock_key k t1' = Some (tt, t'))
        ∧ (∃ r t', remove W B (S fuel') k' t = Some (r, t')
                   ∧ ∃ t1', remove W B (S fuel') k' t1 = Some (r, t1')
                            ∧ lock_held t1' b
                            ∧ (∀ b', 0 ≤ b' < n_buckets t → b' ≠ b → ¬ lock_held t1' b')
                            ∧ unlock_key k t1' = Some (tt, t'))
        ∧ (∀ k'', ∃ q, find_with_reference W B k'' t = Some (q, t)
                       ∧ find_with_reference W B k'' t1 = Some (q, t1)).
Proof.
  intros Hwf Hlocks Hother b. pose proof (proj1 Hwf) as Hn.
  set (b' := Z.land (hash k' 8 (seed t)) (BITMASK 32) mod n_buckets t).
  pose proof (first_bucket_range t k Hn : 0 ≤ b < n_buckets t) as Hb.
  pose proof (first_bucket_range t k' Hn : 0 ≤ b' < n_buckets t) as Hb'.
  assert (b' ≠ b) as Hne.
  { intros E. apply Hother. unfold first_bucket. fold b b'. rewrite E. reflexivity. }
  destruct (Hlocks b Hb) as (w & Hw & Hrange & Hclear).
  set (g := fun l : list Z => <[lock_word b := Z.lor w (lock_bit b)]> l).
  exists (with_locks g t). split; [| split; [| split; [| split]]].
  - unfold lock_key.
    rewrite (bind_run _ _ _ _ _ (eq_refl : get_seed t = Some (seed t, t))).
    rewrite (bind_run _ _ _ _ _ (get_first_bucket_run _ t Hn)). fold b.
    unfold stall_lock. exact (stall_lock_one_thread_run fuel b t w Hw Hclear).
  - exact (proj1 (held_after t t b w Hlocks Hb Hw eq_refl)).
  - destruct (upsert_replace_spec fuel' k' v t Hwf Hlocks) as (r & t' & Hrun & Hout).
    destruct (upsert_outcome_locks _ _ _ _ _ _ _ Hout) as (Hl & Hn' & Hs').
    exists r, t'. split; [exact Hrun |]. exists (with_locks g t'). split; [| split; [| split]].
    + unfold upsert_replace.
      rewrite (bind_run _ _ _ _ _
                 (eq_refl : get_seed (with_locks g t) = Some (seed t, with_locks g t))).
      rewrite (bind_run _ _ _ _ _
                 (get_first_bucket_run _ (with_locks g t) (Hn : 0 < n_buckets (with_locks g t)))).
      change (n_buckets (with_locks g t)) with (n_buckets t). fold b'.
      rewrite (run_under_other_lock _ fuel' t b b' w
                 (lock_blind_upsert_replace_internal (S fuel') k' v _ b')
                 Hlocks Hb Hb' Hne Hw).
      rewrite (upsert_replace_unlocked fuel' k' v t Hwf Hlocks) in Hrun. fold b' in Hrun.
      rewrite Hrun. reflexivity.
    + exact (proj1 (held_after t t' b w Hlocks Hb Hw Hl)).
    + exact (proj2 (held_after t t' b w Hlocks Hb Hw Hl)).
    + exact (unlock_key_after k t t' w Hn Hw Hrange Hclear Hl Hn' Hs').
  - destruct (remove_spec fuel' k' t Hwf Hlocks) as (r & t' & Hrun & Hout).
    destruct (remove_outcome_locks _ _ _ _ _ _ Hout) as (Hl & Hn' & Hs').
    exists r, t'. split; [exact Hrun |]. exists (with_locks g t'). split; [| split; [| split]].
    + rewrite remove_locked.
      rewrite (bind_run _ _ _ _ _
                 (eq_refl : get_seed (with_locks g t) = Some (seed t, with_locks g t))).
      rewrite (bind_run _ _ _ _ _
                 (get_first_bucket_run _ (with_locks g t) (Hn : 0 < n_buckets (with_locks g t)))).
      change (n_buckets (with_locks g t)) with (n_buckets t). fold b'.
      rewrite (run_under_other_lock _ fuel' t b b' w
                 (lock_blind_remove_from W B _ b' k') Hlocks Hb Hb' Hne Hw).
      rewrite remove_locked in Hrun.
      rewrite (bind_run _ _ _ _ _ (eq_refl : get_seed t = Some (seed t, t))) in Hrun.
      rewrite (bind_run _ _ _ _ _ (get_first_bucket_run _ t Hn)) in Hrun. fold b' in Hrun.
      destruct (Hlocks b' Hb') as (w' & Hw' & Hrange' & Hclear').
      rewrite (run_under_lock _ fuel' b' t w'
                 (lock_blind_remove_from W B _ b' k') Hw' Hrange' Hclear') in Hrun.
      rewrite Hrun. reflexivity.
    + exact (proj1 (held_after t t' b w Hlocks Hb Hw Hl)).
    + exact (proj2 (held_after t t' b w Hlocks Hb Hw Hl)).
    + exact (unlock_key_after k t t' w Hn Hw Hrange Hclear Hl Hn' Hs').
  - intros k''. destruct (find_with_reference_spec k'' t Hwf) as (q & Hq).
    exists q. split; [exact Hq |].
    rewrite (lock_blind_find_with_reference k'' g t), Hq. reflexivity.
Qed.

(** ** [upsert_existing] and [erase_reference] under any mask *)

(** X27.  On a well-formed table [upsert_existing] and [erase_reference],
    given any mask (also one that no longer matches the tags), return:
    [upsert_existing] either overwrites the value of one slot of the mask
    that holds the key, or returns nothing and changes nothing, no slot
    of the mask holding the key; [erase_reference] either replaces by the
    tombstone key the key of one slot of the mask that holds the key, or
    returns nothing and changes nothing.  Neither writes a slot that holds
    another key, and neither touches a tag. *)
Theorem bucket_writes_only_matching_slots b k v mask t :
  wf B t → (b < n_of t)%nat →
  (∃ r t', upsert_existing W B b k v mask t = Some (r, t')
           ∧ (∀ x j, tag_at t' x j = tag_at t x j)
           ∧ match r with
             | Some _ =>
                 ∃ i p, (i < B)%nat ∧ mask_bit mask i = true
                        ∧ pair_at t b i = Some p ∧ key p = k
                        ∧ t' = set_pair b i (mk_pair k v) t
             | None =>
                 t' = t
                 ∧ ∀ i p, (i < B)%nat → mask_bit mask i = true →
                          pair_at t b i = Some p → key p ≠ k
             end)
  ∧ (∃ r t', erase_reference W B b k mask t = Some (r, t')
             ∧ (∀ x j, tag_at t' x j = tag_at t x j)
             ∧ match r with
               | Some i =>
                   ∃ p, (i < B)%nat ∧ mask_bit mask i = true
                        ∧ pair_at t b i = Some p ∧ key p = k
                        ∧ t' = set_pair b i (mk_pair tombstoneKey (val p)) t
               | None =>
                   t' = t
                   ∧ ∀ i p, (i < B)%nat → mask_bit mask i = true →
                            pair_at t b i = Some p → key p ≠ k
               end).
Proof.
  intros Hwf Hb. split.
  - destruct (upsert_existing_spec b k v mask t Hwf Hb) as (r & t' & Hrun & Hr).
    exists r, t'. split; [exact Hrun |]. split; [| exact Hr].
    destruct r as [lane |].
    + destruct Hr as (i & p & _ & _ & _ & _ & ->). intros x j. apply tag_at_set_pair.
    + destruct Hr as [-> _]. reflexivity.
  - destruct (erase_reference_spec b k mask t Hwf Hb) as (r & t' & Hrun & Hr).
    exists r, t'. split; [exact Hrun |]. split; [| exact Hr].
    destruct r as [i |].
    + destruct Hr as (p & _ & _ & _ & _ & ->). intros x j. apply tag_at_set_pair.
    + destruct Hr as [-> _]. reflexivity.
Qed.

End BucketSpecs.

(** * The sample tables *)

Lemma live_keyb_live k : live_keyb k = true → live_key k.
Proof.
  unfold live_keyb, live_key. rewrite !andb_true_iff, !negb_true_iff, !Z.eqb_neq. tauto.
Qed.

Lemma user_keyb_user k : user_keyb k = true → user_key k.
Proof.
  unfold user_keyb, user_key. rewrite !andb_true_iff, !negb_true_iff, !Z.eqb_neq. tauto.
Qed.

Lemma reachable_exec W B o t :
  reachable W B t → reachable W B (exec (run_operation W B 1 o) t).
Proof.
  intros Hreach. unfold exec.
  destruct (run_operation W B 1 o t) as [[a t'] |] eqn:Hrun; [| exact Hreach].
  exact (reachable_step W B t 1 o a t' Hreach Hrun).
Qed.

Lemma reachable_replay W B ops t : reachable W B t → reachable W B (replay W B ops t).
Proof.
  unfold replay. revert t. induction ops as [| o ops IH]; intros t Hreach; simpl.
  - exact Hreach.
  - apply IH. apply reachable_exec. exact Hreach.
Qed.

Lemma new_table_reachable capacity :
  fits_device 8 stale_memory capacity = true →
  generate_on_device 8 stale_memory capacity 0 = Some (new_table 8 capacity) →
  reachable 4 8 (new_table 8 capacity).
Proof. intros Hfits Hgen. exact (reachable_new 4 8 stale_memory capacity 0 _ Hfits Hgen). Qed.

Lemma seven_keys_reachable : reachable 4 8 seven_keys.
Proof. apply reachable_replay, new_table_reachable; vm_compute; reflexivity. Qed.

Lemma full_table_reachable : reachable 4 8 full_table.
Proof. apply reachable_replay, new_table_reachable; vm_compute; reflexivity. Qed.

Lemma holed_table_reachable : reachable 4 8 holed_table.
Proof. apply reachable_replay, full_table_reachable. Qed.

Lemma tombstoned_table_reachable : reachable 4 8 tombstoned_table.
Proof. apply reachable_replay, new_table_reachable; vm_compute; reflexivity. Qed.

Lemma one_key_reachable : reachable 4 8 one_key.
Proof. apply reachable_replay, new_table_reachable; vm_compute; reflexivity. Qed.

Lemma balanced_table_reachable : reachable 4 8 balanced_table.
Proof. apply reachable_replay, new_table_reachable; vm_compute; reflexivity. Qed.

Lemma sample_table_inv t : reachable 4 8 t → table_inv 8 t.
Proof.
  intros Hreach.
  refine (reachable_inv 4 8 _ _ _ _ _ t Hreach); [lia | lia | lia | reflexivity | reflexivity].
Qed.

Lemma sample_table_wf t : reachable 4 8 t → wf 8 t.
Proof. intros Hreach. exact (inv_wf 8 t (sample_table_inv t Hreach)). Qed.

Lemma sample_table_locks_free t : reachable 4 8 t → locks_free t.
Proof. intros Hreach. exact (inv_locks 8 t (sample_table_inv t Hreach)). Qed.

(** ** Where the stated claims fail *)

(** C1 as stated fails: on the full table [upsert(9, 90)] returns false and
    the query that follows does not find key 9. *)
Lemma upsert_full_table_not_found :
  reachable 4 8 full_table ∧ live_key 9
  ∧ upsert_replace 4 8 1 9 90 full_table = Some (false, full_table)
  ∧ find_with_reference 4 8 9 full_table = Some ([None; None; None; None], full_table).
Proof.
  split; [exact full_table_reachable |].
  split; [apply live_keyb_live; reflexivity |].
  split; vm_compute; reflexivity.
Qed.

(** C3 as stated fails: bucket 0, the primary bucket of key 13, has one
    slot of eight that is neither empty nor tombstoned, yet the first loop
    is skipped (six tags are not empty) and key 13 is stored in bucket 1. *)
Lemma shortcut_skipped_below_cutoff :
  reachable 4 8 tombstoned_table
  ∧ first_bucket tombstoned_table 13 = 0%nat ∧ second_bucket tombstoned_table 13 = 1%nat
  ∧ occupancy 8 tombstoned_table 0 = 1%nat
  ∧ non_empty_tags 8 tombstoned_table 0 = 6%nat
  ∧ shortcut_loop 4 8 1 0 13 130
      (tag_mask 8 tombstoned_table 0 empty_tag)
      (tag_mask 8 tombstoned_table 0 tombstone_tag)
      (tag_mask 8 tombstoned_table 0 (get_tag 13)) tombstoned_table
    = Some (inr (192, 31, 0), tombstoned_table)
  ∧ upsert_replace 4 8 1 13 130 tombstoned_table
    = Some (true, set_pair 1 0 (mk_pair 13 130) (set_tag 1 0 (get_tag 13) tombstoned_table)).
Proof.
  split; [exact tombstoned_table_reachable |].
  repeat split; vm_compute; reflexivity.
Qed.

(** C4.  The code at the failing input: on the full table slot 7 of
    bucket 0 holds key 8 under its tag, and [upsert(8, 81)] returns false
    all the same and leaves the value 80, although neither candidate bucket
    has a slot that does not match while one has a slot that matches; the
    update-in-place step, [upsert_existing] with the match mask of the
    bucket, would have stored 81 in slot 7 had the loop been entered. *)
Lemma upsert_false_with_matching_slot :
  reachable 4 8 full_table
  ∧ first_bucket full_table 8 = 0%nat ∧ second_bucket full_table 8 = 0%nat
  ∧ tag_at full_table 0 7 = Some (get_tag 8)
  ∧ pair_at full_table 0 7 = Some (mk_pair 8 80)
  ∧ upsert_replace 4 8 1 8 81 full_table = Some (false, full_table)
  ∧ upsert_existing 4 8 0 8 81 (tag_mask 8 full_table 0 (get_tag 8)) full_table
    = Some (Some 3%nat, set_pair 0 7 (mk_pair 8 81) full_table).
Proof.
  split; [exact full_table_reachable |].
  repeat split; vm_compute; reflexivity.
Qed.

(** C5.  The code at the failing input: [upsert(8, 80)] takes the last free
    slot of the table of seven keys, [upsert(8, 81)] then returns false and
    changes nothing, and the query returns 80 (on lane 0 of the four lanes,
    and nothing on the other three). *)
Lemma second_upsert_lost :
  reachable 4 8 seven_keys ∧ live_key 8
  ∧ upsert_replace 4 8 1 8 80 seven_keys = Some (true, full_table)
  ∧ upsert_replace 4 8 1 8 81 full_table = Some (false, full_table)
  ∧ find_with_reference 4 8 8 full_table = Some ([Some 80; None; None; None], full_table).
Proof.
  split; [exact seven_keys_reachable |].
  split; [apply live_keyb_live; reflexivity |].
  repeat split; vm_compute; reflexivity.
Qed.

(** C6.  The code at the failing input, tiles of four lanes and buckets of
    eight slots: [remove(8)] on the full table returns true, the query
    that follows returns nothing on any lane, [upsert(8, 81)] returns
    true, and the query after it returns 81 on lane 0 and nothing on lanes
    1, 2 and 3, which have left the tag loop of
    [query_md_and_bucket_large]; [query], the scan of [p2_md_bucket] that
    keeps the whole tile in its loop, finds 81 in the same bucket. *)
Lemma query_after_reinsert_misses_lanes :
  reachable 4 8 full_table ∧ live_key 8
  ∧ remove 4 8 1 8 full_table = Some (true, exec (remove 4 8 1 8) full_table)
  ∧ find_with_reference 4 8 8 (exec (remove 4 8 1 8) full_table)
    = Some ([None; None; None; None], exec (remove 4 8 1 8) full_table)
  ∧ upsert_replace 4 8 1 8 81 (exec (remove 4 8 1 8) full_table)
    = Some (true, exec (upsert_replace 4 8 1 8 81) (exec (remove 4 8 1 8) full_table))
  ∧ find_with_reference 4 8 8
      (exec (upsert_replace 4 8 1 8 81) (exec (remove 4 8 1 8) full_table))
    = Some ([Some 81; None; None; None],
            exec (upsert_replace 4 8 1 8 81) (exec (remove 4 8 1 8) full_table))
  ∧ n_loads 4 8 = 1%nat
  ∧ query 4 8 0 8 (exec (upsert_replace 4 8 1 8 81) (exec (remove 4 8 1 8) full_table))
    = Some (Some 81, exec (upsert_replace 4 8 1 8 81) (exec (remove 4 8 1 8) full_table)).
Proof.
  split; [exact full_table_reachable |].
  split; [apply live_keyb_live; reflexivity |].
  repeat split; vm_compute; reflexivity.
Qed.

(** C7 as stated fails, in four ways.  On the full table [upsert(9, 90)],
    [remove(9)] and [upsert(10, 100)] all return false.  After
    [upsert(8, 80)] and [remove(8)], [upsert(3, 33)] overwrites slot 2, which
    holds key 3, and the tombstone of slot 7 stays.  Where slot 1 is
    tombstoned already, after [upsert(5, 55)] and [remove(5)], which
    tombstones slot 4, [upsert(9, 90)] takes slot 1.  And where key 13 sits
    in bucket 1, after [upsert(13, 131)] and [remove(13)], which tombstones
    slot 0 of bucket 1, the two buckets hold three live tags each and
    [upsert(20, 200)] takes slot 0 of bucket 0, the lowest tombstoned slot
    of the primary bucket. *)
Lemma tombstone_not_reused :
  (reachable 4 8 full_table
   ∧ upsert_replace 4 8 1 9 90 full_table = Some (false, full_table)
   ∧ remove 4 8 1 9 full_table = Some (false, full_table)
   ∧ upsert_replace 4 8 1 10 100 full_table = Some (false, full_table))
  ∧ (reachable 4 8 seven_keys
     ∧ upsert_replace 4 8 1 8 80 seven_keys = Some (true, full_table)
     ∧ remove 4 8 1 8 full_table
       = Some (true, set_tag 0 7 tombstone_tag (set_pair 0 7 (mk_pair tombstoneKey 80) full_table))
     ∧ upsert_replace 4 8 1 3 33
         (set_tag 0 7 tombstone_tag (set_pair 0 7 (mk_pair tombstoneKey 80) full_table))
       = Some (true, set_pair 0 2 (mk_pair 3 33)
                       (set_tag 0 7 tombstone_tag
                          (set_pair 0 7 (mk_pair tombstoneKey 80) full_table))))
  ∧ (reachable 4 8 holed_table
     ∧ tag_at holed_table 0 1 = Some tombstone_tag
     ∧ upsert_replace 4 8 1 5 55 holed_table
       = Some (true, set_pair 0 4 (mk_pair 5 55) holed_table)
     ∧ remove 4 8 1 5 (set_pair 0 4 (mk_pair 5 55) holed_table)
       = Some (true, set_tag 0 4 tombstone_tag
                       (set_pair 0 4 (mk_pair tombstoneKey 55) holed_table))
     ∧ upsert_replace 4 8 1 9 90
         (set_tag 0 4 tombstone_tag (set_pair 0 4 (mk_pair tombstoneKey 55) holed_table))
       = Some (true, set_pair 0 1 (mk_pair 9 90)
                       (set_tag 0 1 (get_tag 9)
                          (set_tag 0 4 tombstone_tag
                             (set_pair 0 4 (mk_pair tombstoneKey 55) holed_table)))))
  ∧ (reachable 4 8 balanced_table
     ∧ first_bucket balanced_table 13 = 0%nat ∧ second_bucket balanced_table 13 = 1%nat
     ∧ first_bucket balanced_table 20 = 0%nat ∧ second_bucket balanced_table 20 = 1%nat
     ∧ upsert_replace 4 8 1 13 131 balanced_table
       = Some (true, set_pair 1 0 (mk_pair 13 131) balanced_table)
     ∧ remove 4 8 1 13 (set_pair 1 0 (mk_pair 13 131) balanced_table)
       = Some (true, set_tag 1 0 tombstone_tag
                       (set_pair 1 0 (mk_pair tombstoneKey 131) balanced_table))
     ∧ upsert_replace 4 8 1 20 200
         (set_tag 1 0 tombstone_tag (set_pair 1 0 (mk_pair tombstoneKey 131) balanced_table))
       = Some (true, set_pair 0 0 (mk_pair 20 200)
                       (set_tag 0 0 (get_tag 20)
                          (set_tag 1 0 tombstone_tag
                             (set_pair 1 0 (mk_pair tombstoneKey 131) balanced_table))))).
Proof.
  split; [| split; [| split]].
  - split; [exact full_table_reachable |]. repeat split; vm_compute; reflexivity.
  - split; [exact seven_keys_reachable |]. repeat split; vm_compute; reflexivity.
  - split; [exact holed_table_reachable |]. repeat split; vm_compute; reflexivity.
  - split; [exact balanced_table_reachable |]. repeat split; vm_compute; reflexivity.
Qed.

(** C9 as stated fails: for capacity 0 and buckets of 8 slots the table has
    [2 ^ 61] buckets, where 0 divided by 8 and rounded up is 0. *)
Lemma zero_capacity_bucket_count :
  n_buckets (allocate 8 stale_memory 0 0) = 2 ^ 61
  ∧ (∃ t, generate_on_device 8 stale_memory 0 0 = Some t ∧ n_buckets t = 2 ^ 61)
  ∧ (0 + 8 - 1) / 8 = 0.
Proof.
  split; [| split].
  - vm_compute. reflexivity.
  - destruct (generate_on_device_returns 8 stale_memory 0 0) as (t & Hgen & Hn & _).
    exists t. split; [exact Hgen |]. rewrite Hn. vm_compute. reflexivity.
  - reflexivity.
Qed.

(** ** Instances of the theorems *)

(** An upsert that succeeds: key 8 into the last free slot, then the query. *)
Lemma upsert_then_query_witness :
  reachable 4 8 seven_keys ∧ live_key 8
  ∧ upsert_replace 4 8 1 8 80 seven_keys = Some (true, full_table)
  ∧ ∃ b i replies,
      (b = first_bucket full_table 8 ∨ b = second_bucket full_table 8) ∧ (i < 8)%nat
      ∧ pair_at full_table b i = Some (mk_pair 8 80)
      ∧ find_with_reference 4 8 8 full_table = Some (replies, full_table)
      ∧ length replies = 4%nat
      ∧ replies !! 0%nat = Some (Some 80)
      ∧ ∀ lane, (lane < 4)%nat → serves 4 8 i lane = true →
                replies !! lane = Some (Some 80).
Proof.
  assert (Hreach : reachable 4 8 seven_keys) by exact seven_keys_reachable.
  assert (Hlive : live_key 8) by (apply live_keyb_live; reflexivity).
  assert (Hrun : upsert_replace 4 8 1 8 80 seven_keys = Some (true, full_table))
    by (vm_compute; reflexivity).
  split; [exact Hreach |]. split; [exact Hlive |]. split; [exact Hrun |].
  refine (upsert_then_query 4 8 _ _ _ _ _ seven_keys 1 8 80 full_table Hreach Hlive Hrun);
    [lia | lia | lia | reflexivity | reflexivity].
Defined.

(** On the full table slot 7 of bucket 0 is the only slot that holds key 8. *)
Lemma one_slot_per_key_witness :
  reachable 4 8 full_table ∧ live_key 8 ∧ key_at full_table 0 7 = Some 8
  ∧ ∀ b i, b = first_bucket full_table 8 ∨ b = second_bucket full_table 8 →
           (i < 8)%nat → key_at full_table b i = Some 8 → b = 0%nat ∧ i = 7%nat.
Proof.
  assert (Hreach : reachable 4 8 full_table) by exact full_table_reachable.
  assert (Hlive : live_key 8) by (apply live_keyb_live; reflexivity).
  assert (Hkey : key_at full_table 0 7 = Some 8) by (vm_compute; reflexivity).
  split; [exact Hreach |]. split; [exact Hlive |]. split; [exact Hkey |].
  intros b i Hb Hi Hk.
  refine (proj2 (proj2 (one_slot_per_key 4 8 _ _ _ _ _))
            full_table 8 b i 0%nat 7%nat Hreach Hlive Hb _ Hi _ Hk Hkey);
    [lia | lia | lia | reflexivity | reflexivity | left; vm_compute; reflexivity | lia].
Defined.

(** With six tags of bucket 0 not empty the first loop hands over at once. *)
Lemma shortcut_exactly_below_cutoff_witness :
  wf 8 tombstoned_table
  ∧ shortcut_loop 4 8 1 0 13 130 192 31 0 tombstoned_table
    = Some (inr (192, 31, 0), tombstoned_table).
Proof.
  assert (Hwf : wf 8 tombstoned_table).
  { refine (inv_wf 8 _ (reachable_inv 4 8 _ _ _ _ _ tombstoned_table
                          tombstoned_table_reachable));
      [lia | lia | lia | reflexivity | reflexivity]. }
  split; [exact Hwf |].
  refine (proj1 (proj2 (shortcut_exactly_below_cutoff 4 8 _ _ _ _ _
                          tombstoned_table 0 13 130 Hwf) _));
    [lia | lia | lia | reflexivity | reflexivity | vm_compute; discriminate].
Defined.

(** Key 8 takes the last free slot, is removed, and key 9 follows. *)
Lemma tombstone_reuse_witness :
  reachable 4 8 seven_keys ∧ live_key 8 ∧ live_key 9
  ∧ first_bucket seven_keys 9 = first_bucket seven_keys 8
  ∧ second_bucket seven_keys 9 = second_bucket seven_keys 8
  ∧ upsert_replace 4 8 1 8 80 seven_keys = Some (true, full_table)
  ∧ ∃ b i t2 t3,
      (b = first_bucket seven_keys 8 ∨ b = second_bucket seven_keys 8) ∧ (i < 8)%nat
      ∧ pair_at full_table b i = Some (mk_pair 8 80)
      ∧ remove 4 8 1 8 full_table = Some (true, t2)
      ∧ t2 = set_tag b i tombstone_tag (set_pair b i (mk_pair tombstoneKey 80) full_table)
      ∧ upsert_replace 4 8 1 9 90 t2 = Some (true, t3)
      ∧ ((∀ x j, (x < n_of t2)%nat → (j < 8)%nat → key_at t2 x j ≠ Some 9) →
         ∃ b' i',
           b' = picked_bucket 8 t2 (first_bucket seven_keys 8) (second_bucket seven_keys 8)
           ∧ claimed_slot 8 t2 b' i'
           ∧ t3 = set_pair b' i' (mk_pair 9 90) (set_tag b' i' (get_tag 9) t2)
           ∧ (b' = b → tag_at t2 b' i' = Some tombstone_tag ∧ (i' ≤ i)%nat)
           ∧ (b' = b → (∀ j, (j < i)%nat → tag_at t2 b j ≠ Some tombstone_tag) → i' = i)).
Proof.
  assert (Hreach : reachable 4 8 seven_keys) by exact seven_keys_reachable.
  assert (Hlive1 : live_key 8) by (apply live_keyb_live; reflexivity).
  assert (Hlive2 : live_key 9) by (apply live_keyb_live; reflexivity).
  assert (Hfirst : first_bucket seven_keys 9 = first_bucket seven_keys 8)
    by (vm_compute; reflexivity).
  assert (Hsecond : second_bucket seven_keys 9 = second_bucket seven_keys 8)
    by (vm_compute; reflexivity).
  assert (Hrun : upsert_replace 4 8 1 8 80 seven_keys = Some (true, full_table))
    by (vm_compute; reflexivity).
  split; [exact Hreach |]. split; [exact Hlive1 |]. split; [exact Hlive2 |].
  split; [exact Hfirst |]. split; [exact Hsecond |]. split; [exact Hrun |].
  refine (tombstone_reuse 4 8 _ _ _ _ _ seven_keys 1 0 0 8 80 9 90 full_table
            Hreach Hlive1 Hlive2 Hfirst Hsecond Hrun);
    [lia | lia | lia | reflexivity | reflexivity].
Defined.

(** Capacity 8 with buckets of 8 slots. *)
Lemma n_buckets_is_ceiling_witness :
  1 ≤ 8 < 2 ^ 64
  ∧ ∃ t, generate_on_device 8 stale_memory 8 0 = Some t
         ∧ n_buckets t = (8 + Z.of_nat 8 - 1) / Z.of_nat 8
         ∧ (n_buckets t - 1) * Z.of_nat 8 < 8 ≤ n_buckets t * Z.of_nat 8.
Proof.
  assert (Hc : 1 ≤ 8 < 2 ^ 64) by lia.
  split; [exact Hc |].
  refine (n_buckets_is_ceiling 4 8 _ _ _ _ _ stale_memory 8 0 Hc);
    [lia | lia | lia | reflexivity | reflexivity].
Defined.

(** A query for key 8 on the full table. *)
Lemma query_writes_nothing_witness :
  wf 8 full_table
  ∧ (∀ r t',
       find_with_reference 4 8 8 full_table = Some (r, t')
       ∨ find_with_reference_no_lock 4 8 8 full_table = Some (r, t') →
       t' = full_table
       ∧ buckets t' = buckets full_table ∧ metadata t' = metadata full_table
       ∧ locks t' = locks full_table)
  ∧ ∃ r, find_with_reference 4 8 8 full_table = Some (r, full_table)
         ∧ find_with_reference_no_lock 4 8 8 full_table = Some (r, full_table).
Proof.
  assert (Hwf : wf 8 full_table).
  { refine (inv_wf 8 _ (reachable_inv 4 8 _ _ _ _ _ full_table full_table_reachable));
      [lia | lia | lia | reflexivity | reflexivity]. }
  split; [exact Hwf |].
  assert (Hq := query_writes_nothing 4 8 ltac:(lia) ltac:(lia) ltac:(lia) eq_refl eq_refl
                  8 full_table).
  split; [exact (proj1 Hq) | exact (proj2 Hq Hwf)].
Defined.

(** ** Instances of the further theorems *)

(** The lock of key 8 on the full table, taken and released. *)
Lemma lock_key_then_unlock_key_witness :
  wf 8 full_table ∧ locks_free full_table
  ∧ ∃ t1, lock_key 1 8 full_table = Some (tt, t1)
          ∧ get_lock_bucket 8 full_table = Some (0, full_table)
          ∧ lock_held t1 0
          ∧ unlock_key 8 t1 = Some (tt, full_table).
Proof.
  assert (Hwf : wf 8 full_table) by exact (sample_table_wf _ full_table_reachable).
  assert (Hlocks : locks_free full_table)
    by exact (sample_table_locks_free _ full_table_reachable).
  split; [exact Hwf |]. split; [exact Hlocks |].
  pose proof (lock_key_then_unlock_key 4 8 ltac:(lia) ltac:(lia) ltac:(lia) eq_refl eq_refl
                0 8 full_table Hwf Hlocks) as H.
  cbv zeta in H. destruct H as (t1 & Hlock & Hbucket & _ & Hheld & _ & _ & _ & Hunlock).
  exists t1. split; [exact Hlock |]. split; [exact Hbucket |]. split; [exact Hheld |].
  exact Hunlock.
Defined.

(** With the lock of key 8 held, nothing that takes it again returns. *)
Lemma lock_not_reentrant_witness :
  wf 8 full_table ∧ locks_free full_table
  ∧ ∃ t1, lock_key 1 8 full_table = Some (tt, t1)
          ∧ lock_key 5 8 t1 = None
          ∧ upsert_replace 4 8 5 8 81 t1 = None
          ∧ remove 4 8 5 8 t1 = None.
Proof.
  assert (Hwf : wf 8 full_table) by exact (sample_table_wf _ full_table_reachable).
  assert (Hlocks : locks_free full_table)
    by exact (sample_table_locks_free _ full_table_reachable).
  split; [exact Hwf |]. split; [exact Hlocks |].
  destruct (lock_not_reentrant 4 8 ltac:(lia) ltac:(lia) ltac:(lia) eq_refl eq_refl
              0 8 full_table Hwf Hlocks) as (t1 & Hlock & Hstuck).
  destruct (Hstuck 5%nat 8 81 (fun _ _ _ _ => ret tt) eq_refl) as (H1 & H2 & _ & H4).
  exists t1. split; [exact Hlock |]. split; [exact H1 |]. split; [exact H2 | exact H4].
Defined.

(** Key 8 upserted into the table of seven keys, with and without the lock. *)
Lemma upsert_no_lock_agrees_witness :
  wf 8 seven_keys ∧ locks_free seven_keys
  ∧ ∃ r t', upsert_no_lock 4 8 1 8 80 seven_keys = Some (r, t')
            ∧ upsert_replace 4 8 1 8 80 seven_keys = Some (r, t').
Proof.
  assert (Hwf : wf 8 seven_keys) by exact (sample_table_wf _ seven_keys_reachable).
  assert (Hlocks : locks_free seven_keys)
    by exact (sample_table_locks_free _ seven_keys_reachable).
  split; [exact Hwf |]. split; [exact Hlocks |].
  refine (upsert_no_lock_agrees 4 8 _ _ _ _ _ 0 8 80 seven_keys Hwf Hlocks);
    [lia | lia | lia | reflexivity | reflexivity].
Defined.

(** Key 8 removed from the full table, with and without the lock. *)
Lemma remove_no_lock_agrees_witness :
  wf 8 full_table ∧ locks_free full_table
  ∧ ∃ r t', remove_no_lock 4 8 8 full_table = Some (r, t')
            ∧ remove 4 8 1 8 full_table = Some (r, t').
Proof.
  assert (Hwf : wf 8 full_table) by exact (sample_table_wf _ full_table_reachable).
  assert (Hlocks : locks_free full_table)
    by exact (sample_table_locks_free _ full_table_reachable).
  split; [exact Hwf |]. split; [exact Hlocks |].
  refine (remove_no_lock_agrees 4 8 _ _ _ _ _ 0 8 full_table Hwf Hlocks);
    [lia | lia | lia | reflexivity | reflexivity].
Defined.

(** Key 8 upserted between [lock_key] and [unlock_key]. *)
Lemma upsert_under_lock_key_witness :
  wf 8 seven_keys ∧ locks_free seven_keys
  ∧ ∃ r t', (lock_key 1 8 ;;;
             return_val <- upsert_no_lock 4 8 1 8 80 ;;
             unlock_key 8 ;;;
             ret return_val) seven_keys = Some (r, t')
            ∧ upsert_replace 4 8 1 8 80 seven_keys = Some (r, t').
Proof.
  assert (Hwf : wf 8 seven_keys) by exact (sample_table_wf _ seven_keys_reachable).
  assert (Hlocks : locks_free seven_keys)
    by exact (sample_table_locks_free _ seven_keys_reachable).
  split; [exact Hwf |]. split; [exact Hlocks |].
  refine (upsert_under_lock_key 4 8 _ _ _ _ _ 0 8 80 seven_keys Hwf Hlocks);
    [lia | lia | lia | reflexivity | reflexivity].
Defined.

(** Key 8 is upserted; a query for key 3 returns what it returned. *)
Lemma upsert_keeps_other_keys_witness :
  reachable 4 8 seven_keys ∧ user_key 3 ∧ 3 ≠ 8
  ∧ upsert_replace 4 8 1 8 80 seven_keys = Some (true, full_table)
  ∧ ∃ q, find_with_reference 4 8 3 seven_keys = Some (q, seven_keys)
         ∧ find_with_reference 4 8 3 full_table = Some (q, full_table).
Proof.
  assert (Hlive : user_key 3) by (apply user_keyb_user; reflexivity).
  assert (Hne : 3 ≠ 8) by lia.
  assert (Hrun : upsert_replace 4 8 1 8 80 seven_keys = Some (true, full_table))
    by (vm_compute; reflexivity).
  split; [exact seven_keys_reachable |]. split; [exact Hlive |]. split; [exact Hne |].
  split; [exact Hrun |].
  refine (upsert_keeps_other_keys 4 8 _ _ _ _ _ seven_keys 1 8 80 true full_table 3
            seven_keys_reachable Hlive Hne Hrun);
    [lia | lia | lia | reflexivity | reflexivity].
Defined.

(** Key 8 is removed; a query for key 3 returns what it returned. *)
Lemma remove_keeps_other_keys_witness :
  reachable 4 8 full_table ∧ user_key 3 ∧ 3 ≠ 8
  ∧ remove 4 8 1 8 full_table = Some (true, exec (remove 4 8 1 8) full_table)
  ∧ ∃ q, find_with_reference 4 8 3 full_table = Some (q, full_table)
         ∧ find_with_reference 4 8 3 (exec (remove 4 8 1 8) full_table)
           = Some (q, exec (remove 4 8 1 8) full_table).
Proof.
  assert (Hlive : user_key 3) by (apply user_keyb_user; reflexivity).
  assert (Hne : 3 ≠ 8) by lia.
  assert (Hrun : remove 4 8 1 8 full_table = Some (true, exec (remove 4 8 1 8) full_table))
    by (vm_compute; reflexivity).
  split; [exact full_table_reachable |]. split; [exact Hlive |]. split; [exact Hne |].
  split; [exact Hrun |].
  refine (remove_keeps_other_keys 4 8 _ _ _ _ _ full_table 1 8 true _ 3
            full_table_reachable Hlive Hne Hrun);
    [lia | lia | lia | reflexivity | reflexivity].
Defined.

(** [remove(8)] on the full table. *)
Lemma remove_true_iff_present_witness :
  reachable 4 8 full_table ∧ user_key 8
  ∧ ∃ r t', remove 4 8 1 8 full_table = Some (r, t')
            ∧ (r = true ↔ ∃ v replies,
                            find_with_reference 4 8 8 full_table = Some (replies, full_table)
                            ∧ replies !! 0%nat = Some (Some v))
            ∧ (r = false → t' = full_table)
            ∧ find_with_reference 4 8 8 t' = Some (no_replies 4, t').
Proof.
  assert (Hlive : user_key 8) by (apply user_keyb_user; reflexivity).
  split; [exact full_table_reachable |]. split; [exact Hlive |].
  refine (remove_true_iff_present 4 8 _ _ _ _ _ full_table 0 8 full_table_reachable Hlive);
    [lia | lia | lia | reflexivity | reflexivity].
Defined.

(** A table built on memory that holds leftovers. *)
Lemma new_table_is_empty_witness :
  fits_device 8 stale_memory 16 = true
  ∧ ∃ t, generate_on_device 8 stale_memory 16 0 = Some t
         ∧ 1 ≤ n_buckets t ∧ seed t = 0
         ∧ (∀ b i, (b < n_of t)%nat → (i < 8)%nat →
                   tag_at t b i = Some empty_tag
                   ∧ pair_at t b i = Some (mk_pair defaultKey defaultVal))
         ∧ locks_free t.
Proof.
  assert (Hfits : fits_device 8 stale_memory 16 = true) by (vm_compute; reflexivity).
  split; [exact Hfits |].
  refine (new_table_is_empty 4 8 _ _ _ _ _ stale_memory 16 0 Hfits);
    [lia | lia | lia | reflexivity | reflexivity].
Defined.

(** Nothing is found in, or removed from, a table that was just built. *)
Lemma new_table_finds_nothing_witness :
  fits_device 8 stale_memory 16 = true
  ∧ ∃ t, generate_on_device 8 stale_memory 16 0 = Some t
         ∧ ∀ k fuel,
             find_with_reference 4 8 k t = Some (no_replies 4, t)
             ∧ remove 4 8 (S fuel) k t = Some (false, t).
Proof.
  assert (Hfits : fits_device 8 stale_memory 16 = true) by (vm_compute; reflexivity).
  split; [exact Hfits |].
  refine (new_table_finds_nothing 4 8 _ _ _ _ _ stale_memory 16 0 Hfits);
    [lia | lia | lia | reflexivity | reflexivity].
Defined.

(** The locks after [upsert(8, 80)] on the table of seven keys. *)
Lemma operations_restore_locks_witness :
  reachable 4 8 seven_keys
  ∧ run_operation 4 8 1 (op_upsert 8 80) seven_keys = Some (ans_done true, full_table)
  ∧ locks full_table = locks seven_keys ∧ n_buckets full_table = n_buckets seven_keys
  ∧ seed full_table = seed seven_keys ∧ locks_free full_table ∧ wf 8 full_table.
Proof.
  assert (Hrun : run_operation 4 8 1 (op_upsert 8 80) seven_keys
                 = Some (ans_done true, full_table)) by (vm_compute; reflexivity).
  split; [exact seven_keys_reachable |]. split; [exact Hrun |].
  refine (operations_restore_locks 4 8 _ _ _ _ _ seven_keys 1 (op_upsert 8 80)
            (ans_done true) full_table seven_keys_reachable Hrun);
    [lia | lia | lia | reflexivity | reflexivity].
Defined.

(** The masks of bucket 0 of the table with five tombstones. *)
Lemma load_fill_ballots_huge_masks_witness :
  wf 8 tombstoned_table ∧ (0 < n_of tombstoned_table)%nat
  ∧ ∃ e ts m, load_fill_ballots_huge 4 8 0 13 tombstoned_table
              = Some ((e, ts, m), tombstoned_table)
              ∧ 0 ≤ e ∧ 0 ≤ ts ∧ 0 ≤ m
              ∧ ∀ i : nat,
                  (Z.testbit e (Z.of_nat i) = true
                   ↔ (i < 8)%nat ∧ tag_at tombstoned_table 0 i = Some empty_tag)
                  ∧ (Z.testbit ts (Z.of_nat i) = true
                     ↔ (i < 8)%nat ∧ tag_at tombstoned_table 0 i = Some tombstone_tag)
                  ∧ (Z.testbit m (Z.of_nat i) = true
                     ↔ (i < 8)%nat ∧ tag_at tombstoned_table 0 i = Some (get_tag 13)).
Proof.
  assert (Hwf : wf 8 tombstoned_table) by exact (sample_table_wf _ tombstoned_table_reachable).
  assert (Hb : (0 < n_of tombstoned_table)%nat) by (vm_compute; lia).
  split; [exact Hwf |]. split; [exact Hb |].
  refine (load_fill_ballots_huge_masks 4 8 _ _ _ _ _ 0 13 tombstoned_table Hwf Hb);
    [lia | lia | lia | reflexivity | reflexivity].
Defined.

(** The slot of key 8 in the full table. *)
Lemma find_pair_agrees_witness :
  reachable 4 8 full_table ∧ user_key 8
  ∧ find_pair_no_lock 4 8 8 full_table = find_pair 4 8 8 full_table
  ∧ ∃ slots replies,
      find_pair 4 8 8 full_table = Some (slots, full_table)
      ∧ find_with_reference 4 8 8 full_table = Some (replies, full_table)
      ∧ ∀ lane, (lane < 4)%nat →
          ∃ slot reply, slots !! lane = Some slot ∧ replies !! lane = Some reply
            ∧ match slot with
              | Some (b, i) =>
                  (b = first_bucket full_table 8 ∨ b = second_bucket full_table 8)
                  ∧ (i < 8)%nat
                  ∧ ∃ v, pair_at full_table b i = Some (mk_pair 8 v) ∧ reply = Some v
              | None => reply = None
              end.
Proof.
  assert (Hlive : user_key 8) by (apply user_keyb_user; reflexivity).
  split; [exact full_table_reachable |]. split; [exact Hlive |].
  pose proof (find_pair_agrees 4 8 ltac:(lia) ltac:(lia) ltac:(lia) eq_refl eq_refl
                8 full_table) as H.
  split; [exact (proj1 (proj1 H)) | exact (proj2 H full_table_reachable Hlive)].
Defined.

(** Bucket 0 of the table with five tombstones holds one key. *)
Lemma get_bucket_fill_counts_witness :
  wf 8 tombstoned_table ∧ (0 < n_of tombstoned_table)%nat
  ∧ get_bucket_fill 4 8 (Z.of_nat 0) tombstoned_table
    = Some (Z.of_nat (occupancy 8 tombstoned_table 0), tombstoned_table)
  ∧ (occupancy 8 tombstoned_table 0 ≤ 8)%nat.
Proof.
  assert (Hwf : wf 8 tombstoned_table) by exact (sample_table_wf _ tombstoned_table_reachable).
  assert (Hb : (0 < n_of tombstoned_table)%nat) by (vm_compute; lia).
  split; [exact Hwf |]. split; [exact Hb |].
  refine (get_bucket_fill_counts 4 8 _ _ _ _ _ 0 tombstoned_table Hwf Hb);
    [lia | lia | lia | reflexivity | reflexivity].
Defined.

(** The fill of the table with five tombstones. *)
Lemma get_fill_counts_witness :
  wf 8 tombstoned_table ∧ (256 mod 4 = 0)%nat
  ∧ (n_buckets tombstoned_table * Z.of_nat 4 - 1) / 256 + 1 < 2 ^ 31
  ∧ get_fill 4 8 tombstoned_table
    = Some (Z.of_nat (total_occupancy 8 tombstoned_table (n_of tombstoned_table)),
            tombstoned_table)
  ∧ Z.of_nat (total_occupancy 8 tombstoned_table (n_of tombstoned_table))
    ≤ n_buckets tombstoned_table * Z.of_nat 8.
Proof.
  assert (Hwf : wf 8 tombstoned_table) by exact (sample_table_wf _ tombstoned_table_reachable).
  assert (Hdiv : (256 mod 4 = 0)%nat) by reflexivity.
  assert (Hgrid : (n_buckets tombstoned_table * Z.of_nat 4 - 1) / 256 + 1 < 2 ^ 31)
    by (vm_compute; reflexivity).
  split; [exact Hwf |]. split; [exact Hdiv |]. split; [exact Hgrid |].
  refine (get_fill_counts 4 8 _ _ _ _ _ tombstoned_table Hwf Hdiv Hgrid);
    [lia | lia | lia | reflexivity | reflexivity].
Defined.

(** The fill before and after [upsert(8, 80)] on the table of seven keys. *)
Lemma upsert_moves_fill_witness :
  reachable 4 8 seven_keys ∧ user_key 8 ∧ (256 mod 4 = 0)%nat
  ∧ (n_buckets seven_keys * Z.of_nat 4 - 1) / 256 + 1 < 2 ^ 31
  ∧ upsert_replace 4 8 1 8 80 seven_keys = Some (true, full_table)
  ∧ ∃ q n, find_with_reference 4 8 8 seven_keys = Some (q, seven_keys)
           ∧ get_fill 4 8 seven_keys = Some (n, seven_keys)
           ∧ get_fill 4 8 full_table = Some (match q !! 0%nat with
                                             | Some None => n + 1
                                             | _ => n
                                             end, full_table).
Proof.
  assert (Hlive : user_key 8) by (apply user_keyb_user; reflexivity).
  assert (Hdiv : (256 mod 4 = 0)%nat) by reflexivity.
  assert (Hgrid : (n_buckets seven_keys * Z.of_nat 4 - 1) / 256 + 1 < 2 ^ 31)
    by (vm_compute; reflexivity).
  assert (Hrun : upsert_replace 4 8 1 8 80 seven_keys = Some (true, full_table))
    by (vm_compute; reflexivity).
  split; [exact seven_keys_reachable |]. split; [exact Hlive |]. split; [exact Hdiv |].
  split; [exact Hgrid |]. split; [exact Hrun |].
  refine (upsert_moves_fill 4 8 _ _ _ _ _ seven_keys 1 8 80 true full_table
            seven_keys_reachable Hlive Hdiv Hgrid Hrun);
    [lia | lia | lia | reflexivity | reflexivity].
Defined.

(** The fill before and after [remove(8)] on the full table. *)
Lemma remove_moves_fill_witness :
  reachable 4 8 full_table ∧ (256 mod 4 = 0)%nat
  ∧ (n_buckets full_table * Z.of_nat 4 - 1) / 256 + 1 < 2 ^ 31
  ∧ remove 4 8 1 8 full_table = Some (true, exec (remove 4 8 1 8) full_table)
  ∧ ∃ n, get_fill 4 8 full_table = Some (n, full_table)
         ∧ get_fill 4 8 (exec (remove 4 8 1 8) full_table)
           = Some (n - 1, exec (remove 4 8 1 8) full_table).
Proof.
  assert (Hdiv : (256 mod 4 = 0)%nat) by reflexivity.
  assert (Hgrid : (n_buckets full_table * Z.of_nat 4 - 1) / 256 + 1 < 2 ^ 31)
    by (vm_compute; reflexivity).
  assert (Hrun : remove 4 8 1 8 full_table = Some (true, exec (remove 4 8 1 8) full_table))
    by (vm_compute; reflexivity).
  split; [exact full_table_reachable |]. split; [exact Hdiv |].
  split; [exact Hgrid |]. split; [exact Hrun |].
  refine (remove_moves_fill 4 8 _ _ _ _ _ full_table 1 8 true _
            full_table_reachable Hdiv Hgrid Hrun);
    [lia | lia | lia | reflexivity | reflexivity].
Defined.

(** The two loaders on bucket 0 of the table with five tombstones. *)
Lemma load_fill_ballots_agree_witness :
  wf 8 tombstoned_table ∧ (0 < n_of tombstoned_table)%nat
  ∧ ∃ masks, load_fill_ballots 4 8 0 13 tombstoned_table = Some (masks, tombstoned_table)
             ∧ load_fill_ballots_huge 4 8 0 13 tombstoned_table
               = Some (masks, tombstoned_table).
Proof.
  assert (Hwf : wf 8 tombstoned_table) by exact (sample_table_wf _ tombstoned_table_reachable).
  assert (Hb : (0 < n_of tombstoned_table)%nat) by (vm_compute; lia).
  split; [exact Hwf |]. split; [exact Hb |].
  refine (load_fill_ballots_agree 4 8 _ _ _ _ _ 0 13 tombstoned_table Hwf Hb);
    [lia | lia | lia | reflexivity | reflexivity].
Defined.

(** The three scans of bucket 0 of the full table for key 8. *)
Lemma bucket_queries_agree_witness :
  reachable 4 8 full_table ∧ user_key 8 ∧ (0 < n_of full_table)%nat
  ∧ ∃ r replies,
      query 4 8 0 8 full_table = Some (r, full_table)
      ∧ (masks <- load_fill_ballots_huge 4 8 0 8 ;;
         query_match 4 8 0 8 masks.2) full_table = Some (r, full_table)
      ∧ query_md_and_bucket_large 4 8 (seq 0 4) 0 8 full_table = Some (replies, full_table)
      ∧ match r with
        | Some v =>
            ∃ i, (i < 8)%nat ∧ pair_at full_table 0 i = Some (mk_pair 8 v)
                 ∧ replies = map (fun lane => (lane, if serves 4 8 i lane then Some v else None))
                                 (seq 0 4)
        | None => replies = map (fun lane => (lane, None)) (seq 0 4)
        end.
Proof.
  assert (Hlive : user_key 8) by (apply user_keyb_user; reflexivity).
  assert (Hb : (0 < n_of full_table)%nat) by (vm_compute; lia).
  split; [exact full_table_reachable |]. split; [exact Hlive |]. split; [exact Hb |].
  refine (bucket_queries_agree 4 8 _ _ _ _ _ 0 8 full_table full_table_reachable Hlive Hb);
    [lia | lia | lia | reflexivity | reflexivity].
Defined.

(** Key 8 erased from bucket 0 of the full table. *)
Lemma erase_agrees_witness :
  reachable 4 8 full_table ∧ user_key 8 ∧ (0 < n_of full_table)%nat
  ∧ ∃ r t', erase 4 8 0 8 full_table = Some (r, t')
            ∧ (masks <- load_fill_ballots_huge 4 8 0 8 ;;
               erase_reference 4 8 0 8 masks.2) full_table = Some (r, t')
            ∧ match r with
              | Some i =>
                  ∃ v, (i < 8)%nat ∧ pair_at full_table 0 i = Some (mk_pair 8 v)
                       ∧ t' = set_pair 0 i (mk_pair tombstoneKey v) full_table
              | None =>
                  t' = full_table ∧ ∀ i, (i < 8)%nat → key_at full_table 0 i ≠ Some 8
              end.
Proof.
  assert (Hlive : user_key 8) by (apply user_keyb_user; reflexivity).
  assert (Hb : (0 < n_of full_table)%nat) by (vm_compute; lia).
  split; [exact full_table_reachable |]. split; [exact Hlive |]. split; [exact Hb |].
  refine (erase_agrees 4 8 _ _ _ _ _ 0 8 full_table full_table_reachable Hlive Hb);
    [lia | lia | lia | reflexivity | reflexivity].
Defined.

(** [upsert_function] for key 1, which sits in slot 0 of bucket 0, with the
    callback that stores the value. *)
Lemma upsert_function_calls_back_witness :
  reachable 4 8 one_key ∧ user_key 1
  ∧ (∀ (b i : nat) (k' v' : Z), lock_blind (ht_store_val b i v'))
  ∧ upsert_function 4 8 (fun b i _ v' => ht_store_val b i v') 1 1 11 one_key
    = (ht_store_val 0 0 11 ;;; ret true) one_key.
Proof.
  assert (Hlive : user_key 1) by (apply user_keyb_user; reflexivity).
  assert (Hblind : ∀ (b i : nat) (k' v' : Z), lock_blind (ht_store_val b i v'))
    by (intros b i _ v'; apply lock_blind_store_val).
  split; [exact one_key_reachable |]. split; [exact Hlive |]. split; [exact Hblind |].
  refine (proj1 (upsert_function_calls_back 4 8 _ _ _ _ _
                   (fun b i _ v' => ht_store_val b i v') 0 1 11 one_key
                   one_key_reachable Hlive Hblind)
            0%nat 0%nat (mk_pair 1 10) _ _ _ _ _);
    [lia | lia | lia | reflexivity | reflexivity
     | vm_compute; lia | lia | vm_compute; reflexivity | reflexivity |].
  intros [Hfull _]. apply (proj1 (Hfull 1%nat ltac:(lia))). vm_compute. reflexivity.
Defined.

(** [match_tombstone] on bucket 0 of the table with five tombstones. *)
Lemma match_claims_free_slot_witness :
  wf 8 tombstoned_table ∧ (0 < n_of tombstoned_table)%nat
  ∧ ∃ r t', match_tombstone 4 8 0 13 31 tombstoned_table = Some (r, t')
            ∧ match r with
              | Some i =>
                  (i < 8)%nat ∧ mask_bit 31 i = true
                  ∧ tag_at tombstoned_table 0 i = Some tombstone_tag
                  ∧ t' = set_tag 0 i (get_tag 13) tombstoned_table
              | None =>
                  t' = tombstoned_table
                  ∧ ∀ i, (i < 8)%nat → mask_bit 31 i = true →
                         tag_at tombstoned_table 0 i ≠ Some tombstone_tag
              end.
Proof.
  assert (Hwf : wf 8 tombstoned_table) by exact (sample_table_wf _ tombstoned_table_reachable).
  assert (Hb : (0 < n_of tombstoned_table)%nat) by (vm_compute; lia).
  split; [exact Hwf |]. split; [exact Hb |].
  refine (proj2 (match_claims_free_slot 4 8 _ _ _ 0 13 31 tombstoned_table Hwf Hb));
    [lia | lia | lia].
Defined.

(** Key 13 on the table with five tombstones: bucket 0 holds one key and
    bucket 1 none, so the pair goes to bucket 1. *)
Lemma upsert_picks_emptier_bucket_witness :
  reachable 4 8 tombstoned_table ∧ user_key 13
  ∧ (∀ b i, (b < n_of tombstoned_table)%nat → (i < 8)%nat →
            key_at tombstoned_table b i ≠ Some 13)
  ∧ 3 * Z.of_nat 8 ≤ 4 * Z.of_nat (non_empty_tags 8 tombstoned_table
                                      (first_bucket tombstoned_table 13))
  ∧ ¬ (bucket_full 8 tombstoned_table (first_bucket tombstoned_table 13)
       ∧ bucket_full 8 tombstoned_table (second_bucket tombstoned_table 13))
  ∧ (occupancy 8 tombstoned_table (first_bucket tombstoned_table 13)
     <=? occupancy 8 tombstoned_table (second_bucket tombstoned_table 13))%nat = false
  ∧ let b := if (occupancy 8 tombstoned_table (first_bucket tombstoned_table 13)
                 <=? occupancy 8 tombstoned_table (second_bucket tombstoned_table 13))%nat
             then first_bucket tombstoned_table 13 else second_bucket tombstoned_table 13 in
    ∃ i free_tag,
      (i < 8)%nat ∧ tag_at tombstoned_table b i = Some free_tag
      ∧ (free_tag = tombstone_tag ∨ free_tag = empty_tag)
      ∧ upsert_replace 4 8 1 13 130 tombstoned_table
        = Some (true, set_pair b i (mk_pair 13 130)
                        (set_tag b i (get_tag 13) tombstoned_table)).
Proof.
  assert (Hlive : user_key 13) by (apply user_keyb_user; reflexivity).
  assert (Habsent : ∀ b i, (b < n_of tombstoned_table)%nat → (i < 8)%nat →
                           key_at tombstoned_table b i ≠ Some 13).
  { assert (n_of tombstoned_table = 2%nat) as E by (vm_compute; reflexivity).
    intros b i Hb Hi. rewrite E in Hb.
    destruct b as [| [| b]]; [| | lia];
      (destruct i as [| [| [| [| [| [| [| [| i]]]]]]]]; [.. | lia]; vm_compute; discriminate). }
  assert (Hcut : 3 * Z.of_nat 8 ≤ 4 * Z.of_nat (non_empty_tags 8 tombstoned_table
                                                  (first_bucket tombstoned_table 13)))
    by (vm_compute; discriminate).
  assert (Hroom : ¬ (bucket_full 8 tombstoned_table (first_bucket tombstoned_table 13)
                     ∧ bucket_full 8 tombstoned_table (second_bucket tombstoned_table 13))).
  { intros [_ Hfull]. apply (proj1 (Hfull 0%nat ltac:(lia))). vm_compute. reflexivity. }
  split; [exact tombstoned_table_reachable |]. split; [exact Hlive |].
  split; [exact Habsent |]. split; [exact Hcut |]. split; [exact Hroom |].
  split; [vm_compute; reflexivity |].
  refine (upsert_picks_emptier_bucket 4 8 _ _ _ _ _ tombstoned_table 0 13 130
            tombstoned_table_reachable Hlive Habsent Hcut Hroom);
    [lia | lia | lia | reflexivity | reflexivity].
Defined.

(** Key 8 removed from the full table, twice. *)
Lemma remove_twice_witness :
  reachable 4 8 full_table ∧ user_key 8
  ∧ remove 4 8 1 8 full_table = Some (true, exec (remove 4 8 1 8) full_table)
  ∧ remove 4 8 1 8 (exec (remove 4 8 1 8) full_table)
    = Some (false, exec (remove 4 8 1 8) full_table).
Proof.
  assert (Hlive : user_key 8) by (apply user_keyb_user; reflexivity).
  assert (Hrun : remove 4 8 1 8 full_table = Some (true, exec (remove 4 8 1 8) full_table))
    by (vm_compute; reflexivity).
  split; [exact full_table_reachable |]. split; [exact Hlive |]. split; [exact Hrun |].
  refine (remove_twice 4 8 _ _ _ _ _ full_table 1 0 8 true _
            full_table_reachable Hlive Hrun);
    [lia | lia | lia | reflexivity | reflexivity].
Defined.

(** With the lock of key 13 (bucket 0) held, key 7 (bucket 1) is upserted. *)
Lemma operations_pass_other_locks_witness :
  wf 8 tombstoned_table ∧ locks_free tombstoned_table
  ∧ first_bucket tombstoned_table 7 ≠ first_bucket tombstoned_table 13
  ∧ ∃ t1, lock_key 1 13 tombstoned_table = Some (tt, t1)
          ∧ lock_held t1 0
          ∧ (∃ r t', upsert_replace 4 8 1 7 70 tombstoned_table = Some (r, t')
                     ∧ ∃ t1', upsert_replace 4 8 1 7 70 t1 = Some (r, t1')
                              ∧ lock_held t1' 0
                              ∧ (∀ b', 0 ≤ b' < n_buckets tombstoned_table → b' ≠ 0 →
                                       ¬ lock_held t1' b')
                              ∧ unlock_key 13 t1' = Some (tt, t'))
          ∧ (∀ k, ∃ q, find_with_reference 4 8 k tombstoned_table = Some (q, tombstoned_table)
                       ∧ find_with_reference 4 8 k t1 = Some (q, t1)).
Proof.
  assert (Hwf : wf 8 tombstoned_table) by exact (sample_table_wf _ tombstoned_table_reachable).
  assert (Hlocks : locks_free tombstoned_table)
    by exact (sample_table_locks_free _ tombstoned_table_reachable).
  assert (Hother : first_bucket tombstoned_table 7 ≠ first_bucket tombstoned_table 13)
    by (vm_compute; discriminate).
  split; [exact Hwf |]. split; [exact Hlocks |]. split; [exact Hother |].
  pose proof (operations_pass_other_locks 4 8 ltac:(lia) ltac:(lia) ltac:(lia) eq_refl eq_refl
                0 0 13 7 70 tombstoned_table Hwf Hlocks Hother) as H.
  cbv zeta in H. destruct H as (t1 & Hlock & Hheld & Hupsert & _ & Hfind).
  exists t1. split; [exact Hlock |]. split; [exact Hheld |].
  split; [exact Hupsert | exact Hfind].
Defined.

(** [upsert_existing] on bucket 0 of the full table, with every slot in the
    mask. *)
Lemma bucket_writes_only_matching_slots_witness :
  wf 8 full_table ∧ (0 < n_of full_table)%nat
  ∧ ∃ r t', upsert_existing 4 8 0 8 81 255 full_table = Some (r, t')
            ∧ (∀ x j, tag_at t' x j = tag_at full_table x j)
            ∧ match r with
              | Some _ =>
                  ∃ i p, (i < 8)%nat ∧ mask_bit 255 i = true
                         ∧ pair_at full_table 0 i = Some p ∧ key p = 8
                         ∧ t' = set_pair 0 i (mk_pair 8 81) full_table
              | None =>
                  t' = full_table
                  ∧ ∀ i p, (i < 8)%nat → mask_bit 255 i = true →
                           pair_at full_table 0 i = Some p → key p ≠ 8
              end.
Proof.
  assert (Hwf : wf 8 full_table) by exact (sample_table_wf _ full_table_reachable).
  assert (Hb : (0 < n_of full_table)%nat) by (vm_compute; lia).
  split; [exact Hwf |]. split; [exact Hb |].
  refine (proj1 (bucket_writes_only_matching_slots 4 8 _ _ _ 0 8 81 255 full_table Hwf Hb));
    [lia | lia | lia].
Defined.

(** Key 8 removed from the full table, queried and upserted again. *)
Lemma remove_then_query_then_upsert_witness :
  reachable 4 8 full_table ∧ user_key 8
  ∧ remove 4 8 1 8 full_table = Some (true, exec (remove 4 8 1 8) full_table)
  ∧ find_with_reference 4 8 8 (exec (remove 4 8 1 8) full_table)
    = Some (no_replies 4, exec (remove 4 8 1 8) full_table)
  ∧ ∃ t2 b i, upsert_replace 4 8 1 8 81 (exec (remove 4 8 1 8) full_table) = Some (true, t2)
              ∧ (b = first_bucket t2 8 ∨ b = second_bucket t2 8) ∧ (i < 8)%nat
              ∧ pair_at t2 b i = Some (mk_pair 8 81)
              ∧ find_with_reference 4 8 8 t2 = Some (lane_replies 4 8 i 81, t2).
Proof.
  assert (Hreach : reachable 4 8 full_table) by exact full_table_reachable.
  assert (Hlive : user_key 8) by (apply user_keyb_user; reflexivity).
  assert (Hrun : remove 4 8 1 8 full_table = Some (true, exec (remove 4 8 1 8) full_table))
    by (vm_compute; reflexivity).
  split; [exact Hreach |]. split; [exact Hlive |]. split; [exact Hrun |].
  refine (remove_then_query_then_upsert 4 8 _ _ _ _ _ full_table 1 0 8 81 _
            Hreach Hlive Hrun);
    [lia | lia | lia | reflexivity | reflexivity].
Defined.

(** Key 13 on the table with five tombstones: bucket 0 is at the cutoff and
    holds more live tags than bucket 1, which has no tombstone, so the
    pair goes to the lowest empty slot of bucket 1. *)
Lemma upsert_claims_lowest_slot_witness :
  reachable 4 8 tombstoned_table
  ∧ (∀ b i, (b < n_of tombstoned_table)%nat → (i < 8)%nat →
            key_at tombstoned_table b i ≠ Some 13)
  ∧ ¬ (bucket_full 8 tombstoned_table (first_bucket tombstoned_table 13)
       ∧ bucket_full 8 tombstoned_table (second_bucket tombstoned_table 13))
  ∧ picked_bucket 8 tombstoned_table (first_bucket tombstoned_table 13)
      (second_bucket tombstoned_table 13) = 1%nat
  ∧ ∃ i, claimed_slot 8 tombstoned_table 1 i
         ∧ upsert_replace 4 8 1 13 130 tombstoned_table
           = Some (true, set_pair 1 i (mk_pair 13 130)
                           (set_tag 1 i (get_tag 13) tombstoned_table)).
Proof.
  assert (Habsent : ∀ b i, (b < n_of tombstoned_table)%nat → (i < 8)%nat →
                           key_at tombstoned_table b i ≠ Some 13).
  { assert (n_of tombstoned_table = 2%nat) as E by (vm_compute; reflexivity).
    intros b i Hb Hi. rewrite E in Hb.
    destruct b as [| [| b]]; [| | lia];
      (destruct i as [| [| [| [| [| [| [| [| i]]]]]]]]; [.. | lia]; vm_compute; discriminate). }
  assert (Hroom : ¬ (bucket_full 8 tombstoned_table (first_bucket tombstoned_table 13)
                     ∧ bucket_full 8 tombstoned_table (second_bucket tombstoned_table 13))).
  { intros [_ Hfull]. apply (proj1 (Hfull 0%nat ltac:(lia))). vm_compute. reflexivity. }
  assert (Hpick : picked_bucket 8 tombstoned_table (first_bucket tombstoned_table 13)
                    (second_bucket tombstoned_table 13) = 1%nat) by (vm_compute; reflexivity).
  split; [exact tombstoned_table_reachable |]. split; [exact Habsent |].
  split; [exact Hroom |]. split; [exact Hpick |].
  pose proof (upsert_claims_lowest_slot 4 8 ltac:(lia) ltac:(lia) ltac:(lia) eq_refl eq_refl
                tombstoned_table 0 13 130 tombstoned_table_reachable Habsent Hroom) as H.
  cbv zeta in H. rewrite Hpick in H. exact H.
Defined.

(** The replies to a query for key 8 on the full table. *)
Lemma find_with_reference_replies_witness :
  reachable 4 8 full_table ∧ user_key 8
  ∧ ((∃ b i v, (b = first_bucket full_table 8 ∨ b = second_bucket full_table 8)
               ∧ (i < 8)%nat ∧ pair_at full_table b i = Some (mk_pair 8 v)
               ∧ find_with_reference 4 8 8 full_table = Some (lane_replies 4 8 i v, full_table)
               ∧ serves 4 8 i 0 = true)
     ∨ ((∀ b i, (b < n_of full_table)%nat → (i < 8)%nat → key_at full_table b i ≠ Some 8)
        ∧ find_with_reference 4 8 8 full_table = Some (no_replies 4, full_table))).
Proof.
  assert (Hlive : user_key 8) by (apply user_keyb_user; reflexivity).
  split; [exact full_table_reachable |]. split; [exact Hlive |].
  refine (find_with_reference_replies 4 8 _ _ _ _ _ 8 full_table full_table_reachable Hlive);
    [lia | lia | lia | reflexivity | reflexivity].
Defined.
